(** * Cipher sandbox: the hand-built engines (TEA, XTEA, Salsa20, ChaCha20),
      their block-mode wrapper, the engine facades and the registry.

    The development follows the TypeScript/JavaScript sources:
    - [src/crypto/engines/tea.ts], [xtea.ts], [salsa20.ts],
    - the ChaCha20 engine (class [ChaCha20] and [ChaCha20Engine]),
    - [src/lib/crypto-utils.ts] ([isValidHex], [validateKeyLength]),
    - the registry ([CipherRegistry]).

    JavaScript numbers are modelled by [Z]: every intermediate value of the
    code stays far below 2^53, so the double arithmetic of the source is
    exact.  The 32-bit operators ([<<], [>>>], [^], [|], [&]) are written out
    with their wrap-around. *)

From Stdlib Require Import ZArith QArith Qround Lia List String Ascii.
From stdpp Require Import base option list gmap.
Import ListNotations.

Local Open Scope Z_scope.

(** ** JavaScript 32-bit integer operators *)

Module JS.

  (** [x .>>> 0] *)
Definition ToUint32 (x : Z) : Z := x mod 2 ^ 32.

  (** the conversion applied to the operands of [<<], [^], [|], [&] *)
Definition ToInt32 (x : Z) : Z := (x + 2 ^ 31) mod 2 ^ 32 - 2 ^ 31.

  (** [a .<< n] *)
Definition shl (a n : Z) : Z := ToInt32 (ToInt32 a * 2 ^ (n mod 32)).

  (** [a .>>> n] *)
Definition shru (a n : Z) : Z := ToUint32 a / 2 ^ (n mod 32).

  (** [a ^ b] *)
Definition bxor (a b : Z) : Z := Z.lxor (ToInt32 a) (ToInt32 b).

  (** [a | b] *)
Definition bor (a b : Z) : Z := Z.lor (ToInt32 a) (ToInt32 b).

  (** [a & b] *)
Definition band (a b : Z) : Z := Z.land (ToInt32 a) (ToInt32 b).

  (** [arr[i] || 0] and [arr[i]] used as an operand of a bitwise operator:
      an index outside the array reads [undefined], which both turn into 0. *)
Definition at0 (arr : list Z) (i : nat) : Z := default 0 (arr !! i).

End JS.

Declare Scope js_scope.
Delimit Scope js_scope with js.
(** All five are declared at the level of [*] and are always written with
    explicit parentheses, placed where the JavaScript grammar places them. *)
Infix ".<<" := JS.shl (at level 40, left associativity) : js_scope.
Infix ".>>>" := JS.shru (at level 40, left associativity) : js_scope.
Infix ".^" := JS.bxor (at level 40, left associativity) : js_scope.
Infix ".|" := JS.bor (at level 40, left associativity) : js_scope.
Infix ".&" := JS.band (at level 40, left associativity) : js_scope.
Local Open Scope js_scope.

(** ** CryptoJS word arrays

    [CryptoJS.lib.WordArray]: an array of 32-bit words read most significant
    byte first, and the number of significant bytes.  [sigBytes] is a
    JavaScript number: [Hex.parse] sets it to [hexStr.length / 2], which is
    a half-integer for a string of odd length, hence [Q]. *)

Record WordArray := mkWordArray { words : list Z; sigBytes : Q }.

Definition WordArray_create (ws : list Z) (n : Q) : WordArray :=
  mkWordArray ws n.

(** ** JavaScript strings and exceptions

    A JavaScript string is a sequence of UTF-16 code units.  [js "..."]
    writes a literal of 8-bit characters. *)

Abbreviation jsstring := (list Z) (only parsing).

Definition js (s : string) : jsstring :=
  map (fun a => Z.of_N (N_of_ascii a)) (list_ascii_of_string s).

(** [!s] for a string: the empty string is the only falsy one. *)
Definition is_empty (s : jsstring) : bool :=
  match s with [] => true | _ => false end.

(** [x ? .. : ..] and [!x] for an optional string parameter ([iv?], [nonce?]):
    [undefined] and the empty string are falsy. *)
Definition truthy (o : option jsstring) : bool :=
  match o with Some (_ :: _) => true | _ => false end.

(** What a [throw] carries: an [Error] object with its message, or any other
    value (the [catch] blocks test [error instanceof Error]). *)
Inductive js_exn :=
| ErrorObj (message : jsstring)
| OtherThrown.

(** A computation that returns or throws. *)
Inductive outcome (A : Type) :=
| Ok (a : A)
| Throw (e : js_exn).
Arguments Ok {A} a.
Arguments Throw {A} e.

#[global] Instance outcome_ret : MRet outcome := fun A a => Ok a.
#[global] Instance outcome_bind : MBind outcome := fun A B k m =>
  match m with Ok a => k a | Throw e => Throw e end.

(** [try { body } catch (error) { handler }] *)
Definition try_catch {A} (body : outcome A) (handler : js_exn -> outcome A) : outcome A :=
  match body with Ok a => Ok a | Throw e => handler e end.

(** [throw new Error(msg)] *)
Definition throw_Error {A} (msg : jsstring) : outcome A := Throw (ErrorObj msg).

(** [error instanceof Error ? error.message : fallback] *)
Definition message_or (e : js_exn) (fallback : jsstring) : jsstring :=
  match e with ErrorObj m => m | OtherThrown => fallback end.

(** *** Arrays *)

(** [arr[i] = v] on a JavaScript array: inside the array it replaces the
    element, at or past the end it extends the array (the holes read
    [undefined], which the bitwise operators of the callers turn into 0). *)
Definition array_set (arr : list Z) (i : nat) (v : Z) : list Z :=
  if (i <? length arr)%nat then <[i := v]> arr
  else arr ++ repeat 0 (i - length arr) ++ [v].

(** [arr[i] = v] on a typed array: a write outside the array is ignored. *)
Definition typed_set (arr : list Z) (i : nat) (v : Z) : list Z := <[i := v]> arr.

(** *** [parseInt(s, 16)]

    Leading white space is skipped, one sign is accepted, then an optional
    [0x] / [0X] prefix, then the longest run of hexadecimal digits; the
    result is [NaN] ([None]) when that run is empty. *)

Definition is_js_whitespace (c : Z) : bool :=
  (c =? 0x09) || (c =? 0x0A) || (c =? 0x0B) || (c =? 0x0C) || (c =? 0x0D)
  || (c =? 0x20) || (c =? 0xA0) || (c =? 0x1680)
  || ((0x2000 <=? c) && (c <=? 0x200A))
  || (c =? 0x2028) || (c =? 0x2029) || (c =? 0x202F) || (c =? 0x205F)
  || (c =? 0x3000) || (c =? 0xFEFF).

Definition hex_digit_value (c : Z) : option Z :=
  if (0x30 <=? c) && (c <=? 0x39) then Some (c - 0x30)
  else if (0x61 <=? c) && (c <=? 0x66) then Some (c - 0x61 + 10)
  else if (0x41 <=? c) && (c <=? 0x46) then Some (c - 0x41 + 10)
  else None.

Fixpoint skip_whitespace (s : jsstring) : jsstring :=
  match s with
  | c :: rest => if is_js_whitespace c then skip_whitespace rest else s
  | [] => []
  end.

(** the value of the longest prefix of hexadecimal digits, [None] if empty *)
Fixpoint hex_digits_value (acc : option Z) (s : jsstring) : option Z :=
  match s with
  | c :: rest =>
      match hex_digit_value c with
      | Some d => hex_digits_value (Some (default 0 acc * 16 + d)) rest
      | None => acc
      end
  | [] => acc
  end.

Definition parseInt16 (s : jsstring) : option Z :=
  let s := skip_whitespace s in
  let '(sign, s) :=
    match s with
    | c :: rest => if c =? 0x2D then (-1, rest)
                   else if c =? 0x2B then (1, rest) else (1, s)
    | [] => (1, s)
    end in
  let s :=
    match s with
    | c0 :: c1 :: rest =>
        if (c0 =? 0x30) && ((c1 =? 0x78) || (c1 =? 0x58)) then rest else s
    | _ => s
    end in
  (fun v => sign * v) <$> hex_digits_value None s.

(** a number used as an operand of a 32-bit operator or stored in an integer
    typed array: [NaN] becomes 0 *)
Definition nan0 (x : option Z) : Z := default 0 x.

(** [n.toString(16)] for a digit [0 <= n < 16] *)
Definition hex_digit (n : Z) : Z :=
  if n <? 10 then 0x30 + n else 0x61 + (n - 10).

(** [hexStr.substr(i, 2)] *)
Definition substr2 (s : jsstring) (i : nat) : jsstring := take 2 (drop i s).

(** ** UTF-8

    The text codecs are the built-ins of the platform; they are modelled on
    code units and bytes. *)

Module Utf8Codec.

Definition is_high_surrogate (c : Z) : bool := (0xD800 <=? c) && (c <=? 0xDBFF).
Definition is_low_surrogate (c : Z) : bool := (0xDC00 <=? c) && (c <=? 0xDFFF).

  (** the UTF-8 octets of a code point *)
Definition encode_code_point (cp : Z) : list Z :=
    if cp <? 0x80 then [cp]
    else if cp <? 0x800 then [0xC0 + cp / 64; 0x80 + cp mod 64]
    else if cp <? 0x10000 then
      [0xE0 + cp / 4096; 0x80 + (cp / 64) mod 64; 0x80 + cp mod 64]
    else
      [0xF0 + cp / 262144; 0x80 + (cp / 4096) mod 64;
       0x80 + (cp / 64) mod 64; 0x80 + cp mod 64].

  (** the UTF-16 code units of a code point *)
Definition utf16_of_code_point (cp : Z) : jsstring :=
    if cp <? 0x10000 then [cp]
    else [0xD800 + (cp - 0x10000) / 0x400; 0xDC00 + (cp - 0x10000) mod 0x400].

Definition pair_code_point (hi lo : Z) : Z :=
    (hi - 0xD800) * 0x400 + (lo - 0xDC00) + 0x10000.

  (** [unescape(encodeURIComponent(str))]: the UTF-8 octets of the string,
      one character per octet; [encodeURIComponent] throws a [URIError] on
      an unpaired surrogate. *)
Definition URIError_message : jsstring := js "URI malformed".

Fixpoint encode_strict (s : jsstring) : outcome (list Z) :=
    match s with
    | [] => Ok []
    | c :: rest =>
        if is_low_surrogate c then throw_Error URIError_message
        else if is_high_surrogate c then
          match rest with
          | c' :: rest' =>
              if is_low_surrogate c' then
                bs ← encode_strict rest';
                Ok (encode_code_point (pair_code_point c c') ++ bs)
              else throw_Error URIError_message
          | [] => throw_Error URIError_message
          end
        else
          bs ← encode_strict rest;
          Ok (encode_code_point c ++ bs)
    end.

Definition is_continuation (b : Z) : bool := (0x80 <=? b) && (b <=? 0xBF).

  (** [decodeURIComponent(escape(latin1))]: strict UTF-8 decoding of the
      octets; [None] stands for the [URIError] it throws on octets that are
      not a valid UTF-8 encoding. *)
Fixpoint decode_strict (bs : list Z) : option jsstring :=
    match bs with
    | [] => Some []
    | b0 :: r0 =>
        if b0 <? 0x80 then (fun s => b0 :: s) <$> decode_strict r0
        else if b0 <? 0xC0 then None
        else if b0 <? 0xE0 then
          match r0 with
          | b1 :: r1 =>
              let cp := (b0 - 0xC0) * 64 + (b1 - 0x80) in
              if is_continuation b1 && (0x80 <=? cp)
              then (fun s => utf16_of_code_point cp ++ s) <$> decode_strict r1
              else None
          | _ => None
          end
        else if b0 <? 0xF0 then
          match r0 with
          | b1 :: b2 :: r2 =>
              let cp := (b0 - 0xE0) * 4096 + (b1 - 0x80) * 64 + (b2 - 0x80) in
              if is_continuation b1 && is_continuation b2 && (0x800 <=? cp)
                 && negb ((0xD800 <=? cp) && (cp <=? 0xDFFF))
              then (fun s => utf16_of_code_point cp ++ s) <$> decode_strict r2
              else None
          | _ => None
          end
        else if b0 <? 0xF8 then
          match r0 with
          | b1 :: b2 :: b3 :: r3 =>
              let cp := (b0 - 0xF0) * 262144 + (b1 - 0x80) * 4096
                        + (b2 - 0x80) * 64 + (b3 - 0x80) in
              if is_continuation b1 && is_continuation b2 && is_continuation b3
                 && (0x10000 <=? cp) && (cp <=? 0x10FFFF)
              then (fun s => utf16_of_code_point cp ++ s) <$> decode_strict r3
              else None
          | _ => None
          end
        else None
    end.

  (** [new TextEncoder().encode(str)]: never throws; an unpaired surrogate
      is encoded as U+FFFD. *)
Fixpoint TextEncoder_encode (s : jsstring) : list Z :=
    match s with
    | [] => []
    | c :: rest =>
        if is_low_surrogate c then encode_code_point 0xFFFD ++ TextEncoder_encode rest
        else if is_high_surrogate c then
          match rest with
          | c' :: rest' =>
              if is_low_surrogate c' then
                encode_code_point (pair_code_point c c') ++ TextEncoder_encode rest'
              else encode_code_point 0xFFFD ++ TextEncoder_encode rest
          | [] => encode_code_point 0xFFFD
          end
        else encode_code_point c ++ TextEncoder_encode rest
    end.

  (** [new TextDecoder().decode(bytes)]: the UTF-8 decoder of the Encoding
      standard with replacement (never throws).  The state is the code point
      under construction, the number of continuation bytes still needed and
      the bounds of the next continuation byte. *)
Record decoder_state := mkDecoder
    { code_point : Z; bytes_needed : nat; lower : Z; upper : Z }.

Definition decoder_init : decoder_state := mkDecoder 0 0 0x80 0xBF.

  (** a byte read while no sequence is open: the emitted code units and the
      new state *)
Definition decoder_lead (b : Z) : jsstring * decoder_state :=
    if b <? 0x80 then ([b], decoder_init)
    else if (0xC2 <=? b) && (b <=? 0xDF) then ([], mkDecoder (b .& 0x1F) 1 0x80 0xBF)
    else if (0xE0 <=? b) && (b <=? 0xEF) then
      ([], mkDecoder (b .& 0xF) 2 (if b =? 0xE0 then 0xA0 else 0x80)
                                  (if b =? 0xED then 0x9F else 0xBF))
    else if (0xF0 <=? b) && (b <=? 0xF4) then
      ([], mkDecoder (b .& 0x7) 3 (if b =? 0xF0 then 0x90 else 0x80)
                                  (if b =? 0xF4 then 0x8F else 0xBF))
    else ([0xFFFD], decoder_init).

Definition decoder_step (st : decoder_state) (b : Z) : jsstring * decoder_state :=
    match bytes_needed st with
    | O => decoder_lead b
    | S n =>
        if (b <? lower st) || (upper st <? b) then
          (* the byte is put back and read again with a fresh state *)
          let '(out, st') := decoder_lead b in (0xFFFD :: out, st')
        else
          let cp := (code_point st .<< 6) .| (b .& 0x3F) in
          match n with
          | O => (utf16_of_code_point cp, decoder_init)
          | S _ => ([], mkDecoder cp n 0x80 0xBF)
          end
    end.

Fixpoint decoder_run (st : decoder_state) (bs : list Z) : jsstring :=
    match bs with
    | [] => match bytes_needed st with O => [] | S _ => [0xFFFD] end
    | b :: rest =>
        let '(out, st') := decoder_step st b in out ++ decoder_run st' rest
    end.

  (** the byte order mark is dropped (the decoder is created without
      [ignoreBOM]) *)
Definition TextDecoder_decode (bs : list Z) : jsstring :=
    match bs with
    | 0xEF :: 0xBB :: 0xBF :: rest => decoder_run decoder_init rest
    | _ => decoder_run decoder_init bs
    end.

End Utf8Codec.

(** ** CryptoJS: encoders and the random source *)

Module CryptoJS.

  (** the byte at index [i] of a word array, as [Hex.stringify] and
      [Latin1.stringify] read it:
      [(words[i >>> 2] >>> (24 - (i % 4) * 8)) & 0xff] *)
Definition byte_at (ws : list Z) (i : nat) : Z :=
    ((JS.at0 ws (i / 4)) .>>> (24 - Z.of_nat (i mod 4) * 8)) .& 0xff.

  (** the number of iterations of [for (i = 0; i < sigBytes; i++)] *)
Definition loop_count (n : Q) : nat := Z.to_nat (Qceiling n).

  (** [Latin1.stringify]: one character per significant byte *)
Definition Latin1_stringify (wa : WordArray) : jsstring :=
    map (byte_at (words wa)) (seq 0 (loop_count (sigBytes wa))).

  (** [Hex.stringify] *)
Definition Hex_stringify (wa : WordArray) : jsstring :=
    flat_map (fun i => let bite := byte_at (words wa) i in
                       [hex_digit (bite .>>> 4); hex_digit (bite .& 0x0f)])
             (seq 0 (loop_count (sigBytes wa))).

  (** the body of the loop of [Hex.parse]:
      [words[i >>> 3] |= parseInt(hexStr.substr(i, 2), 16) << (24 - (i % 8) * 4)] *)
Definition Hex_parse_step (hexStr : jsstring) (ws : list Z) (i : nat) : list Z :=
    array_set ws (i / 8)
      ((JS.at0 ws (i / 8))
         .| (nan0 (parseInt16 (substr2 hexStr i)) .<< (24 - Z.of_nat (i mod 8) * 4))).

  (** [Hex.parse]: [i] runs over 0, 2, 4, ... below the length *)
Definition Hex_parse (hexStr : jsstring) : WordArray :=
    let n := length hexStr in
    let idx := map (fun j => (2 * j)%nat) (seq 0 ((n + 1) / 2)) in
    WordArray_create (fold_left (Hex_parse_step hexStr) idx [])
                     (Z.of_nat n # 2).

  (** the body of the loop of [Latin1.parse]:
      [words[i >>> 2] |= (latin1Str.charCodeAt(i) & 0xff) << (24 - (i % 4) * 8)] *)
Definition Latin1_parse_step (latin1Str : jsstring) (ws : list Z) (i : nat) : list Z :=
    array_set ws (i / 4)
      ((JS.at0 ws (i / 4))
         .| ((JS.at0 latin1Str i .& 0xff) .<< (24 - Z.of_nat (i mod 4) * 8))).

Definition Latin1_parse (latin1Str : jsstring) : WordArray :=
    let n := length latin1Str in
    WordArray_create (fold_left (Latin1_parse_step latin1Str) (seq 0 n) [])
                     (inject_Z (Z.of_nat n)).

  (** [Utf8.parse(str) = Latin1.parse(unescape(encodeURIComponent(str)))] *)
Definition Utf8_parse (str : jsstring) : outcome WordArray :=
    bs ← Utf8Codec.encode_strict str; Ok (Latin1_parse bs).

  (** [Utf8.stringify]: [decodeURIComponent(escape(Latin1.stringify(wa)))],
      any failure rethrown as [Error('Malformed UTF-8 data')] *)
Definition Utf8_stringify (wa : WordArray) : outcome jsstring :=
    match Utf8Codec.decode_strict (Latin1_stringify wa) with
    | Some s => Ok s
    | None => throw_Error (js "Malformed UTF-8 data")
    end.

End CryptoJS.

(** ** Feistel core: TEA ([tea.ts]) *)

Module TeaCore.

Definition TEA_ROUNDS : nat := 32.
Definition TEA_DELTA : Z := 0x9e3779b9.

Section Rounds.
Variables k0 k1 k2 k3 : Z.

    (** one iteration of the loop of [encryptBlock], on [(v0, v1, sum)] *)
Definition enc_round (s : Z * Z * Z) : Z * Z * Z :=
      let '(v0, v1, sum) := s in
      let sum := JS.ToUint32 (sum + TEA_DELTA) in
      let v0 := JS.ToUint32
        (v0 + ((((v1 .<< 4) + k0) .^ (v1 + sum)) .^ ((v1 .>>> 5) + k1))) in
      let v1 := JS.ToUint32
        (v1 + ((((v0 .<< 4) + k2) .^ (v0 + sum)) .^ ((v0 .>>> 5) + k3))) in
      (v0, v1, sum).

    (** one iteration of the loop of [decryptBlock] *)
Definition dec_round (s : Z * Z * Z) : Z * Z * Z :=
      let '(v0, v1, sum) := s in
      let v1 := JS.ToUint32
        (v1 - ((((v0 .<< 4) + k2) .^ (v0 + sum)) .^ ((v0 .>>> 5) + k3))) in
      let v0 := JS.ToUint32
        (v0 - ((((v1 .<< 4) + k0) .^ (v1 + sum)) .^ ((v1 .>>> 5) + k1))) in
      let sum := JS.ToUint32 (sum - TEA_DELTA) in
      (v0, v1, sum).
End Rounds.

Definition encryptBlock (block key : WordArray) : WordArray :=
    let v0 := JS.at0 (words block) 0 in
    let v1 := JS.at0 (words block) 1 in
    let k0 := JS.at0 (words key) 0 in
    let k1 := JS.at0 (words key) 1 in
    let k2 := JS.at0 (words key) 2 in
    let k3 := JS.at0 (words key) 3 in
    let '(v0, v1, _) := Nat.iter TEA_ROUNDS (enc_round k0 k1 k2 k3) (v0, v1, 0) in
    WordArray_create [v0; v1] 8.

Definition decryptBlock (block key : WordArray) : WordArray :=
    let v0 := JS.at0 (words block) 0 in
    let v1 := JS.at0 (words block) 1 in
    let k0 := JS.at0 (words key) 0 in
    let k1 := JS.at0 (words key) 1 in
    let k2 := JS.at0 (words key) 2 in
    let k3 := JS.at0 (words key) 3 in
    let sum := JS.ToUint32 (TEA_DELTA * Z.of_nat TEA_ROUNDS) in
    let '(v0, v1, _) := Nat.iter TEA_ROUNDS (dec_round k0 k1 k2 k3) (v0, v1, sum) in
    WordArray_create [v0; v1] 8.

End TeaCore.

(** ** Feistel core: XTEA ([xtea.ts])

    In JavaScript [+] and [-] bind tighter than [^], so the source line
    [v0 = (v0 + (A) ^ (B)) .>>> 0] computes [((v0 + A) ^ B) .>>> 0]. *)

Module XteaCore.

Definition XTEA_ROUNDS : nat := 32.
Definition XTEA_DELTA : Z := 0x9e3779b9.

Section Rounds.
Variable keyArray : list Z.

Definition enc_round (s : Z * Z * Z) : Z * Z * Z :=
      let '(v0, v1, sum) := s in
      let v0 := JS.ToUint32
        ((v0 + (((v1 .<< 4) .^ (v1 .>>> 5)) + v1))
           .^ (sum + JS.at0 keyArray (Z.to_nat (sum .& 3)))) in
      let sum := JS.ToUint32 (sum + XTEA_DELTA) in
      let v1 := JS.ToUint32
        ((v1 + (((v0 .<< 4) .^ (v0 .>>> 5)) + v0))
           .^ (sum + JS.at0 keyArray (Z.to_nat ((sum .>>> 11) .& 3)))) in
      (v0, v1, sum).

Definition dec_round (s : Z * Z * Z) : Z * Z * Z :=
      let '(v0, v1, sum) := s in
      let v1 := JS.ToUint32
        ((v1 - (((v0 .<< 4) .^ (v0 .>>> 5)) + v0))
           .^ (sum + JS.at0 keyArray (Z.to_nat ((sum .>>> 11) .& 3)))) in
      let sum := JS.ToUint32 (sum - XTEA_DELTA) in
      let v0 := JS.ToUint32
        ((v0 - (((v1 .<< 4) .^ (v1 .>>> 5)) + v1))
           .^ (sum + JS.at0 keyArray (Z.to_nat (sum .& 3)))) in
      (v0, v1, sum).
End Rounds.

Definition keyArray_of (key : WordArray) : list Z :=
    [ JS.at0 (words key) 0; JS.at0 (words key) 1;
      JS.at0 (words key) 2; JS.at0 (words key) 3 ].

Definition encryptBlock (block key : WordArray) : WordArray :=
    let v0 := JS.at0 (words block) 0 in
    let v1 := JS.at0 (words block) 1 in
    let keyArray := keyArray_of key in
    let '(v0, v1, _) := Nat.iter XTEA_ROUNDS (enc_round keyArray) (v0, v1, 0) in
    WordArray_create [v0; v1] 8.

Definition decryptBlock (block key : WordArray) : WordArray :=
    let v0 := JS.at0 (words block) 0 in
    let v1 := JS.at0 (words block) 1 in
    let keyArray := keyArray_of key in
    let sum := JS.ToUint32 (XTEA_DELTA * Z.of_nat XTEA_ROUNDS) in
    let '(v0, v1, _) := Nat.iter XTEA_ROUNDS (dec_round keyArray) (v0, v1, sum) in
    WordArray_create [v0; v1] 8.

End XteaCore.


(** ** The plugin contract ([src/types/crypto.ts]) *)

Record EncryptionParams := mkEncryptionParams
  { plaintext : jsstring;
    enc_key : jsstring;
    enc_iv : option jsstring;
    enc_nonce : option jsstring;
    enc_mode : option jsstring;
    enc_variant : option jsstring }.

Record DecryptionParams := mkDecryptionParams
  { ciphertext : jsstring;
    dec_key : jsstring;
    dec_iv : option jsstring;
    dec_nonce : option jsstring;
    dec_mode : option jsstring;
    dec_variant : option jsstring }.

Record OperationMetadata := mkOperationMetadata
  { keyLength : Q;
    ivLength : option Z;
    nonceLength : option Z;
    op_mode : option jsstring;
    op_variant : option jsstring }.

Record CryptoOperation := mkCryptoOperation
  { success : bool;
    result : option jsstring;
    error : option jsstring;
    metadata : option OperationMetadata }.

(** [{ success: true, result, metadata }] *)
Definition op_success (r : jsstring) (m : OperationMetadata) : CryptoOperation :=
  mkCryptoOperation true (Some r) None (Some m).

(** [{ success: false, error }] *)
Definition op_failure (msg : jsstring) : CryptoOperation :=
  mkCryptoOperation false None (Some msg) None.

Record CipherVariant := mkCipherVariant
  { variant_id : jsstring; variant_name : jsstring; keySize : Z }.

Record CipherMetadata := mkCipherMetadata
  { id : jsstring;
    name : jsstring;
    category : jsstring;
    variants : list CipherVariant;
    modes : list jsstring;
    minKeySize : Z;
    maxKeySize : Z;
    keySizes : list Z;
    ivRequired : bool;
    ivSize : option Z;
    nonceRequired : bool;
    nonceSize : option Z }.

(** [===] on strings *)
Definition str_eqb (a b : jsstring) : bool := bool_decide (a = b).

(** the loop [for (i = 0; i < result.length && i < other.length; i++)
    result[i] ^= other[i]] of [xorBlocks] and [xorWithKeystream] *)
Fixpoint xor_words (a b : list Z) : list Z :=
  match a, b with
  | x :: a', y :: b' => (x .^ y) :: xor_words a' b'
  | _, _ => a
  end.

(** ** Block-mode wrapper and engine facade of the Feistel ciphers

    [tea.ts] and [xtea.ts] are the same text up to the name of the cipher
    and the two block functions; the section is instantiated once for
    each. *)

Section FeistelEngine.

  (** ["TEA"] or ["XTEA"], and the default variant ['tea'] or ['xtea'] *)
Variable NAME : jsstring.
Variable default_variant : jsstring.
Variables encryptBlock decryptBlock : WordArray -> WordArray -> WordArray.

  (** the loop of [splitIntoBlocks], from word index [i] on: [ws] is what is
      left of [data.words] *)
Fixpoint split_loop (fuel : nat) (ws : list Z) (wordsPerBlock : nat) (blockSize : Q)
    : list WordArray :=
    match fuel with
    | O => []
    | S fuel' =>
        match ws with
        | [] => []
        | _ =>
            let blockWords := take wordsPerBlock ws in
            let blockWords :=
              blockWords ++ repeat 0 (wordsPerBlock - length blockWords) in
            WordArray_create blockWords blockSize
              :: split_loop fuel' (drop wordsPerBlock ws) wordsPerBlock blockSize
        end
    end.

Definition splitIntoBlocks (data : WordArray) (blockSize : Z) : list WordArray :=
    let wordsPerBlock := Z.to_nat (blockSize / 4) in
    let blocks :=
      split_loop (length (words data)) (words data) wordsPerBlock (inject_Z blockSize) in
    match blocks with
    | [] => [WordArray_create [0; 0] (inject_Z blockSize)]
    | _ => blocks
    end.

Definition xorBlocks (a b : WordArray) : WordArray :=
    WordArray_create (xor_words (words a) (words b)) (sigBytes a).

Definition concatBlocks (blocks : list WordArray) : WordArray :=
    WordArray_create (flat_map words blocks)
                     (fold_left (fun total b => (total + sigBytes b)%Q) blocks 0%Q).

Definition processBlocks (data key : WordArray) (encrypt : bool) : WordArray :=
    let blocks := splitIntoBlocks data 8 in
    let processedBlocks :=
      map (fun block => if encrypt then encryptBlock block key
                        else decryptBlock block key) blocks in
    concatBlocks processedBlocks.

Definition encryptECB (plaintext key : WordArray) : jsstring :=
    CryptoJS.Hex_stringify (processBlocks plaintext key true).

Definition decryptECB (ciphertext key : WordArray) : WordArray :=
    processBlocks ciphertext key false.

  (** the loop of [encryptCBC]: the encrypted blocks, in order *)
Fixpoint encryptCBC_loop (blocks : list WordArray) (key previousBlock : WordArray)
    : list WordArray :=
    match blocks with
    | [] => []
    | block :: rest =>
        let xored := xorBlocks block previousBlock in
        let encrypted := encryptBlock xored key in
        encrypted :: encryptCBC_loop rest key encrypted
    end.

Definition encryptCBC (plaintext key iv : WordArray) : jsstring :=
    let blocks := splitIntoBlocks plaintext 8 in
    CryptoJS.Hex_stringify (concatBlocks (encryptCBC_loop blocks key iv)).

Fixpoint decryptCBC_loop (blocks : list WordArray) (key previousBlock : WordArray)
    : list WordArray :=
    match blocks with
    | [] => []
    | block :: rest =>
        let decrypted := decryptBlock block key in
        let xored := xorBlocks decrypted previousBlock in
        xored :: decryptCBC_loop rest key block
    end.

Definition decryptCBC (ciphertext key iv : WordArray) : WordArray :=
    let blocks := splitIntoBlocks ciphertext 8 in
    concatBlocks (decryptCBC_loop blocks key iv).

  (** [Hex.parse] does not throw on a string, so the [catch] of
      [validateKey] is never taken *)
Definition validateKey (key : jsstring) : bool :=
    Qeq_bool (sigBytes (CryptoJS.Hex_parse key)) 16.

Definition validateIV (iv : jsstring) : bool :=
    Qeq_bool (sigBytes (CryptoJS.Hex_parse iv)) 8.

Definition invalid_key_message : jsstring :=
    js "Invalid " ++ NAME ++ js " key. Must be exactly 16 bytes (128 bits)".

Definition mode_message (mode : jsstring) : jsstring :=
    js "Mode " ++ mode ++ js " not implemented for " ++ NAME.

Definition feistel_metadata (mode variant : jsstring) : OperationMetadata :=
    mkOperationMetadata 128
      (if negb (str_eqb mode (js "ECB")) then Some 8 else None)
      None (Some mode) (Some variant).

  (** the [try] block of [encrypt]; [random n] is what
      [CryptoJS.lib.WordArray.random(n)] returns when it is called *)
Definition encrypt_body (random : Z -> outcome WordArray) (params : EncryptionParams)
    : outcome CryptoOperation :=
    let plaintext := plaintext params in
    let key := enc_key params in
    let iv := enc_iv params in
    let mode := default (js "CBC") (enc_mode params) in
    let variant := default default_variant (enc_variant params) in
    if is_empty plaintext || is_empty key then
      throw_Error (js "Plaintext and key are required")
    else if negb (validateKey key) then
      throw_Error invalid_key_message
    else
      let keyBytes := CryptoJS.Hex_parse key in
      ivBytes ← (if truthy iv then Ok (CryptoJS.Hex_parse (default [] iv))
                 else random 8);
      plaintextBytes ← CryptoJS.Utf8_parse plaintext;
      encrypted ←
        (if str_eqb mode (js "ECB") then Ok (encryptECB plaintextBytes keyBytes)
         else if str_eqb mode (js "CBC") then
           Ok (encryptCBC plaintextBytes keyBytes ivBytes)
         else throw_Error (mode_message mode));
      Ok (op_success encrypted (feistel_metadata mode variant)).

Definition encrypt (random : Z -> outcome WordArray) (params : EncryptionParams)
    : outcome CryptoOperation :=
    try_catch (encrypt_body random params)
      (fun error => Ok (op_failure (message_or error (NAME ++ js " encryption failed")))).

Definition decrypt_body (params : DecryptionParams) : outcome CryptoOperation :=
    let ciphertext := ciphertext params in
    let key := dec_key params in
    let iv := dec_iv params in
    let mode := default (js "CBC") (dec_mode params) in
    let variant := default default_variant (dec_variant params) in
    if is_empty ciphertext || is_empty key then
      throw_Error (js "Ciphertext and key are required")
    else if negb (validateKey key) then
      throw_Error invalid_key_message
    else
      let keyBytes := CryptoJS.Hex_parse key in
      let ivBytes := if truthy iv then Some (CryptoJS.Hex_parse (default [] iv))
                     else None in
      let ciphertextBytes := CryptoJS.Hex_parse ciphertext in
      decrypted ←
        (if str_eqb mode (js "ECB") then Ok (decryptECB ciphertextBytes keyBytes)
         else if str_eqb mode (js "CBC") then
           match ivBytes with
           | None => throw_Error (js "IV is required for CBC mode")
           | Some ivBytes => Ok (decryptCBC ciphertextBytes keyBytes ivBytes)
           end
         else throw_Error (mode_message mode));
      text ← CryptoJS.Utf8_stringify decrypted;
      Ok (op_success text (feistel_metadata mode variant)).

Definition decrypt (params : DecryptionParams) : outcome CryptoOperation :=
    try_catch (decrypt_body params)
      (fun error => Ok (op_failure (message_or error (NAME ++ js " decryption failed")))).

End FeistelEngine.

Module TeaEngine.
Definition metadata : CipherMetadata :=
    mkCipherMetadata (js "tea") (js "TEA") (js "symmetric")
      [mkCipherVariant (js "tea") (js "TEA") 128]
      [js "ECB"; js "CBC"] 128 128 [128] true (Some 8) false None.
Definition validateKey := validateKey.
(** the facade around any pair of block functions, and around the ones
    of the engine *)
Definition encrypt_with := encrypt (js "TEA") (js "tea").
Definition decrypt_with := decrypt (js "TEA") (js "tea").
Definition encrypt := encrypt_with TeaCore.encryptBlock TeaCore.decryptBlock.
Definition decrypt := decrypt_with TeaCore.encryptBlock TeaCore.decryptBlock.
End TeaEngine.

Module XteaEngine.
Definition metadata : CipherMetadata :=
    mkCipherMetadata (js "xtea") (js "XTEA") (js "symmetric")
      [mkCipherVariant (js "xtea") (js "XTEA") 128]
      [js "ECB"; js "CBC"] 128 128 [128] true (Some 8) false None.
Definition validateKey := validateKey.
(** the facade around any pair of block functions, and around the ones
    of the engine *)
Definition encrypt_with := encrypt (js "XTEA") (js "xtea").
Definition decrypt_with := decrypt (js "XTEA") (js "xtea").
Definition encrypt := encrypt_with XteaCore.encryptBlock XteaCore.decryptBlock.
Definition decrypt := decrypt_with XteaCore.encryptBlock XteaCore.decryptBlock.
End XteaEngine.

(** ** Salsa20 ([salsa20.ts]) *)

(** [x || y] on numbers read from an array: [undefined] and 0 are falsy *)
Definition js_or (x : option Z) (y : Z) : Z :=
  match x with
  | Some v => if v =? 0 then y else v
  | None => y
  end.

Module Salsa20Core.

Definition rotateLeft (value positions : Z) : Z :=
    JS.ToUint32 ((value .<< positions) .| (value .>>> (32 - positions))).

Definition quarterRound (state : list Z) (a b c d : nat) : list Z :=
    let state := array_set state b
      ((JS.at0 state b) .^ rotateLeft (JS.ToUint32 (JS.at0 state a + JS.at0 state d)) 7) in
    let state := array_set state c
      ((JS.at0 state c) .^ rotateLeft (JS.ToUint32 (JS.at0 state b + JS.at0 state a)) 9) in
    let state := array_set state d
      ((JS.at0 state d) .^ rotateLeft (JS.ToUint32 (JS.at0 state c + JS.at0 state b)) 13) in
    let state := array_set state a
      ((JS.at0 state a) .^ rotateLeft (JS.ToUint32 (JS.at0 state d + JS.at0 state c)) 18) in
    state.

Definition constants : list Z := [0x61707865; 0x3320646e; 0x79622d32; 0x6b206574].

Definition initial_state (key nonce : WordArray) (counter : Z) : list Z :=
    let kw := words key in
    let nw := words nonce in
    [ JS.at0 constants 0;
      js_or (kw !! 0%nat) 0; js_or (kw !! 1%nat) 0;
      js_or (kw !! 2%nat) 0; js_or (kw !! 3%nat) 0;
      JS.at0 constants 1;
      js_or (nw !! 0%nat) 0; js_or (nw !! 1%nat) 0;
      counter;
      0;
      JS.at0 constants 2;
      js_or (kw !! 4%nat) (js_or (kw !! 0%nat) 0);
      js_or (kw !! 5%nat) (js_or (kw !! 1%nat) 0);
      js_or (kw !! 6%nat) (js_or (kw !! 2%nat) 0);
      js_or (kw !! 7%nat) (js_or (kw !! 3%nat) 0);
      JS.at0 constants 3 ].

  (** one iteration of [for (let i = 0; i < rounds; i += 2)] *)
Definition double_round (workingState : list Z) : list Z :=
    let workingState := quarterRound workingState 0 4 8 12 in
    let workingState := quarterRound workingState 5 9 13 1 in
    let workingState := quarterRound workingState 10 14 2 6 in
    let workingState := quarterRound workingState 15 3 7 11 in
    let workingState := quarterRound workingState 0 1 2 3 in
    let workingState := quarterRound workingState 5 6 7 4 in
    let workingState := quarterRound workingState 10 11 8 9 in
    let workingState := quarterRound workingState 15 12 13 14 in
    workingState.

  (** the number of iterations of that loop; [rounds] is [None] when
      [getRoundsFromVariant] returned something that is not a number, and
      the comparison [i < rounds] is then false *)
Definition iterations (rounds : option Z) : nat :=
    match rounds with
    | Some r => Z.to_nat ((r + 1) / 2)
    | None => O
    end.

  (** [workingState[i] = (workingState[i] + state[i]) >>> 0] for [i < 16] *)
Definition add_original (workingState state : list Z) : list Z :=
    fold_left (fun ws i => array_set ws i (JS.ToUint32 (JS.at0 ws i + JS.at0 state i)))
              (seq 0 16) workingState.

Definition salsa20Block (key nonce : WordArray) (counter : Z) (rounds : option Z)
    : list Z :=
    let state := initial_state key nonce counter in
    let workingState := Nat.iter (iterations rounds) double_round state in
    add_original workingState state.

End Salsa20Core.

Section Salsa20Engine.

Variable salsa20Block : WordArray -> WordArray -> Z -> option Z -> list Z.

  (** the names every object inherits from [Object.prototype]: looking one
      of them up in the object literal [variantMap] gives a function or an
      object, which is truthy and not a number *)
Definition object_prototype_names : list jsstring :=
    [ js "constructor"; js "toString"; js "toLocaleString"; js "valueOf";
      js "hasOwnProperty"; js "isPrototypeOf"; js "propertyIsEnumerable";
      js "__proto__"; js "__defineGetter__"; js "__defineSetter__";
      js "__lookupGetter__"; js "__lookupSetter__" ].

Definition getRoundsFromVariant (variant : jsstring) : option Z :=
    if str_eqb variant (js "salsa20/8") then Some 8
    else if str_eqb variant (js "salsa20/12") then Some 12
    else if str_eqb variant (js "salsa20/20") then Some 20
    else if bool_decide (variant ∈ object_prototype_names) then None
    else Some 20.

  (** [Math.ceil] *)
Definition ceil (x : Q) : Z := Qceiling x.

Definition generateKeystream (key nonce : WordArray) (length : Q) (rounds : option Z)
    : WordArray :=
    let blocksNeeded := ceil (length / 64) in
    let blocks :=
      flat_map (fun i => salsa20Block key nonce (Z.of_nat i) rounds)
               (seq 0 (Z.to_nat blocksNeeded)) in
    let trimmedBytes := length in
    let trimmedWords := take (Z.to_nat (ceil (trimmedBytes / 4))) blocks in
    WordArray_create trimmedWords trimmedBytes.

Definition xorWithKeystream (data keystream : WordArray) : WordArray :=
    WordArray_create (xor_words (words data) (words keystream)) (sigBytes data).

Definition salsa_validateKey (key : jsstring) : bool :=
    let keyBytes := CryptoJS.Hex_parse key in
    Qeq_bool (sigBytes keyBytes) 16 || Qeq_bool (sigBytes keyBytes) 32.

Definition salsa_validateNonce (nonce : jsstring) : bool :=
    Qeq_bool (sigBytes (CryptoJS.Hex_parse nonce)) 8.

Definition salsa_metadata (keyBytes : WordArray) (variant : jsstring) : OperationMetadata :=
    mkOperationMetadata (sigBytes keyBytes * 8) None (Some 8) None (Some variant).

Definition salsa_encrypt_body (params : EncryptionParams) : outcome CryptoOperation :=
    let plaintext := plaintext params in
    let key := enc_key params in
    let nonce := enc_nonce params in
    let variant := default (js "salsa20/20") (enc_variant params) in
    if is_empty plaintext || is_empty key then
      throw_Error (js "Plaintext and key are required")
    else if negb (truthy nonce) then
      throw_Error (js "Nonce is required for Salsa20")
    else if negb (salsa_validateKey key) then
      throw_Error (js "Invalid Salsa20 key. Must be 16 or 32 bytes")
    else if negb (salsa_validateNonce (default [] nonce)) then
      throw_Error (js "Invalid Salsa20 nonce. Must be 8 bytes")
    else
      let keyBytes := CryptoJS.Hex_parse key in
      let nonceBytes := CryptoJS.Hex_parse (default [] nonce) in
      plaintextBytes ← CryptoJS.Utf8_parse plaintext;
      let rounds := getRoundsFromVariant variant in
      let keystream :=
        generateKeystream keyBytes nonceBytes (sigBytes plaintextBytes) rounds in
      let encrypted := xorWithKeystream plaintextBytes keystream in
      Ok (op_success (CryptoJS.Hex_stringify encrypted) (salsa_metadata keyBytes variant)).

Definition salsa_encrypt (params : EncryptionParams) : outcome CryptoOperation :=
    try_catch (salsa_encrypt_body params)
      (fun error => Ok (op_failure (message_or error (js "Salsa20 encryption failed")))).

Definition salsa_decrypt_body (params : DecryptionParams) : outcome CryptoOperation :=
    let ciphertext := ciphertext params in
    let key := dec_key params in
    let nonce := dec_nonce params in
    let variant := default (js "salsa20/20") (dec_variant params) in
    if is_empty ciphertext || is_empty key then
      throw_Error (js "Ciphertext and key are required")
    else if negb (truthy nonce) then
      throw_Error (js "Nonce is required for Salsa20")
    else if negb (salsa_validateKey key) then
      throw_Error (js "Invalid Salsa20 key. Must be 16 or 32 bytes")
    else if negb (salsa_validateNonce (default [] nonce)) then
      throw_Error (js "Invalid Salsa20 nonce. Must be 8 bytes")
    else
      let keyBytes := CryptoJS.Hex_parse key in
      let nonceBytes := CryptoJS.Hex_parse (default [] nonce) in
      let ciphertextBytes := CryptoJS.Hex_parse ciphertext in
      let rounds := getRoundsFromVariant variant in
      let keystream :=
        generateKeystream keyBytes nonceBytes (sigBytes ciphertextBytes) rounds in
      let decrypted := xorWithKeystream ciphertextBytes keystream in
      text ← CryptoJS.Utf8_stringify decrypted;
      Ok (op_success text (salsa_metadata keyBytes variant)).

Definition salsa_decrypt (params : DecryptionParams) : outcome CryptoOperation :=
    try_catch (salsa_decrypt_body params)
      (fun error => Ok (op_failure (message_or error (js "Salsa20 decryption failed")))).

End Salsa20Engine.

Module Salsa20Engine.
Definition metadata : CipherMetadata :=
    mkCipherMetadata (js "salsa20") (js "Salsa20") (js "symmetric")
      [mkCipherVariant (js "salsa20/8") (js "Salsa20/8") 256;
       mkCipherVariant (js "salsa20/12") (js "Salsa20/12") 256;
       mkCipherVariant (js "salsa20/20") (js "Salsa20/20") 256]
      [js "Stream"] 128 256 [128; 256] true (Some 8) true (Some 8).
Definition validateKey := salsa_validateKey.
Definition validateNonce := salsa_validateNonce.
Definition generateKeystream := generateKeystream Salsa20Core.salsa20Block.
Definition xorWithKeystream := xorWithKeystream.
Definition encrypt_with := salsa_encrypt.
Definition decrypt_with := salsa_decrypt.
Definition encrypt := encrypt_with Salsa20Core.salsa20Block.
Definition decrypt := decrypt_with Salsa20Core.salsa20Block.
End Salsa20Engine.

(** ** Validation utilities ([src/lib/crypto-utils.ts]) *)

Module CryptoUtils.

Definition is_hex_char (c : Z) : bool :=
    ((0x30 <=? c) && (c <=? 0x39)) || ((0x61 <=? c) && (c <=? 0x66))
    || ((0x41 <=? c) && (c <=? 0x46)).

  (** [/^[0-9a-fA-F]*$/.test(str) && str.length % 2 === 0] *)
Definition isValidHex (str : jsstring) : bool :=
    forallb is_hex_char str && (length str mod 2 =? 0)%nat.

  (** [validateKeyLength(key, validLengths, 'hex')]: the engines only use
      the ['hex'] format *)
Definition validateKeyLength (key : jsstring) (validLengths : list Z) : bool :=
    if negb (isValidHex key) then false
    else
      let keyBytes := (Z.of_nat (length key) # 2)%Q in
      existsb (fun l => Qeq_bool (inject_Z l) keyBytes) validLengths.

End CryptoUtils.

(** ** ChaCha20: the class [ChaCha20] on typed arrays *)

(** [arr[i] = v] on a [Uint32Array] and on a [Uint8Array] *)
Definition u32_set (arr : list Z) (i : nat) (v : Z) : list Z :=
  typed_set arr i (JS.ToUint32 v).
Definition u8_set (arr : list Z) (i : nat) (v : Z) : list Z :=
  typed_set arr i (v mod 256).

Module ChaCha20.

Definition rotateLeft (n amount : Z) : Z :=
    JS.ToUint32 ((n .<< amount) .| (n .>>> (32 - amount))).

Definition quarterRound (state : list Z) (a b c d : nat) : list Z :=
    let state := u32_set state a (JS.ToUint32 (JS.at0 state a + JS.at0 state b)) in
    let state := u32_set state d ((JS.at0 state d) .^ (JS.at0 state a)) in
    let state := u32_set state d (rotateLeft (JS.at0 state d) 16) in
    let state := u32_set state c (JS.ToUint32 (JS.at0 state c + JS.at0 state d)) in
    let state := u32_set state b ((JS.at0 state b) .^ (JS.at0 state c)) in
    let state := u32_set state b (rotateLeft (JS.at0 state b) 12) in
    let state := u32_set state a (JS.ToUint32 (JS.at0 state a + JS.at0 state b)) in
    let state := u32_set state d ((JS.at0 state d) .^ (JS.at0 state a)) in
    let state := u32_set state d (rotateLeft (JS.at0 state d) 8) in
    let state := u32_set state c (JS.ToUint32 (JS.at0 state c + JS.at0 state d)) in
    let state := u32_set state b ((JS.at0 state b) .^ (JS.at0 state c)) in
    let state := u32_set state b (rotateLeft (JS.at0 state b) 7) in
    state.

Definition constants : list Z := [0x61707865; 0x3320646e; 0x79622d32; 0x6b206574].

  (** [(a[4i] | (a[4i+1] << 8) | (a[4i+2] << 16) | (a[4i+3] << 24)) >>> 0] *)
Definition load_le (a : list Z) (i : nat) : Z :=
    JS.ToUint32
      ((((JS.at0 a (i * 4)) .| ((JS.at0 a (i * 4 + 1)) .<< 8))
          .| ((JS.at0 a (i * 4 + 2)) .<< 16))
         .| ((JS.at0 a (i * 4 + 3)) .<< 24)).

Definition initial_state (key nonce : list Z) (counter : Z) : list Z :=
    let state := repeat 0 16 in
    (* state.set(constants, 0) *)
    let state := fold_left (fun st i => u32_set st i (JS.at0 constants i)) (seq 0 4) state in
    let state := fold_left (fun st i => u32_set st (4 + i) (load_le key i)) (seq 0 8) state in
    let state := u32_set state 12 counter in
    let state := fold_left (fun st i => u32_set st (13 + i) (load_le nonce i)) (seq 0 3) state in
    state.

  (** one iteration of [for (let i = 0; i < 10; i++)] *)
Definition double_round (workingState : list Z) : list Z :=
    let workingState := quarterRound workingState 0 4 8 12 in
    let workingState := quarterRound workingState 1 5 9 13 in
    let workingState := quarterRound workingState 2 6 10 14 in
    let workingState := quarterRound workingState 3 7 11 15 in
    let workingState := quarterRound workingState 0 5 10 15 in
    let workingState := quarterRound workingState 1 6 11 12 in
    let workingState := quarterRound workingState 2 7 8 13 in
    let workingState := quarterRound workingState 3 4 9 14 in
    workingState.

Definition add_original (workingState state : list Z) : list Z :=
    fold_left (fun ws i => u32_set ws i (JS.ToUint32 (JS.at0 ws i + JS.at0 state i)))
              (seq 0 16) workingState.

  (** the conversion of the 16 words to the 64 output bytes *)
Definition to_bytes (workingState : list Z) : list Z :=
    fold_left
      (fun output i =>
         let output := u8_set output (i * 4) ((JS.at0 workingState i) .& 0xff) in
         let output := u8_set output (i * 4 + 1) (((JS.at0 workingState i) .>>> 8) .& 0xff) in
         let output := u8_set output (i * 4 + 2) (((JS.at0 workingState i) .>>> 16) .& 0xff) in
         let output := u8_set output (i * 4 + 3) (((JS.at0 workingState i) .>>> 24) .& 0xff) in
         output)
      (seq 0 16) (repeat 0 64).

  (** the words after the rounds and the addition of the original state *)
Definition final_words (key nonce : list Z) (counter : Z) : list Z :=
    let state := initial_state key nonce counter in
    let workingState := Nat.iter 10 double_round state in
    add_original workingState state.

Definition chacha20Block (key nonce : list Z) (counter : Z) : list Z :=
    to_bytes (final_words key nonce counter).

Section Encrypt.
Variable chacha20Block : list Z -> list Z -> Z -> list Z.

    (** one iteration of the outer loop of [encrypt], at offset [i]; the
        state is the output array and the counter *)
Definition encrypt_step (plaintext key nonce : list Z) (st : list Z * Z) (i : nat)
      : list Z * Z :=
      let '(output, counter) := st in
      let keystream := chacha20Block key nonce counter in
      let remaining := Nat.min 64 (length plaintext - i) in
      let output :=
        fold_left (fun out j =>
                     u8_set out (i + j) ((JS.at0 plaintext (i + j)) .^ (JS.at0 keystream j)))
                  (seq 0 remaining) output in
      (output, counter + 1).

Definition encrypt (plaintext key nonce : list Z) : list Z :=
      let n := length plaintext in
      let offsets := map (fun k => (64 * k)%nat) (seq 0 ((n + 63) / 64)) in
      fst (fold_left (encrypt_step plaintext key nonce) offsets (repeat 0 n, 0)).
End Encrypt.

End ChaCha20.

(** ** ChaCha20: the engine facade *)

Section ChaCha20Engine.

Variable chacha20Block : list Z -> list Z -> Z -> list Z.

  (** [new Uint8Array(hex.length / 2)] filled with
      [result[i / 2] = parseInt(hex.substr(i, 2), 16)] *)
Definition hexToUint8Array (hex : jsstring) : list Z :=
    let n := length hex in
    fold_left (fun res i => u8_set res (i / 2) (nan0 (parseInt16 (substr2 hex i))))
              (map (fun j => (2 * j)%nat) (seq 0 ((n + 1) / 2)))
              (repeat 0 (n / 2)).

  (** [byte.toString(16).padStart(2, '0')] for each byte, joined *)
Definition uint8ArrayToHex (bytes : list Z) : jsstring :=
    flat_map (fun byte => [hex_digit (byte / 16); hex_digit (byte mod 16)]) bytes.

Definition chacha_validateKey (key : jsstring) : bool :=
    CryptoUtils.validateKeyLength key [32].

Definition chacha_validateNonce (nonce : jsstring) : bool :=
    CryptoUtils.validateKeyLength nonce [12].

Definition chacha_metadata : OperationMetadata :=
    mkOperationMetadata 32 None (Some 12) (Some (js "Stream")) (Some (js "chacha20")).

Definition chacha_invalid_key : jsstring :=
    js "Invalid key length. Expected 32 bytes (64 hex characters).".
Definition chacha_invalid_nonce : jsstring :=
    js "Invalid nonce length. Expected 12 bytes (24 hex characters).".

Definition chacha_encrypt_body (params : EncryptionParams) : outcome CryptoOperation :=
    let plaintext := plaintext params in
    let key := enc_key params in
    let nonce := enc_nonce params in
    if negb (chacha_validateKey key) then
      Ok (op_failure chacha_invalid_key)
    else if negb (truthy nonce) || negb (chacha_validateNonce (default [] nonce)) then
      Ok (op_failure chacha_invalid_nonce)
    else
      let plaintextBytes := Utf8Codec.TextEncoder_encode plaintext in
      let keyBytes := hexToUint8Array key in
      let nonceBytes := hexToUint8Array (default [] nonce) in
      let ciphertext := ChaCha20.encrypt chacha20Block plaintextBytes keyBytes nonceBytes in
      Ok (op_success (uint8ArrayToHex ciphertext) chacha_metadata).

Definition chacha_encrypt (params : EncryptionParams) : outcome CryptoOperation :=
    try_catch (chacha_encrypt_body params)
      (fun error => Ok (op_failure
         (js "Encryption failed: " ++ message_or error (js "Unknown error")))).

Definition chacha_decrypt_body (params : DecryptionParams) : outcome CryptoOperation :=
    let ciphertext := ciphertext params in
    let key := dec_key params in
    let nonce := dec_nonce params in
    if negb (chacha_validateKey key) then
      Ok (op_failure chacha_invalid_key)
    else if negb (truthy nonce) || negb (chacha_validateNonce (default [] nonce)) then
      Ok (op_failure chacha_invalid_nonce)
    else if negb (CryptoUtils.isValidHex ciphertext) then
      Ok (op_failure (js "Invalid ciphertext format. Must be valid hexadecimal."))
    else
      let ciphertextBytes := hexToUint8Array ciphertext in
      let keyBytes := hexToUint8Array key in
      let nonceBytes := hexToUint8Array (default [] nonce) in
      let plaintext := ChaCha20.encrypt chacha20Block ciphertextBytes keyBytes nonceBytes in
      let plaintextString := Utf8Codec.TextDecoder_decode plaintext in
      Ok (op_success plaintextString chacha_metadata).

Definition chacha_decrypt (params : DecryptionParams) : outcome CryptoOperation :=
    try_catch (chacha_decrypt_body params)
      (fun error => Ok (op_failure
         (js "Decryption failed: " ++ message_or error (js "Unknown error")))).

End ChaCha20Engine.

Module ChaCha20Engine.
Definition metadata : CipherMetadata :=
    mkCipherMetadata (js "chacha20") (js "ChaCha20") (js "symmetric")
      [mkCipherVariant (js "chacha20") (js "ChaCha20") 32]
      [js "Stream"] 32 32 [32] false None true (Some 12).
Definition validateKey := chacha_validateKey.
Definition validateNonce := chacha_validateNonce.
Definition encrypt_with := chacha_encrypt.
Definition decrypt_with := chacha_decrypt.
Definition encrypt := encrypt_with ChaCha20.chacha20Block.
Definition decrypt := decrypt_with ChaCha20.chacha20Block.
End ChaCha20Engine.

(** ** The registry ([CipherRegistry]) *)

Record CipherEngine := mkCipherEngine
  { engine_metadata : CipherMetadata;
    engine_encrypt : (Z -> outcome WordArray) -> EncryptionParams -> outcome CryptoOperation;
    engine_decrypt : DecryptionParams -> outcome CryptoOperation }.

Module CipherRegistry.

  (** the static fields [engines], [metadata] and [initialized] *)
Record state := mkState
    { engines : gmap (list Z) CipherEngine;
      metadata : gmap (list Z) CipherMetadata;
      initialized : bool }.

  (** the fields as the class body initialises them *)
Definition initial : state := mkState ∅ ∅ false.

Definition register (engine : CipherEngine) (st : state) : state :=
    mkState (<[id (engine_metadata engine) := engine]> (engines st))
            (<[id (engine_metadata engine) := engine_metadata engine]> (metadata st))
            (initialized st).

Definition getEngine (i : jsstring) (st : state) : option CipherEngine :=
    engines st !! i.

Definition getMetadata (i : jsstring) (st : state) : option CipherMetadata :=
    metadata st !! i.

Definition exists_ (i : jsstring) (st : state) : bool :=
    bool_decide (is_Some (engines st !! i)).

  (** a sequence of [register] calls, first to last *)
Definition register_all (es : list CipherEngine) (st : state) : state :=
    fold_left (fun st e => register e st) es st.

End CipherRegistry.

Definition TeaEngine_instance : CipherEngine :=
  mkCipherEngine TeaEngine.metadata TeaEngine.encrypt TeaEngine.decrypt.
Definition XteaEngine_instance : CipherEngine :=
  mkCipherEngine XteaEngine.metadata XteaEngine.encrypt XteaEngine.decrypt.
Definition Salsa20Engine_instance : CipherEngine :=
  mkCipherEngine Salsa20Engine.metadata (fun _ => Salsa20Engine.encrypt) Salsa20Engine.decrypt.
Definition ChaCha20Engine_instance : CipherEngine :=
  mkCipherEngine ChaCha20Engine.metadata (fun _ => ChaCha20Engine.encrypt) ChaCha20Engine.decrypt.
(** ** Arithmetic of the 32-bit operators *)

Section Arith32.

Lemma ToUint32_range x : 0 <= JS.ToUint32 x < 2 ^ 32.
Proof. unfold JS.ToUint32. apply Z.mod_pos_bound. lia. Qed.

Lemma ToUint32_small x : 0 <= x < 2 ^ 32 -> JS.ToUint32 x = x.
Proof. intros H. unfold JS.ToUint32. now apply Z.mod_small. Qed.

Lemma ToUint32_idem x : JS.ToUint32 (JS.ToUint32 x) = JS.ToUint32 x.
Proof. apply ToUint32_small, ToUint32_range. Qed.

Lemma ToInt32_range x : - 2 ^ 31 <= JS.ToInt32 x < 2 ^ 31.
Proof.
    unfold JS.ToInt32.
    pose proof (Z.mod_pos_bound (x + 2 ^ 31) (2 ^ 32)). lia.
Qed.

Lemma ToInt32_ToUint32 x : JS.ToInt32 (JS.ToUint32 x) = JS.ToInt32 x.
Proof.
    unfold JS.ToInt32, JS.ToUint32.
    now rewrite Zplus_mod_idemp_l.
Qed.

Lemma ToUint32_ToInt32 x : JS.ToUint32 (JS.ToInt32 x) = JS.ToUint32 x.
Proof.
    unfold JS.ToInt32, JS.ToUint32.
    rewrite Zminus_mod_idemp_l. f_equal. lia.
Qed.

Lemma ToInt32_plus_l a b : JS.ToInt32 (JS.ToUint32 a + b) = JS.ToInt32 (a + b).
Proof.
    unfold JS.ToInt32, JS.ToUint32.
    rewrite <- Z.add_assoc, Zplus_mod_idemp_l. now rewrite Z.add_assoc.
Qed.

Lemma ToUint32_plus_l a b : JS.ToUint32 (JS.ToUint32 a + b) = JS.ToUint32 (a + b).
Proof. unfold JS.ToUint32. now rewrite Zplus_mod_idemp_l. Qed.

Lemma ToUint32_minus_l a b : JS.ToUint32 (JS.ToUint32 a - b) = JS.ToUint32 (a - b).
Proof. unfold JS.ToUint32. now rewrite Zminus_mod_idemp_l. Qed.

  (** adding then subtracting the same amount, each followed by [>>> 0] *)
Lemma ToUint32_add_sub a t : JS.ToUint32 (JS.ToUint32 (a + t) - t) = JS.ToUint32 a.
Proof. rewrite ToUint32_minus_l. f_equal. lia. Qed.

Lemma shl_ToUint32 v n : (JS.ToUint32 v .<< n) = (v .<< n).
Proof. unfold JS.shl. now rewrite ToInt32_ToUint32. Qed.

Lemma shru_ToUint32 v n : (JS.ToUint32 v .>>> n) = (v .>>> n).
Proof. unfold JS.shru. now rewrite ToUint32_idem. Qed.

End Arith32.

(** ** The TEA block function and its inverse *)

Module TeaInverse.
Import TeaCore.

Definition in_range (s : Z * Z * Z) : Prop :=
    let '(v0, v1, sum) := s in
    0 <= v0 < 2 ^ 32 /\ 0 <= v1 < 2 ^ 32 /\ 0 <= sum < 2 ^ 32.

Section Rounds.
Variables k0 k1 k2 k3 : Z.

Lemma enc_round_in_range s : in_range (enc_round k0 k1 k2 k3 s).
Proof.
      destruct s as [[v0 v1] sum]. unfold enc_round, in_range.
      repeat split; apply ToUint32_range.
Qed.

Lemma dec_enc_round s :
      in_range s -> dec_round k0 k1 k2 k3 (enc_round k0 k1 k2 k3 s) = s.
Proof.
      destruct s as [[v0 v1] sum]. intros (H0 & H1 & Hs).
      unfold enc_round, dec_round.
      set (sum' := JS.ToUint32 (sum + TEA_DELTA)).
      set (t0 := (((v1 .<< 4) + k0) .^ (v1 + sum')) .^ ((v1 .>>> 5) + k1)).
      set (v0' := JS.ToUint32 (v0 + t0)).
      set (t1 := (((v0' .<< 4) + k2) .^ (v0' + sum')) .^ ((v0' .>>> 5) + k3)).
      rewrite (ToUint32_add_sub v1 t1), (ToUint32_small v1) by assumption.
      fold t0. subst v0'.
      rewrite (ToUint32_add_sub v0 t0), (ToUint32_small v0) by assumption.
      subst sum'.
      rewrite (ToUint32_add_sub sum TEA_DELTA), (ToUint32_small sum) by assumption.
      reflexivity.
Qed.

Lemma enc_iter_in_range n s :
      in_range s -> in_range (Nat.iter n (enc_round k0 k1 k2 k3) s).
Proof. destruct n; simpl; auto using enc_round_in_range. Qed.

Lemma dec_enc_iter n s :
      in_range s ->
      Nat.iter n (dec_round k0 k1 k2 k3) (Nat.iter n (enc_round k0 k1 k2 k3) s) = s.
Proof.
      intros Hs. induction n as [|n IH]; [reflexivity|].
      rewrite Nat.iter_succ_r. simpl.
      rewrite dec_enc_round by now apply enc_iter_in_range.
      exact IH.
Qed.

    (** the running sum does not depend on the halves *)
Lemma enc_iter_sum n v0 v1 sum :
      0 <= sum < 2 ^ 32 ->
      snd (Nat.iter n (enc_round k0 k1 k2 k3) (v0, v1, sum))
      = JS.ToUint32 (sum + TEA_DELTA * Z.of_nat n).
Proof.
      intros Hs. induction n as [|n IH].
      - simpl. rewrite Z.add_0_r. symmetry. now apply ToUint32_small.
      - change (Nat.iter (S n) ?f ?x) with (f (Nat.iter n f x)).
        destruct (Nat.iter n (enc_round k0 k1 k2 k3) (v0, v1, sum))
          as [[a b] c] eqn:E.
        simpl in IH. subst c. unfold enc_round. simpl snd.
        rewrite ToUint32_plus_l. f_equal. lia.
Qed.

    (** the first round only looks at the halves modulo 2^32 *)
Lemma enc_round_ToUint32 v0 v1 sum :
      enc_round k0 k1 k2 k3 (JS.ToUint32 v0, JS.ToUint32 v1, sum)
      = enc_round k0 k1 k2 k3 (v0, v1, sum).
Proof.
      unfold enc_round.
      set (sum' := JS.ToUint32 (sum + TEA_DELTA)).
      assert (Ht : (((JS.ToUint32 v1 .<< 4) + k0) .^ (JS.ToUint32 v1 + sum'))
                     .^ ((JS.ToUint32 v1 .>>> 5) + k1)
                   = (((v1 .<< 4) + k0) .^ (v1 + sum')) .^ ((v1 .>>> 5) + k1)).
      { unfold JS.bxor.
        now rewrite shl_ToUint32, shru_ToUint32, ToInt32_plus_l. }
      rewrite Ht, !ToUint32_plus_l. reflexivity.
Qed.
End Rounds.

  (** Decrypting an encrypted block gives the block back, its two words
      read as unsigned 32-bit numbers. *)
Lemma decryptBlock_encryptBlock block key :
    words (decryptBlock (encryptBlock block key) key)
    = [JS.ToUint32 (JS.at0 (words block) 0); JS.ToUint32 (JS.at0 (words block) 1)]
    /\ sigBytes (decryptBlock (encryptBlock block key) key) = 8%Q.
Proof.
    unfold decryptBlock, encryptBlock.
    set (k0 := JS.at0 (words key) 0). set (k1 := JS.at0 (words key) 1).
    set (k2 := JS.at0 (words key) 2). set (k3 := JS.at0 (words key) 3).
    set (w0 := JS.at0 (words block) 0). set (w1 := JS.at0 (words block) 1).
    assert (Henc : Nat.iter TEA_ROUNDS (enc_round k0 k1 k2 k3) (w0, w1, 0)
                   = Nat.iter TEA_ROUNDS (enc_round k0 k1 k2 k3)
                       (JS.ToUint32 w0, JS.ToUint32 w1, 0)).
    { unfold TEA_ROUNDS. rewrite !(Nat.iter_succ_r 31).
      now rewrite enc_round_ToUint32. }
    rewrite Henc. clear Henc.
    pose proof (enc_iter_sum k0 k1 k2 k3 TEA_ROUNDS (JS.ToUint32 w0) (JS.ToUint32 w1) 0)
      as Hsum.
    specialize (Hsum ltac:(lia)).
    destruct (Nat.iter TEA_ROUNDS (enc_round k0 k1 k2 k3)
                (JS.ToUint32 w0, JS.ToUint32 w1, 0)) as [[a b] c] eqn:E.
    simpl in Hsum.
    cbn [words WordArray_create JS.at0 lookup list_lookup default from_option Datatypes.id].
    replace (JS.ToUint32 (TEA_DELTA * Z.of_nat TEA_ROUNDS)) with c
      by (subst c; reflexivity).
    rewrite <- E, dec_enc_iter.
    - split; reflexivity.
    - unfold in_range.
      pose proof (ToUint32_range w0). pose proof (ToUint32_range w1). lia.
Qed.

End TeaInverse.


(** ** Outcomes of the public operations *)

(** A settled call: the promise is fulfilled with a result object, and a
    result whose [success] flag is false carries an error message. *)
Definition structured (o : outcome CryptoOperation) : Prop :=
  exists r, o = Ok r /\ (success r = false -> is_Some (error r))
            /\ (success r = true -> is_Some (result r)).

Lemma structured_success r m : structured (Ok (op_success r m)).
Proof. eexists. split; [reflexivity|]. split; [discriminate|]. intros _. now eexists. Qed.

Lemma structured_failure msg : structured (Ok (op_failure msg)).
Proof. eexists. split; [reflexivity|]. split; [|discriminate]. intros _. now eexists. Qed.

(** a [try] block whose normal results are structured, under a [catch] that
    returns a failure object *)
Lemma structured_try_catch body (h : js_exn -> jsstring) :
  (forall r, body = Ok r -> structured (Ok r)) ->
  structured (try_catch body (fun e => Ok (op_failure (h e)))).
Proof.
  intros Hb. destruct body as [r|e]; simpl.
  - now apply Hb.
  - apply structured_failure.
Qed.

Lemma bind_Ok_inv {A B} (m : outcome A) (k : A -> outcome B) b :
  (m ≫= k) = Ok b -> exists a, m = Ok a /\ k a = Ok b.
Proof. destruct m as [a|e]; simpl; [eauto|discriminate]. Qed.

Ltac inv_body H :=
  repeat match type of H with
  | (if ?c then _ else _) = Ok _ => destruct c; [try discriminate H|try discriminate H]
  | (match ?c with _ => _ end) = Ok _ => destruct c; try discriminate H
  | (_ ≫= _) = Ok _ =>
      let a := fresh "a" in let Ha := fresh "Ha" in
      apply bind_Ok_inv in H; destruct H as (a & Ha & H)
  | throw_Error _ = Ok _ => discriminate H
  | Ok _ = Ok _ => injection H as <-
  end.

Section FeistelStructured.
Variables (NAME default_variant : jsstring).
Variables encryptBlock decryptBlock : WordArray -> WordArray -> WordArray.

Lemma feistel_encrypt_structured random params :
  structured (encrypt NAME default_variant encryptBlock decryptBlock random params).
Proof.
  apply structured_try_catch. intros r H. unfold encrypt_body in H.
  inv_body H; apply structured_success.
Qed.

Lemma feistel_decrypt_structured params :
  structured (decrypt NAME default_variant encryptBlock decryptBlock params).
Proof.
  apply structured_try_catch. intros r H. unfold decrypt_body in H.
  inv_body H; apply structured_success.
Qed.
End FeistelStructured.

Lemma salsa_encrypt_structured blk params : structured (salsa_encrypt blk params).
Proof.
  apply structured_try_catch. intros r H. unfold salsa_encrypt_body in H.
  inv_body H; apply structured_success.
Qed.

Lemma salsa_decrypt_structured blk params : structured (salsa_decrypt blk params).
Proof.
  apply structured_try_catch. intros r H. unfold salsa_decrypt_body in H.
  inv_body H; apply structured_success.
Qed.

Lemma chacha_encrypt_structured blk params : structured (chacha_encrypt blk params).
Proof.
  apply structured_try_catch. intros r H. unfold chacha_encrypt_body in H.
  inv_body H; first [apply structured_success | apply structured_failure].
Qed.

Lemma chacha_decrypt_structured blk params : structured (chacha_decrypt blk params).
Proof.
  apply structured_try_catch. intros r H. unfold chacha_decrypt_body in H.
  inv_body H; first [apply structured_success | apply structured_failure].
Qed.

(** C8: every public encrypt and decrypt operation of the four core
    engines, on every input (and whatever the random source does), settles
    with a structured result: a result object whose [success] flag, when
    false, comes with an error message; no exception reaches the caller. *)
Theorem C8_operations_return_structured_results :
  (forall random params, structured (TeaEngine.encrypt random params))
  /\ (forall params, structured (TeaEngine.decrypt params))
  /\ (forall random params, structured (XteaEngine.encrypt random params))
  /\ (forall params, structured (XteaEngine.decrypt params))
  /\ (forall params, structured (Salsa20Engine.encrypt params))
  /\ (forall params, structured (Salsa20Engine.decrypt params))
  /\ (forall params, structured (ChaCha20Engine.encrypt params))
  /\ (forall params, structured (ChaCha20Engine.decrypt params)).
Proof.
  repeat split; intros.
  - apply feistel_encrypt_structured.
  - apply feistel_decrypt_structured.
  - apply feistel_encrypt_structured.
  - apply feistel_decrypt_structured.
  - apply salsa_encrypt_structured.
  - apply salsa_decrypt_structured.
  - apply chacha_encrypt_structured.
  - apply chacha_decrypt_structured.
Qed.

(** ** Known-answer test of the ChaCha20 block function *)

(** key: 31 zero bytes then 01; nonce: 12 zero bytes (RFC 8439, appendix
    A.1, test vector 3) *)
Definition rfc8439_key : list Z := repeat 0 31 ++ [1].
Definition rfc8439_nonce : list Z := repeat 0 12.
Definition rfc8439_keystream : list Z :=
  [ 0x3a; 0xeb; 0x52; 0x24; 0xec; 0xf8; 0x49; 0x92;
    0x9b; 0x9d; 0x82; 0x8d; 0xb1; 0xce; 0xd4; 0xdd;
    0x83; 0x20; 0x25; 0xe8; 0x01; 0x8b; 0x81; 0x60;
    0xb8; 0x22; 0x84; 0xf3; 0xc9; 0x49; 0xaa; 0x5a;
    0x8e; 0xca; 0x00; 0xbb; 0xb4; 0xa7; 0x3b; 0xda;
    0xd1; 0x92; 0xb5; 0xc4; 0x2f; 0x73; 0xf2; 0xfd;
    0x4e; 0x27; 0x36; 0x44; 0xc8; 0xb3; 0x61; 0x25;
    0xa6; 0x4a; 0xdd; 0xeb; 0x00; 0x6c; 0x13; 0xa0 ].

(** C3: with the key of 32 zero bytes except the last byte set to 1, the
    all-zero 12-byte test nonce and block counter 1, [chacha20Block]
    produces exactly the 64-byte keystream block published in RFC 8439. *)
Theorem C3_chacha20_block_rfc8439_vector :
  ChaCha20.chacha20Block rfc8439_key rfc8439_nonce 1 = rfc8439_keystream.
Proof. vm_compute. reflexivity. Qed.

(** ** The XTEA block functions *)

Definition zero_block : WordArray := WordArray_create [0; 0] 8.
Definition zero_key : WordArray := WordArray_create [0; 0; 0; 0] 16.

(** C2 (failing input): for the block of 8 zero bytes and the key of 16
    zero bytes, the XTEA [decryptBlock] applied to the result of
    [encryptBlock] gives the words 0x9bf3fd39 0xce81477d, not the block. *)
Theorem C2_xtea_decryptBlock_does_not_invert :
  words (XteaCore.decryptBlock (XteaCore.encryptBlock zero_block zero_key) zero_key)
  = [0x9bf3fd39; 0xce81477d]
  /\ words (XteaCore.decryptBlock (XteaCore.encryptBlock zero_block zero_key) zero_key)
     <> words zero_block.
Proof. split; vm_compute; [reflexivity | discriminate]. Qed.

(** ** The registry *)

Section Registry.
Import CipherRegistry.

Lemma getEngine_register e st i :
  getEngine i (register e st)
  = if decide (id (engine_metadata e) = i) then Some e else getEngine i st.
Proof. unfold getEngine, register. simpl. apply lookup_insert. Qed.

Lemma getMetadata_register e st i :
  getMetadata i (register e st)
  = if decide (id (engine_metadata e) = i) then Some (engine_metadata e)
    else getMetadata i st.
Proof. unfold getMetadata, register. simpl. apply lookup_insert. Qed.

(** the identifiers registered by a sequence of [register] calls *)
Definition registered_ids (es : list CipherEngine) : list (list Z) :=
  map (fun e => id (engine_metadata e)) es.

Lemma register_all_unknown es st i :
  i ∉ registered_ids es ->
  getEngine i (register_all es st) = getEngine i st
  /\ getMetadata i (register_all es st) = getMetadata i st.
Proof.
  revert st. induction es as [|e es IH]; intros st Hi; [now split|].
  simpl in *. apply not_elem_of_cons in Hi as [Hne Hi].
  destruct (IH (register e st) Hi) as [-> ->].
  rewrite getEngine_register, getMetadata_register.
  destruct (decide (id (engine_metadata e) = i)); [congruence|now split].
Qed.

End Registry.

(** C9: [register] stores the engine and its metadata under the identifier
    declared in the engine's own metadata, whatever was stored there before
    (the last registration wins and nothing is reported), other identifiers
    are untouched, and [getEngine] / [getMetadata] return the absent value
    for an identifier that was never registered. *)
Theorem C9_registry_register_and_lookup :
  (forall e st,
      CipherRegistry.getEngine (id (engine_metadata e)) (CipherRegistry.register e st)
      = Some e
      /\ CipherRegistry.getMetadata (id (engine_metadata e)) (CipherRegistry.register e st)
         = Some (engine_metadata e))
  /\ (forall e1 e2 st,
      id (engine_metadata e1) = id (engine_metadata e2) ->
      CipherRegistry.getEngine (id (engine_metadata e1))
        (CipherRegistry.register e2 (CipherRegistry.register e1 st)) = Some e2)
  /\ (forall e st i,
      i <> id (engine_metadata e) ->
      CipherRegistry.getEngine i (CipherRegistry.register e st)
      = CipherRegistry.getEngine i st)
  /\ (forall es i,
      i ∉ registered_ids es ->
      CipherRegistry.getEngine i (CipherRegistry.register_all es CipherRegistry.initial)
      = None
      /\ CipherRegistry.getMetadata i (CipherRegistry.register_all es CipherRegistry.initial)
         = None).
Proof.
  repeat split.
  - rewrite getEngine_register. now rewrite decide_True.
  - rewrite getMetadata_register. now rewrite decide_True.
  - intros e1 e2 st H. rewrite getEngine_register. now rewrite decide_True.
  - intros e st i H. rewrite getEngine_register. now rewrite decide_False.
  - destruct (register_all_unknown es CipherRegistry.initial i H) as [-> _].
    apply lookup_empty.
  - destruct (register_all_unknown es CipherRegistry.initial i H) as [_ ->].
    apply lookup_empty.
Qed.

(** an engine that declares the identifier of TEA but runs XTEA *)
Definition shadow_tea : CipherEngine :=
  mkCipherEngine TeaEngine.metadata XteaEngine.encrypt XteaEngine.decrypt.

Definition core_engines : list CipherEngine :=
  [ChaCha20Engine_instance; Salsa20Engine_instance; TeaEngine_instance;
   XteaEngine_instance].

Lemma C9_registry_register_and_lookup_witness :
  CipherRegistry.getEngine (js "tea")
    (CipherRegistry.register shadow_tea
       (CipherRegistry.register TeaEngine_instance CipherRegistry.initial))
  = Some shadow_tea
  /\ CipherRegistry.getEngine (js "xtea")
       (CipherRegistry.register TeaEngine_instance CipherRegistry.initial)
     = CipherRegistry.getEngine (js "xtea") CipherRegistry.initial
  /\ CipherRegistry.getEngine (js "aes")
       (CipherRegistry.register_all core_engines CipherRegistry.initial) = None
  /\ CipherRegistry.getMetadata (js "aes")
       (CipherRegistry.register_all core_engines CipherRegistry.initial) = None.
Proof.
  destruct C9_registry_register_and_lookup as (_ & H2 & H3 & H4).
  split; [|split].
  - exact (H2 TeaEngine_instance shadow_tea CipherRegistry.initial eq_refl).
  - apply (H3 TeaEngine_instance CipherRegistry.initial (js "xtea")).
    vm_compute. discriminate.
  - apply (H4 core_engines (js "aes")).
    vm_compute. intros H.
    repeat (apply elem_of_cons in H as [H|H]; [discriminate H|]).
    now apply elem_of_nil in H.
Defined.

(** ** Validation in the facades *)

(** the byte length of a key given in hexadecimal: two characters per byte *)
Definition key_byte_length (key : jsstring) : Q := Z.of_nat (length key) # 2.

Lemma sigBytes_Hex_parse s : sigBytes (CryptoJS.Hex_parse s) = key_byte_length s.
Proof. reflexivity. Qed.

Lemma Qeq_bool_half (n : nat) (k : Z) :
  Qeq_bool (Z.of_nat n # 2) (inject_Z k) = true <-> (Z.of_nat n # 2 == inject_Z k)%Q.
Proof. apply Qeq_bool_iff. Qed.

Lemma feistel_validateKey_spec key :
  validateKey key = true <-> (key_byte_length key == 16)%Q.
Proof. unfold validateKey. rewrite sigBytes_Hex_parse. apply Qeq_bool_iff. Qed.

Lemma feistel_validateKey_length key :
  validateKey key = true <-> length key = 32%nat.
Proof.
  rewrite feistel_validateKey_spec. unfold key_byte_length, Qeq. simpl. lia.
Qed.

Lemma salsa_validateKey_spec key :
  salsa_validateKey key = true
  <-> (key_byte_length key == 16)%Q \/ (key_byte_length key == 32)%Q.
Proof.
  unfold salsa_validateKey. rewrite sigBytes_Hex_parse, orb_true_iff.
  now rewrite !Qeq_bool_iff.
Qed.

Lemma chacha_validateKey_length key :
  chacha_validateKey key = true -> (key_byte_length key == 32)%Q.
Proof.
  unfold chacha_validateKey, CryptoUtils.validateKeyLength.
  destruct (CryptoUtils.isValidHex key); simpl; [|discriminate].
  rewrite orb_false_r. intros H. apply Qeq_bool_iff in H.
  unfold key_byte_length. now symmetry.
Qed.

Lemma str_eqb_refl s : str_eqb s s = true.
Proof. unfold str_eqb. now apply bool_decide_eq_true. Qed.

Lemma str_eqb_eq a b : str_eqb a b = true <-> a = b.
Proof. unfold str_eqb. apply bool_decide_eq_true. Qed.

Lemma str_eqb_CBC_ECB : str_eqb (js "CBC") (js "ECB") = false.
Proof. vm_compute. reflexivity. Qed.

Section FeistelValidation.
Variables (NAME default_variant : jsstring).
Variables encryptBlock decryptBlock : WordArray -> WordArray -> WordArray.

Local Abbreviation fenc := (encrypt NAME default_variant encryptBlock decryptBlock).
Local Abbreviation fdec := (decrypt NAME default_variant encryptBlock decryptBlock).

Lemma feistel_encrypt_empty_plaintext random params :
  plaintext params = [] ->
  fenc random params = Ok (op_failure (js "Plaintext and key are required")).
Proof. intros H. unfold encrypt, encrypt_body. now rewrite H. Qed.

Lemma feistel_encrypt_invalid_key random params :
  validateKey (enc_key params) = false ->
  exists msg, fenc random params = Ok (op_failure msg)
    /\ (plaintext params <> [] -> enc_key params <> [] ->
        msg = invalid_key_message NAME).
Proof.
  intros H. unfold encrypt, encrypt_body. rewrite H.
  destruct (plaintext params) as [|c p], (enc_key params) as [|k ks]; simpl;
    eexists; (split; [reflexivity|]); intros; congruence.
Qed.

Lemma feistel_decrypt_missing_iv params :
  (dec_mode params = None \/ dec_mode params = Some (js "CBC")) ->
  truthy (dec_iv params) = false ->
  exists msg, fdec params = Ok (op_failure msg)
    /\ (ciphertext params <> [] -> validateKey (dec_key params) = true ->
        msg = js "IV is required for CBC mode").
Proof.
  intros Hmode Hiv. unfold decrypt, decrypt_body. rewrite Hiv.
  assert (Hm : default (js "CBC") (dec_mode params) = js "CBC")
    by (destruct Hmode as [-> | ->]; reflexivity).
  rewrite Hm, str_eqb_CBC_ECB, str_eqb_refl. clear Hm.
  destruct (ciphertext params) as [|c cs]; simpl;
    [eexists; (split; [reflexivity|]); intros; congruence|].
  destruct (dec_key params) as [|k ks]; simpl;
    [eexists; (split; [reflexivity|]); intros _ Hk; now vm_compute in Hk|].
  destruct (validateKey (k :: ks)); simpl;
    eexists; (split; [reflexivity|]); intros; congruence.
Qed.

Lemma feistel_encrypt_random_iv random params pb ivr :
  (enc_mode params = None \/ enc_mode params = Some (js "CBC")) ->
  truthy (enc_iv params) = false ->
  plaintext params <> [] ->
  validateKey (enc_key params) = true ->
  random 8 = Ok ivr ->
  CryptoJS.Utf8_parse (plaintext params) = Ok pb ->
  fenc random params
  = Ok (op_success (encryptCBC encryptBlock pb (CryptoJS.Hex_parse (enc_key params)) ivr)
          (feistel_metadata (js "CBC") (default default_variant (enc_variant params)))).
Proof.
  intros Hmode Hiv Hp Hk Hr Hpb. unfold encrypt, encrypt_body.
  assert (Hm : default (js "CBC") (enc_mode params) = js "CBC")
    by (destruct Hmode as [-> | ->]; reflexivity).
  rewrite Hm, Hiv, Hk, Hr, Hpb, str_eqb_CBC_ECB, str_eqb_refl. clear Hm.
  destruct (plaintext params) as [|c p]; [congruence|].
  destruct (enc_key params) as [|k ks]; [discriminate Hk|].
  reflexivity.
Qed.

End FeistelValidation.

Lemma salsa_encrypt_empty_plaintext blk params :
  plaintext params = [] ->
  salsa_encrypt blk params = Ok (op_failure (js "Plaintext and key are required")).
Proof. intros H. unfold salsa_encrypt, salsa_encrypt_body. now rewrite H. Qed.

Lemma salsa_encrypt_invalid_key blk params :
  salsa_validateKey (enc_key params) = false ->
  exists msg, salsa_encrypt blk params = Ok (op_failure msg)
    /\ (plaintext params <> [] -> enc_key params <> [] ->
        truthy (enc_nonce params) = true ->
        msg = js "Invalid Salsa20 key. Must be 16 or 32 bytes").
Proof.
  intros H. unfold salsa_encrypt, salsa_encrypt_body. rewrite H.
  destruct (plaintext params) as [|c p]; simpl;
    [eexists; (split; [reflexivity|]); intros; congruence|].
  destruct (enc_key params) as [|k ks]; simpl;
    [eexists; (split; [reflexivity|]); intros; congruence|].
  destruct (truthy (enc_nonce params)); simpl;
    eexists; (split; [reflexivity|]); intros; congruence.
Qed.

Lemma chacha_encrypt_invalid_key blk params :
  chacha_validateKey (enc_key params) = false ->
  chacha_encrypt blk params = Ok (op_failure chacha_invalid_key).
Proof. intros H. unfold chacha_encrypt, chacha_encrypt_body. now rewrite H. Qed.

Lemma chacha_encrypt_nil blk key nonce : ChaCha20.encrypt blk [] key nonce = [].
Proof. reflexivity. Qed.

Lemma chacha_encrypt_empty_plaintext blk params :
  plaintext params = [] ->
  chacha_validateKey (enc_key params) = true ->
  truthy (enc_nonce params) = true ->
  chacha_validateNonce (default [] (enc_nonce params)) = true ->
  chacha_encrypt blk params = Ok (op_success [] chacha_metadata).
Proof.
  intros Hp Hk Hn Hv. unfold chacha_encrypt, chacha_encrypt_body.
  now rewrite Hp, Hk, Hn, Hv.
Qed.

(** C10: TEA, XTEA and Salsa20 reject the empty plaintext with a failure
    result, whatever the cipher primitive is (it is not run); ChaCha20, given
    a valid key and nonce, accepts it and returns a success result with the
    empty ciphertext. *)
Theorem C10_empty_plaintext :
  (forall encB decB random params,
      plaintext params = [] ->
      TeaEngine.encrypt_with encB decB random params
      = Ok (op_failure (js "Plaintext and key are required")))
  /\ (forall encB decB random params,
      plaintext params = [] ->
      XteaEngine.encrypt_with encB decB random params
      = Ok (op_failure (js "Plaintext and key are required")))
  /\ (forall blk params,
      plaintext params = [] ->
      Salsa20Engine.encrypt_with blk params
      = Ok (op_failure (js "Plaintext and key are required")))
  /\ (forall params,
      plaintext params = [] ->
      ChaCha20Engine.validateKey (enc_key params) = true ->
      truthy (enc_nonce params) = true ->
      ChaCha20Engine.validateNonce (default [] (enc_nonce params)) = true ->
      ChaCha20Engine.encrypt params = Ok (op_success [] chacha_metadata)).
Proof.
  split; [|split; [|split]]; intros.
  - now apply feistel_encrypt_empty_plaintext.
  - now apply feistel_encrypt_empty_plaintext.
  - now apply salsa_encrypt_empty_plaintext.
  - now apply chacha_encrypt_empty_plaintext.
Qed.

Definition hex_key_32 : jsstring :=
  js "000102030405060708090a0b0c0d0e0f101112131415161718191a1b1c1d1e1f".
Definition hex_key_16 : jsstring := js "000102030405060708090a0b0c0d0e0f".
Definition hex_nonce_12 : jsstring := js "000000090000004a00000000".
Definition hex_nonce_8 : jsstring := js "0001020304050607".
Definition hex_iv_8 : jsstring := js "0706050403020100".

(** the random source that always draws zero bytes *)
Definition zero_random (n : Z) : outcome WordArray :=
  Ok (WordArray_create (repeat 0 (Z.to_nat ((n + 3) / 4))) (inject_Z n)).

Lemma C10_empty_plaintext_witness :
  TeaEngine.encrypt_with TeaCore.encryptBlock TeaCore.decryptBlock zero_random
    (mkEncryptionParams [] hex_key_16 None None None None)
  = Ok (op_failure (js "Plaintext and key are required"))
  /\ XteaEngine.encrypt_with XteaCore.encryptBlock XteaCore.decryptBlock zero_random
    (mkEncryptionParams [] hex_key_16 None None None None)
  = Ok (op_failure (js "Plaintext and key are required"))
  /\ Salsa20Engine.encrypt_with Salsa20Core.salsa20Block
    (mkEncryptionParams [] hex_key_32 None (Some hex_nonce_8) None None)
  = Ok (op_failure (js "Plaintext and key are required"))
  /\ ChaCha20Engine.encrypt
    (mkEncryptionParams [] hex_key_32 None (Some hex_nonce_12) None None)
  = Ok (op_success [] chacha_metadata).
Proof.
  destruct C10_empty_plaintext as (H1 & H2 & H3 & H4).
  split; [|split; [|split]].
  - apply H1. reflexivity.
  - apply H2. reflexivity.
  - apply H3. reflexivity.
  - apply H4; reflexivity.
Defined.

(** C7 (amended): an encrypt call whose key byte length is not in the
    required set returns a failure result whatever the cipher primitive is
    (it is not invoked).  The failure reports the invalid key when the
    earlier presence checks pass: for TEA, XTEA and Salsa20 the plaintext and
    the key are not empty, and for Salsa20 a nonce is given; ChaCha20 checks
    the key first and always reports it. *)
Theorem C7_invalid_key_length_rejected :
  (forall encB decB random params,
      ~ (key_byte_length (enc_key params) == 16)%Q ->
      exists msg,
        TeaEngine.encrypt_with encB decB random params = Ok (op_failure msg)
        /\ (plaintext params <> [] -> enc_key params <> [] ->
            msg = js "Invalid TEA key. Must be exactly 16 bytes (128 bits)"))
  /\ (forall encB decB random params,
      ~ (key_byte_length (enc_key params) == 16)%Q ->
      exists msg,
        XteaEngine.encrypt_with encB decB random params = Ok (op_failure msg)
        /\ (plaintext params <> [] -> enc_key params <> [] ->
            msg = js "Invalid XTEA key. Must be exactly 16 bytes (128 bits)"))
  /\ (forall blk params,
      ~ (key_byte_length (enc_key params) == 16)%Q ->
      ~ (key_byte_length (enc_key params) == 32)%Q ->
      exists msg,
        Salsa20Engine.encrypt_with blk params = Ok (op_failure msg)
        /\ (plaintext params <> [] -> enc_key params <> [] ->
            truthy (enc_nonce params) = true ->
            msg = js "Invalid Salsa20 key. Must be 16 or 32 bytes"))
  /\ (forall blk params,
      ~ (key_byte_length (enc_key params) == 32)%Q ->
      ChaCha20Engine.encrypt_with blk params
      = Ok (op_failure (js "Invalid key length. Expected 32 bytes (64 hex characters)."))).
Proof.
  split; [|split; [|split]].
  - intros encB decB random params Hk.
    apply (feistel_encrypt_invalid_key (js "TEA") (js "tea")).
    apply not_true_is_false. now rewrite feistel_validateKey_spec.
  - intros encB decB random params Hk.
    apply (feistel_encrypt_invalid_key (js "XTEA") (js "xtea")).
    apply not_true_is_false. now rewrite feistel_validateKey_spec.
  - intros blk params H16 H32.
    apply salsa_encrypt_invalid_key.
    apply not_true_is_false. rewrite salsa_validateKey_spec. tauto.
  - intros blk params Hk.
    apply chacha_encrypt_invalid_key.
    apply not_true_is_false. intros H. now apply chacha_validateKey_length in H.
Qed.

(** a key one byte short: 15 bytes, and one of 31 bytes *)
Definition hex_key_15 : jsstring := js "000102030405060708090a0b0c0d0e".
Definition hex_key_31 : jsstring :=
  js "000102030405060708090a0b0c0d0e0f101112131415161718191a1b1c1d1e".

Lemma C7_invalid_key_length_rejected_witness :
  (exists msg,
      TeaEngine.encrypt_with TeaCore.encryptBlock TeaCore.decryptBlock zero_random
        (mkEncryptionParams (js "A") hex_key_15 None None None None)
      = Ok (op_failure msg)
      /\ (js "A" <> [] -> hex_key_15 <> [] ->
          msg = js "Invalid TEA key. Must be exactly 16 bytes (128 bits)"))
  /\ (exists msg,
      XteaEngine.encrypt_with XteaCore.encryptBlock XteaCore.decryptBlock zero_random
        (mkEncryptionParams (js "A") hex_key_15 None None None None)
      = Ok (op_failure msg)
      /\ (js "A" <> [] -> hex_key_15 <> [] ->
          msg = js "Invalid XTEA key. Must be exactly 16 bytes (128 bits)"))
  /\ (exists msg,
      Salsa20Engine.encrypt_with Salsa20Core.salsa20Block
        (mkEncryptionParams (js "A") hex_key_31 None (Some hex_nonce_8) None None)
      = Ok (op_failure msg)
      /\ (js "A" <> [] -> hex_key_31 <> [] -> truthy (Some hex_nonce_8) = true ->
          msg = js "Invalid Salsa20 key. Must be 16 or 32 bytes"))
  /\ ChaCha20Engine.encrypt_with ChaCha20.chacha20Block
       (mkEncryptionParams (js "A") hex_key_31 None (Some hex_nonce_12) None None)
     = Ok (op_failure (js "Invalid key length. Expected 32 bytes (64 hex characters).")).
Proof.
  destruct C7_invalid_key_length_rejected as (H1 & H2 & H3 & H4).
  split; [|split; [|split]].
  - apply (H1 _ _ _ (mkEncryptionParams (js "A") hex_key_15 None None None None)).
    vm_compute. discriminate.
  - apply (H2 _ _ _ (mkEncryptionParams (js "A") hex_key_15 None None None None)).
    vm_compute. discriminate.
  - apply (H3 _ (mkEncryptionParams (js "A") hex_key_31 None (Some hex_nonce_8) None None));
      vm_compute; discriminate.
  - apply (H4 _ (mkEncryptionParams (js "A") hex_key_31 None (Some hex_nonce_12) None None)).
    vm_compute. discriminate.
Defined.

(** C7 (counterexample): a Salsa20 encrypt call with a key of 15 bytes, one
    short of 16, and no nonce fails with the missing-nonce message, not
    with the invalid-key message. *)
Lemma C7_counterexample_salsa20_short_key_without_nonce :
  let params := mkEncryptionParams (js "A") hex_key_15 None None None None in
  ~ (key_byte_length (enc_key params) == 16)%Q
  /\ ~ (key_byte_length (enc_key params) == 32)%Q
  /\ Salsa20Engine.encrypt params = Ok (op_failure (js "Nonce is required for Salsa20"))
  /\ js "Nonce is required for Salsa20" <> js "Invalid Salsa20 key. Must be 16 or 32 bytes".
Proof. vm_compute. repeat split; discriminate. Qed.

(** C5 (amended): for TEA and XTEA, a decrypt call in chained mode (selected,
    or by default) without an IV returns a failure result, whatever the
    block functions are; the failure is the missing-IV one when the
    ciphertext is not empty and the key has 16 bytes.  An encrypt call in
    chained mode without an IV does not fail for that reason: it draws 8
    random bytes and chains from them. *)
Theorem C5_chained_mode_without_iv :
  (forall encB decB params,
      (dec_mode params = None \/ dec_mode params = Some (js "CBC")) ->
      truthy (dec_iv params) = false ->
      exists msg,
        TeaEngine.decrypt_with encB decB params = Ok (op_failure msg)
        /\ (ciphertext params <> [] -> TeaEngine.validateKey (dec_key params) = true ->
            msg = js "IV is required for CBC mode"))
  /\ (forall encB decB params,
      (dec_mode params = None \/ dec_mode params = Some (js "CBC")) ->
      truthy (dec_iv params) = false ->
      exists msg,
        XteaEngine.decrypt_with encB decB params = Ok (op_failure msg)
        /\ (ciphertext params <> [] -> XteaEngine.validateKey (dec_key params) = true ->
            msg = js "IV is required for CBC mode"))
  /\ (forall encB decB random params pb ivr,
      (enc_mode params = None \/ enc_mode params = Some (js "CBC")) ->
      truthy (enc_iv params) = false ->
      plaintext params <> [] ->
      TeaEngine.validateKey (enc_key params) = true ->
      random 8 = Ok ivr ->
      CryptoJS.Utf8_parse (plaintext params) = Ok pb ->
      TeaEngine.encrypt_with encB decB random params
      = Ok (op_success (encryptCBC encB pb (CryptoJS.Hex_parse (enc_key params)) ivr)
              (feistel_metadata (js "CBC") (default (js "tea") (enc_variant params)))))
  /\ (forall encB decB random params pb ivr,
      (enc_mode params = None \/ enc_mode params = Some (js "CBC")) ->
      truthy (enc_iv params) = false ->
      plaintext params <> [] ->
      XteaEngine.validateKey (enc_key params) = true ->
      random 8 = Ok ivr ->
      CryptoJS.Utf8_parse (plaintext params) = Ok pb ->
      XteaEngine.encrypt_with encB decB random params
      = Ok (op_success (encryptCBC encB pb (CryptoJS.Hex_parse (enc_key params)) ivr)
              (feistel_metadata (js "CBC") (default (js "xtea") (enc_variant params))))).
Proof.
  split; [|split; [|split]]; intros.
  - now apply feistel_decrypt_missing_iv.
  - now apply feistel_decrypt_missing_iv.
  - now apply feistel_encrypt_random_iv.
  - now apply feistel_encrypt_random_iv.
Qed.

Definition ciphertext_8 : jsstring := js "133d9767a1212635".

Lemma C5_chained_mode_without_iv_witness :
  (exists msg,
      TeaEngine.decrypt_with TeaCore.encryptBlock TeaCore.decryptBlock
        (mkDecryptionParams ciphertext_8 hex_key_16 None None (Some (js "CBC")) None)
      = Ok (op_failure msg)
      /\ (ciphertext_8 <> [] -> TeaEngine.validateKey hex_key_16 = true ->
          msg = js "IV is required for CBC mode"))
  /\ (exists msg,
      XteaEngine.decrypt_with XteaCore.encryptBlock XteaCore.decryptBlock
        (mkDecryptionParams ciphertext_8 hex_key_16 None None None None)
      = Ok (op_failure msg)
      /\ (ciphertext_8 <> [] -> XteaEngine.validateKey hex_key_16 = true ->
          msg = js "IV is required for CBC mode"))
  /\ TeaEngine.encrypt_with TeaCore.encryptBlock TeaCore.decryptBlock zero_random
       (mkEncryptionParams (js "ABCDEFGH") hex_key_16 None None None None)
     = Ok (op_success
             (encryptCBC TeaCore.encryptBlock
                (CryptoJS.Latin1_parse (js "ABCDEFGH")) (CryptoJS.Hex_parse hex_key_16)
                (WordArray_create [0; 0] 8))
             (feistel_metadata (js "CBC") (js "tea")))
  /\ XteaEngine.encrypt_with XteaCore.encryptBlock XteaCore.decryptBlock zero_random
       (mkEncryptionParams (js "ABCDEFGH") hex_key_16 None None (Some (js "CBC")) None)
     = Ok (op_success
             (encryptCBC XteaCore.encryptBlock
                (CryptoJS.Latin1_parse (js "ABCDEFGH")) (CryptoJS.Hex_parse hex_key_16)
                (WordArray_create [0; 0] 8))
             (feistel_metadata (js "CBC") (js "xtea"))).
Proof.
  destruct C5_chained_mode_without_iv as (H1 & H2 & H3 & H4).
  split; [|split; [|split]].
  - apply (H1 _ _ (mkDecryptionParams ciphertext_8 hex_key_16 None None (Some (js "CBC")) None));
      [right|]; reflexivity.
  - apply (H2 _ _ (mkDecryptionParams ciphertext_8 hex_key_16 None None None None));
      [left|]; reflexivity.
  - apply (H3 _ _ zero_random
             (mkEncryptionParams (js "ABCDEFGH") hex_key_16 None None None None));
      [left; reflexivity | reflexivity | discriminate | reflexivity
      | reflexivity | reflexivity].
  - apply (H4 _ _ zero_random
             (mkEncryptionParams (js "ABCDEFGH") hex_key_16 None None (Some (js "CBC")) None));
      [right; reflexivity | reflexivity | discriminate | reflexivity
      | reflexivity | reflexivity].
Defined.

(** C5 (counterexample): a TEA encrypt call in chained mode without an IV,
    here with a random source that draws zero bytes, succeeds. *)
Lemma C5_counterexample_tea_encrypt_cbc_without_iv :
  TeaEngine.encrypt zero_random
    (mkEncryptionParams (js "ABCDEFGH") (js "00000000000000000000000000000000")
                        None None (Some (js "CBC")) None)
  = Ok (op_success (js "133d9767a1212635")
          (mkOperationMetadata 128 (Some 8) None (Some (js "CBC")) (Some (js "tea")))).
Proof. vm_compute. reflexivity. Qed.

(** ** Bytes of 32-bit words *)

(** addition modulo 2^32 *)
Definition add32 (a b : Z) : Z := (a + b) mod 2 ^ 32.

(** the four bytes of a word [0 <= w < 2^32], least significant first and
    most significant first *)
Definition le_bytes (w : Z) : list Z :=
  [w mod 256; (w / 2 ^ 8) mod 256; (w / 2 ^ 16) mod 256; (w / 2 ^ 24) mod 256].
Definition be_bytes (w : Z) : list Z :=
  [(w / 2 ^ 24) mod 256; (w / 2 ^ 16) mod 256; (w / 2 ^ 8) mod 256; w mod 256].

Definition is_byte (b : Z) : Prop := 0 <= b < 256.

(** goals about [/] and [mod] by a numeral on [nat] *)
Ltac pose_divmod a b :=
  lazymatch goal with
  | _ : a = (b * (a / b) + a mod b)%nat |- _ => fail
  | _ => pose proof (Nat.div_mod_eq a b); pose proof (Nat.mod_upper_bound a b)
  end.

Ltac nat_divmod :=
  repeat match goal with
  | |- context [(?a / ?b)%nat] => pose_divmod a b
  | |- context [(?a mod ?b)%nat] => pose_divmod a b
  | _ : context [(?a / ?b)%nat] |- _ => pose_divmod a b
  | _ : context [(?a mod ?b)%nat] |- _ => pose_divmod a b
  end; lia.

Section ByteLemmas.

Lemma ToInt32_mod_256 x : JS.ToInt32 x mod 256 = x mod 256.
Proof.
  unfold JS.ToInt32. rewrite <- Zminus_mod_idemp_l.
  rewrite (Z.mod_mod_divide _ (2 ^ 32) 256) by (exists (2 ^ 24); lia).
  rewrite Zminus_mod_idemp_l. f_equal. lia.
Qed.

Lemma ToUint32_mod_256 x : JS.ToUint32 x mod 256 = x mod 256.
Proof.
  unfold JS.ToUint32. apply Z.mod_mod_divide. exists (2 ^ 24). lia.
Qed.

(** [x & 0xff] *)
Lemma band_0xff x : (x .& 0xff) = x mod 256.
Proof.
  unfold JS.band. change (JS.ToInt32 255) with (Z.ones 8).
  rewrite Z.land_ones by lia. apply ToInt32_mod_256.
Qed.

(** [x & 0x0f] *)
Lemma band_0x0f x : (x .& 0x0f) = x mod 16.
Proof.
  unfold JS.band. change (JS.ToInt32 15) with (Z.ones 4).
  rewrite Z.land_ones by lia.
  unfold JS.ToInt32. rewrite <- Zminus_mod_idemp_l.
  rewrite (Z.mod_mod_divide _ (2 ^ 32) (2 ^ 4)) by (exists (2 ^ 28); lia).
  rewrite Zminus_mod_idemp_l. f_equal. lia.
Qed.

Lemma shru_spec x n : 0 <= n < 32 -> (x .>>> n) = JS.ToUint32 x / 2 ^ n.
Proof. intros H. unfold JS.shru. now rewrite Z.mod_small. Qed.

Lemma byte_at_spec ws i :
  CryptoJS.byte_at ws i
  = (JS.ToUint32 (JS.at0 ws (i / 4)) / 2 ^ (24 - Z.of_nat (i mod 4) * 8)) mod 256.
Proof.
  unfold CryptoJS.byte_at. rewrite band_0xff, shru_spec; [reflexivity|].
  pose proof (Nat.mod_upper_bound i 4). lia.
Qed.

Lemma byte_at_range ws i : is_byte (CryptoJS.byte_at ws i).
Proof. rewrite byte_at_spec. apply Z.mod_pos_bound. lia. Qed.

Lemma be_bytes_length w : length (be_bytes w) = 4%nat.
Proof. reflexivity. Qed.

Lemma le_bytes_length w : length (le_bytes w) = 4%nat.
Proof. reflexivity. Qed.

Lemma byte_at_cons w ws i : CryptoJS.byte_at (w :: ws) (4 + i) = CryptoJS.byte_at ws i.
Proof.
  unfold CryptoJS.byte_at.
  replace ((4 + i) / 4)%nat with (S (i / 4)) by nat_divmod.
  replace ((4 + i) mod 4)%nat with (i mod 4)%nat by nat_divmod.
  reflexivity.
Qed.

(** all the bytes of an array of words, most significant byte of each word
    first *)
Definition words_bytes (ws : list Z) : list Z :=
  flat_map (fun w => be_bytes (JS.ToUint32 w)) ws.

Lemma words_bytes_length ws : length (words_bytes ws) = (4 * length ws)%nat.
Proof. induction ws as [|w ws IH]; simpl in *; lia. Qed.

Lemma words_bytes_app a b : words_bytes (a ++ b) = words_bytes a ++ words_bytes b.
Proof. unfold words_bytes. now rewrite flat_map_app. Qed.

Lemma map_seq_offset {A} (f : nat -> A) k n :
  map f (seq k n) = map (fun i => f (k + i)%nat) (seq 0 n).
Proof.
  revert f k. induction n as [|n IH]; intros f k; [reflexivity|].
  simpl. rewrite Nat.add_0_r. f_equal.
  rewrite (IH f (S k)), (IH (fun i => f (k + i)%nat) 1%nat).
  apply map_ext. intros i. f_equal. lia.
Qed.

Lemma byte_at_all ws :
  map (CryptoJS.byte_at ws) (seq 0 (4 * length ws)) = words_bytes ws.
Proof.
  induction ws as [|w ws IH]; [reflexivity|].
  replace (4 * length (w :: ws))%nat with (4 + 4 * length ws)%nat by (simpl; lia).
  rewrite seq_app, map_app. simpl seq at 1.
  rewrite (map_seq_offset _ (0 + 4)).
  rewrite (map_ext (fun i => CryptoJS.byte_at (w :: ws) (0 + 4 + i)%nat)
                   (CryptoJS.byte_at ws)) by (intros; apply byte_at_cons).
  rewrite IH. cbn [map]. rewrite !byte_at_spec.
  change (words_bytes (w :: ws)) with (be_bytes (JS.ToUint32 w) ++ words_bytes ws).
  f_equal. unfold be_bytes.
  rewrite <- (Z.div_1_r (JS.ToUint32 w)) at 4. reflexivity.
Qed.

(** the first [n] bytes, as [Latin1.stringify] and [Hex.stringify] read them *)
Lemma byte_at_prefix ws n :
  (n <= 4 * length ws)%nat ->
  map (CryptoJS.byte_at ws) (seq 0 n) = take n (words_bytes ws).
Proof.
  intros H. rewrite <- byte_at_all.
  change (take n (map ?f ?l)) with (take n (f <$> l)).
  rewrite <- fmap_take, take_seq, Nat.min_l by lia. reflexivity.
Qed.

(** *** Bits *)

Lemma testbit_ToUint32 x n :
  0 <= n -> Z.testbit (JS.ToUint32 x) n = (n <? 32) && Z.testbit x n.
Proof.
  intros Hn. unfold JS.ToUint32. destruct (Z.ltb_spec n 32).
  - now rewrite Z.mod_pow2_bits_low by lia.
  - now rewrite Z.mod_pow2_bits_high by lia.
Qed.

Lemma testbit_ToInt32 x n :
  0 <= n < 32 -> Z.testbit (JS.ToInt32 x) n = Z.testbit x n.
Proof.
  intros Hn.
  assert (H := testbit_ToUint32 (JS.ToInt32 x) n ltac:(lia)).
  rewrite ToUint32_ToInt32, testbit_ToUint32 in H by lia.
  destruct (Z.ltb_spec n 32); [|lia]. simpl in H. congruence.
Qed.

(** the bits of the byte at shift [s] of [x] *)
Lemma testbit_byte x s n :
  0 <= s -> 0 <= n ->
  Z.testbit ((x / 2 ^ s) mod 256) n = (n <? 8) && Z.testbit x (n + s).
Proof.
  intros Hs Hn. change 256 with (2 ^ 8). destruct (Z.ltb_spec n 8).
  - rewrite Z.mod_pow2_bits_low by lia. now rewrite Z.div_pow2_bits by lia.
  - now rewrite Z.mod_pow2_bits_high by lia.
Qed.

(** a byte of [x ^ y] is the exclusive or of the bytes of [x] and [y] *)
Lemma byte_bxor x y s :
  0 <= s <= 24 ->
  (JS.ToUint32 (x .^ y) / 2 ^ s) mod 256
  = Z.lxor ((JS.ToUint32 x / 2 ^ s) mod 256) ((JS.ToUint32 y / 2 ^ s) mod 256).
Proof.
  intros Hs. apply Z.bits_inj'. intros n Hn.
  rewrite Z.lxor_spec, !testbit_byte by lia.
  destruct (Z.ltb_spec n 8); simpl; [|reflexivity].
  rewrite !testbit_ToUint32 by lia.
  destruct (Z.ltb_spec (n + s) 32); [|lia]. simpl.
  unfold JS.bxor. rewrite Z.lxor_spec, !testbit_ToInt32 by lia. reflexivity.
Qed.

Lemma at0_xor_words a b j :
  (j < length a)%nat -> (j < length b)%nat ->
  JS.at0 (xor_words a b) j = ((JS.at0 a j) .^ (JS.at0 b j)).
Proof.
  revert b j. induction a as [|x a IH]; intros [|y b] j Ha Hb; simpl in *; try lia.
  destruct j as [|j]; [reflexivity|].
  change (JS.at0 (xor_words (x :: a) (y :: b)) (S j)) with (JS.at0 (xor_words a b) j).
  change (JS.at0 (x :: a) (S j)) with (JS.at0 a j).
  change (JS.at0 (y :: b) (S j)) with (JS.at0 b j).
  apply IH; lia.
Qed.

Lemma xor_words_length a b : length (xor_words a b) = length a.
Proof.
  revert b. induction a as [|x a IH]; intros [|y b]; simpl; auto.
Qed.

Lemma byte_at_xor_words a b i :
  (i / 4 < length a)%nat -> (i / 4 < length b)%nat ->
  CryptoJS.byte_at (xor_words a b) i
  = Z.lxor (CryptoJS.byte_at a i) (CryptoJS.byte_at b i).
Proof.
  intros Ha Hb. rewrite !byte_at_spec, at0_xor_words by assumption.
  apply byte_bxor. pose proof (Nat.mod_upper_bound i 4). lia.
Qed.

End ByteLemmas.

(** ** Finalization of the two ARX block functions *)

#[local] Arguments JS.ToUint32 : simpl never.
#[local] Arguments JS.ToInt32 : simpl never.
#[local] Arguments JS.shl : simpl never.
#[local] Arguments JS.shru : simpl never.
#[local] Arguments JS.bxor : simpl never.
#[local] Arguments JS.bor : simpl never.
#[local] Arguments JS.band : simpl never.
#[local] Arguments Z.add : simpl never.
#[local] Arguments Z.mul : simpl never.
#[local] Arguments Z.modulo : simpl never.
#[local] Arguments Z.div : simpl never.
#[local] Arguments Z.pow : simpl never.

(** a list of exactly 16 elements, element by element *)
Ltac list16 l H :=
  do 16 (destruct l as [|? l]; [discriminate H|]);
  destruct l; [clear H|discriminate H].

Lemma array_set_lt l i v : (i < length l)%nat -> array_set l i v = <[i := v]> l.
Proof.
  intros H. unfold array_set.
  destruct (Nat.ltb_spec i (length l)); [reflexivity|lia].
Qed.

Lemma array_set_length l i v n :
  (i < n)%nat -> length l = n -> length (array_set l i v) = n.
Proof.
  intros H <-. rewrite array_set_lt by assumption. apply length_insert.
Qed.

Lemma u32_set_length l i v : length (u32_set l i v) = length l.
Proof. apply length_insert. Qed.

Lemma u8_set_length l i v : length (u8_set l i v) = length l.
Proof. apply length_insert. Qed.

Lemma add32_ToUint32 a b : JS.ToUint32 (a + b) = add32 a b.
Proof. reflexivity. Qed.

Lemma add32_range a b : 0 <= add32 a b < 2 ^ 32.
Proof. apply Z.mod_pos_bound. lia. Qed.

Module Salsa20Final.
Import Salsa20Core.

Lemma salsa_quarterRound_length st a b c d n :
  (a < n)%nat -> (b < n)%nat -> (c < n)%nat -> (d < n)%nat ->
  length st = n -> length (quarterRound st a b c d) = n.
Proof.
  intros Ha Hb Hc Hd H. unfold quarterRound.
  repeat (apply array_set_length; [assumption|]). exact H.
Qed.

Lemma salsa_double_round_length st : length st = 16%nat -> length (double_round st) = 16%nat.
Proof.
  intros H. unfold double_round.
  repeat (apply salsa_quarterRound_length; [lia|lia|lia|lia|]). exact H.
Qed.

Lemma salsa_rounds_length n st :
  length st = 16%nat -> length (Nat.iter n double_round st) = 16%nat.
Proof.
  intros H. induction n as [|n IH]; [exact H|].
  change (Nat.iter (S n) double_round st) with (double_round (Nat.iter n double_round st)).
  now apply salsa_double_round_length.
Qed.

Lemma salsa_initial_state_length key nonce counter :
  length (initial_state key nonce counter) = 16%nat.
Proof. reflexivity. Qed.

Lemma salsa_add_original_spec ws st :
  length ws = 16%nat -> length st = 16%nat ->
  add_original ws st = zip_with add32 ws st.
Proof.
  intros Hw Hs. list16 ws Hw. list16 st Hs.
  cbv [add_original fold_left seq array_set length Nat.ltb Nat.leb
       insert list_insert JS.at0 lookup list_lookup default from_option Datatypes.id].
  reflexivity.
Qed.

Lemma salsa20Block_spec key nonce counter rounds :
  salsa20Block key nonce counter rounds
  = zip_with add32
      (Nat.iter (iterations rounds) double_round (initial_state key nonce counter))
      (initial_state key nonce counter).
Proof.
  unfold salsa20Block. apply salsa_add_original_spec.
  - apply salsa_rounds_length, salsa_initial_state_length.
  - apply salsa_initial_state_length.
Qed.

Lemma salsa20Block_length key nonce counter rounds :
  length (salsa20Block key nonce counter rounds) = 16%nat.
Proof.
  rewrite salsa20Block_spec, length_zip_with, salsa_rounds_length, salsa_initial_state_length;
    auto using salsa_initial_state_length.
Qed.

Lemma salsa20Block_range key nonce counter rounds :
  Forall (fun w => 0 <= w < 2 ^ 32) (salsa20Block key nonce counter rounds).
Proof.
  rewrite salsa20Block_spec.
  generalize (Nat.iter (iterations rounds) double_round (initial_state key nonce counter)).
  generalize (initial_state key nonce counter).
  intros st ws. revert st. induction ws as [|w ws IH]; intros [|s st]; simpl;
    try constructor; auto using add32_range.
Qed.

End Salsa20Final.

Module ChaCha20Final.
Import ChaCha20.

Lemma chacha_quarterRound_length st a b c d :
  length (quarterRound st a b c d) = length st.
Proof. unfold quarterRound. now rewrite !u32_set_length. Qed.

Lemma chacha_double_round_length st : length (double_round st) = length st.
Proof. unfold double_round. now rewrite !chacha_quarterRound_length. Qed.

Lemma chacha_rounds_length n st : length (Nat.iter n double_round st) = length st.
Proof.
  induction n as [|n IH]; [reflexivity|].
  change (Nat.iter (S n) double_round st) with (double_round (Nat.iter n double_round st)).
  now rewrite chacha_double_round_length.
Qed.

Lemma chacha_initial_state_length key nonce counter :
  length (initial_state key nonce counter) = 16%nat.
Proof. reflexivity. Qed.

Lemma chacha_add_original_spec ws st :
  length ws = 16%nat -> length st = 16%nat ->
  add_original ws st = zip_with add32 ws st.
Proof.
  intros Hw Hs. list16 ws Hw. list16 st Hs.
  cbv [add_original fold_left seq u32_set typed_set
       insert list_insert JS.at0 lookup list_lookup default from_option Datatypes.id].
  rewrite !ToUint32_idem. reflexivity.
Qed.

Lemma final_words_spec key nonce counter :
  final_words key nonce counter
  = zip_with add32 (Nat.iter 10 double_round (initial_state key nonce counter))
                   (initial_state key nonce counter).
Proof.
  unfold final_words. apply chacha_add_original_spec.
  - rewrite chacha_rounds_length. apply chacha_initial_state_length.
  - apply chacha_initial_state_length.
Qed.

Lemma final_words_length key nonce counter :
  length (final_words key nonce counter) = 16%nat.
Proof.
  rewrite final_words_spec, length_zip_with, chacha_rounds_length, chacha_initial_state_length.
  reflexivity.
Qed.

(** the four stores of one iteration of the conversion loop *)
Lemma byte0_store w : (w .& 0xff) mod 256 = JS.ToUint32 w mod 256.
Proof. now rewrite band_0xff, Zmod_mod, ToUint32_mod_256. Qed.

Lemma byteN_store w n :
  0 <= n < 32 -> ((w .>>> n) .& 0xff) mod 256 = (JS.ToUint32 w / 2 ^ n) mod 256.
Proof. intros H. now rewrite band_0xff, Zmod_mod, shru_spec. Qed.

Lemma to_bytes_spec ws :
  length ws = 16%nat ->
  to_bytes ws = flat_map (fun w => le_bytes (JS.ToUint32 w)) ws.
Proof.
  intros Hw. list16 ws Hw.
  cbv [to_bytes fold_left seq repeat u8_set typed_set Nat.mul Nat.add
       insert list_insert JS.at0 lookup list_lookup default from_option Datatypes.id
       flat_map le_bytes app].
  rewrite !(byteN_store _ 8), !(byteN_store _ 16), !(byteN_store _ 24) by lia.
  rewrite !byte0_store. reflexivity.
Qed.

Lemma flat_map_le_bytes_range ws :
  Forall (fun w => 0 <= w < 2 ^ 32) ws ->
  flat_map (fun w => le_bytes (JS.ToUint32 w)) ws = flat_map le_bytes ws.
Proof.
  induction 1 as [|w ws Hw _ IH]; [reflexivity|].
  simpl. now rewrite IH, (ToUint32_small w).
Qed.

Lemma zip_with_add32_range a b : Forall (fun w => 0 <= w < 2 ^ 32) (zip_with add32 a b).
Proof.
  revert b. induction a as [|x a IH]; intros [|y b]; simpl; try constructor;
    auto using add32_range.
Qed.

Lemma chacha20Block_spec key nonce counter :
  chacha20Block key nonce counter
  = flat_map le_bytes
      (zip_with add32 (Nat.iter 10 double_round (initial_state key nonce counter))
                      (initial_state key nonce counter)).
Proof.
  unfold chacha20Block.
  rewrite to_bytes_spec by apply final_words_length.
  rewrite final_words_spec.
  apply flat_map_le_bytes_range, zip_with_add32_range.
Qed.

Lemma chacha20Block_length key nonce counter :
  length (chacha20Block key nonce counter) = 64%nat.
Proof.
  unfold chacha20Block. rewrite to_bytes_spec by apply final_words_length.
  pose proof (final_words_length key nonce counter) as H.
  revert H. generalize (final_words key nonce counter). intros ws H.
  assert (Hl : forall l : list Z,
             length (flat_map (fun w => le_bytes (JS.ToUint32 w)) l) = (4 * length l)%nat).
  { intros l. induction l as [|w l IH]; simpl in *; lia. }
  rewrite Hl, H. reflexivity.
Qed.

End ChaCha20Final.

Lemma flat_map_be_bytes_range ws :
  Forall (fun w => 0 <= w < 2 ^ 32) ws -> words_bytes ws = flat_map be_bytes ws.
Proof.
  induction 1 as [|w ws Hw _ IH]; [reflexivity|].
  unfold words_bytes in *. simpl. now rewrite IH, (ToUint32_small w).
Qed.

(** the keystream of one block, read byte by byte *)
Lemma salsa_keystream_64 key nonce rounds :
  CryptoJS.Latin1_stringify (Salsa20Engine.generateKeystream key nonce 64 rounds)
  = flat_map be_bytes (Salsa20Core.salsa20Block key nonce 0 rounds).
Proof.
  unfold Salsa20Engine.generateKeystream, generateKeystream, CryptoJS.Latin1_stringify.
  cbn [words sigBytes WordArray_create].
  change (Z.to_nat (ceil (64 / 64))) with 1%nat.
  change (Z.to_nat (ceil (64 / 4))) with 16%nat.
  change (CryptoJS.loop_count 64) with 64%nat.
  change (seq 0 1) with [0%nat]. cbn [flat_map]. change (Z.of_nat 0) with 0.
  rewrite app_nil_r.
  rewrite firstn_all2 by (rewrite Salsa20Final.salsa20Block_length; lia).
  rewrite byte_at_prefix by (rewrite Salsa20Final.salsa20Block_length; lia).
  rewrite firstn_all2 by (rewrite words_bytes_length, Salsa20Final.salsa20Block_length; lia).
  apply flat_map_be_bytes_range, Salsa20Final.salsa20Block_range.
Qed.

(** C4 (amended): both block functions end by adding the working state
    after the rounds to the original state, word by word modulo 2^32.
    ChaCha20 then serializes the 16 words to 64 bytes, least significant
    byte first.  Salsa20 does not serialize: the 16 words become the words
    of the keystream word array, whose bytes are read most significant
    first. *)
Theorem C4_finalization :
  (forall key nonce counter rounds,
      Salsa20Core.salsa20Block key nonce counter rounds
      = zip_with add32
          (Nat.iter (Salsa20Core.iterations rounds) Salsa20Core.double_round
                    (Salsa20Core.initial_state key nonce counter))
          (Salsa20Core.initial_state key nonce counter))
  /\ (forall key nonce rounds,
      CryptoJS.Latin1_stringify (Salsa20Engine.generateKeystream key nonce 64 rounds)
      = flat_map be_bytes (Salsa20Core.salsa20Block key nonce 0 rounds))
  /\ (forall key nonce counter,
      ChaCha20.chacha20Block key nonce counter
      = flat_map le_bytes
          (zip_with add32
             (Nat.iter 10 ChaCha20.double_round (ChaCha20.initial_state key nonce counter))
             (ChaCha20.initial_state key nonce counter))
      /\ length (ChaCha20.chacha20Block key nonce counter) = 64%nat).
Proof.
  split; [|split].
  - apply Salsa20Final.salsa20Block_spec.
  - apply salsa_keystream_64.
  - intros. split.
    + apply ChaCha20Final.chacha20Block_spec.
    + apply ChaCha20Final.chacha20Block_length.
Qed.

(** C4 (counterexample): for the key 00 01 .. 1f and the nonce 00 01 .. 07,
    the 64 bytes of the first Salsa20 keystream block are not the
    little-endian bytes of the 16 words of the block. *)
Lemma C4_counterexample_salsa20_not_little_endian :
  CryptoJS.Latin1_stringify
    (Salsa20Engine.generateKeystream (CryptoJS.Hex_parse hex_key_32)
       (CryptoJS.Hex_parse hex_nonce_8) 64 (Some 20))
  <> flat_map le_bytes
       (Salsa20Core.salsa20Block (CryptoJS.Hex_parse hex_key_32)
          (CryptoJS.Hex_parse hex_nonce_8) 0 (Some 20)).
Proof. vm_compute. discriminate. Qed.

(** ** The keystream loops *)

Section Loops.

(** a loop that writes [h j] at index [i + j], for [j] below [r] *)
Lemma fold_insert_range (h : nat -> Z) i r (out : list Z) :
  (i + r <= length out)%nat ->
  fold_left (fun o j => <[(i + j)%nat := h j]> o) (seq 0 r) out
  = take i out ++ map h (seq 0 r) ++ drop (i + r) out.
Proof.
  induction r as [|r IH]; intros Hlen.
  - simpl. now rewrite Nat.add_0_r, take_drop.
  - rewrite seq_S, fold_left_app, IH by lia. simpl fold_left.
    rewrite map_app. simpl map.
    destruct (lookup_lt_is_Some_2 out (i + r)) as [y Hy]; [lia|].
    rewrite (drop_S out y (i + r)) by assumption.
    rewrite (app_assoc (take i out)).
    rewrite insert_app_r_alt by (rewrite length_app, length_take, length_map, length_seq; lia).
    rewrite length_app, length_take, length_map, length_seq.
    replace (i + r - (i `min` length out + r))%nat with 0%nat by lia.
    simpl. rewrite <- !app_assoc. simpl.
    replace (i + S r)%nat with (S (i + r)) by lia. reflexivity.
Qed.

Lemma at0_drop (a : list Z) i j : JS.at0 (drop i a) j = JS.at0 a (i + j).
Proof. unfold JS.at0. now rewrite lookup_drop. Qed.

Lemma at0_lookup (a : list Z) i x : a !! i = Some x -> JS.at0 a i = x.
Proof. unfold JS.at0. now intros ->. Qed.

(** reading two arrays index by index is zipping them *)
Lemma map_seq_zip_with (f : Z -> Z -> Z) a b r :
  (r <= length a)%nat -> (r <= length b)%nat ->
  map (fun j => f (JS.at0 a j) (JS.at0 b j)) (seq 0 r)
  = zip_with f (take r a) (take r b).
Proof.
  revert a b. induction r as [|r IH]; intros a b Ha Hb; [reflexivity|].
  destruct a as [|x a]; [simpl in Ha; lia|].
  destruct b as [|y b]; [simpl in Hb; lia|].
  simpl in *. f_equal. rewrite map_seq_offset.
  rewrite <- IH by lia. reflexivity.
Qed.

Lemma zip_with_take_drop {A B C} (f : A -> B -> C) a b i r :
  take r (drop i (zip_with f a b)) = zip_with f (take r (drop i a)) (take r (drop i b)).
Proof. now rewrite zip_with_drop, zip_with_take. Qed.

(** the concatenation of [n] blocks of [len] elements each *)
Lemma flat_map_blocks_length {A} (blk : nat -> list A) len n :
  (forall k, length (blk k) = len) ->
  length (flat_map blk (seq 0 n)) = (len * n)%nat.
Proof.
  intros H. induction n as [|n IH]; [simpl; lia|].
  rewrite seq_S, flat_map_app, length_app, IH. simpl. rewrite app_nil_r, H. lia.
Qed.

Lemma flat_map_blocks_drop {A} (blk : nat -> list A) len n m :
  (forall k, length (blk k) = len) -> (m < n)%nat ->
  take len (drop (len * m) (flat_map blk (seq 0 n))) = blk m.
Proof.
  intros H Hm.
  replace n with (m + S (n - m - 1))%nat by lia.
  rewrite seq_app, flat_map_app.
  rewrite drop_app_length' by (symmetry; now apply flat_map_blocks_length).
  cbn [seq flat_map]. rewrite take_app_length' by (symmetry; apply H). reflexivity.
Qed.

End Loops.

Lemma drop_repeat {A} (x : A) r n : drop r (repeat x n) = repeat x (n - r).
Proof.
  revert r. induction n as [|n IH]; intros [|r]; simpl; auto.
Qed.

(** [a ^ b] stored in a byte array, for two bytes *)
Lemma xor_bytes_store a b :
  is_byte a -> is_byte b -> (a .^ b) mod 256 = Z.lxor a b.
Proof.
  intros Ha Hb. unfold is_byte in *. apply Z.bits_inj'. intros n Hn.
  change 256 with (2 ^ 8). destruct (Z.ltb_spec n 8).
  - rewrite Z.mod_pow2_bits_low by lia. unfold JS.bxor.
    now rewrite !Z.lxor_spec, !testbit_ToInt32 by lia.
  - rewrite Z.mod_pow2_bits_high, Z.lxor_spec by lia.
    rewrite <- (Z.mod_small a (2 ^ 8)), <- (Z.mod_small b (2 ^ 8)) by lia.
    now rewrite !Z.mod_pow2_bits_high by lia.
Qed.

Module ChaChaLoop.
Section WithBlock.

Variable blk : list Z -> list Z -> Z -> list Z.
Variables key nonce : list Z.
Hypothesis blk_length : forall c, length (blk key nonce c) = 64%nat.

(** the value stored by [output[i + j] = plaintext[i + j] ^ keystream[j]] *)
Definition xor8 (a b : Z) : Z := (a .^ b) mod 256.

Definition keystream (n : nat) : list Z :=
  flat_map (fun k => blk key nonce (Z.of_nat k)) (seq 0 n).

Definition blocks_needed (p : list Z) : nat := ((length p + 63) / 64)%nat.

Definition expected (p : list Z) : list Z :=
  zip_with xor8 p (keystream (blocks_needed p)).

Lemma keystream_length n : length (keystream n) = (64 * n)%nat.
Proof. apply flat_map_blocks_length. intros k. apply blk_length. Qed.

Lemma blocks_needed_bound p : (length p <= 64 * blocks_needed p)%nat.
Proof. unfold blocks_needed. nat_divmod. Qed.

Lemma expected_length p : length (expected p) = length p.
Proof.
  unfold expected. rewrite length_zip_with, keystream_length.
  pose proof (blocks_needed_bound p). lia.
Qed.

Lemma step_spec p m :
  (m < blocks_needed p)%nat ->
  ChaCha20.encrypt_step blk p key nonce
    (take (64 * m) (expected p) ++ repeat 0 (length p - 64 * m), Z.of_nat m) (64 * m)
  = (take (64 * S m) (expected p) ++ repeat 0 (length p - 64 * S m), Z.of_nat (S m)).
Proof.
  intros Hm.
  assert (HL : (64 * m < length p)%nat) by (unfold blocks_needed in Hm; nat_divmod).
  unfold ChaCha20.encrypt_step.
  set (r := Nat.min 64 (length p - 64 * m)).
  set (ks := blk key nonce (Z.of_nat m)).
  set (out := take (64 * m) (expected p) ++ repeat 0 (length p - 64 * m)).
  assert (Hout : length out = length p).
  { unfold out. rewrite length_app, length_take, expected_length, repeat_length. lia. }
  f_equal; [|lia].
  change (fold_left _ (seq 0 r) out)
    with (fold_left (fun o j => <[(64 * m + j)%nat :=
            xor8 (JS.at0 p (64 * m + j)) (JS.at0 ks j)]> o) (seq 0 r) out).
  rewrite fold_insert_range by (rewrite Hout; unfold r; lia).
  (* the three parts *)
  assert (H1 : take (64 * m) out = take (64 * m) (expected p)).
  { unfold out. apply take_app_length'. rewrite length_take, expected_length. lia. }
  assert (H3 : drop (64 * m + r) out = repeat 0 (length p - 64 * m - r)).
  { unfold out. rewrite drop_app_add' by (rewrite length_take, expected_length; lia).
    apply drop_repeat. }
  assert (H2 : map (fun j => xor8 (JS.at0 p (64 * m + j)) (JS.at0 ks j)) (seq 0 r)
               = take r (drop (64 * m) (expected p))).
  { rewrite (map_ext _ (fun j => xor8 (JS.at0 (drop (64 * m) p) j) (JS.at0 ks j)))
      by (intros j; now rewrite at0_drop).
    rewrite map_seq_zip_with
      by (rewrite ?length_drop; unfold ks; rewrite ?blk_length; unfold r; lia).
    unfold expected. rewrite zip_with_take_drop. f_equal.
    replace r with (Nat.min r 64) at 2 by (unfold r; lia).
    rewrite <- take_take.
    unfold keystream.
    rewrite (flat_map_blocks_drop (fun k => blk key nonce (Z.of_nat k)) 64)
      by (auto using blk_length).
    reflexivity. }
  rewrite H1, H2, H3, app_assoc, take_take_drop.
  destruct (Nat.le_gt_cases 64 (length p - 64 * m)) as [Hfull|Hpart].
  - unfold r. rewrite Nat.min_l by lia.
    replace (64 * m + 64)%nat with (64 * S m)%nat by lia.
    replace (length p - 64 * m - 64)%nat with (length p - 64 * S m)%nat by lia.
    reflexivity.
  - unfold r. rewrite Nat.min_r by lia.
    rewrite !take_ge by (rewrite expected_length; lia).
    replace (length p - 64 * m - (length p - 64 * m))%nat with 0%nat by lia.
    replace (length p - 64 * S m)%nat with 0%nat by lia.
    reflexivity.
Qed.

Lemma loop_spec p m :
  (m <= blocks_needed p)%nat ->
  fold_left (ChaCha20.encrypt_step blk p key nonce)
            (map (fun k => (64 * k)%nat) (seq 0 m)) (repeat 0 (length p), 0)
  = (take (64 * m) (expected p) ++ repeat 0 (length p - 64 * m), Z.of_nat m).
Proof.
  induction m as [|m IH]; intros Hm.
  - simpl. now rewrite Nat.sub_0_r.
  - rewrite seq_S, map_app, fold_left_app, IH by lia.
    simpl fold_left. apply step_spec. lia.
Qed.

Lemma encrypt_expected p : ChaCha20.encrypt blk p key nonce = expected p.
Proof.
  unfold ChaCha20.encrypt.
  change ((length p + 63) / 64)%nat with (blocks_needed p).
  rewrite loop_spec by lia. cbn [fst].
  pose proof (blocks_needed_bound p).
  rewrite take_ge by (rewrite expected_length; lia).
  replace (length p - 64 * blocks_needed p)%nat with 0%nat by lia.
  apply app_nil_r.
Qed.

Lemma zip_with_xor8_bytes p ks :
  Forall is_byte p -> Forall is_byte ks ->
  zip_with xor8 p ks = zip_with Z.lxor p ks.
Proof.
  intros Hp. revert ks. induction Hp as [|a p Ha _ IH]; intros ks Hks; [reflexivity|].
  destruct Hks as [|b ks Hb Hks]; [reflexivity|].
  simpl. rewrite IH by assumption. f_equal. now apply xor_bytes_store.
Qed.

Lemma expected_take p :
  expected p = zip_with xor8 p (take (length p) (keystream (blocks_needed p))).
Proof.
  unfold expected. generalize (keystream (blocks_needed p)). intros ks.
  revert ks. induction p as [|a p IH]; intros [|b ks]; simpl; try reflexivity.
  f_equal. apply IH.
Qed.

End WithBlock.
End ChaChaLoop.

(** [Math.ceil(n / 64)] and [Math.ceil(n / 4)] for a natural number of
    bytes *)
Lemma ceil_div_64 (n : nat) :
  Z.to_nat (ceil (inject_Z (Z.of_nat n) / 64)) = ((n + 63) / 64)%nat.
Proof.
  unfold ceil, Qceiling, Qfloor, Qopp, Qdiv, Qmult, Qinv, inject_Z. simpl Qnum. simpl Qden.
  rewrite Z.mul_1_r, Pos.mul_1_l.
  pose proof (Zle_0_nat n).
  apply Nat2Z.inj. rewrite Z2Nat.id by (Z.div_mod_to_equations; lia).
  rewrite Nat2Z.inj_div, Nat2Z.inj_add. simpl Z.of_nat.
  Z.div_mod_to_equations. lia.
Qed.

Lemma ceil_div_4 (n : nat) :
  Z.to_nat (ceil (inject_Z (Z.of_nat n) / 4)) = ((n + 3) / 4)%nat.
Proof.
  unfold ceil, Qceiling, Qfloor, Qopp, Qdiv, Qmult, Qinv, inject_Z. simpl Qnum. simpl Qden.
  rewrite Z.mul_1_r, Pos.mul_1_l.
  pose proof (Zle_0_nat n).
  apply Nat2Z.inj. rewrite Z2Nat.id by (Z.div_mod_to_equations; lia).
  rewrite Nat2Z.inj_div, Nat2Z.inj_add. simpl Z.of_nat.
  Z.div_mod_to_equations. lia.
Qed.

Lemma loop_count_nat (n : nat) : CryptoJS.loop_count (inject_Z (Z.of_nat n)) = n.
Proof.
  unfold CryptoJS.loop_count. rewrite Qceiling_Z. apply Nat2Z.id.
Qed.

Module SalsaLoop.
Section WithBlock.

Variable blk : WordArray -> WordArray -> Z -> option Z -> list Z.
Variables key nonce : WordArray.
Variable rounds : option Z.
Hypothesis blk_length : forall c, length (blk key nonce c rounds) = 16%nat.

(** the words of [n] successive blocks, the counter running from 0 *)
Definition block_words (n : nat) : list Z :=
  flat_map (fun k => blk key nonce (Z.of_nat k) rounds) (seq 0 n).

Lemma block_words_length n : length (block_words n) = (16 * n)%nat.
Proof. apply flat_map_blocks_length. intros k. apply blk_length. Qed.



End WithBlock.
End SalsaLoop.

Lemma Forall_flat_map {A B} (P : B -> Prop) (f : A -> list B) l :
  (forall k, Forall P (f k)) -> Forall P (flat_map f l).
Proof.
  intros H. induction l as [|k l IH]; cbn [flat_map]; [constructor|].
  apply Forall_app. split; [apply H|exact IH].
Qed.

Lemma le_bytes_are_bytes w : Forall is_byte (le_bytes w).
Proof.
  unfold le_bytes, is_byte. repeat constructor; apply Z.mod_pos_bound; lia.
Qed.

Lemma chacha20Block_bytes key nonce counter :
  Forall is_byte (ChaCha20.chacha20Block key nonce counter).
Proof.
  rewrite ChaCha20Final.chacha20Block_spec.
  generalize (zip_with add32
    (Nat.iter 10 ChaCha20.double_round (ChaCha20.initial_state key nonce counter))
    (ChaCha20.initial_state key nonce counter)).
  intros ws. apply Forall_flat_map, le_bytes_are_bytes.
Qed.

Definition hello_bytes : list Z := [72; 101; 108; 108; 111].


(** ** Packing bytes into words ([Latin1.parse], [Hex.parse]) *)

Section Packing.

(** a byte of [x | y] is the bitwise or of the bytes of [x] and [y] *)
Lemma byte_bor x y s :
  0 <= s <= 24 ->
  (JS.ToUint32 (x .| y) / 2 ^ s) mod 256
  = Z.lor ((JS.ToUint32 x / 2 ^ s) mod 256) ((JS.ToUint32 y / 2 ^ s) mod 256).
Proof.
  intros Hs. apply Z.bits_inj'. intros n Hn.
  rewrite Z.lor_spec, !testbit_byte by lia.
  destruct (Z.ltb_spec n 8); simpl; [|reflexivity].
  rewrite !testbit_ToUint32 by lia.
  destruct (Z.ltb_spec (n + s) 32); [|lia]. simpl.
  unfold JS.bor. rewrite Z.lor_spec, !testbit_ToInt32 by lia. reflexivity.
Qed.

Lemma ToInt32_small x : - 2 ^ 31 <= x < 2 ^ 31 -> JS.ToInt32 x = x.
Proof. intros H. unfold JS.ToInt32. rewrite Z.mod_small; lia. Qed.

Lemma testbit_is_byte b n : is_byte b -> 8 <= n -> Z.testbit b n = false.
Proof.
  intros Hb Hn. unfold is_byte in Hb.
  rewrite <- (Z.mod_small b (2 ^ 8)) by lia. apply Z.mod_pow2_bits_high. lia.
Qed.

(** the bytes of a byte shifted to position [j] of a word *)
Lemma byte_shl_byte b (j k : nat) :
  is_byte b -> (j < 4)%nat -> (k < 4)%nat ->
  (JS.ToUint32 (b .<< (24 - Z.of_nat j * 8)) / 2 ^ (24 - Z.of_nat k * 8)) mod 256
  = if decide (k = j) then b else 0.
Proof.
  intros Hb Hj Hk. apply Z.bits_inj'. intros n Hn.
  rewrite testbit_byte by lia.
  destruct (Z.ltb_spec n 8); simpl.
  - rewrite testbit_ToUint32 by lia.
    destruct (Z.ltb_spec (n + (24 - Z.of_nat k * 8)) 32); [|lia]. simpl.
    unfold JS.shl. rewrite testbit_ToInt32 by lia.
    rewrite (Z.mod_small (24 - Z.of_nat j * 8) 32) by lia.
    rewrite (ToInt32_small b) by (unfold is_byte in Hb; lia).
    rewrite Z.mul_pow2_bits by lia.
    destruct (decide (k = j)) as [->|Hne].
    + f_equal. lia.
    + rewrite Z.bits_0.
      destruct (Nat.lt_ge_cases k j).
      * apply testbit_is_byte; [assumption|lia].
      * apply Z.testbit_neg_r. lia.
  - destruct (decide (k = j)); [|now rewrite Z.bits_0].
    symmetry. now apply testbit_is_byte.
Qed.

(** one step of the two parsing loops: the byte [byte j] is or-ed into the
    word [j / 4] at position [j mod 4] *)
Definition pack_step (byte : nat -> Z) (ws : list Z) (j : nat) : list Z :=
  array_set ws (j / 4)
    ((JS.at0 ws (j / 4)) .| ((byte j) .<< (24 - Z.of_nat (j mod 4) * 8))).

Lemma at0_ge (ws : list Z) i : (length ws <= i)%nat -> JS.at0 ws i = 0.
Proof. intros H. unfold JS.at0. now rewrite lookup_ge_None_2. Qed.

Lemma at0_array_set ws q v q' :
  (q <= length ws)%nat ->
  JS.at0 (array_set ws q v) q' = if decide (q' = q) then v else JS.at0 ws q'.
Proof.
  intros Hq. unfold array_set. destruct (Nat.ltb_spec q (length ws)).
  - unfold JS.at0. destruct (decide (q' = q)) as [->|Hne].
    + now rewrite list_lookup_insert_eq.
    + now rewrite list_lookup_insert_ne by congruence.
  - replace (q - length ws)%nat with 0%nat by lia. simpl.
    assert (q = length ws) as -> by lia.
    unfold JS.at0. destruct (decide (q' = length ws)) as [->|Hne].
    + now rewrite lookup_app_r, Nat.sub_diag by lia.
    + destruct (Nat.lt_ge_cases q' (length ws)).
      * now rewrite lookup_app_l by lia.
      * rewrite !lookup_ge_None_2; [reflexivity|lia|].
        rewrite length_app. simpl. lia.
Qed.

Lemma array_set_length_le ws q v :
  (q <= length ws)%nat -> length (array_set ws q v) = Nat.max (length ws) (S q).
Proof.
  intros Hq. unfold array_set. destruct (Nat.ltb_spec q (length ws)).
  - rewrite length_insert. lia.
  - replace (q - length ws)%nat with 0%nat by lia.
    rewrite length_app. simpl. lia.
Qed.

(** the words built from the first [m] bytes *)
Definition packed (byte : nat -> Z) (m : nat) (ws : list Z) : Prop :=
  length ws = ((m + 3) / 4)%nat
  /\ forall i, CryptoJS.byte_at ws i = if (i <? m)%nat then byte i else 0.

Lemma packed_nil byte : packed byte 0 [].
Proof.
  split; [reflexivity|]. intros i. rewrite byte_at_spec.
  unfold JS.at0. rewrite lookup_nil. reflexivity.
Qed.

Lemma packed_step byte m ws :
  is_byte (byte m) -> packed byte m ws -> packed byte (S m) (pack_step byte ws m).
Proof.
  intros Hb [Hlen Hbytes]. unfold pack_step.
  set (q := (m / 4)%nat). set (j := (m mod 4)%nat).
  assert (Hm : m = (4 * q + j)%nat) by (unfold q, j; apply Nat.div_mod_eq).
  assert (Hj : (j < 4)%nat) by (unfold j; apply Nat.mod_upper_bound; lia).
  assert (Hq : (q <= length ws)%nat) by (rewrite Hlen; nat_divmod).
  split.
  - rewrite array_set_length_le by assumption. rewrite Hlen. nat_divmod.
  - intros i. rewrite byte_at_spec, at0_array_set by assumption.
    set (k := (i mod 4)%nat).
    assert (Hi : i = (4 * (i / 4) + k)%nat) by (unfold k; apply Nat.div_mod_eq).
    assert (Hk : (k < 4)%nat) by (unfold k; apply Nat.mod_upper_bound; lia).
    destruct (decide ((i / 4)%nat = q)) as [Heq|Hne].
    + rewrite byte_bor by lia. fold k.
      rewrite byte_shl_byte by assumption.
      assert (Hold := Hbytes i). rewrite byte_at_spec, Heq in Hold. fold k in Hold.
      rewrite Hold.
      destruct (Nat.ltb_spec i m), (Nat.ltb_spec i (S m)), (decide (k = j));
        try lia.
      * apply Z.lor_0_r.
      * assert (Him : i = m) by lia. rewrite Him. apply Z.lor_0_l.
      * reflexivity.
    + rewrite <- byte_at_spec, Hbytes.
      destruct (Nat.ltb_spec i m), (Nat.ltb_spec i (S m)); try lia; reflexivity.
Qed.

Lemma packed_loop byte n :
  (forall j, (j < n)%nat -> is_byte (byte j)) ->
  packed byte n (fold_left (pack_step byte) (seq 0 n) []).
Proof.
  induction n as [|n IH]; intros Hb; [apply packed_nil|].
  rewrite seq_S, fold_left_app. simpl.
  apply packed_step; [apply Hb; lia|]. apply IH. intros j Hj. apply Hb. lia.
Qed.


End Packing.

(** ** [Latin1.parse], [Hex.parse] and their inverses *)

Section Encoders.

Lemma band_0xff_is_byte x : is_byte (x .& 0xff).
Proof. rewrite band_0xff. apply Z.mod_pos_bound. lia. Qed.

Lemma map_at0_seq (l : list Z) : map (JS.at0 l) (seq 0 (length l)) = l.
Proof.
  induction l as [|x l IH]; [reflexivity|].
  simpl. f_equal. rewrite map_seq_offset. exact IH.
Qed.

Lemma Forall_at0 (P : Z -> Prop) bs j :
  Forall P bs -> (j < length bs)%nat -> P (JS.at0 bs j).
Proof.
  intros Hb Hj. destruct (lookup_lt_is_Some_2 bs j) as [x Hx]; [lia|].
  rewrite (at0_lookup _ _ _ Hx). eapply Forall_lookup_1; eassumption.
Qed.

Lemma Latin1_parse_packed bs :
  packed (fun j => (JS.at0 bs j) .& 0xff) (length bs) (words (CryptoJS.Latin1_parse bs)).
Proof.
  unfold CryptoJS.Latin1_parse. cbn [words WordArray_create].
  apply (packed_loop (fun j => (JS.at0 bs j) .& 0xff)).
  intros j _. apply band_0xff_is_byte.
Qed.

Lemma Latin1_parse_length bs :
  length (words (CryptoJS.Latin1_parse bs)) = ((length bs + 3) / 4)%nat.
Proof. apply Latin1_parse_packed. Qed.

Lemma Latin1_parse_sigBytes bs :
  sigBytes (CryptoJS.Latin1_parse bs) = inject_Z (Z.of_nat (length bs)).
Proof. reflexivity. Qed.

Lemma Latin1_stringify_nat wa (L : nat) :
  sigBytes wa = inject_Z (Z.of_nat L) ->
  CryptoJS.Latin1_stringify wa = map (CryptoJS.byte_at (words wa)) (seq 0 L).
Proof.
  intros H. unfold CryptoJS.Latin1_stringify. now rewrite H, loop_count_nat.
Qed.


(** the two hexadecimal digits of a byte, as [Hex.stringify] writes them *)
Definition hex_pair (bite : Z) : jsstring :=
  [hex_digit (bite .>>> 4); hex_digit (bite .& 0x0f)].

Definition hex_of_bytes (bs : list Z) : jsstring := flat_map hex_pair bs.

Lemma Hex_stringify_bytes wa :
  CryptoJS.Hex_stringify wa = hex_of_bytes (CryptoJS.Latin1_stringify wa).
Proof.
  unfold CryptoJS.Hex_stringify, CryptoJS.Latin1_stringify, hex_of_bytes.
  generalize (seq 0 (CryptoJS.loop_count (sigBytes wa))). intros l.
  induction l as [|i l IH]; [reflexivity|].
  cbn [flat_map map]. now rewrite IH.
Qed.

Lemma parseInt16_hex_pair_table :
  forallb (fun n => match parseInt16 (hex_pair (Z.of_nat n)) with
                    | Some v => v =? Z.of_nat n
                    | None => false
                    end) (seq 0 256) = true.
Proof. vm_compute. reflexivity. Qed.

Lemma parseInt16_hex_pair b : is_byte b -> parseInt16 (hex_pair b) = Some b.
Proof.
  intros Hb. unfold is_byte in Hb.
  pose proof parseInt16_hex_pair_table as H.
  rewrite forallb_forall in H. specialize (H (Z.to_nat b)).
  rewrite Z2Nat.id in H by lia.
  destruct (parseInt16 (hex_pair b)) as [v|].
  - f_equal. apply Z.eqb_eq. apply H. apply in_seq. lia.
  - discriminate H. apply in_seq. lia.
Qed.

Lemma hex_of_bytes_length bs : length (hex_of_bytes bs) = (2 * length bs)%nat.
Proof. induction bs as [|b bs IH]; simpl in *; lia. Qed.

Lemma substr2_hex_of_bytes bs j b :
  bs !! j = Some b -> substr2 (hex_of_bytes bs) (2 * j) = hex_pair b.
Proof.
  revert j. induction bs as [|x bs IH]; intros j Hj; [now rewrite lookup_nil in Hj|].
  destruct j as [|j].
  - simpl in Hj. injection Hj as ->. reflexivity.
  - simpl in Hj. replace (2 * S j)%nat with (S (S (2 * j))) by lia.
    unfold substr2 in *. cbn [hex_of_bytes flat_map hex_pair app drop].
    now apply IH.
Qed.

Lemma fold_left_map {A B C} (f : A -> B -> A) (g : C -> B) l a :
  fold_left f (map g l) a = fold_left (fun x c => f x (g c)) l a.
Proof. revert a. induction l as [|c l IH]; intros a; simpl; auto. Qed.

Lemma fold_left_ext_in {A B} (f g : A -> B -> A) l a :
  (forall x b, In b l -> f x b = g x b) -> fold_left f l a = fold_left g l a.
Proof.
  revert a. induction l as [|b l IH]; intros a H; [reflexivity|].
  simpl. rewrite H by (now left). apply IH. intros x c Hc. apply H. now right.
Qed.

Lemma Hex_parse_step_pack hexStr ws j :
  CryptoJS.Hex_parse_step hexStr ws (2 * j)
  = pack_step (fun j => nan0 (parseInt16 (substr2 hexStr (2 * j)))) ws j.
Proof.
  unfold CryptoJS.Hex_parse_step, pack_step.
  replace (2 * j / 8)%nat with (j / 4)%nat by nat_divmod.
  replace (Z.of_nat (2 * j mod 8) * 4) with (Z.of_nat (j mod 4) * 8) by nat_divmod.
  reflexivity.
Qed.

(** parsing the hexadecimal text of [bs] packs the bytes [bs] *)
Lemma Hex_parse_hex_of_bytes bs :
  Forall is_byte bs ->
  packed (JS.at0 bs) (length bs) (words (CryptoJS.Hex_parse (hex_of_bytes bs)))
  /\ sigBytes (CryptoJS.Hex_parse (hex_of_bytes bs)) = (Z.of_nat (2 * length bs) # 2).
Proof.
  intros Hb. unfold CryptoJS.Hex_parse. cbn [words sigBytes WordArray_create].
  rewrite hex_of_bytes_length. split; [|reflexivity].
  replace ((2 * length bs + 1) / 2)%nat with (length bs) by nat_divmod.
  rewrite fold_left_map.
  rewrite (fold_left_ext_in _ (pack_step (JS.at0 bs))).
  - apply packed_loop. intros j Hj. now apply Forall_at0.
  - intros ws j Hj. apply in_seq in Hj.
    rewrite Hex_parse_step_pack. unfold pack_step. do 3 f_equal.
    destruct (lookup_lt_is_Some_2 bs j) as [x Hx]; [lia|].
    rewrite (substr2_hex_of_bytes _ _ _ Hx), (at0_lookup _ _ _ Hx).
    rewrite parseInt16_hex_pair; [reflexivity|].
    eapply Forall_lookup_1; eassumption.
Qed.

End Encoders.

(** ** UTF-8: decoding what was encoded *)

Module Utf8RoundTrip.
Import Utf8Codec.

(** a Unicode scalar value: a code point that is not a surrogate *)
Definition scalar (cp : Z) : Prop :=
  0 <= cp < 0xD800 \/ 0xE000 <= cp < 0x110000.

Definition is_code_unit (c : Z) : Prop := 0 <= c < 0x10000.

(** the comparisons of the codecs, decided from the facts at hand *)
Ltac zdec := Z.div_mod_to_equations; lia.
Ltac zbool :=
  repeat match goal with
  | |- context [?a <? ?b] =>
      first [ rewrite (proj2 (Z.ltb_lt a b)) by zdec
            | rewrite (proj2 (Z.ltb_ge a b)) by zdec ]
  | |- context [?a <=? ?b] =>
      first [ rewrite (proj2 (Z.leb_le a b)) by zdec
            | rewrite (proj2 (Z.leb_gt a b)) by zdec ]
  | |- context [?a =? ?b] =>
      first [ rewrite (proj2 (Z.eqb_eq a b)) by zdec
            | rewrite (proj2 (Z.eqb_neq a b)) by zdec ]
  end.

Lemma decode_encode_code_point cp bs :
  scalar cp ->
  decode_strict (encode_code_point cp ++ bs)
  = (fun s => utf16_of_code_point cp ++ s) <$> decode_strict bs.
Proof.
  intros Hcp. unfold scalar in Hcp. unfold encode_code_point.
  destruct (Z.ltb_spec cp 0x80); [|destruct (Z.ltb_spec cp 0x800);
    [|destruct (Z.ltb_spec cp 0x10000)]].
  - cbn [app decode_strict]. zbool.
    unfold utf16_of_code_point. zbool. reflexivity.
  - cbn [app decode_strict]. unfold is_continuation. zbool. cbn [andb].
    replace ((0xC0 + cp / 64 - 0xC0) * 64 + (0x80 + cp mod 64 - 0x80)) with cp by zdec.
    reflexivity.
  - cbn [app decode_strict]. unfold is_continuation. zbool. cbn [andb negb].
    replace ((0xE0 + cp / 4096 - 0xE0) * 4096 + (0x80 + (cp / 64) mod 64 - 0x80) * 64
             + (0x80 + cp mod 64 - 0x80)) with cp by zdec.
    zbool. cbn [andb negb].
    destruct Hcp as [Hcp|Hcp].
    + zbool. reflexivity.
    + zbool. cbn [andb negb]. zbool. reflexivity.
  - cbn [app decode_strict]. unfold is_continuation. zbool. cbn [andb negb].
    replace ((0xF0 + cp / 262144 - 0xF0) * 262144 + (0x80 + (cp / 4096) mod 64 - 0x80) * 4096
             + (0x80 + (cp / 64) mod 64 - 0x80) * 64 + (0x80 + cp mod 64 - 0x80))
      with cp by zdec.
    zbool. reflexivity.
Qed.

Lemma surrogate_tests c :
  is_code_unit c -> is_low_surrogate c = false -> is_high_surrogate c = false ->
  scalar c /\ utf16_of_code_point c = [c].
Proof.
  unfold is_code_unit, is_low_surrogate, is_high_surrogate, scalar, utf16_of_code_point.
  intros Hc Hl Hh.
  apply andb_false_iff in Hl. apply andb_false_iff in Hh.
  rewrite !Z.leb_gt in Hl, Hh.
  split; [lia|]. now rewrite (proj2 (Z.ltb_lt c 0x10000)) by lia.
Qed.

Lemma surrogate_pair hi lo :
  is_high_surrogate hi = true -> is_low_surrogate lo = true ->
  scalar (pair_code_point hi lo)
  /\ utf16_of_code_point (pair_code_point hi lo) = [hi; lo].
Proof.
  unfold is_low_surrogate, is_high_surrogate, scalar, utf16_of_code_point,
    pair_code_point.
  intros Hh Hl. apply andb_true_iff in Hl, Hh. rewrite !Z.leb_le in Hl, Hh.
  split; [lia|].
  rewrite (proj2 (Z.ltb_ge _ 0x10000)) by lia.
  f_equal; [|f_equal]; zdec.
Qed.

Lemma encode_code_point_bytes cp : scalar cp -> Forall is_byte (encode_code_point cp).
Proof.
  intros Hcp. unfold scalar in Hcp. unfold encode_code_point, is_byte.
  destruct (Z.ltb_spec cp 0x80); [|destruct (Z.ltb_spec cp 0x800);
    [|destruct (Z.ltb_spec cp 0x10000)]];
    repeat constructor; zdec.
Qed.

(** the three ways [encode_strict] can succeed on a non-empty string *)
Lemma encode_strict_cons c rest bs :
  encode_strict (c :: rest) = Ok bs ->
  (is_low_surrogate c = false /\ is_high_surrogate c = false
   /\ exists bs', encode_strict rest = Ok bs' /\ bs = encode_code_point c ++ bs')
  \/ (is_high_surrogate c = true
      /\ exists c' rest' bs', rest = c' :: rest' /\ is_low_surrogate c' = true
         /\ encode_strict rest' = Ok bs'
         /\ bs = encode_code_point (pair_code_point c c') ++ bs').
Proof.
  cbn [encode_strict].
  destruct (is_low_surrogate c) eqn:Hl; [discriminate|].
  destruct (is_high_surrogate c) eqn:Hh.
  - destruct rest as [|c' rest']; [discriminate|].
    destruct (is_low_surrogate c') eqn:Hl'; [|discriminate].
    destruct (encode_strict rest') as [bs'|e] eqn:He; [|discriminate].
    intros H. injection H as <-. right. split; [reflexivity|]. eauto 10.
  - destruct (encode_strict rest) as [bs'|e] eqn:He; [|discriminate].
    intros H. injection H as <-. left. eauto 10.
Qed.

Section ByLength.

(** induction on strings that removes one or two code units *)
Lemma string_ind2 (P : jsstring -> Prop) :
  P [] ->
  (forall c rest, P rest -> (forall c' rest', rest = c' :: rest' -> P rest') ->
                  P (c :: rest)) ->
  forall s, P s.
Proof.
  intros Hnil Hcons s.
  assert (H : P s /\ (forall c' rest', s = c' :: rest' -> P rest')).
  { induction s as [|c s [IH1 IH2]].
    - split; [exact Hnil|]. intros c' rest' H. discriminate H.
    - split.
      + apply Hcons; assumption.
      + intros c' rest' H. injection H as <- <-. exact IH1. }
  apply H.
Qed.

Lemma decode_encode_strict s :
  Forall is_code_unit s ->
  forall bs, encode_strict s = Ok bs -> decode_strict bs = Some s.
Proof.
  induction s as [|c rest IH1 IH2] using string_ind2; intros Hs bs He.
  - injection He as <-. reflexivity.
  - apply Forall_cons in Hs as [Hc Hrest].
    apply encode_strict_cons in He
      as [(Hl & Hh & bs' & He & ->) | (Hh & c' & rest' & bs' & -> & Hl' & He & ->)].
    + destruct (surrogate_tests c Hc Hl Hh) as [Hsc Hu].
      rewrite decode_encode_code_point, Hu by assumption.
      now rewrite (IH1 Hrest bs' He).
    + apply Forall_cons in Hrest as [Hc' Hrest'].
      destruct (surrogate_pair c c' Hh Hl') as [Hsc Hu].
      rewrite decode_encode_code_point, Hu by assumption.
      now rewrite (IH2 c' rest' eq_refl Hrest' bs' He).
Qed.

Lemma encode_strict_bytes s :
  Forall is_code_unit s ->
  forall bs, encode_strict s = Ok bs -> Forall is_byte bs.
Proof.
  induction s as [|c rest IH1 IH2] using string_ind2; intros Hs bs He.
  - injection He as <-. constructor.
  - apply Forall_cons in Hs as [Hc Hrest].
    apply encode_strict_cons in He
      as [(Hl & Hh & bs' & He & ->) | (Hh & c' & rest' & bs' & -> & Hl' & He & ->)].
    + destruct (surrogate_tests c Hc Hl Hh) as [Hsc Hu].
      apply Forall_app. split; [now apply encode_code_point_bytes|now apply IH1].
    + apply Forall_cons in Hrest as [Hc' Hrest'].
      destruct (surrogate_pair c c' Hh Hl') as [Hsc Hu].
      apply Forall_app. split; [now apply encode_code_point_bytes|].
      now apply (IH2 c' rest' eq_refl).
Qed.

(** on a string without unpaired surrogates the two encoders agree *)
Lemma TextEncoder_encode_strict s :
  forall bs, encode_strict s = Ok bs -> TextEncoder_encode s = bs.
Proof.
  induction s as [|c rest IH1 IH2] using string_ind2; intros bs He.
  - injection He as <-. reflexivity.
  - apply encode_strict_cons in He
      as [(Hl & Hh & bs' & He & ->) | (Hh & c' & rest' & bs' & -> & Hl' & He & ->)].
    + cbn [TextEncoder_encode]. rewrite Hl, Hh. now rewrite (IH1 bs' He).
    + cbn [TextEncoder_encode].
      assert (Hl : is_low_surrogate c = false).
      { unfold is_low_surrogate, is_high_surrogate in *.
        apply andb_true_iff in Hh. rewrite !Z.leb_le in Hh.
        apply andb_false_iff. rewrite !Z.leb_gt. lia. }
      rewrite Hl, Hh, Hl'. now rewrite (IH2 c' rest' eq_refl bs' He).
Qed.

(** encoding a concatenation, when both parts are free of unpaired
    surrogates *)
Lemma encode_strict_app s t bt :
  encode_strict t = Ok bt ->
  forall bs, encode_strict s = Ok bs -> encode_strict (s ++ t) = Ok (bs ++ bt).
Proof.
  intros Ht.
  induction s as [|c rest IH1 IH2] using string_ind2; intros bs He.
  - injection He as <-. exact Ht.
  - apply encode_strict_cons in He
      as [(Hl & Hh & bs' & He & ->) | (Hh & c' & rest' & bs' & -> & Hl' & He & ->)].
    + cbn [app encode_strict]. rewrite Hl, Hh, (IH1 bs' He).
      unfold mbind, outcome_bind. now rewrite app_assoc.
    + cbn [app encode_strict].
      assert (Hl : is_low_surrogate c = false).
      { unfold is_low_surrogate, is_high_surrogate in *.
        apply andb_true_iff in Hh. rewrite !Z.leb_le in Hh.
        apply andb_false_iff. rewrite !Z.leb_gt. lia. }
      rewrite Hl, Hh, Hl', (IH2 c' rest' eq_refl bs' He).
      unfold mbind, outcome_bind. now rewrite app_assoc.
Qed.

(** NUL characters are encoded as NUL bytes *)
Lemma encode_strict_nuls k : encode_strict (repeat 0 k) = Ok (repeat 0 k).
Proof.
  induction k as [|k IH]; [reflexivity|].
  cbn [repeat encode_strict]. rewrite IH. reflexivity.
Qed.

End ByLength.

Lemma encode_strict_nonempty s bs :
  encode_strict s = Ok bs -> s <> [] -> Forall is_code_unit s -> bs <> [].
Proof.
  intros He Hs Hcu. destruct s as [|c rest]; [congruence|].
  apply Forall_cons in Hcu as [Hc _].
  apply encode_strict_cons in He
    as [(Hl & Hh & bs' & He & ->) | (Hh & c' & rest' & bs' & -> & Hl' & He & ->)];
    unfold encode_code_point;
    repeat match goal with |- context [if ?b then _ else _] => destruct b end;
    discriminate.
Qed.

(** *** The replacing decoder on encoded text *)

Lemma band_ones x k : 0 <= k <= 31 -> (x .& (Z.ones k)) = x mod 2 ^ k.
Proof.
  intros Hk. unfold JS.band.
  assert (Hones : 0 <= Z.ones k < 2 ^ 31).
  { rewrite Z.ones_equiv. pose proof (Z.pow_pos_nonneg 2 k).
    pose proof (Z.pow_le_mono_r 2 k 31). lia. }
  rewrite (ToInt32_small (Z.ones k)) by lia.
  rewrite Z.land_ones by lia.
  unfold JS.ToInt32. rewrite <- Zminus_mod_idemp_l.
  rewrite (Z.mod_mod_divide _ (2 ^ 32) (2 ^ k)).
  - rewrite Zminus_mod_idemp_l. f_equal. lia.
  - exists (2 ^ (32 - k)). rewrite <- Z.pow_add_r by lia. f_equal. lia.
Qed.

Lemma shl_6_small x : 0 <= x < 2 ^ 25 -> (x .<< 6) = x * 64.
Proof.
  intros Hx. unfold JS.shl. change (2 ^ (6 mod 32)) with 64.
  rewrite (ToInt32_small x) by lia. apply ToInt32_small. lia.
Qed.

Lemma bor_low6 c b : 0 <= c < 2 ^ 25 -> 0 <= b < 64 -> ((c * 64) .| b) = c * 64 + b.
Proof.
  intros Hc Hb. unfold JS.bor. rewrite !ToInt32_small by lia.
  rewrite <- Z.add_lor_land.
  replace (Z.land (c * 64) b) with 0; [lia|].
  symmetry. apply Z.bits_inj'. intros n Hn.
  rewrite Z.land_spec, Z.bits_0. change 64 with (2 ^ 6).
  destruct (Z.ltb_spec n 6).
  - now rewrite Z.mul_pow2_bits_low by lia.
  - rewrite <- (Z.mod_small b (2 ^ 6)) by lia.
    rewrite (Z.mod_pow2_bits_high b) by lia. apply andb_false_r.
Qed.

(** a continuation byte read while [S n] bytes are needed *)
Lemma decoder_step_continuation cp n lo hi b :
  0 <= cp < 2 ^ 25 -> lo <= b <= hi -> 0x80 <= b <= 0xBF ->
  decoder_step (mkDecoder cp (S n) lo hi) b
  = match n with
    | O => (utf16_of_code_point (cp * 64 + (b - 0x80)), decoder_init)
    | S _ => ([], mkDecoder (cp * 64 + (b - 0x80)) n 0x80 0xBF)
    end.
Proof.
  intros Hcp Hb Hc. unfold decoder_step. cbn [bytes_needed lower upper code_point].
  rewrite (proj2 (Z.ltb_ge b lo)), (proj2 (Z.ltb_ge hi b)) by lia. cbn [orb].
  change 0x3F with (Z.ones 6). rewrite band_ones, shl_6_small by lia.
  replace (b mod 2 ^ 6) with (b - 0x80) by zdec.
  rewrite bor_low6 by lia. reflexivity.
Qed.

Lemma decoder_run_code_point cp bs :
  scalar cp ->
  decoder_run decoder_init (encode_code_point cp ++ bs)
  = utf16_of_code_point cp ++ decoder_run decoder_init bs.
Proof.
  intros Hcp. unfold scalar in Hcp. unfold encode_code_point.
  destruct (Z.ltb_spec cp 0x80); [|destruct (Z.ltb_spec cp 0x800);
    [|destruct (Z.ltb_spec cp 0x10000)]].
  - cbn [app decoder_run]. unfold decoder_step at 1. cbn [bytes_needed decoder_init].
    unfold decoder_lead. zbool. unfold utf16_of_code_point. zbool. reflexivity.
  - cbn [app decoder_run]. unfold decoder_step at 1. cbn [bytes_needed decoder_init].
    unfold decoder_lead. zbool. cbn [andb].
    change 0x1F with (Z.ones 5). rewrite band_ones by lia.
    rewrite decoder_step_continuation by zdec.
    cbn [app]. f_equal. f_equal. zdec.
  - cbn [app decoder_run]. unfold decoder_step at 1. cbn [bytes_needed decoder_init].
    unfold decoder_lead. zbool. cbn [andb].
    change 0xF with (Z.ones 4). rewrite band_ones by lia.
    destruct (Z.eqb_spec (0xE0 + cp / 4096) 0xE0);
      destruct (Z.eqb_spec (0xE0 + cp / 4096) 0xED);
      rewrite decoder_step_continuation by zdec;
      rewrite decoder_step_continuation by zdec;
      cbn [app]; f_equal; f_equal; zdec.
  - cbn [app decoder_run]. unfold decoder_step at 1. cbn [bytes_needed decoder_init].
    unfold decoder_lead. zbool. cbn [andb].
    change 0x7 with (Z.ones 3). rewrite band_ones by lia.
    destruct (Z.eqb_spec (0xF0 + cp / 262144) 0xF0);
      destruct (Z.eqb_spec (0xF0 + cp / 262144) 0xF4);
      rewrite decoder_step_continuation by zdec;
      rewrite decoder_step_continuation by zdec;
      rewrite decoder_step_continuation by zdec;
      cbn [app]; f_equal; f_equal; zdec.
Qed.

Lemma decoder_run_encode_strict s :
  Forall is_code_unit s ->
  forall bs, encode_strict s = Ok bs -> decoder_run decoder_init bs = s.
Proof.
  induction s as [|c rest IH1 IH2] using string_ind2; intros Hs bs He.
  - injection He as <-. reflexivity.
  - apply Forall_cons in Hs as [Hc Hrest].
    apply encode_strict_cons in He
      as [(Hl & Hh & bs' & He & ->) | (Hh & c' & rest' & bs' & -> & Hl' & He & ->)].
    + destruct (surrogate_tests c Hc Hl Hh) as [Hsc Hu].
      rewrite decoder_run_code_point, Hu by assumption.
      now rewrite (IH1 Hrest bs' He).
    + apply Forall_cons in Hrest as [Hc' Hrest'].
      destruct (surrogate_pair c c' Hh Hl') as [Hsc Hu].
      rewrite decoder_run_code_point, Hu by assumption.
      now rewrite (IH2 c' rest' eq_refl Hrest' bs' He).
Qed.

(** the byte order mark test of [TextDecoder_decode], byte by byte *)
Lemma TextDecoder_decode_eq bs :
  TextDecoder_decode bs
  = match bs with
    | b0 :: b1 :: b2 :: rest =>
        if (b0 =? 0xEF) && (b1 =? 0xBB) && (b2 =? 0xBF)
        then decoder_run decoder_init rest
        else decoder_run decoder_init bs
    | _ => decoder_run decoder_init bs
    end.
Proof.
  unfold TextDecoder_decode.
  repeat (match goal with
          | |- context [match ?x with _ => _ end] => is_var x; destruct x
          end; cbv beta iota; try reflexivity).
Qed.

(** no byte order mark is recognised in front of a code point other than
    U+FEFF *)
Lemma TextDecoder_decode_no_bom cp bs :
  scalar cp -> cp <> 0xFEFF ->
  TextDecoder_decode (encode_code_point cp ++ bs)
  = decoder_run decoder_init (encode_code_point cp ++ bs).
Proof.
  intros Hcp Hne. unfold scalar in Hcp. rewrite TextDecoder_decode_eq.
  unfold encode_code_point.
  destruct (Z.ltb_spec cp 0x80); [|destruct (Z.ltb_spec cp 0x800);
    [|destruct (Z.ltb_spec cp 0x10000)]]; cbn [app].
  - destruct bs as [|b1 [|b2 bs]]; try reflexivity.
    rewrite (proj2 (Z.eqb_neq cp 0xEF)) by lia. reflexivity.
  - destruct bs as [|b2 bs]; try reflexivity.
    rewrite (proj2 (Z.eqb_neq (0xC0 + cp / 64) 0xEF)) by zdec. reflexivity.
  - destruct (Z.eqb_spec (0xE0 + cp / 4096) 0xEF); [|reflexivity].
    destruct (Z.eqb_spec (0x80 + (cp / 64) mod 64) 0xBB); [|reflexivity].
    destruct (Z.eqb_spec (0x80 + cp mod 64) 0xBF); [|reflexivity].
    exfalso. apply Hne. zdec.
  - rewrite (proj2 (Z.eqb_neq (0xF0 + cp / 262144) 0xEF)) by zdec. reflexivity.
Qed.

(** decoding what the encoder produced gives the text back, unless the
    text starts with U+FEFF, which the decoder drops *)
Lemma TextDecoder_TextEncoder s bs :
  Forall is_code_unit s -> encode_strict s = Ok bs -> hd_error s <> Some 0xFEFF ->
  TextDecoder_decode (TextEncoder_encode s) = s.
Proof.
  intros Hs He Hbom. rewrite (TextEncoder_encode_strict s bs He).
  transitivity (decoder_run decoder_init bs);
    [|now apply decoder_run_encode_strict].
  destruct s as [|c rest]; [injection He as <-; reflexivity|].
  apply Forall_cons in Hs as [Hc Hrest].
  apply encode_strict_cons in He
    as [(Hl & Hh & bs' & He & ->) | (Hh & c' & rest' & bs' & -> & Hl' & He & ->)].
  - destruct (surrogate_tests c Hc Hl Hh) as [Hsc Hu].
    apply TextDecoder_decode_no_bom; [assumption|].
    intros ->. now apply Hbom.
  - destruct (surrogate_pair c c' Hh Hl') as [Hsc Hu].
    apply TextDecoder_decode_no_bom; [assumption|].
    unfold is_high_surrogate, is_low_surrogate, pair_code_point in *.
    apply andb_true_iff in Hh, Hl'. rewrite !Z.leb_le in Hh, Hl'. lia.
Qed.

End Utf8RoundTrip.

(** ** Words up to their unsigned 32-bit value *)

Section WordCongruence.

Lemma ToUint32_bxor x y :
  JS.ToUint32 (x .^ y) = Z.lxor (JS.ToUint32 x) (JS.ToUint32 y).
Proof.
  apply Z.bits_inj'. intros n Hn.
  rewrite Z.lxor_spec, !testbit_ToUint32 by lia.
  destruct (Z.ltb_spec n 32); simpl; [|reflexivity].
  unfold JS.bxor. now rewrite Z.lxor_spec, !testbit_ToInt32 by lia.
Qed.

(** [xor_words] twice with the same words, up to [>>> 0] *)
Lemma xor_words_cancel a p p' :
  map JS.ToUint32 p = map JS.ToUint32 p' ->
  map JS.ToUint32 (xor_words (map JS.ToUint32 (xor_words a p)) p')
  = map JS.ToUint32 a.
Proof.
  revert p p'. induction a as [|x a IH]; intros p p' Hp; [reflexivity|].
  destruct p as [|y p], p' as [|y' p']; try discriminate Hp.
  - simpl. f_equal; [apply ToUint32_idem|].
    rewrite <- (IH [] [] eq_refl) at 2. destruct a; reflexivity.
  - simpl in Hp. injection Hp as Hy Hp. simpl. f_equal.
    + rewrite (ToUint32_bxor (JS.ToUint32 _)), ToUint32_idem, ToUint32_bxor, <- Hy.
      rewrite Z.lxor_assoc, Z.lxor_nilpotent. apply Z.lxor_0_r.
    + now apply IH.
Qed.

Lemma words_bytes_ToUint32 ws : words_bytes (map JS.ToUint32 ws) = words_bytes ws.
Proof.
  induction ws as [|w ws IH]; [reflexivity|].
  unfold words_bytes in *. simpl. now rewrite IH, ToUint32_idem.
Qed.

Lemma words_bytes_congr a b :
  map JS.ToUint32 a = map JS.ToUint32 b -> words_bytes a = words_bytes b.
Proof.
  intros H. now rewrite <- (words_bytes_ToUint32 a), H, words_bytes_ToUint32.
Qed.

(** a word is determined, up to [>>> 0], by its four bytes *)
Lemma ToUint32_of_bytes x y :
  be_bytes (JS.ToUint32 x) = be_bytes (JS.ToUint32 y) -> JS.ToUint32 x = JS.ToUint32 y.
Proof.
  pose proof (ToUint32_range x) as Hx. pose proof (ToUint32_range y) as Hy.
  unfold be_bytes. intros Hb. injection Hb as E3 E2 E1 E0.
  revert E3 E2 E1 E0. revert Hx Hy. generalize (JS.ToUint32 x) (JS.ToUint32 y).
  clear. intros a b Ha Hb. change (2 ^ 24) with 16777216. change (2 ^ 16) with 65536.
  change (2 ^ 8) with 256. change (2 ^ 32) with 4294967296 in *.
  intros. Z.div_mod_to_equations. lia.
Qed.

Lemma words_of_bytes a b :
  length a = length b -> words_bytes a = words_bytes b ->
  map JS.ToUint32 a = map JS.ToUint32 b.
Proof.
  revert b. induction a as [|x a IH]; intros [|y b] Hlen Hb; try discriminate Hlen;
    [reflexivity|].
  unfold words_bytes in Hb. cbn [flat_map] in Hb.
  apply app_inj_1 in Hb as [Hxy Hb]; [|reflexivity].
  simpl. f_equal; [now apply ToUint32_of_bytes|].
  apply IH; [simpl in Hlen; lia|exact Hb].
Qed.

End WordCongruence.

(** ** The block modes *)

(** the first round of [decryptBlock] only looks at the halves modulo 2^32 *)
Lemma tea_dec_round_ToUint32 k0 k1 k2 k3 v0 v1 sum :
  TeaCore.dec_round k0 k1 k2 k3 (JS.ToUint32 v0, JS.ToUint32 v1, sum)
  = TeaCore.dec_round k0 k1 k2 k3 (v0, v1, sum).
Proof.
  unfold TeaCore.dec_round.
  assert (Ht : (((JS.ToUint32 v0 .<< 4) + k2) .^ (JS.ToUint32 v0 + sum))
                 .^ ((JS.ToUint32 v0 .>>> 5) + k3)
               = (((v0 .<< 4) + k2) .^ (v0 + sum)) .^ ((v0 .>>> 5) + k3)).
  { unfold JS.bxor. now rewrite shl_ToUint32, shru_ToUint32, ToInt32_plus_l. }
  rewrite Ht, !ToUint32_minus_l. reflexivity.
Qed.

Lemma tea_decryptBlock_congr b b' key :
  JS.ToUint32 (JS.at0 (words b) 0) = JS.ToUint32 (JS.at0 (words b') 0) ->
  JS.ToUint32 (JS.at0 (words b) 1) = JS.ToUint32 (JS.at0 (words b') 1) ->
  TeaCore.decryptBlock b key = TeaCore.decryptBlock b' key.
Proof.
  intros H0 H1. unfold TeaCore.decryptBlock.
  set (k0 := JS.at0 (words key) 0). set (k1 := JS.at0 (words key) 1).
  set (k2 := JS.at0 (words key) 2). set (k3 := JS.at0 (words key) 3).
  set (sum := JS.ToUint32 (TeaCore.TEA_DELTA * Z.of_nat TeaCore.TEA_ROUNDS)).
  assert (E : forall v0 v1,
             Nat.iter TeaCore.TEA_ROUNDS (TeaCore.dec_round k0 k1 k2 k3) (v0, v1, sum)
             = Nat.iter TeaCore.TEA_ROUNDS (TeaCore.dec_round k0 k1 k2 k3)
                 (JS.ToUint32 v0, JS.ToUint32 v1, sum)).
  { intros v0 v1. unfold TeaCore.TEA_ROUNDS. rewrite !(Nat.iter_succ_r 31).
    now rewrite tea_dec_round_ToUint32. }
  rewrite (E (JS.at0 (words b) 0)), (E (JS.at0 (words b') 0)), H0, H1.
  reflexivity.
Qed.

(** what decrypting an encrypted block gives: the block with its two words
    read as unsigned numbers *)
Definition norm_block (b : WordArray) : WordArray :=
  WordArray_create [JS.ToUint32 (JS.at0 (words b) 0); JS.ToUint32 (JS.at0 (words b) 1)] 8.

Lemma tea_decryptBlock_encryptBlock b key :
  TeaCore.decryptBlock (TeaCore.encryptBlock b key) key = norm_block b.
Proof.
  destruct (TeaInverse.decryptBlock_encryptBlock b key) as [Hw Hs].
  destruct (TeaCore.decryptBlock (TeaCore.encryptBlock b key) key) as [ws sb].
  simpl in Hw, Hs. subst ws sb. reflexivity.
Qed.

(** a block of exactly two words *)
Definition block2 (b : WordArray) : Prop := exists x y, b = WordArray_create [x; y] 8.

Lemma tea_encryptBlock_block2 b key : block2 (TeaCore.encryptBlock b key).
Proof.
  unfold TeaCore.encryptBlock.
  destruct (Nat.iter _ _ _) as [[v0 v1] s]. now exists v0, v1.
Qed.

(** the blocks [splitIntoBlocks] cuts an array of words into *)
Fixpoint pairs (ws : list Z) : list WordArray :=
  match ws with
  | [] => []
  | [a] => [WordArray_create [a; 0] 8]
  | a :: b :: rest => WordArray_create [a; b] 8 :: pairs rest
  end.

Definition block_equiv (b b' : WordArray) : Prop :=
  map JS.ToUint32 (words b) = map JS.ToUint32 (words b').

Section Pairs.

Lemma list_ind2 {A} (P : list A -> Prop) :
  P [] -> (forall a, P [a]) -> (forall a b rest, P rest -> P (a :: b :: rest)) ->
  forall l, P l.
Proof.
  intros H0 H1 H2 l.
  assert (H : P l /\ forall a, P (a :: l)).
  { induction l as [|x l [IH1 IH2]]; [now split|].
    split; [apply IH2|]. intros a. now apply H2. }
  apply H.
Qed.

Lemma split_loop_pairs fuel ws :
  (length ws <= fuel)%nat -> split_loop fuel ws 2 8 = pairs ws.
Proof.
  revert fuel. induction ws as [|a|a b rest IH] using list_ind2; intros fuel Hf.
  - destruct fuel; reflexivity.
  - destruct fuel as [|fuel]; [simpl in Hf; lia|].
    cbn. destruct fuel; reflexivity.
  - destruct fuel as [|fuel]; [simpl in Hf; lia|].
    cbn [split_loop take drop length Nat.sub repeat app pairs].
    f_equal. apply IH. simpl in Hf. lia.
Qed.

Lemma splitIntoBlocks_pairs data :
  splitIntoBlocks data 8
  = match pairs (words data) with
    | [] => [WordArray_create [0; 0] 8]
    | blocks => blocks
    end.
Proof.
  unfold splitIntoBlocks. change (Z.to_nat (8 / 4)) with 2%nat.
  change (inject_Z 8) with 8%Q. rewrite split_loop_pairs by lia.
  now destruct (pairs (words data)).
Qed.

Lemma pairs_block2 ws : Forall block2 (pairs ws).
Proof.
  induction ws as [|a|a b rest IH] using list_ind2; repeat constructor;
    try assumption; eexists _, _; reflexivity.
Qed.

Lemma pairs_flat_map bs : Forall block2 bs -> pairs (flat_map words bs) = bs.
Proof.
  induction 1 as [|b bs (x & y & ->) _ IH]; [reflexivity|].
  cbn [flat_map words WordArray_create app pairs]. now rewrite IH.
Qed.

Lemma flat_map_pairs ws :
  (length ws mod 2 = 0)%nat -> flat_map words (pairs ws) = ws.
Proof.
  induction ws as [|a|a b rest IH] using list_ind2; intros H.
  - reflexivity.
  - discriminate H.
  - cbn [pairs flat_map words WordArray_create app]. do 2 f_equal. apply IH.
    simpl length in H. nat_divmod.
Qed.

Lemma pairs_congr a b :
  map JS.ToUint32 a = map JS.ToUint32 b -> Forall2 block_equiv (pairs a) (pairs b).
Proof.
  revert b. induction a as [|x|x y rest IH] using list_ind2; intros b H.
  - destruct b; [constructor|discriminate H].
  - destruct b as [|x' [|y' b]]; try discriminate H.
    injection H as H. repeat constructor. unfold block_equiv. simpl. now rewrite H.
  - destruct b as [|x' [|y' b]]; try discriminate H.
    injection H as Hx Hy H. constructor; [|now apply IH].
    unfold block_equiv. simpl. now rewrite Hx, Hy.
Qed.

Lemma flat_map_words_congr bs bs' :
  Forall2 block_equiv bs bs' ->
  map JS.ToUint32 (flat_map words bs) = map JS.ToUint32 (flat_map words bs').
Proof.
  induction 1 as [|b b' bs bs' Hb _ IH]; [reflexivity|].
  cbn [flat_map]. rewrite !map_app. now rewrite Hb, IH.
Qed.

Lemma Qplus_inject_Z a b : (inject_Z a + inject_Z b)%Q = inject_Z (a + b).
Proof. unfold Qplus, inject_Z. simpl. now rewrite !Z.mul_1_r. Qed.

Lemma concatBlocks_sigBytes bs :
  Forall (fun b => sigBytes b = 8%Q) bs ->
  sigBytes (concatBlocks bs) = inject_Z (Z.of_nat (8 * length bs)).
Proof.
  intros H. unfold concatBlocks. cbn [sigBytes WordArray_create].
  assert (G : forall a,
             fold_left (fun total b => (total + sigBytes b)%Q) bs (inject_Z a)
             = inject_Z (a + Z.of_nat (8 * length bs))).
  { induction H as [|b bs Hb _ IH]; intros a.
    - simpl. now rewrite Z.add_0_r.
    - cbn [fold_left]. rewrite Hb. change 8%Q with (inject_Z 8).
      rewrite Qplus_inject_Z, IH. f_equal. simpl length. lia. }
  apply (G 0).
Qed.

Lemma block2_sigBytes bs : Forall block2 bs -> Forall (fun b => sigBytes b = 8%Q) bs.
Proof.
  intros H. eapply Forall_impl; [exact H|]. intros b (x & y & ->). reflexivity.
Qed.

Lemma block2_words_length bs :
  Forall block2 bs -> length (flat_map words bs) = (2 * length bs)%nat.
Proof.
  induction 1 as [|b bs (x & y & ->) _ IH]; [reflexivity|].
  cbn [flat_map words WordArray_create]. rewrite length_app, IH. simpl. lia.
Qed.

End Pairs.

Section ModeRoundTrip.

Variables encB decB : WordArray -> WordArray -> WordArray.
Hypothesis dec_enc : forall b key, decB (encB b key) key = norm_block b.
Hypothesis dec_congr : forall b b' key,
  JS.ToUint32 (JS.at0 (words b) 0) = JS.ToUint32 (JS.at0 (words b') 0) ->
  JS.ToUint32 (JS.at0 (words b) 1) = JS.ToUint32 (JS.at0 (words b') 1) ->
  decB b key = decB b' key.
Hypothesis enc_block2 : forall b key, block2 (encB b key).

Lemma block_equiv_at0 b b' i :
  block_equiv b b' ->
  JS.ToUint32 (JS.at0 (words b) i) = JS.ToUint32 (JS.at0 (words b') i).
Proof.
  unfold block_equiv. generalize (words b) (words b'). clear.
  intros a. revert i. induction a as [|x a IH]; intros i [|y b] H; try discriminate H.
  - reflexivity.
  - injection H as Hx H. destruct i as [|i]; [exact Hx|].
    change (JS.at0 (x :: a) (S i)) with (JS.at0 a i).
    change (JS.at0 (y :: b) (S i)) with (JS.at0 b i). now apply IH.
Qed.

Lemma dec_equiv c e key : block_equiv c e -> decB c key = decB e key.
Proof. intros H. apply dec_congr; now apply block_equiv_at0. Qed.

Lemma norm_block_equiv b : block2 b -> block_equiv (norm_block b) b.
Proof.
  intros (x & y & ->). unfold block_equiv, norm_block. simpl.
  now rewrite !ToUint32_idem.
Qed.

Lemma norm_block_block2 b : block2 (norm_block b).
Proof. eexists _, _. reflexivity. Qed.

(** independent blocks *)
Lemma ecb_blocks key PB C :
  Forall block2 PB ->
  Forall2 block_equiv C (map (fun b => encB b key) PB) ->
  Forall2 block_equiv (map (fun b => decB b key) C) PB
  /\ Forall block2 (map (fun b => decB b key) C).
Proof.
  intros HP. revert C. induction HP as [|p PB Hp _ IH]; intros C HC.
  - inversion HC. subst. split; constructor.
  - inversion HC as [|c e C' E' Hce HC' Ec Ee]. subst.
    destruct (IH C' HC') as [IH1 IH2]. simpl.
    rewrite (dec_equiv c (encB p key) key Hce), dec_enc.
    split; constructor; auto using norm_block_equiv, norm_block_block2.
Qed.

(** chained blocks *)
Lemma xorBlocks_block2 b prev : block2 b -> block2 (xorBlocks b prev).
Proof.
  intros (x & y & ->). unfold xorBlocks. simpl.
  destruct (words prev) as [|p [|p' ps]]; eexists _, _; reflexivity.
Qed.

Lemma cbc_blocks key PB :
  Forall block2 PB ->
  forall C prev prev',
    map JS.ToUint32 (words prev) = map JS.ToUint32 (words prev') ->
    Forall2 block_equiv C (encryptCBC_loop encB PB key prev) ->
    Forall2 block_equiv (decryptCBC_loop decB C key prev') PB
    /\ Forall block2 (decryptCBC_loop decB C key prev').
Proof.
  induction 1 as [|p PB Hp _ IH]; intros C prev prev' Hprev HC.
  - inversion HC. subst. split; constructor.
  - cbn [encryptCBC_loop] in HC.
    inversion HC as [|c e C' E' Hce HC' Ec Ee]. subst.
    cbn [decryptCBC_loop].
    rewrite (dec_equiv c _ key Hce), dec_enc.
    destruct (IH C' (encB (xorBlocks p prev) key) c) as [IH1 IH2];
      [symmetry; exact Hce|exact HC'|].
    split; constructor; try assumption.
    + destruct Hp as (x & y & ->).
      unfold block_equiv, xorBlocks, norm_block.
      cbn [words WordArray_create].
      assert (Hn : [JS.ToUint32 (JS.at0 (xor_words [x; y] (words prev)) 0);
                    JS.ToUint32 (JS.at0 (xor_words [x; y] (words prev)) 1)]
                   = map JS.ToUint32 (xor_words [x; y] (words prev))).
      { destruct (words prev) as [|q [|q' qs]]; reflexivity. }
      rewrite Hn. now apply xor_words_cancel.
    + apply xorBlocks_block2, norm_block_block2.
Qed.

Lemma words_bytes_are_bytes ws : Forall is_byte (words_bytes ws).
Proof.
  unfold words_bytes. induction ws as [|w ws IH]; cbn [flat_map]; [constructor|].
  apply Forall_app. split; [|exact IH].
  unfold be_bytes, is_byte. repeat constructor; apply Z.mod_pos_bound; lia.
Qed.

(** the encrypted blocks survive the hexadecimal text *)
Lemma hex_transport EB :
  Forall block2 EB ->
  Forall2 block_equiv
    (pairs (words (CryptoJS.Hex_parse (CryptoJS.Hex_stringify (concatBlocks EB))))) EB.
Proof.
  intros HEB.
  pose proof (concatBlocks_sigBytes EB (block2_sigBytes EB HEB)) as Hsig.
  pose proof (block2_words_length EB HEB) as Hlen.
  rewrite Hex_stringify_bytes, (Latin1_stringify_nat _ _ Hsig).
  unfold concatBlocks at 1. cbn [words WordArray_create].
  rewrite byte_at_prefix by lia.
  rewrite take_ge by (rewrite words_bytes_length; lia).
  set (bytes := words_bytes (flat_map words EB)).
  assert (Hbl : length bytes = (8 * length EB)%nat)
    by (unfold bytes; rewrite words_bytes_length; lia).
  assert (Hbb : Forall is_byte bytes) by apply words_bytes_are_bytes.
  destruct (Hex_parse_hex_of_bytes bytes Hbb) as [[Hpl Hpb] _].
  set (C := words (CryptoJS.Hex_parse (hex_of_bytes bytes))) in *.
  rewrite <- (pairs_flat_map EB HEB) at 1.
  apply pairs_congr, words_of_bytes.
  - rewrite Hpl, Hbl, Hlen. nat_divmod.
  - rewrite <- (byte_at_all C).
    replace (4 * length C)%nat with (length bytes) by (rewrite Hpl, Hbl; nat_divmod).
    fold bytes. rewrite <- (map_at0_seq bytes) at 2.
    apply map_ext_in. intros i Hi. apply in_seq in Hi. rewrite Hpb.
    destruct (Nat.ltb_spec i (length bytes)); [reflexivity|lia].
Qed.

(** the bytes of the concatenation of the decrypted blocks *)
Lemma decrypted_bytes DB PB :
  Forall block2 DB -> Forall2 block_equiv DB PB ->
  CryptoJS.Latin1_stringify (concatBlocks DB) = words_bytes (flat_map words PB).
Proof.
  intros HDB Heq.
  rewrite (Latin1_stringify_nat _ _ (concatBlocks_sigBytes DB (block2_sigBytes DB HDB))).
  unfold concatBlocks. cbn [words WordArray_create].
  pose proof (block2_words_length DB HDB) as Hlen.
  rewrite byte_at_prefix by lia.
  rewrite take_ge by (rewrite words_bytes_length; lia).
  apply words_bytes_congr. now apply flat_map_words_congr.
Qed.


Lemma pairs_nil ws : pairs ws = [] -> ws = [].
Proof. destruct ws as [|a [|b rest]]; [reflexivity|discriminate|discriminate]. Qed.

Lemma splitIntoBlocks_nonempty data :
  words data <> [] -> splitIntoBlocks data 8 = pairs (words data).
Proof.
  intros H. rewrite splitIntoBlocks_pairs.
  destruct (pairs (words data)) eqn:E; [|reflexivity].
  now apply pairs_nil in E.
Qed.

(** the number of NUL bytes that fill the last 8-byte block *)
Definition pad_length (L : nat) : nat := ((8 - L mod 8) mod 8)%nat.

Lemma flat_map_pairs_padded ws :
  flat_map words (pairs ws) = ws ++ repeat 0 (length ws mod 2).
Proof.
  induction ws as [| a | a b rest IH] using list_ind2; [reflexivity|reflexivity|].
  cbn [pairs flat_map words WordArray_create app length]. rewrite IH.
  replace (S (S (length rest)) mod 2)%nat with (length rest mod 2)%nat by nat_divmod.
  reflexivity.
Qed.

Lemma words_bytes_zeros k : words_bytes (repeat 0 k) = repeat 0 (4 * k).
Proof.
  induction k as [|k IH]; [reflexivity|].
  replace (4 * S k)%nat with (4 + 4 * k)%nat by lia.
  cbn [repeat]. unfold words_bytes in *. cbn [flat_map]. rewrite IH. reflexivity.
Qed.

Lemma map_zero_seq (f : nat -> Z) a n :
  (forall i, (a <= i)%nat -> f i = 0) -> map f (seq a n) = repeat 0 n.
Proof.
  revert a. induction n as [|n IH]; intros a H; [reflexivity|].
  cbn [seq map repeat]. rewrite H by lia. f_equal. apply IH. intros i Hi. apply H. lia.
Qed.

(** the bytes of the words that pack [n] bytes: the bytes, then NULs up to
    the end of the last word *)
Lemma packed_words_bytes byte n ws :
  packed byte n ws ->
  words_bytes ws = map byte (seq 0 n) ++ repeat 0 (4 * length ws - n).
Proof.
  intros [Hlen Hbytes]. rewrite <- byte_at_all.
  assert (Hn : (n <= 4 * length ws)%nat) by (rewrite Hlen; nat_divmod).
  replace (4 * length ws)%nat with (n + (4 * length ws - n))%nat at 1 by lia.
  rewrite seq_app, map_app. f_equal.
  - apply map_ext_in. intros i Hi. apply in_seq in Hi. rewrite Hbytes.
    destruct (Nat.ltb_spec i n); [reflexivity|lia].
  - apply map_zero_seq. intros i Hi. rewrite Hbytes.
    destruct (Nat.ltb_spec i n); [lia|reflexivity].
Qed.

(** the blocks of a non-empty plaintext: its bytes, filled with NULs up to
    a multiple of 8 *)
Lemma plain_blocks bs :
  Forall is_byte bs -> (0 < length bs)%nat ->
  let pb := CryptoJS.Latin1_parse bs in
  splitIntoBlocks pb 8 = pairs (words pb)
  /\ pairs (words pb) <> []
  /\ words_bytes (flat_map words (pairs (words pb)))
     = bs ++ repeat 0 (pad_length (length bs)).
Proof.
  intros Hb Hpos. cbv zeta.
  pose proof (Latin1_parse_length bs) as Hlen.
  assert (Hne : words (CryptoJS.Latin1_parse bs) <> []).
  { intros E. rewrite E in Hlen. cbn [length] in Hlen. nat_divmod. }
  split; [now apply splitIntoBlocks_nonempty|].
  split; [intros E; now apply pairs_nil in E|].
  rewrite flat_map_pairs_padded, words_bytes_app, words_bytes_zeros.
  rewrite (packed_words_bytes _ _ _ (Latin1_parse_packed bs)).
  rewrite <- app_assoc, <- repeat_app. f_equal.
  - transitivity (map (JS.at0 bs) (seq 0 (length bs))); [|apply map_at0_seq].
    apply map_ext_in. intros i Hi. apply in_seq in Hi.
    assert (Hbi : is_byte (JS.at0 bs i)) by (apply Forall_at0; [exact Hb|lia]).
    rewrite band_0xff. unfold is_byte in Hbi. apply Z.mod_small. lia.
  - f_equal. rewrite Hlen. unfold pad_length. nat_divmod.
Qed.

(** the blocks read back from the hexadecimal ciphertext *)
Lemma cipher_blocks EB :
  Forall block2 EB -> EB <> [] ->
  let c := CryptoJS.Hex_stringify (concatBlocks EB) in
  is_empty c = false
  /\ Forall2 block_equiv (splitIntoBlocks (CryptoJS.Hex_parse c) 8) EB.
Proof.
  intros HEB Hne c.
  pose proof (hex_transport EB HEB) as Ht. fold c in Ht.
  assert (Hw : words (CryptoJS.Hex_parse c) <> []).
  { intros E. rewrite E in Ht. inversion Ht. congruence. }
  split.
  - destruct c; [now contradiction Hw|reflexivity].
  - now rewrite splitIntoBlocks_nonempty.
Qed.

Lemma map_nonempty {A B} (f : A -> B) l : l <> [] -> map f l <> [].
Proof. now destruct l. Qed.

Lemma map_enc_block2 key l : Forall block2 (map (fun block => encB block key) l).
Proof. induction l; constructor; [apply enc_block2|assumption]. Qed.

(** ECB on bytes: what comes back is the plaintext filled with NULs *)
Lemma ecb_roundtrip_bytes bs key :
  Forall is_byte bs -> (0 < length bs)%nat ->
  let c := encryptECB encB decB (CryptoJS.Latin1_parse bs) key in
  is_empty c = false
  /\ CryptoJS.Latin1_stringify (decryptECB encB decB (CryptoJS.Hex_parse c) key)
     = bs ++ repeat 0 (pad_length (length bs)).
Proof.
  intros Hb Hpos.
  destruct (plain_blocks bs Hb Hpos) as (Hsplit & Hne & Hbytes).
  unfold encryptECB, decryptECB, processBlocks. rewrite Hsplit.
  set (PB := pairs (words (CryptoJS.Latin1_parse bs))) in *.
  set (EB := map (fun block => encB block key) PB).
  assert (HEB : Forall block2 EB) by apply map_enc_block2.
  destruct (cipher_blocks EB HEB (map_nonempty _ _ Hne)) as [Hc HC].
  cbv zeta. split; [exact Hc|].
  destruct (ecb_blocks key PB _ (pairs_block2 _) HC) as [H1 H2].
  rewrite (decrypted_bytes _ PB H2 H1). exact Hbytes.
Qed.

Lemma encryptCBC_loop_block2 PB key prev :
  Forall block2 (encryptCBC_loop encB PB key prev).
Proof.
  revert prev. induction PB as [|p PB IH]; intros prev; cbn [encryptCBC_loop];
    constructor; [apply enc_block2|apply IH].
Qed.

Lemma encryptCBC_loop_nonempty PB key prev :
  PB <> [] -> encryptCBC_loop encB PB key prev <> [].
Proof. now destruct PB. Qed.

(** CBC on bytes, with the same IV on both sides *)
Lemma cbc_roundtrip_bytes bs key iv :
  Forall is_byte bs -> (0 < length bs)%nat ->
  let c := encryptCBC encB (CryptoJS.Latin1_parse bs) key iv in
  is_empty c = false
  /\ CryptoJS.Latin1_stringify (decryptCBC decB (CryptoJS.Hex_parse c) key iv)
     = bs ++ repeat 0 (pad_length (length bs)).
Proof.
  intros Hb Hpos.
  destruct (plain_blocks bs Hb Hpos) as (Hsplit & Hne & Hbytes).
  unfold encryptCBC, decryptCBC. rewrite Hsplit.
  set (PB := pairs (words (CryptoJS.Latin1_parse bs))) in *.
  set (EB := encryptCBC_loop encB PB key iv).
  destruct (cipher_blocks EB (encryptCBC_loop_block2 PB key iv)
              (encryptCBC_loop_nonempty PB key iv Hne)) as [Hc HC].
  cbv zeta. split; [exact Hc|].
  destruct (cbc_blocks key PB (pairs_block2 _) _ iv iv eq_refl HC) as [H1 H2].
  rewrite (decrypted_bytes _ PB H2 H1). exact Hbytes.
Qed.

Variables NAME default_variant : jsstring.

Local Abbreviation fenc := (encrypt NAME default_variant encB decB).
Local Abbreviation fdec := (decrypt NAME default_variant encB decB).

Lemma encode_strict_is_empty p bs :
  Utf8Codec.encode_strict p = Ok bs -> (0 < length bs)%nat -> is_empty p = false.
Proof.
  intros He Hpos. destruct p; [|reflexivity].
  vm_compute in He. inversion He. subst. cbn [length] in Hpos. lia.
Qed.

Lemma validateKey_is_empty key : validateKey key = true -> is_empty key = false.
Proof. intros Hk. destruct key; [discriminate Hk|reflexivity]. Qed.

(** decoding the plaintext bytes followed by the NULs of the padding *)
Lemma decode_padded p bs k :
  Forall Utf8RoundTrip.is_code_unit p ->
  Utf8Codec.encode_strict p = Ok bs ->
  Utf8Codec.decode_strict (bs ++ repeat 0 k) = Some (p ++ repeat 0 k).
Proof.
  intros Hcu Henc. apply Utf8RoundTrip.decode_encode_strict.
  - apply Forall_app. split; [exact Hcu|].
    induction k; constructor; [unfold Utf8RoundTrip.is_code_unit; lia|assumption].
  - apply Utf8RoundTrip.encode_strict_app;
      [apply Utf8RoundTrip.encode_strict_nuls|exact Henc].
Qed.

Lemma feistel_ecb_roundtrip random p bs key iv nonce variant :
  Forall Utf8RoundTrip.is_code_unit p ->
  Utf8Codec.encode_strict p = Ok bs ->
  (0 < length bs)%nat ->
  validateKey key = true ->
  (truthy iv = true \/ exists r, random 8 = Ok r) ->
  let md := feistel_metadata (js "ECB") (default default_variant variant) in
  exists c,
    fenc random (mkEncryptionParams p key iv nonce (Some (js "ECB")) variant)
    = Ok (op_success c md)
    /\ fdec (mkDecryptionParams c key iv nonce (Some (js "ECB")) variant)
       = Ok (op_success (p ++ repeat 0 (pad_length (length bs))) md).
Proof.
  intros Hcu Henc Hpos Hk Hiv md.
  pose proof (Utf8RoundTrip.encode_strict_bytes p Hcu bs Henc) as Hb.
  destruct (ecb_roundtrip_bytes bs (CryptoJS.Hex_parse key) Hb Hpos) as [Hc Hd].
  exists (encryptECB encB decB (CryptoJS.Latin1_parse bs) (CryptoJS.Hex_parse key)).
  split.
  - unfold encrypt, encrypt_body.
    cbn [plaintext enc_key enc_iv enc_mode enc_variant default].
    rewrite (encode_strict_is_empty p bs Henc Hpos), (validateKey_is_empty key Hk), Hk.
    unfold CryptoJS.Utf8_parse. rewrite Henc, str_eqb_refl.
    destruct Hiv as [Ht | [r Hr]]; [rewrite Ht; reflexivity|].
    rewrite Hr. destruct (truthy iv); reflexivity.
  - unfold decrypt, decrypt_body.
    cbn [ciphertext dec_key dec_iv dec_mode dec_variant default].
    rewrite Hc, (validateKey_is_empty key Hk), Hk, str_eqb_refl.
    unfold CryptoJS.Utf8_stringify, mbind, outcome_bind.
    cbn [orb negb]. rewrite Hd.
    rewrite (decode_padded p bs _ Hcu Henc). reflexivity.
Qed.

Lemma feistel_cbc_roundtrip random p bs key iv nonce mode variant :
  Forall Utf8RoundTrip.is_code_unit p ->
  Utf8Codec.encode_strict p = Ok bs ->
  (0 < length bs)%nat ->
  validateKey key = true ->
  (mode = None \/ mode = Some (js "CBC")) ->
  truthy iv = true ->
  let md := feistel_metadata (js "CBC") (default default_variant variant) in
  exists c,
    fenc random (mkEncryptionParams p key iv nonce mode variant)
    = Ok (op_success c md)
    /\ fdec (mkDecryptionParams c key iv nonce mode variant)
       = Ok (op_success (p ++ repeat 0 (pad_length (length bs))) md).
Proof.
  intros Hcu Henc Hpos Hk Hmode Ht md.
  pose proof (Utf8RoundTrip.encode_strict_bytes p Hcu bs Henc) as Hb.
  destruct (cbc_roundtrip_bytes bs (CryptoJS.Hex_parse key)
              (CryptoJS.Hex_parse (default [] iv)) Hb Hpos) as [Hc Hd].
  assert (Hm : default (js "CBC") mode = js "CBC")
    by (destruct Hmode as [-> | ->]; reflexivity).
  exists (encryptCBC encB (CryptoJS.Latin1_parse bs) (CryptoJS.Hex_parse key)
            (CryptoJS.Hex_parse (default [] iv))).
  split.
  - unfold encrypt, encrypt_body.
    cbn [plaintext enc_key enc_iv enc_mode enc_variant].
    rewrite (encode_strict_is_empty p bs Henc Hpos), (validateKey_is_empty key Hk), Hk.
    unfold CryptoJS.Utf8_parse.
    rewrite Hm, Henc, Ht, str_eqb_CBC_ECB, str_eqb_refl. reflexivity.
  - unfold decrypt, decrypt_body.
    cbn [ciphertext dec_key dec_iv dec_mode dec_variant].
    rewrite Hc, (validateKey_is_empty key Hk), Hk, Hm, Ht, str_eqb_CBC_ECB, str_eqb_refl.
    unfold CryptoJS.Utf8_stringify, mbind, outcome_bind.
    cbn [orb negb]. rewrite Hd.
    rewrite (decode_padded p bs _ Hcu Henc). reflexivity.
Qed.

End ModeRoundTrip.

(** ** Hexadecimal text of byte arrays ([hexToUint8Array], [uint8ArrayToHex]) *)

Section HexBytes.

Lemma byte_digits_table :
  forallb (fun n => let b := Z.of_nat n in
                    (hex_digit (b / 16) =? hex_digit (b .>>> 4))
                    && (hex_digit (b mod 16) =? hex_digit (b .& 0x0f))
                    && CryptoUtils.is_hex_char (hex_digit (b / 16))
                    && CryptoUtils.is_hex_char (hex_digit (b mod 16)))
          (seq 0 256) = true.
Proof. vm_compute. reflexivity. Qed.

Lemma byte_digits b :
  is_byte b ->
  [hex_digit (b / 16); hex_digit (b mod 16)] = hex_pair b
  /\ CryptoUtils.is_hex_char (hex_digit (b / 16)) = true
  /\ CryptoUtils.is_hex_char (hex_digit (b mod 16)) = true.
Proof.
  intros Hb. unfold is_byte in Hb.
  pose proof byte_digits_table as H.
  rewrite forallb_forall in H. specialize (H (Z.to_nat b)).
  rewrite Z2Nat.id in H by lia.
  assert (Hin : In (Z.to_nat b) (seq 0 256)) by (apply in_seq; lia).
  specialize (H Hin). cbv zeta in H.
  apply andb_true_iff in H as [H H4]. apply andb_true_iff in H as [H H3].
  apply andb_true_iff in H as [H1 H2].
  apply Z.eqb_eq in H1, H2.
  split; [unfold hex_pair; now rewrite H1, H2|split; assumption].
Qed.

Lemma uint8ArrayToHex_bytes bs :
  Forall is_byte bs -> uint8ArrayToHex bs = hex_of_bytes bs.
Proof.
  induction 1 as [|b bs Hb _ IH]; [reflexivity|].
  unfold uint8ArrayToHex, hex_of_bytes in *. cbn [flat_map].
  rewrite IH. now destruct (byte_digits b Hb) as [-> _].
Qed.

Lemma isValidHex_hex_of_bytes bs :
  Forall is_byte bs -> CryptoUtils.isValidHex (hex_of_bytes bs) = true.
Proof.
  intros Hb. unfold CryptoUtils.isValidHex. apply andb_true_iff. split.
  - induction Hb as [|b bs Hb _ IH]; [reflexivity|].
    unfold hex_of_bytes. cbn [flat_map]. rewrite forallb_app.
    apply andb_true_iff. split; [|exact IH].
    destruct (byte_digits b Hb) as (<- & H1 & H2).
    cbn [forallb]. now rewrite H1, H2.
  - rewrite hex_of_bytes_length. apply Nat.eqb_eq. nat_divmod.
Qed.

(** reading back the hexadecimal text of a byte array *)
Lemma hexToUint8Array_hex_of_bytes bs :
  Forall is_byte bs -> hexToUint8Array (hex_of_bytes bs) = bs.
Proof.
  intros Hb. unfold hexToUint8Array. rewrite hex_of_bytes_length.
  replace ((2 * length bs + 1) / 2)%nat with (length bs) by nat_divmod.
  replace (2 * length bs / 2)%nat with (length bs) by nat_divmod.
  rewrite fold_left_map.
  rewrite (fold_left_ext_in _ (fun o j => <[(0 + j)%nat := JS.at0 bs j]> o)).
  - rewrite fold_insert_range by (rewrite repeat_length; lia).
    rewrite take_0, drop_ge by (rewrite repeat_length; lia).
    cbn [app]. rewrite app_nil_r. apply map_at0_seq.
  - intros res j Hj. apply in_seq in Hj.
    unfold u8_set, typed_set. cbn [Nat.add].
    replace (2 * j / 2)%nat with j
      by (symmetry; rewrite Nat.mul_comm; apply Nat.div_mul; lia).
    destruct (lookup_lt_is_Some_2 bs j) as [x Hx]; [lia|].
    rewrite (substr2_hex_of_bytes _ _ _ Hx), (at0_lookup _ _ _ Hx).
    assert (Hxb : is_byte x) by (eapply Forall_lookup_1; eassumption).
    rewrite (parseInt16_hex_pair x Hxb). cbn [nan0 default].
    unfold is_byte in Hxb. change (Datatypes.id x) with x.
    now rewrite Z.mod_small by lia.
Qed.

End HexBytes.

(** ** ChaCha20: decryption undoes encryption *)

Lemma lxor_is_byte a b : is_byte a -> is_byte b -> is_byte (Z.lxor a b).
Proof.
  intros Ha Hb. rewrite <- (xor_bytes_store a b Ha Hb).
  unfold is_byte. apply Z.mod_pos_bound. lia.
Qed.

Lemma zip_with_lxor_bytes p ks :
  Forall is_byte p -> Forall is_byte ks -> Forall is_byte (zip_with Z.lxor p ks).
Proof.
  intros Hp. revert ks. induction Hp as [|a p Ha _ IH]; intros ks Hks; [constructor|].
  destruct Hks as [|k ks Hk Hks]; [constructor|].
  cbn [zip_with]. constructor; [now apply lxor_is_byte|now apply IH].
Qed.

(** xoring twice with the same key stream gives the bytes back *)
Lemma zip_with_lxor_cancel p ks :
  length p = length ks ->
  zip_with Z.lxor (zip_with Z.lxor p ks) ks = p.
Proof.
  revert ks. induction p as [|a p IH]; intros [|k ks] Hlen; try discriminate;
    [reflexivity|].
  cbn [zip_with]. rewrite IH by (simpl in Hlen; lia).
  now rewrite Z.lxor_assoc, Z.lxor_nilpotent, Z.lxor_0_r.
Qed.

Section ChaChaRoundTrip.

Variable blk : list Z -> list Z -> Z -> list Z.
Variables key nonce : list Z.
Hypothesis blk_length : forall c, length (blk key nonce c) = 64%nat.
Hypothesis blk_bytes : forall c, Forall is_byte (blk key nonce c).

(** the key stream bytes used for an input of [n] bytes *)
Definition chacha_stream (n : nat) : list Z :=
  take n (ChaChaLoop.keystream blk key nonce ((n + 63) / 64)).

Lemma chacha_stream_length n : length (chacha_stream n) = n.
Proof.
  unfold chacha_stream.
  rewrite length_take, (ChaChaLoop.keystream_length blk key nonce blk_length).
  nat_divmod.
Qed.

Lemma chacha_stream_bytes n : Forall is_byte (chacha_stream n).
Proof.
  unfold chacha_stream, ChaChaLoop.keystream. apply Forall_take.
  induction (seq 0 ((n + 63) / 64)) as [|k l IH]; cbn [flat_map]; [constructor|].
  apply Forall_app. split; [apply blk_bytes|exact IH].
Qed.

Lemma chacha_encrypt_stream p :
  Forall is_byte p ->
  ChaCha20.encrypt blk p key nonce = zip_with Z.lxor p (chacha_stream (length p)).
Proof.
  intros Hp.
  rewrite (ChaChaLoop.encrypt_expected blk key nonce blk_length).
  rewrite ChaChaLoop.expected_take. fold (chacha_stream (length p)).
  apply ChaChaLoop.zip_with_xor8_bytes; [exact Hp|apply chacha_stream_bytes].
Qed.

Lemma chacha_encrypt_length p :
  length (ChaCha20.encrypt blk p key nonce) = length p.
Proof.
  rewrite (ChaChaLoop.encrypt_expected blk key nonce blk_length).
  apply (ChaChaLoop.expected_length blk key nonce blk_length).
Qed.

Lemma chacha_encrypt_bytes p :
  Forall is_byte p -> Forall is_byte (ChaCha20.encrypt blk p key nonce).
Proof.
  intros Hp. rewrite chacha_encrypt_stream by exact Hp.
  apply zip_with_lxor_bytes; [exact Hp|apply chacha_stream_bytes].
Qed.

Lemma chacha_encrypt_involutive p :
  Forall is_byte p ->
  ChaCha20.encrypt blk (ChaCha20.encrypt blk p key nonce) key nonce = p.
Proof.
  intros Hp.
  rewrite (chacha_encrypt_stream _ (chacha_encrypt_bytes p Hp)).
  rewrite chacha_encrypt_length, chacha_encrypt_stream by exact Hp.
  apply zip_with_lxor_cancel. now rewrite chacha_stream_length.
Qed.

End ChaChaRoundTrip.

Section ChaChaEngineRoundTrip.

Variable blk : list Z -> list Z -> Z -> list Z.
Hypothesis blk_length : forall key nonce c, length (blk key nonce c) = 64%nat.
Hypothesis blk_bytes : forall key nonce c, Forall is_byte (blk key nonce c).

Lemma chacha_validateNonce_truthy nonce :
  chacha_validateNonce nonce = true -> truthy (Some nonce) = true.
Proof. intros H. destruct nonce; [discriminate H|reflexivity]. Qed.

Lemma chacha_engine_roundtrip p bs key nonce iv mode variant :
  Forall Utf8RoundTrip.is_code_unit p ->
  Utf8Codec.encode_strict p = Ok bs ->
  hd_error p <> Some 0xFEFF ->
  chacha_validateKey key = true ->
  chacha_validateNonce nonce = true ->
  exists c,
    chacha_encrypt blk (mkEncryptionParams p key iv (Some nonce) mode variant)
    = Ok (op_success c chacha_metadata)
    /\ chacha_decrypt blk (mkDecryptionParams c key iv (Some nonce) mode variant)
       = Ok (op_success p chacha_metadata).
Proof.
  intros Hcu Henc Hbom Hk Hn.
  pose proof (Utf8RoundTrip.encode_strict_bytes p Hcu bs Henc) as Hb.
  pose proof (Utf8RoundTrip.TextEncoder_encode_strict p bs Henc) as Hte.
  set (K := hexToUint8Array key). set (N := hexToUint8Array nonce).
  set (ct := ChaCha20.encrypt blk bs K N).
  assert (Hct : Forall is_byte ct)
    by (apply chacha_encrypt_bytes; [apply blk_length|apply blk_bytes|exact Hb]).
  exists (hex_of_bytes ct). split.
  - unfold chacha_encrypt, chacha_encrypt_body.
    cbn [plaintext enc_key enc_nonce].
    change (default [] (Some nonce)) with nonce.
    rewrite Hk, Hn, (chacha_validateNonce_truthy nonce Hn), Hte.
    cbn [negb orb try_catch]. fold K N ct.
    now rewrite (uint8ArrayToHex_bytes ct Hct).
  - unfold chacha_decrypt, chacha_decrypt_body.
    cbn [ciphertext dec_key dec_nonce].
    change (default [] (Some nonce)) with nonce.
    rewrite Hk, Hn, (chacha_validateNonce_truthy nonce Hn).
    rewrite (isValidHex_hex_of_bytes ct Hct), (hexToUint8Array_hex_of_bytes ct Hct).
    cbn [negb orb try_catch]. fold K N. unfold ct.
    rewrite (chacha_encrypt_involutive blk K N (blk_length K N) (blk_bytes K N) bs Hb).
    rewrite <- Hte.
    now rewrite (Utf8RoundTrip.TextDecoder_TextEncoder p bs Hcu Henc Hbom).
Qed.

End ChaChaEngineRoundTrip.

(** ** Salsa20: decryption undoes encryption *)

Lemma loop_count_Qeq (l : Q) (L : nat) :
  (l == inject_Z (Z.of_nat L))%Q -> CryptoJS.loop_count l = L.
Proof.
  intros Hl. unfold CryptoJS.loop_count. rewrite Hl.
  apply (loop_count_nat L).
Qed.

Lemma hex_sigBytes_Qeq (L : nat) : (Z.of_nat (2 * L) # 2 == inject_Z (Z.of_nat L))%Q.
Proof. unfold Qeq. cbn [Qnum Qden inject_Z]. lia. Qed.

Lemma byte_at_is_byte ws i : is_byte (CryptoJS.byte_at ws i).
Proof. unfold CryptoJS.byte_at. apply band_0xff_is_byte. Qed.

Lemma map_byte_at_bytes ws l : Forall is_byte (map (CryptoJS.byte_at ws) l).
Proof. induction l; constructor; [apply byte_at_is_byte|assumption]. Qed.

Lemma at0_map_seq (f : nat -> Z) n i : (i < n)%nat -> JS.at0 (map f (seq 0 n)) i = f i.
Proof.
  intros Hi. apply at0_lookup.
  rewrite list_lookup_fmap, lookup_seq_lt by lia. reflexivity.
Qed.

Section SalsaRoundTrip.

Variable blk : WordArray -> WordArray -> Z -> option Z -> list Z.
Variables key nonce : WordArray.
Variable rounds : option Z.
Hypothesis blk_length : forall c, length (blk key nonce c rounds) = 16%nat.

(** the key stream words used for an input of [L] bytes *)
Definition salsa_stream_words (L : nat) : list Z :=
  take ((L + 3) / 4) (SalsaLoop.block_words blk key nonce rounds ((L + 63) / 64)).

Lemma salsa_stream_words_length L :
  length (salsa_stream_words L) = ((L + 3) / 4)%nat.
Proof.
  unfold salsa_stream_words.
  rewrite length_take, (SalsaLoop.block_words_length blk key nonce rounds blk_length).
  nat_divmod.
Qed.

Lemma generateKeystream_words (l : Q) (L : nat) :
  (l == inject_Z (Z.of_nat L))%Q ->
  words (generateKeystream blk key nonce l rounds) = salsa_stream_words L.
Proof.
  intros Hl. unfold generateKeystream. cbn [words WordArray_create].
  pose proof (ceil_div_64 L) as H64. pose proof (ceil_div_4 L) as H4.
  unfold ceil in *. rewrite Hl, H64, H4. reflexivity.
Qed.

(** the bytes that come back from decrypting the hexadecimal text of the
    encrypted bytes *)
Lemma salsa_decrypt_bytes bs :
  Forall is_byte bs ->
  let pb := CryptoJS.Latin1_parse bs in
  let enc := xorWithKeystream pb (generateKeystream blk key nonce (sigBytes pb) rounds) in
  let cb := CryptoJS.Hex_parse (CryptoJS.Hex_stringify enc) in
  let dec := xorWithKeystream cb (generateKeystream blk key nonce (sigBytes cb) rounds) in
  CryptoJS.Latin1_stringify dec = bs
  /\ (bs <> [] -> is_empty (CryptoJS.Hex_stringify enc) = false).
Proof.
  intros Hb pb enc cb dec.
  set (L := length bs).
  destruct (Latin1_parse_packed bs) as [HWlen HW]. fold pb L in HWlen, HW.
  pose proof (Latin1_parse_sigBytes bs) as Hpsig. fold pb L in Hpsig.
  assert (HE : words enc = xor_words (words pb) (salsa_stream_words L)).
  { unfold enc, xorWithKeystream. cbn [words WordArray_create].
    rewrite (generateKeystream_words _ L); [reflexivity|]. now rewrite Hpsig. }
  assert (Hesig : sigBytes enc = inject_Z (Z.of_nat L)) by exact Hpsig.
  set (BE := map (CryptoJS.byte_at (words enc)) (seq 0 L)).
  assert (Hhex : CryptoJS.Hex_stringify enc = hex_of_bytes BE).
  { now rewrite Hex_stringify_bytes, (Latin1_stringify_nat enc L Hesig). }
  assert (HBE : Forall is_byte BE).
  { apply map_byte_at_bytes. }
  assert (HBElen : length BE = L) by (unfold BE; now rewrite length_map, length_seq).
  destruct (Hex_parse_hex_of_bytes BE HBE) as [[HClen HC] Hcsig].
  rewrite <- Hhex, HBElen in HClen, HC, Hcsig. fold cb in HClen, HC, Hcsig.
  assert (Hcq : (sigBytes cb == inject_Z (Z.of_nat L))%Q)
    by (rewrite Hcsig; apply hex_sigBytes_Qeq).
  split.
  - unfold CryptoJS.Latin1_stringify. rewrite (loop_count_Qeq _ L) by exact Hcq.
    transitivity (map (JS.at0 bs) (seq 0 L)); [|apply map_at0_seq].
    apply map_ext_in. intros i Hi. apply in_seq in Hi.
    assert (Hi4 : (i / 4 < (L + 3) / 4)%nat) by nat_divmod.
    unfold dec, xorWithKeystream. cbn [words WordArray_create].
    rewrite (generateKeystream_words _ L Hcq).
    rewrite byte_at_xor_words
      by (rewrite ?HClen, ?salsa_stream_words_length; exact Hi4).
    rewrite HC. destruct (Nat.ltb_spec i L); [|lia].
    unfold BE. rewrite at0_map_seq by lia. rewrite HE.
    rewrite byte_at_xor_words
      by (rewrite ?HWlen, ?salsa_stream_words_length; exact Hi4).
    rewrite Z.lxor_assoc, Z.lxor_nilpotent, Z.lxor_0_r.
    rewrite HW. destruct (Nat.ltb_spec i L); [|lia].
    assert (Hbi : is_byte (JS.at0 bs i)) by (apply Forall_at0; [exact Hb|lia]).
    rewrite band_0xff. unfold is_byte in Hbi. apply Z.mod_small. lia.
  - intros Hne. rewrite Hhex.
    destruct bs as [|b bs']; [congruence|].
    unfold BE, L. cbn [length seq map hex_of_bytes flat_map hex_pair app]. reflexivity.
Qed.

End SalsaRoundTrip.

Section SalsaEngineRoundTrip.

Variable blk : WordArray -> WordArray -> Z -> option Z -> list Z.
Hypothesis blk_length :
  forall key nonce c rounds, length (blk key nonce c rounds) = 16%nat.

Lemma salsa_validateKey_is_empty key :
  salsa_validateKey key = true -> is_empty key = false.
Proof. intros H. destruct key; [discriminate H|reflexivity]. Qed.

Lemma salsa_validateNonce_truthy nonce :
  salsa_validateNonce nonce = true -> truthy (Some nonce) = true.
Proof. intros H. destruct nonce; [discriminate H|reflexivity]. Qed.

Lemma salsa_engine_roundtrip p bs key nonce iv mode variant :
  Forall Utf8RoundTrip.is_code_unit p ->
  Utf8Codec.encode_strict p = Ok bs ->
  p <> [] ->
  salsa_validateKey key = true ->
  salsa_validateNonce nonce = true ->
  let md := salsa_metadata (CryptoJS.Hex_parse key)
                           (default (js "salsa20/20") variant) in
  exists c,
    salsa_encrypt blk (mkEncryptionParams p key iv (Some nonce) mode variant)
    = Ok (op_success c md)
    /\ salsa_decrypt blk (mkDecryptionParams c key iv (Some nonce) mode variant)
       = Ok (op_success p md).
Proof.
  intros Hcu Henc Hne Hk Hn md.
  pose proof (Utf8RoundTrip.encode_strict_bytes p Hcu bs Henc) as Hb.
  pose proof (Utf8RoundTrip.encode_strict_nonempty p bs Henc Hne Hcu) as Hbne.
  set (rounds := getRoundsFromVariant (default (js "salsa20/20") variant)).
  destruct (salsa_decrypt_bytes blk (CryptoJS.Hex_parse key) (CryptoJS.Hex_parse nonce)
              rounds (fun c => blk_length _ _ c rounds) bs Hb) as [Hdec Hc].
  specialize (Hc Hbne).
  eexists. split.
  - unfold salsa_encrypt, salsa_encrypt_body.
    cbn [plaintext enc_key enc_nonce enc_variant].
    change (default [] (Some nonce)) with nonce.
    rewrite Hk, Hn, (salsa_validateKey_is_empty key Hk),
      (salsa_validateNonce_truthy nonce Hn).
    destruct p as [|ch p']; [congruence|].
    unfold CryptoJS.Utf8_parse. rewrite Henc. reflexivity.
  - unfold salsa_decrypt, salsa_decrypt_body.
    cbn [ciphertext dec_key dec_nonce dec_variant].
    change (default [] (Some nonce)) with nonce.
    fold rounds. rewrite Hc.
    rewrite Hk, Hn, (salsa_validateKey_is_empty key Hk),
      (salsa_validateNonce_truthy nonce Hn).
    unfold CryptoJS.Utf8_stringify, mbind, outcome_bind.
    cbn [orb negb]. rewrite Hdec.
    rewrite (Utf8RoundTrip.decode_encode_strict p Hcu bs Henc). reflexivity.
Qed.

End SalsaEngineRoundTrip.

(** * Properties of the engines beyond the specification's claims *)

(** ** Checking hypotheses on concrete data *)

Lemma is_byte_check bs :
  forallb (fun b => (0 <=? b) && (b <? 256)) bs = true -> Forall is_byte bs.
Proof.
  induction bs as [|b bs IH]; intros H; [constructor|].
  cbn [forallb] in H. apply andb_true_iff in H as [Hb H].
  apply andb_true_iff in Hb as [H0 H1]. apply Z.leb_le in H0. apply Z.ltb_lt in H1.
  constructor; [unfold is_byte; lia|now apply IH].
Qed.

Lemma is_code_unit_check s :
  forallb (fun c => (0 <=? c) && (c <? 0x10000)) s = true ->
  Forall Utf8RoundTrip.is_code_unit s.
Proof.
  induction s as [|c s IH]; intros H; [constructor|].
  cbn [forallb] in H. apply andb_true_iff in H as [Hc H].
  apply andb_true_iff in Hc as [H0 H1]. apply Z.leb_le in H0. apply Z.ltb_lt in H1.
  constructor; [unfold Utf8RoundTrip.is_code_unit; lia|now apply IH].
Qed.

(** ** TEA *)

(** X1: TEA's [decryptBlock] undoes [encryptBlock] under the same key: the
    result has the two words of the block, read as unsigned 32-bit numbers,
    and 8 significant bytes, whatever the key is. *)
Theorem X1_tea_decryptBlock_inverts_encryptBlock block key :
  TeaCore.decryptBlock (TeaCore.encryptBlock block key) key
  = WordArray_create
      [JS.ToUint32 (JS.at0 (words block) 0); JS.ToUint32 (JS.at0 (words block) 1)] 8.
Proof. apply tea_decryptBlock_encryptBlock. Qed.

(** X2: TEA in ECB mode.  For a non-empty plaintext without unpaired
    surrogates and a key of 32 characters, [encrypt] succeeds and [decrypt]
    of its result, with the same key, succeeds and returns the plaintext
    followed by the NUL characters that fill its UTF-8 bytes up to a multiple
    of 8: the zero padding is never removed, and the plaintext comes back
    unchanged exactly when its UTF-8 length is a multiple of 8.  The IV is
    optional; without one, [encrypt] still draws 8 random bytes. *)
Theorem X2_tea_ecb_roundtrip_zero_padded random p bs key iv nonce variant :
  Forall Utf8RoundTrip.is_code_unit p ->
  Utf8Codec.encode_strict p = Ok bs ->
  p <> [] ->
  TeaEngine.validateKey key = true ->
  (truthy iv = true \/ exists r, random 8 = Ok r) ->
  let md := feistel_metadata (js "ECB") (default (js "tea") variant) in
  exists c,
    TeaEngine.encrypt random
      (mkEncryptionParams p key iv nonce (Some (js "ECB")) variant)
    = Ok (op_success c md)
    /\ TeaEngine.decrypt (mkDecryptionParams c key iv nonce (Some (js "ECB")) variant)
       = Ok (op_success (p ++ repeat 0 (pad_length (length bs))) md).
Proof.
  intros Hcu Henc Hne Hk Hiv.
  assert (Hpos : (0 < length bs)%nat).
  { pose proof (Utf8RoundTrip.encode_strict_nonempty p bs Henc Hne Hcu).
    destruct bs; [congruence|simpl; lia]. }
  exact (feistel_ecb_roundtrip TeaCore.encryptBlock TeaCore.decryptBlock
           tea_decryptBlock_encryptBlock tea_decryptBlock_congr tea_encryptBlock_block2
           (js "TEA") (js "tea") random p bs key iv nonce variant
           Hcu Henc Hpos Hk Hiv).
Qed.

Lemma X2_tea_ecb_roundtrip_zero_padded_witness :
  let md := feistel_metadata (js "ECB") (js "tea") in
  exists c,
    TeaEngine.encrypt zero_random
      (mkEncryptionParams (js "hello") hex_key_16 None None (Some (js "ECB")) None)
    = Ok (op_success c md)
    /\ TeaEngine.decrypt
         (mkDecryptionParams c hex_key_16 None None (Some (js "ECB")) None)
       = Ok (op_success (js "hello" ++ [0; 0; 0]) md).
Proof.
  apply (X2_tea_ecb_roundtrip_zero_padded zero_random (js "hello")
           [104; 101; 108; 108; 111] hex_key_16 None None None).
  - apply is_code_unit_check. reflexivity.
  - reflexivity.
  - discriminate.
  - reflexivity.
  - right. eexists. reflexivity.
Defined.

(** X3: TEA in CBC mode (the default mode), with the same non-empty IV given
    to both calls.  For a non-empty plaintext without unpaired surrogates
    and a key of 32 characters, [decrypt] of the result of [encrypt] returns
    the plaintext followed by the NUL characters that fill its UTF-8 bytes
    up to a multiple of 8. *)
Theorem X3_tea_cbc_roundtrip_zero_padded random p bs key iv nonce mode variant :
  Forall Utf8RoundTrip.is_code_unit p ->
  Utf8Codec.encode_strict p = Ok bs ->
  p <> [] ->
  TeaEngine.validateKey key = true ->
  (mode = None \/ mode = Some (js "CBC")) ->
  truthy iv = true ->
  let md := feistel_metadata (js "CBC") (default (js "tea") variant) in
  exists c,
    TeaEngine.encrypt random (mkEncryptionParams p key iv nonce mode variant)
    = Ok (op_success c md)
    /\ TeaEngine.decrypt (mkDecryptionParams c key iv nonce mode variant)
       = Ok (op_success (p ++ repeat 0 (pad_length (length bs))) md).
Proof.
  intros Hcu Henc Hne Hk Hmode Hiv.
  assert (Hpos : (0 < length bs)%nat).
  { pose proof (Utf8RoundTrip.encode_strict_nonempty p bs Henc Hne Hcu).
    destruct bs; [congruence|simpl; lia]. }
  exact (feistel_cbc_roundtrip TeaCore.encryptBlock TeaCore.decryptBlock
           tea_decryptBlock_encryptBlock tea_decryptBlock_congr tea_encryptBlock_block2
           (js "TEA") (js "tea") random p bs key iv nonce mode variant
           Hcu Henc Hpos Hk Hmode Hiv).
Qed.

Lemma X3_tea_cbc_roundtrip_zero_padded_witness :
  let md := feistel_metadata (js "CBC") (js "tea") in
  exists c,
    TeaEngine.encrypt zero_random
      (mkEncryptionParams (js "12345678") hex_key_16 (Some hex_iv_8) None None None)
    = Ok (op_success c md)
    /\ TeaEngine.decrypt
         (mkDecryptionParams c hex_key_16 (Some hex_iv_8) None None None)
       = Ok (op_success (js "12345678") md).
Proof.
  pose proof (X3_tea_cbc_roundtrip_zero_padded zero_random (js "12345678")
           [49; 50; 51; 52; 53; 54; 55; 56] hex_key_16 (Some hex_iv_8) None None None) as H.
  cbv zeta in *. 
  destruct H as (c & H1 & H2).
  - apply is_code_unit_check. reflexivity.
  - reflexivity.
  - discriminate.
  - reflexivity.
  - now left.
  - reflexivity.
  - exists c. split; [exact H1|exact H2].
Defined.

(** ** The stream engines *)

(** X4: Salsa20.  For a non-empty plaintext without unpaired surrogates, a
    key of 32 or 64 characters and a nonce of 16 characters, [encrypt]
    succeeds and [decrypt] of its result, with the same key, nonce and
    variant, returns exactly the plaintext, for every variant name. *)
Theorem X4_salsa20_roundtrip p bs key nonce iv mode variant :
  Forall Utf8RoundTrip.is_code_unit p ->
  Utf8Codec.encode_strict p = Ok bs ->
  p <> [] ->
  Salsa20Engine.validateKey key = true ->
  Salsa20Engine.validateNonce nonce = true ->
  let md := salsa_metadata (CryptoJS.Hex_parse key)
                           (default (js "salsa20/20") variant) in
  exists c,
    Salsa20Engine.encrypt (mkEncryptionParams p key iv (Some nonce) mode variant)
    = Ok (op_success c md)
    /\ Salsa20Engine.decrypt (mkDecryptionParams c key iv (Some nonce) mode variant)
       = Ok (op_success p md).
Proof.
  intros Hcu Henc Hne Hk Hn.
  exact (salsa_engine_roundtrip Salsa20Core.salsa20Block
           Salsa20Final.salsa20Block_length p bs key nonce iv mode variant
           Hcu Henc Hne Hk Hn).
Qed.

Lemma X4_salsa20_roundtrip_witness :
  let md := salsa_metadata (CryptoJS.Hex_parse hex_key_32) (js "salsa20/12") in
  exists c,
    Salsa20Engine.encrypt
      (mkEncryptionParams (js "hello") hex_key_32 None (Some hex_nonce_8) None
                          (Some (js "salsa20/12")))
    = Ok (op_success c md)
    /\ Salsa20Engine.decrypt
         (mkDecryptionParams c hex_key_32 None (Some hex_nonce_8) None
                             (Some (js "salsa20/12")))
       = Ok (op_success (js "hello") md).
Proof.
  apply (X4_salsa20_roundtrip (js "hello") [104; 101; 108; 108; 111]
           hex_key_32 hex_nonce_8 None None (Some (js "salsa20/12"))).
  - apply is_code_unit_check. reflexivity.
  - reflexivity.
  - discriminate.
  - reflexivity.
  - reflexivity.
Defined.

(** X5: ChaCha20.  For a plaintext without unpaired surrogates that does not
    start with U+FEFF, a key of 64 hexadecimal digits and a nonce of 24,
    [encrypt] succeeds and [decrypt] of its result, with the same key and
    nonce, returns exactly the plaintext; the empty plaintext included. *)
Theorem X5_chacha20_roundtrip p bs key nonce iv mode variant :
  Forall Utf8RoundTrip.is_code_unit p ->
  Utf8Codec.encode_strict p = Ok bs ->
  hd_error p <> Some 0xFEFF ->
  ChaCha20Engine.validateKey key = true ->
  ChaCha20Engine.validateNonce nonce = true ->
  exists c,
    ChaCha20Engine.encrypt (mkEncryptionParams p key iv (Some nonce) mode variant)
    = Ok (op_success c chacha_metadata)
    /\ ChaCha20Engine.decrypt (mkDecryptionParams c key iv (Some nonce) mode variant)
       = Ok (op_success p chacha_metadata).
Proof.
  intros Hcu Henc Hbom Hk Hn.
  exact (chacha_engine_roundtrip ChaCha20.chacha20Block
           ChaCha20Final.chacha20Block_length chacha20Block_bytes
           p bs key nonce iv mode variant Hcu Henc Hbom Hk Hn).
Qed.

Lemma X5_chacha20_roundtrip_witness :
  exists c,
    ChaCha20Engine.encrypt
      (mkEncryptionParams (js "hello") hex_key_32 None (Some hex_nonce_12) None None)
    = Ok (op_success c chacha_metadata)
    /\ ChaCha20Engine.decrypt
         (mkDecryptionParams c hex_key_32 None (Some hex_nonce_12) None None)
       = Ok (op_success (js "hello") chacha_metadata).
Proof.
  apply (X5_chacha20_roundtrip (js "hello") [104; 101; 108; 108; 111]
           hex_key_32 hex_nonce_12 None None None).
  - apply is_code_unit_check. reflexivity.
  - reflexivity.
  - discriminate.
  - reflexivity.
  - reflexivity.
Defined.

(** X6: [ChaCha20.encrypt] on byte arrays keeps the length and is its own
    inverse: applying it twice with the same key and nonce arrays gives the
    input back, whatever the lengths of the key and the nonce. *)
Theorem X6_chacha20_encrypt_involutive plaintext key nonce :
  Forall is_byte plaintext ->
  let ciphertext := ChaCha20.encrypt ChaCha20.chacha20Block plaintext key nonce in
  length ciphertext = length plaintext
  /\ Forall is_byte ciphertext
  /\ ChaCha20.encrypt ChaCha20.chacha20Block ciphertext key nonce = plaintext.
Proof.
  intros Hp ciphertext.
  pose proof (fun c => ChaCha20Final.chacha20Block_length key nonce c) as Hlen.
  pose proof (fun c => chacha20Block_bytes key nonce c) as Hbytes.
  split; [|split].
  - apply chacha_encrypt_length. exact Hlen.
  - apply chacha_encrypt_bytes; assumption.
  - apply chacha_encrypt_involutive; assumption.
Qed.

Lemma X6_chacha20_encrypt_involutive_witness :
  let ciphertext :=
    ChaCha20.encrypt ChaCha20.chacha20Block hello_bytes rfc8439_key rfc8439_nonce in
  length ciphertext = length hello_bytes
  /\ Forall is_byte ciphertext
  /\ ChaCha20.encrypt ChaCha20.chacha20Block ciphertext rfc8439_key rfc8439_nonce
     = hello_bytes.
Proof.
  apply (X6_chacha20_encrypt_involutive hello_bytes rfc8439_key rfc8439_nonce).
  apply is_byte_check. reflexivity.
Defined.

(** X7: the two converters of the ChaCha20 engine are inverse on byte arrays:
    [uint8ArrayToHex] writes two hexadecimal digits per byte, the text passes
    [isValidHex], and [hexToUint8Array] reads the bytes back. *)
Theorem X7_hexToUint8Array_uint8ArrayToHex bytes :
  Forall is_byte bytes ->
  length (uint8ArrayToHex bytes) = (2 * length bytes)%nat
  /\ CryptoUtils.isValidHex (uint8ArrayToHex bytes) = true
  /\ hexToUint8Array (uint8ArrayToHex bytes) = bytes.
Proof.
  intros Hb. rewrite (uint8ArrayToHex_bytes bytes Hb).
  split; [apply hex_of_bytes_length|].
  split; [now apply isValidHex_hex_of_bytes|now apply hexToUint8Array_hex_of_bytes].
Qed.

Lemma X7_hexToUint8Array_uint8ArrayToHex_witness :
  length (uint8ArrayToHex [0; 15; 16; 255]) = 8%nat
  /\ CryptoUtils.isValidHex (uint8ArrayToHex [0; 15; 16; 255]) = true
  /\ hexToUint8Array (uint8ArrayToHex [0; 15; 16; 255]) = [0; 15; 16; 255].
Proof.
  apply (X7_hexToUint8Array_uint8ArrayToHex [0; 15; 16; 255]).
  apply is_byte_check. reflexivity.
Defined.

(** * More of [src/lib/crypto-utils.ts] *)

(** [b.toString(16).padStart(2, '0')] for a byte [b] *)
Definition byte_hex (b : Z) : jsstring := [hex_digit (b / 16); hex_digit (b mod 16)].

(** ** Padding utilities for block ciphers *)

(** The errors of the platform that the padding code can run into: the
    constructor [new Uint8Array(n)] with a length that is negative or above
    2^53 - 1, or with a length that the platform does not allocate, and
    [TypedArray.prototype.set] with a source longer than the target.  All
    are [RangeError]s; their messages are the platform's. *)
Inductive platform_error :=
| InvalidTypedArrayLength (n : Z)
| AllocationFailed (n : Z)
| SourceTooLarge.

Module Pkcs7.
Section Platform.

Variable platform_message : platform_error -> jsstring.

(** whether the platform allocates a typed array of that length, as far as
    its limits and its memory allow *)
Variable allocates : Z -> bool.

(** the largest length of the language *)
Definition max_length : Z := 2 ^ 53 - 1.

(** [new Uint8Array(n)] for a whole number [n] *)
Definition new_Uint8Array (n : Z) : outcome (list Z) :=
  if (n <? 0) || (max_length <? n)
  then Throw (ErrorObj (platform_message (InvalidTypedArrayLength n)))
  else if allocates n then Ok (repeat 0 (Z.to_nat n))
  else Throw (ErrorObj (platform_message (AllocationFailed n))).

(** [target.set(source)] *)
Definition set_from (target source : list Z) : outcome (list Z) :=
  if (length target <? length source)%nat
  then Throw (ErrorObj (platform_message SourceTooLarge))
  else Ok (source ++ drop (length source) target).

(** [pkcs7Pad(data, blockSize)] for a whole number [blockSize].
    - [blockSize = 0]: [data.length % 0] is [NaN], so are [padding] and the
      requested length, and [new Uint8Array(NaN)] is empty: [set] throws
      unless [data] is empty too, and the loop does not run.
    - otherwise [%] takes the sign of [data.length]: for [blockSize > 0],
      [padding] is between 1 and [blockSize], the new array holds [data] and
      the loop stores [padding] ([Uint8Array] keeps it modulo 256) in the
      remaining cells; for [blockSize < 0], [padding] is negative and
      either the constructor or [set] throws.
    The numbers of the code are exact as long as the requested length is
    below 2^53; a larger one is refused whatever its rounding. *)
Definition pkcs7Pad (data : list Z) (blockSize : Z) : outcome (list Z) :=
  let len := Z.of_nat (length data) in
  if blockSize =? 0 then
    padded ← new_Uint8Array 0;
    set_from padded data
  else
    let padding := blockSize - Z.rem len blockSize in
    padded ← new_Uint8Array (len + padding);
    padded ← set_from padded data;
    Ok (fold_left (fun padded i => u8_set padded i padding)
                  (seq (length data) (length padded - length data)) padded).

End Platform.

Definition invalid_padding : jsstring := js "Invalid PKCS7 padding".

(** [pkcs7Unpad(data)]; the loop [for (i = data.length - padding; ...)]
    throws at the first byte that differs from [padding] *)
Definition pkcs7Unpad (data : list Z) : outcome (list Z) :=
  if (length data =? 0)%nat then Ok data
  else
    let padding := JS.at0 data (length data - 1) in
    if (padding =? 0) || (Z.of_nat (length data) <? padding) then
      throw_Error invalid_padding
    else
      let start := (length data - Z.to_nat padding)%nat in
      if forallb (fun i => JS.at0 data i =? padding) (seq start (Z.to_nat padding))
      then Ok (take start data)
      else throw_Error invalid_padding.

End Pkcs7.

(** ** Secure comparison *)

(** [secureCompare(a, b)]: [result |= a[i] ^ b[i]] over the whole array *)
Definition secureCompare (a b : list Z) : bool :=
  if negb (length a =? length b)%nat then false
  else
    let result :=
      fold_left (fun result i => result .| ((JS.at0 a i) .^ (JS.at0 b i)))
                (seq 0 (length a)) 0 in
    result =? 0.

(** ** String encoding and decoding *)

Module Conversions.

(** [stringToHex(str)] *)
Definition stringToHex (str : jsstring) : jsstring :=
  flat_map byte_hex (Utf8Codec.TextEncoder_encode str).

(** the characters that [.] does not match in a regular expression
    without the [s] flag *)
Definition is_line_terminator (c : Z) : bool :=
  (c =? 0x0A) || (c =? 0x0D) || (c =? 0x2028) || (c =? 0x2029).

(** [hex.match(/.{1,2}/g)]: the matches from left to right, each one or two
    characters long and free of line terminators; [[]] stands for [null] too,
    which [|| []] replaces by the empty array *)
Fixpoint match_pairs (s : jsstring) : list jsstring :=
  match s with
  | [] => []
  | c :: rest =>
      if is_line_terminator c then match_pairs rest
      else
        match rest with
        | [] => [[c]]
        | c' :: rest' =>
            if is_line_terminator c' then [c] :: match_pairs rest'
            else [c; c'] :: match_pairs rest'
        end
  end.

(** [hexToString(hex)]: [new Uint8Array(numbers)] stores each number modulo
    256 and [NaN] as 0 *)
Definition hexToString (hex : jsstring) : jsstring :=
  let bytes := map (fun byte => nan0 (parseInt16 byte) mod 256) (match_pairs hex) in
  Utf8Codec.TextDecoder_decode bytes.

End Conversions.

(** ** Secure random number generation *)

Module RandomBytes.
Section Platform.

(** whether [window.crypto.getRandomValues] is there, the bytes it writes
    into an array, and the successive values of
    [Math.floor(Math.random() * 256)] *)
Variable web_crypto : bool.
Variable crypto_byte : nat -> Z.
Variable random_256 : nat -> Z.

(** [getRandomBytes(length)] for a length that is a natural number *)
Definition getRandomBytes (length : nat) : list Z :=
  if web_crypto then map (fun i => crypto_byte i mod 256) (seq 0 length)
  else fold_left (fun array i => u8_set array i (random_256 i))
                 (seq 0 length) (repeat 0 length).

Definition generateRandomHex (byteLength : nat) : jsstring :=
  flat_map byte_hex (getRandomBytes byteLength).

(** [ChaCha20Engine.generateKey] and [generateNonce] *)
Definition chacha_generateKey : jsstring := generateRandomHex 32.
Definition chacha_generateNonce : jsstring := generateRandomHex 12.

End Platform.
End RandomBytes.

(** ** Key and IV generation of the CryptoJS-based engines *)

Section FeistelGenerators.

(** [CryptoJS.lib.WordArray.random(nBytes)] for a finite number [nBytes],
    whole or not *)
Variable random : Q -> outcome WordArray.

(** [TeaEngine] and [XteaEngine]: [generateKey(keySize = 128)] ignores its
    argument, [generateIV(ivSize = 8)] uses it *)
Definition feistel_generateKey (keySize : option Q) : outcome jsstring :=
  key ← random 16%Q; Ok (CryptoJS.Hex_stringify key).

Definition feistel_generateIV (ivSize : option Q) : outcome jsstring :=
  iv ← random (default 8%Q ivSize); Ok (CryptoJS.Hex_stringify iv).

End FeistelGenerators.

Section Generators.

(** [CryptoJS.lib.WordArray.random] at a whole number *)
Variable random : Z -> outcome WordArray.

(** [Salsa20Engine]: a key size other than 128 and 256 is replaced by 256 *)
Definition salsa_generateKey (keySize : option Z) : outcome jsstring :=
  let keySize := default 256 keySize in
  let keySize := if negb (existsb (Z.eqb keySize) [128; 256]) then 256 else keySize in
  let keyBytes := keySize / 8 in
  key ← random keyBytes; Ok (CryptoJS.Hex_stringify key).

Definition salsa_generateNonce : outcome jsstring :=
  nonce ← random 8; Ok (CryptoJS.Hex_stringify nonce).

Definition salsa_generateIV (ivSize : option Z) : outcome jsstring :=
  salsa_generateNonce.

End Generators.

(** ** Properties of the padding *)

Section Pkcs7Lemmas.
Import Pkcs7.

Lemma map_const_repeat {A} (w : Z) (l : list A) :
  map (fun _ => w) l = repeat w (length l).
Proof. induction l as [|x l IH]; [reflexivity|]. cbn [map length repeat]. now rewrite IH. Qed.

Lemma seq_shift_map a n : seq a n = map (fun j => (a + j)%nat) (seq 0 n).
Proof.
  revert a. induction n as [|n IH]; intros a; [reflexivity|].
  cbn [seq map]. rewrite Nat.add_0_r. f_equal.
  rewrite (IH (S a)), (IH 1%nat), map_map. apply map_ext. intros j. lia.
Qed.

(** the loop that stores [v] in the [n] cells after [data] *)
Lemma fill_loop (data : list Z) v n :
  fold_left (fun padded i => u8_set padded i v) (seq (length data) n)
            (data ++ repeat 0 n)
  = data ++ repeat (v mod 256) n.
Proof.
  rewrite seq_shift_map, fold_left_map.
  unfold u8_set, typed_set.
  rewrite (fold_insert_range (fun _ => v mod 256) (length data) n)
    by (rewrite length_app, repeat_length; lia).
  rewrite take_app_length, drop_ge by (rewrite length_app, repeat_length; lia).
  rewrite app_nil_r, map_const_repeat, length_seq. reflexivity.
Qed.

Lemma Forall_repeat_intro {A} (P : A -> Prop) x n : P x -> Forall P (repeat x n).
Proof. intros H. induction n; constructor; assumption. Qed.

Lemma lookup_repeat {A} (x : A) n i :
  repeat x n !! i = if (i <? n)%nat then Some x else None.
Proof.
  revert i. induction n as [|n IH]; intros [|i]; try reflexivity.
  cbn [repeat]. rewrite lookup_cons. cbn [Nat.ltb Nat.leb]. rewrite IH. reflexivity.
Qed.

Lemma at0_app_repeat (data : list Z) p n i :
  (length data <= i < length data + n)%nat -> JS.at0 (data ++ repeat p n) i = p.
Proof.
  intros Hi. unfold JS.at0. rewrite lookup_app_r by lia. rewrite lookup_repeat.
  destruct (Nat.ltb_spec (i - length data) n); [reflexivity|lia].
Qed.

(** a list whose cells all hold [p] *)
Lemma all_equal_repeat (l : list Z) p :
  (forall i, (i < length l)%nat -> JS.at0 l i = p) -> l = repeat p (length l).
Proof.
  induction l as [|x l IH]; intros H; [reflexivity|].
  cbn [length repeat]. f_equal.
  - apply (H 0%nat). simpl. lia.
  - apply IH. intros i Hi. apply (H (S i)). simpl. lia.
Qed.

Lemma pkcs7Pad_positive msg allocates data blockSize :
  0 < blockSize ->
  let padding := blockSize - Z.of_nat (length data) mod blockSize in
  Z.of_nat (length data) + padding <= max_length ->
  allocates (Z.of_nat (length data) + padding) = true ->
  pkcs7Pad msg allocates data blockSize
  = Ok (data ++ repeat (padding mod 256) (Z.to_nat padding)).
Proof.
  intros Hb padding Hmax Ha. unfold pkcs7Pad.
  assert (Hr : 0 <= Z.of_nat (length data) mod blockSize < blockSize)
    by (apply Z.mod_pos_bound; lia).
  rewrite (proj2 (Z.eqb_neq blockSize 0)) by lia.
  rewrite Z.rem_mod_nonneg by lia. fold padding.
  unfold new_Uint8Array.
  rewrite (proj2 (Z.ltb_ge _ 0)) by (unfold padding; lia).
  rewrite (proj2 (Z.ltb_ge max_length _)) by exact Hmax.
  rewrite Ha. cbn [orb]. unfold mbind at 1. unfold outcome_bind at 1. cbv beta iota.
  unfold set_from. rewrite repeat_length.
  destruct (Nat.ltb_spec (Z.to_nat (Z.of_nat (length data) + padding)) (length data));
    [unfold padding in *; lia|].
  unfold mbind, outcome_bind. cbv beta iota.
  rewrite drop_repeat, length_app, repeat_length.
  replace (Z.to_nat (Z.of_nat (length data) + padding) - length data)%nat
    with (Z.to_nat padding) by (unfold padding; lia).
  replace (length data + Z.to_nat padding - length data)%nat
    with (Z.to_nat padding) by lia.
  now rewrite fill_loop.
Qed.

(** the constructor fails: nothing is padded *)
Lemma pkcs7Pad_not_allocated msg allocates data blockSize :
  0 < blockSize ->
  let n := Z.of_nat (length data)
           + (blockSize - Z.of_nat (length data) mod blockSize) in
  max_length < n \/ allocates n = false ->
  exists message, pkcs7Pad msg allocates data blockSize = Throw (ErrorObj message).
Proof.
  intros Hb n Hn. unfold pkcs7Pad.
  assert (Hr : 0 <= Z.of_nat (length data) mod blockSize < blockSize)
    by (apply Z.mod_pos_bound; lia).
  rewrite (proj2 (Z.eqb_neq blockSize 0)) by lia.
  rewrite Z.rem_mod_nonneg by lia. fold n.
  unfold new_Uint8Array. rewrite (proj2 (Z.ltb_ge n 0)) by (unfold n; lia).
  cbn [orb]. destruct (Z.ltb_spec max_length n) as [Hlt|Hle]; [now eexists|].
  destruct Hn as [Hn|Hn]; [lia|]. rewrite Hn. now eexists.
Qed.

Lemma pkcs7Unpad_padded data p :
  1 <= p -> pkcs7Unpad (data ++ repeat p (Z.to_nat p)) = Ok data.
Proof.
  intros Hp. unfold pkcs7Unpad.
  set (n := Z.to_nat p). assert (Hn : (1 <= n)%nat) by (unfold n; lia).
  rewrite length_app, repeat_length.
  destruct (Nat.eqb_spec (length data + n) 0); [lia|].
  rewrite at0_app_repeat by lia.
  rewrite (proj2 (Z.eqb_neq p 0)) by lia.
  rewrite (proj2 (Z.ltb_ge (Z.of_nat (length data + n)) p)) by (unfold n; lia).
  cbn [orb]. fold n.
  replace (length data + n - n)%nat with (length data) by lia.
  rewrite take_app_length.
  assert (Hall : forallb (fun i => JS.at0 (data ++ repeat p n) i =? p)
                         (seq (length data) n) = true).
  { apply forallb_forall. intros i Hi. apply in_seq in Hi.
    rewrite at0_app_repeat by lia. apply Z.eqb_refl. }
  now rewrite Hall.
Qed.

(** what [pkcs7Unpad] accepts, and what it returns then *)
Lemma pkcs7Unpad_Ok data r :
  Forall is_byte data ->
  pkcs7Unpad data = Ok r
  <-> (data = [] /\ r = [])
      \/ exists p, 1 <= p /\ data = r ++ repeat p (Z.to_nat p).
Proof.
  intros Hbytes. split.
  - unfold pkcs7Unpad. destruct (Nat.eqb_spec (length data) 0) as [H0|H0].
    + intros H. injection H as <-. left. now destruct data.
    + set (p := JS.at0 data (length data - 1)).
      assert (Hpb : is_byte p) by (apply Forall_at0; [exact Hbytes|lia]).
      unfold is_byte in Hpb.
      destruct (Z.eqb_spec p 0) as [Hp0|Hp0]; [discriminate|].
      destruct (Z.ltb_spec (Z.of_nat (length data)) p) as [Hlt|Hle]; [discriminate|].
      cbn [orb]. set (n := Z.to_nat p). set (start := (length data - n)%nat).
      destruct (forallb _ _) eqn:Hall; [|discriminate].
      intros H. injection H as <-.
      rewrite forallb_forall in Hall.
      right. exists p. split; [lia|].
      rewrite <- (take_drop start data) at 1. f_equal.
      assert (Hlen : length (drop start data) = n)
        by (rewrite length_drop; unfold start, n; lia).
      fold n. rewrite <- Hlen. apply all_equal_repeat. intros i Hi.
      rewrite at0_drop. apply Z.eqb_eq, Hall, in_seq. lia.
  - intros [[-> ->] | (p & Hp & ->)]; [reflexivity|now apply pkcs7Unpad_padded].
Qed.

(** every rejection carries the same message *)
Lemma pkcs7Unpad_Throw data e :
  pkcs7Unpad data = Throw e -> e = ErrorObj invalid_padding.
Proof.
  unfold pkcs7Unpad, throw_Error.
  repeat match goal with |- context [if ?b then _ else _] => destruct b end;
    intros H; try discriminate; now injection H as <-.
Qed.

End Pkcs7Lemmas.

(** X8: PKCS#7 round trip.  For a block size between 1 and 255, and when
    the padded array can be created (its length is at most 2^53 - 1 and the
    platform allocates it), [pkcs7Pad] returns the data followed by 1 to
    [blockSize] pad bytes, its length is a multiple of the block size, and
    [pkcs7Unpad] gives the data back. *)
Theorem X8_pkcs7Unpad_pkcs7Pad msg allocates data blockSize :
  1 <= blockSize <= 255 ->
  Z.of_nat (length data) + (blockSize - Z.of_nat (length data) mod blockSize)
  <= Pkcs7.max_length ->
  allocates (Z.of_nat (length data)
             + (blockSize - Z.of_nat (length data) mod blockSize)) = true ->
  exists padded,
    Pkcs7.pkcs7Pad msg allocates data blockSize = Ok padded
    /\ Z.of_nat (length padded) mod blockSize = 0
    /\ Z.of_nat (length data) < Z.of_nat (length padded)
       <= Z.of_nat (length data) + blockSize
    /\ Pkcs7.pkcs7Unpad padded = Ok data.
Proof.
  intros Hb Hmax Ha. set (len := Z.of_nat (length data)) in *.
  set (p := blockSize - len mod blockSize) in *.
  assert (Hr : 0 <= len mod blockSize < blockSize) by (apply Z.mod_pos_bound; lia).
  assert (Hp : 1 <= p <= blockSize) by (unfold p; lia).
  exists (data ++ repeat p (Z.to_nat p)).
  split; [|split; [|split]].
  - rewrite pkcs7Pad_positive by (exact Ha || exact Hmax || lia). fold len p.
    now rewrite (Z.mod_small p 256) by lia.
  - rewrite length_app, repeat_length, Nat2Z.inj_add, Z2Nat.id by lia. fold len.
    replace (len + p) with ((len / blockSize + 1) * blockSize).
    + apply Z_mod_mult.
    + unfold p. pose proof (Z.div_mod len blockSize ltac:(lia)). lia.
  - rewrite length_app, repeat_length, Nat2Z.inj_add, Z2Nat.id by lia. fold len. lia.
  - apply pkcs7Unpad_padded. lia.
Qed.

(** a platform that allocates up to 2^32 - 1 bytes, for the examples *)
Definition allocates_32 (n : Z) : bool := n <=? 2 ^ 32 - 1.

Lemma X8_pkcs7Unpad_pkcs7Pad_witness :
  exists padded,
    Pkcs7.pkcs7Pad (fun _ => []) allocates_32 [1; 2; 3] 8 = Ok padded
    /\ Z.of_nat (length padded) mod 8 = 0
    /\ Z.of_nat (length [1; 2; 3]) < Z.of_nat (length padded)
       <= Z.of_nat (length [1; 2; 3]) + 8
    /\ Pkcs7.pkcs7Unpad padded = Ok [1; 2; 3].
Proof.
  apply (X8_pkcs7Unpad_pkcs7Pad (fun _ => []) allocates_32 [1; 2; 3] 8);
    [lia|vm_compute; discriminate|reflexivity].
Defined.

(** X9: the pad byte is stored in a [Uint8Array], that is modulo 256.  When
    the number of pad bytes is 256 or more (a block size above 255) and the
    padded array can be created (its length is at most 2^53 - 1 and the
    platform allocates it), [pkcs7Pad] succeeds but [pkcs7Unpad] does not
    give the data back: it throws, or it removes fewer bytes than were
    added.  When the padded array cannot be created, [pkcs7Pad] throws the
    [RangeError] of the constructor. *)
Theorem X9_pkcs7_round_trip_lost_above_255 msg allocates data blockSize :
  Forall is_byte data ->
  0 < blockSize ->
  256 <= blockSize - Z.of_nat (length data) mod blockSize ->
  (Z.of_nat (length data) + (blockSize - Z.of_nat (length data) mod blockSize)
   <= Pkcs7.max_length ->
   allocates (Z.of_nat (length data)
              + (blockSize - Z.of_nat (length data) mod blockSize)) = true ->
   exists padded,
     Pkcs7.pkcs7Pad msg allocates data blockSize = Ok padded
     /\ Pkcs7.pkcs7Unpad padded <> Ok data)
  /\ (Pkcs7.max_length
      < Z.of_nat (length data) + (blockSize - Z.of_nat (length data) mod blockSize)
      \/ allocates (Z.of_nat (length data)
                    + (blockSize - Z.of_nat (length data) mod blockSize)) = false ->
      exists message,
        Pkcs7.pkcs7Pad msg allocates data blockSize = Throw (ErrorObj message)).
Proof.
  intros Hdata Hb Hp. split; [|now apply pkcs7Pad_not_allocated].
  intros Hmax Ha. set (p := blockSize - Z.of_nat (length data) mod blockSize) in *.
  exists (data ++ repeat (p mod 256) (Z.to_nat p)).
  split; [now apply pkcs7Pad_positive|].
  assert (Hv : 0 <= p mod 256 < 256) by (apply Z.mod_pos_bound; lia).
  intros H. apply pkcs7Unpad_Ok in H.
  - destruct H as [[H _] | (q & Hq & H)].
    + apply (f_equal (@length Z)) in H.
      rewrite length_app, repeat_length in H. simpl in H. lia.
    + apply app_inv_head in H.
      pose proof (f_equal (@length Z) H) as Hlen. rewrite !repeat_length in Hlen.
      destruct (Z.to_nat p) as [|n] eqn:En; [lia|].
      destruct (Z.to_nat q) as [|m] eqn:Em; [discriminate|].
      cbn [repeat] in H. injection H as Hq' _. lia.
  - apply Forall_app. split; [exact Hdata|]. now apply Forall_repeat_intro.
Qed.

Lemma X9_pkcs7_round_trip_lost_above_255_witness :
  (exists padded,
     Pkcs7.pkcs7Pad (fun _ => []) allocates_32 [7] 257 = Ok padded
     /\ Pkcs7.pkcs7Unpad padded <> Ok [7])
  /\ (exists message,
        Pkcs7.pkcs7Pad (fun _ => []) (fun _ => true) [7] (2 ^ 60)
        = Throw (ErrorObj message)).
Proof.
  split.
  - apply (X9_pkcs7_round_trip_lost_above_255 (fun _ => []) allocates_32 [7] 257);
      [apply is_byte_check; reflexivity | lia | vm_compute; discriminate
      | vm_compute; discriminate | reflexivity].
  - apply (X9_pkcs7_round_trip_lost_above_255 (fun _ => []) (fun _ => true) [7] (2 ^ 60));
      [apply is_byte_check; reflexivity | lia | vm_compute; discriminate
      | left; vm_compute; reflexivity].
Defined.

(** X10: [pkcs7Unpad] on a byte array succeeds exactly on the empty array
    (returned as it is) and on the arrays that end with [p] bytes equal to
    [p], for some [p] of at least 1: it returns what precedes them.  Every
    other array is rejected with the message 'Invalid PKCS7 padding'. *)
Theorem X10_pkcs7Unpad_accepts data :
  Forall is_byte data ->
  (forall r,
      Pkcs7.pkcs7Unpad data = Ok r
      <-> (data = [] /\ r = [])
          \/ exists p, 1 <= p /\ data = r ++ repeat p (Z.to_nat p))
  /\ (forall e, Pkcs7.pkcs7Unpad data = Throw e -> e = ErrorObj (js "Invalid PKCS7 padding")).
Proof.
  intros Hdata. split.
  - intros r. now apply pkcs7Unpad_Ok.
  - intros e. apply pkcs7Unpad_Throw.
Qed.

Lemma X10_pkcs7Unpad_accepts_witness :
  (forall r,
      Pkcs7.pkcs7Unpad [9; 2; 2] = Ok r
      <-> ([9; 2; 2] = [] /\ r = [])
          \/ exists p, 1 <= p /\ [9; 2; 2] = r ++ repeat p (Z.to_nat p))
  /\ (forall e, Pkcs7.pkcs7Unpad [9; 2; 2] = Throw e
                -> e = ErrorObj (js "Invalid PKCS7 padding")).
Proof.
  apply (X10_pkcs7Unpad_accepts [9; 2; 2]). apply is_byte_check. reflexivity.
Defined.

(** ** Properties of the comparison *)

Lemma lor_is_byte x y : is_byte x -> is_byte y -> is_byte (Z.lor x y).
Proof.
  intros Hx Hy.
  assert (H : Z.lor x y mod 2 ^ 8 = Z.lor x y).
  { apply Z.bits_inj'. intros n Hn. destruct (Z.lt_ge_cases n 8).
    - now rewrite Z.mod_pow2_bits_low by lia.
    - rewrite Z.mod_pow2_bits_high by lia.
      now rewrite Z.lor_spec, !testbit_is_byte by (assumption || lia). }
  unfold is_byte. rewrite <- H. apply Z.mod_pos_bound. lia.
Qed.

Lemma bor_bytes x y : is_byte x -> is_byte y -> (x .| y) = Z.lor x y.
Proof.
  intros Hx Hy. unfold JS.bor, is_byte in *. now rewrite !ToInt32_small by lia.
Qed.

Lemma bxor_bytes x y : is_byte x -> is_byte y -> (x .^ y) = Z.lxor x y.
Proof.
  intros Hx Hy. unfold JS.bxor, is_byte in *. now rewrite !ToInt32_small by lia.
Qed.

Lemma at0_is_byte bs i : Forall is_byte bs -> is_byte (JS.at0 bs i).
Proof.
  intros Hb. destruct (Nat.lt_ge_cases i (length bs)).
  - now apply Forall_at0.
  - rewrite at0_ge by lia. unfold is_byte. lia.
Qed.

(** the accumulator of [secureCompare] is 0 at the end exactly when it was 0
    and every pair of bytes was equal *)
Lemma compare_loop a b l r :
  Forall is_byte a -> Forall is_byte b -> is_byte r ->
  fold_left (fun result i => result .| ((JS.at0 a i) .^ (JS.at0 b i))) l r = 0
  <-> r = 0 /\ Forall (fun i => JS.at0 a i = JS.at0 b i) l.
Proof.
  intros Ha Hb. revert r. induction l as [|i l IH]; intros r Hr.
  - cbn [fold_left]. split; [intros ->; split; [reflexivity|constructor]|now intros [-> _]].
  - cbn [fold_left].
    assert (Hx : is_byte (Z.lxor (JS.at0 a i) (JS.at0 b i)))
      by (apply lxor_is_byte; now apply at0_is_byte).
    rewrite (bxor_bytes (JS.at0 a i) (JS.at0 b i)) by now apply at0_is_byte.
    rewrite (bor_bytes r _ Hr Hx).
    rewrite IH by now apply lor_is_byte.
    rewrite Z.lor_eq_0_iff. split.
    + intros [[-> Hz] Hl]. split; [reflexivity|].
      constructor; [|exact Hl]. now apply Z.lxor_eq.
    + intros [-> Hl]. apply Forall_cons in Hl as [Hi Hl].
      split; [|exact Hl]. split; [reflexivity|]. rewrite Hi. apply Z.lxor_nilpotent.
Qed.

(** X11: on byte arrays, [secureCompare] returns [true] exactly when the two
    arrays are equal (same length and same bytes). *)
Theorem X11_secureCompare_decides_equality a b :
  Forall is_byte a -> Forall is_byte b ->
  secureCompare a b = true <-> a = b.
Proof.
  intros Ha Hb. unfold secureCompare.
  destruct (Nat.eqb_spec (length a) (length b)) as [Hlen|Hlen]; cbn [negb].
  - rewrite Z.eqb_eq, (compare_loop a b _ 0 Ha Hb) by (unfold is_byte; lia).
    split.
    + intros [_ Hall].
      rewrite <- (map_at0_seq a), <- (map_at0_seq b), <- Hlen.
      apply map_ext_in. intros i Hi.
      exact (proj1 (List.Forall_forall _ _) Hall i Hi).
    + intros ->. split; [reflexivity|].
      apply List.Forall_forall. reflexivity.
  - split; [discriminate|]. intros ->. congruence.
Qed.

Lemma X11_secureCompare_decides_equality_witness :
  secureCompare [1; 2; 255] [1; 2; 255] = true <-> [1; 2; 255] = [1; 2; 255].
Proof.
  apply (X11_secureCompare_decides_equality [1; 2; 255] [1; 2; 255]);
    apply is_byte_check; reflexivity.
Defined.

(** ** Properties of the conversions *)

Section ConversionLemmas.
Import Conversions.

Lemma byte_hex_table :
  forallb (fun n => let b := Z.of_nat n in
                    negb (is_line_terminator (hex_digit (b / 16)))
                    && negb (is_line_terminator (hex_digit (b mod 16))))
          (seq 0 256) = true.
Proof. vm_compute. reflexivity. Qed.

Lemma byte_hex_no_terminator b :
  is_byte b ->
  is_line_terminator (hex_digit (b / 16)) = false
  /\ is_line_terminator (hex_digit (b mod 16)) = false.
Proof.
  intros Hb. unfold is_byte in Hb.
  pose proof byte_hex_table as H.
  rewrite forallb_forall in H. specialize (H (Z.to_nat b)).
  rewrite Z2Nat.id in H by lia.
  assert (Hin : In (Z.to_nat b) (seq 0 256)) by (apply in_seq; lia).
  specialize (H Hin). cbv zeta in H.
  apply andb_true_iff in H as [H1 H2].
  apply negb_true_iff in H1, H2. now split.
Qed.

Lemma byte_hex_hex_pair b : is_byte b -> byte_hex b = hex_pair b.
Proof. intros Hb. unfold byte_hex. now destruct (byte_digits b Hb) as [-> _]. Qed.

Lemma flat_map_byte_hex bs :
  Forall is_byte bs -> flat_map byte_hex bs = hex_of_bytes bs.
Proof.
  induction 1 as [|b bs Hb _ IH]; [reflexivity|].
  unfold hex_of_bytes in *. cbn [flat_map]. now rewrite IH, byte_hex_hex_pair.
Qed.

(** the regular expression cuts the hexadecimal text of a byte array into
    the digit pairs of its bytes *)
Lemma match_pairs_bytes bs :
  Forall is_byte bs -> match_pairs (flat_map byte_hex bs) = map byte_hex bs.
Proof.
  induction 1 as [|b bs Hb _ IH]; [reflexivity|].
  destruct (byte_hex_no_terminator b Hb) as [H1 H2].
  cbn [flat_map map]. unfold byte_hex at 1. cbn [app match_pairs].
  now rewrite H1, H2, IH.
Qed.

Lemma hexToString_bytes bs :
  Forall is_byte bs ->
  hexToString (flat_map byte_hex bs) = Utf8Codec.TextDecoder_decode bs.
Proof.
  intros Hb. unfold hexToString. rewrite (match_pairs_bytes bs Hb), map_map.
  f_equal. rewrite <- (map_id bs) at 2. apply map_ext_in. intros b Hin.
  assert (Hbb : is_byte b) by exact (proj1 (List.Forall_forall _ _) Hb b Hin).
  rewrite byte_hex_hex_pair, parseInt16_hex_pair by exact Hbb.
  unfold is_byte in Hbb. cbn [nan0 default]. change (Datatypes.id b) with b.
  apply Z.mod_small. lia.
Qed.

End ConversionLemmas.

(** X12: [hexToString] undoes [stringToHex].  For a string without unpaired
    surrogates that does not start with U+FEFF, [stringToHex] writes two
    hexadecimal digits per UTF-8 byte, its output passes [isValidHex], and
    [hexToString] returns the string. *)
Theorem X12_hexToString_stringToHex str bs :
  Forall Utf8RoundTrip.is_code_unit str ->
  Utf8Codec.encode_strict str = Ok bs ->
  hd_error str <> Some 0xFEFF ->
  length (Conversions.stringToHex str) = (2 * length bs)%nat
  /\ CryptoUtils.isValidHex (Conversions.stringToHex str) = true
  /\ Conversions.hexToString (Conversions.stringToHex str) = str.
Proof.
  intros Hcu Henc Hbom.
  pose proof (Utf8RoundTrip.encode_strict_bytes str Hcu bs Henc) as Hb.
  pose proof (Utf8RoundTrip.TextEncoder_encode_strict str bs Henc) as Hte.
  unfold Conversions.stringToHex. rewrite Hte.
  split; [|split].
  - rewrite (flat_map_byte_hex bs Hb). apply hex_of_bytes_length.
  - rewrite (flat_map_byte_hex bs Hb). now apply isValidHex_hex_of_bytes.
  - rewrite (hexToString_bytes bs Hb), <- Hte.
    exact (Utf8RoundTrip.TextDecoder_TextEncoder str bs Hcu Henc Hbom).
Qed.

Lemma X12_hexToString_stringToHex_witness :
  length (Conversions.stringToHex (js "hello")) = 10%nat
  /\ CryptoUtils.isValidHex (Conversions.stringToHex (js "hello")) = true
  /\ Conversions.hexToString (Conversions.stringToHex (js "hello")) = js "hello".
Proof.
  apply (X12_hexToString_stringToHex (js "hello") [104; 101; 108; 108; 111]).
  - apply is_code_unit_check. reflexivity.
  - reflexivity.
  - discriminate.
Defined.

(** ** What the validators accept *)

Lemma half_length_eq (s : jsstring) (k : Z) :
  Qeq_bool (key_byte_length s) (inject_Z k) = true <-> Z.of_nat (length s) = 2 * k.
Proof.
  rewrite Qeq_bool_iff. unfold key_byte_length, Qeq. cbn [Qnum Qden inject_Z]. lia.
Qed.

Lemma feistel_validateIV_length iv : validateIV iv = true <-> length iv = 16%nat.
Proof.
  unfold validateIV. rewrite sigBytes_Hex_parse, (half_length_eq iv 8). lia.
Qed.

Lemma salsa_validateKey_length key :
  salsa_validateKey key = true <-> length key = 32%nat \/ length key = 64%nat.
Proof.
  unfold salsa_validateKey. rewrite sigBytes_Hex_parse, orb_true_iff.
  rewrite (half_length_eq key 16), (half_length_eq key 32). lia.
Qed.

Lemma salsa_validateNonce_length nonce :
  salsa_validateNonce nonce = true <-> length nonce = 16%nat.
Proof.
  unfold salsa_validateNonce. rewrite sigBytes_Hex_parse, (half_length_eq nonce 8). lia.
Qed.

Lemma validateKeyLength_single key (k : Z) :
  CryptoUtils.validateKeyLength key [k] = true
  <-> CryptoUtils.isValidHex key = true /\ Z.of_nat (length key) = 2 * k.
Proof.
  unfold CryptoUtils.validateKeyLength.
  destruct (CryptoUtils.isValidHex key); cbn [negb existsb].
  - rewrite orb_false_r, Qeq_bool_iff. unfold Qeq. cbn [Qnum Qden inject_Z].
    split; [intros H; split; [reflexivity|lia]|intros [_ H]; lia].
  - split; [discriminate|intros [H _]; discriminate].
Qed.

Lemma chacha_validators_length s :
  (ChaCha20Engine.validateNonce s = true
   <-> CryptoUtils.isValidHex s = true /\ length s = 24%nat)
  /\ (ChaCha20Engine.validateKey s = true
      <-> CryptoUtils.isValidHex s = true /\ length s = 64%nat).
Proof.
  split.
  - unfold ChaCha20Engine.validateNonce, chacha_validateNonce.
    rewrite validateKeyLength_single.
    split; intros [H1 H2]; (split; [exact H1|lia]).
  - unfold ChaCha20Engine.validateKey, chacha_validateKey.
    rewrite validateKeyLength_single.
    split; intros [H1 H2]; (split; [exact H1|lia]).
Qed.

(** X13: the validators of the CryptoJS-based engines look at the length of
    the string only.  [validateKey] of TEA and XTEA accepts exactly the
    strings of 32 characters and their [validateIV] those of 16; Salsa20
    accepts keys of 32 or 64 characters and nonces of 16.  The characters
    need not be hexadecimal digits.  ChaCha20 is the engine that checks
    them: a key is 64 hexadecimal digits, a nonce 24. *)
Theorem X13_validators_by_length s :
  (TeaEngine.validateKey s = true <-> length s = 32%nat)
  /\ (XteaEngine.validateKey s = true <-> length s = 32%nat)
  /\ (validateIV s = true <-> length s = 16%nat)
  /\ (Salsa20Engine.validateKey s = true <-> length s = 32%nat \/ length s = 64%nat)
  /\ (Salsa20Engine.validateNonce s = true <-> length s = 16%nat)
  /\ (ChaCha20Engine.validateKey s = true
      <-> CryptoUtils.isValidHex s = true /\ length s = 64%nat)
  /\ (ChaCha20Engine.validateNonce s = true
      <-> CryptoUtils.isValidHex s = true /\ length s = 24%nat).
Proof.
  split; [apply feistel_validateKey_length|].
  split; [apply feistel_validateKey_length|].
  split; [apply feistel_validateIV_length|].
  split; [apply salsa_validateKey_length|].
  split; [apply salsa_validateNonce_length|].
  split.
  - unfold ChaCha20Engine.validateKey, chacha_validateKey.
    rewrite validateKeyLength_single.
    split; intros [H1 H2]; (split; [exact H1|lia]).
  - unfold ChaCha20Engine.validateNonce, chacha_validateNonce.
    rewrite validateKeyLength_single.
    split; intros [H1 H2]; (split; [exact H1|lia]).
Qed.

(** ** Generated keys, IVs and nonces are accepted by the validators *)

Lemma Hex_stringify_length wa :
  length (CryptoJS.Hex_stringify wa) = (2 * CryptoJS.loop_count (sigBytes wa))%nat.
Proof.
  rewrite Hex_stringify_bytes, hex_of_bytes_length.
  unfold CryptoJS.Latin1_stringify. now rewrite length_map, length_seq.
Qed.

Lemma loop_count_inject_Z n : CryptoJS.loop_count (inject_Z n) = Z.to_nat n.
Proof. unfold CryptoJS.loop_count. now rewrite Qceiling_Z. Qed.

(** the loop [for (i = 0; i < n; i++)] runs [k] times exactly when
    [k - 1 < n <= k] *)
Lemma Qceiling_eq_iff (n : Q) (k : Z) :
  Qceiling n = k <-> (inject_Z (k - 1) < n /\ n <= inject_Z k)%Q.
Proof.
  split.
  - intros <-. split; [apply Qceiling_lt|apply Qle_ceiling].
  - intros [Hlo Hhi].
    pose proof (Qceiling_lt n) as Hc1. pose proof (Qle_ceiling n) as Hc2.
    assert (H1 : (inject_Z (Qceiling n - 1) < inject_Z k)%Q)
      by (eapply Qlt_le_trans; eassumption).
    assert (H2 : (inject_Z (k - 1) < inject_Z (Qceiling n))%Q)
      by (eapply Qlt_le_trans; eassumption).
    rewrite <- Zlt_Qlt in H1, H2. lia.
Qed.

Lemma loop_count_pos (n : Q) (k : nat) :
  (0 < k)%nat ->
  CryptoJS.loop_count n = k
  <-> (inject_Z (Z.of_nat k - 1) < n /\ n <= inject_Z (Z.of_nat k))%Q.
Proof.
  intros Hk. unfold CryptoJS.loop_count. rewrite <- Qceiling_eq_iff. lia.
Qed.

Section FeistelGeneratorLemmas.

Variable random : Q -> outcome WordArray.
(** [WordArray.random(n)] returns a word array of [n] significant bytes *)
Hypothesis random_sigBytes : forall n r, random n = Ok r -> sigBytes r = n.

Lemma random_hex_length_any n r :
  random n = Ok r ->
  length (CryptoJS.Hex_stringify r) = (2 * CryptoJS.loop_count n)%nat.
Proof. intros H. now rewrite Hex_stringify_length, (random_sigBytes n r H). Qed.

Lemma feistel_generateKey_valid keySize r :
  random 16%Q = Ok r ->
  exists key, feistel_generateKey random keySize = Ok key /\ validateKey key = true.
Proof.
  intros H. unfold feistel_generateKey. rewrite H.
  eexists. split; [reflexivity|].
  apply feistel_validateKey_length. now rewrite (random_hex_length_any _ r H).
Qed.

Lemma feistel_generateIV_valid ivSize r :
  random (default 8%Q ivSize) = Ok r ->
  exists iv, feistel_generateIV random ivSize = Ok iv
             /\ (validateIV iv = true
                 <-> (7 < default 8 ivSize /\ default 8 ivSize <= 8)%Q).
Proof.
  intros H. unfold feistel_generateIV. rewrite H.
  eexists. split; [reflexivity|].
  rewrite feistel_validateIV_length, (random_hex_length_any _ r H).
  rewrite <- (loop_count_pos (default 8%Q ivSize) 8) by lia. lia.
Qed.

End FeistelGeneratorLemmas.

Section GeneratorLemmas.

Variable random : Z -> outcome WordArray.
(** [WordArray.random(n)] returns [n] significant bytes *)
Hypothesis random_sigBytes : forall n r, random n = Ok r -> sigBytes r = inject_Z n.

Lemma random_hex_length n r :
  random n = Ok r -> length (CryptoJS.Hex_stringify r) = (2 * Z.to_nat n)%nat.
Proof.
  intros H. now rewrite Hex_stringify_length, (random_sigBytes n r H), loop_count_inject_Z.
Qed.

Lemma salsa_generateKey_valid keySize r16 r32 :
  random 16 = Ok r16 -> random 32 = Ok r32 ->
  exists key, salsa_generateKey random keySize = Ok key
              /\ salsa_validateKey key = true.
Proof.
  intros H16 H32. unfold salsa_generateKey.
  set (k := default 256 keySize).
  cbn [existsb]. rewrite orb_false_r.
  destruct (Z.eqb_spec k 128) as [->|H128].
  - cbn [orb negb]. change (128 / 8) with 16. rewrite H16.
    eexists. split; [reflexivity|].
    apply salsa_validateKey_length. left. now rewrite (random_hex_length 16 r16 H16).
  - destruct (Z.eqb_spec k 256) as [->|H256]; cbn [orb negb];
      change (256 / 8) with 32; rewrite H32;
      (eexists; split; [reflexivity|]);
      apply salsa_validateKey_length; right;
      now rewrite (random_hex_length 32 r32 H32).
Qed.

Lemma salsa_generateNonce_valid r :
  random 8 = Ok r ->
  exists nonce, salsa_generateNonce random = Ok nonce
                /\ salsa_validateNonce nonce = true.
Proof.
  intros H. unfold salsa_generateNonce. rewrite H.
  eexists. split; [reflexivity|].
  apply salsa_validateNonce_length. now rewrite (random_hex_length 8 r H).
Qed.

End GeneratorLemmas.

(** X14: TEA and XTEA.  When [WordArray.random(n)] returns a word array of
    [n] significant bytes, [generateKey] returns a key that [validateKey]
    accepts, whatever key size is asked for, and [generateIV] with a size
    [n] (any finite number, 8 when it is left out) returns an IV that
    [validateIV] accepts exactly when [7 < n <= 8]: the hexadecimal text has
    one pair of digits per started byte, so a size such as 7.5 gives an IV
    of 8 bytes. *)
Theorem X14_feistel_generated_key_and_iv (random : Q -> outcome WordArray) :
  (forall n r, random n = Ok r -> sigBytes r = n) ->
  (forall keySize r,
      random 16%Q = Ok r ->
      exists key, feistel_generateKey random keySize = Ok key
                  /\ TeaEngine.validateKey key = true
                  /\ XteaEngine.validateKey key = true)
  /\ (forall ivSize r,
      random (default 8%Q ivSize) = Ok r ->
      exists iv, feistel_generateIV random ivSize = Ok iv
                 /\ (validateIV iv = true
                     <-> (7 < default 8 ivSize /\ default 8 ivSize <= 8)%Q)).
Proof.
  intros Hr. split.
  - intros keySize r H.
    destruct (feistel_generateKey_valid random Hr keySize r H) as (key & Hk & Hv).
    exists key. auto.
  - intros ivSize r H. now apply (feistel_generateIV_valid random Hr ivSize r).
Qed.

(** a random source that draws zero bytes, for any size *)
Definition zero_random_sized (n : Q) : outcome WordArray :=
  Ok (WordArray_create (repeat 0 (Z.to_nat (Qceiling (n / 4)))) n).

Lemma X14_feistel_generated_key_and_iv_witness :
  (exists key, feistel_generateKey zero_random_sized None = Ok key
               /\ TeaEngine.validateKey key = true
               /\ XteaEngine.validateKey key = true)
  /\ (exists iv, feistel_generateIV zero_random_sized (Some (15 # 2)) = Ok iv
                 /\ validateIV iv = true)
  /\ (exists iv, feistel_generateIV zero_random_sized (Some 7%Q) = Ok iv
                 /\ validateIV iv = false).
Proof.
  destruct (X14_feistel_generated_key_and_iv zero_random_sized) as [H1 H2].
  { intros n r H. unfold zero_random_sized in H. injection H as <-. reflexivity. }
  split; [|split].
  - apply (H1 None _ eq_refl).
  - destruct (H2 (Some (15 # 2)) _ eq_refl) as (iv & Hg & Hv).
    exists iv. split; [exact Hg|]. apply Hv. split; reflexivity || discriminate.
  - destruct (H2 (Some 7%Q) _ eq_refl) as (iv & Hg & Hv).
    exists iv. split; [exact Hg|].
    destruct (validateIV iv); [|reflexivity].
    destruct Hv as [Hv _]. destruct (Hv eq_refl) as [Hlt _].
    exfalso. revert Hlt. vm_compute. discriminate.
Defined.

(** X15: Salsa20.  When [WordArray.random(n)] returns [n] significant bytes
    (and succeeds for 16 and 32), [generateKey] returns a key that
    [validateKey] accepts for every requested key size, a size other than
    128 and 256 being replaced by 256; [generateNonce] and [generateIV]
    return a nonce that [validateNonce] accepts. *)
Theorem X15_salsa20_generated_key_and_nonce random r8 r16 r32 :
  (forall n r, random n = Ok r -> sigBytes r = inject_Z n) ->
  random 8 = Ok r8 -> random 16 = Ok r16 -> random 32 = Ok r32 ->
  (forall keySize,
      exists key, salsa_generateKey random keySize = Ok key
                  /\ Salsa20Engine.validateKey key = true)
  /\ (exists nonce, salsa_generateNonce random = Ok nonce
                    /\ Salsa20Engine.validateNonce nonce = true)
  /\ (forall ivSize,
      exists nonce, salsa_generateIV random ivSize = Ok nonce
                    /\ Salsa20Engine.validateNonce nonce = true).
Proof.
  intros Hr H8 H16 H32. split; [|split].
  - intros keySize. now apply (salsa_generateKey_valid random Hr keySize r16 r32).
  - now apply (salsa_generateNonce_valid random Hr r8).
  - intros ivSize. now apply (salsa_generateNonce_valid random Hr r8).
Qed.

Lemma X15_salsa20_generated_key_and_nonce_witness :
  (forall keySize,
      exists key, salsa_generateKey zero_random keySize = Ok key
                  /\ Salsa20Engine.validateKey key = true)
  /\ (exists nonce, salsa_generateNonce zero_random = Ok nonce
                    /\ Salsa20Engine.validateNonce nonce = true)
  /\ (forall ivSize,
      exists nonce, salsa_generateIV zero_random ivSize = Ok nonce
                    /\ Salsa20Engine.validateNonce nonce = true).
Proof.
  eapply (X15_salsa20_generated_key_and_nonce zero_random); try reflexivity.
  intros n r H. unfold zero_random in H. injection H as <-. reflexivity.
Defined.

Section RandomBytesLemmas.
Import RandomBytes.

Variable web_crypto : bool.
Variables crypto_byte random_256 : nat -> Z.

Lemma getRandomBytes_bytes n :
  length (getRandomBytes web_crypto crypto_byte random_256 n) = n
  /\ Forall is_byte (getRandomBytes web_crypto crypto_byte random_256 n).
Proof.
  assert (Hmap : forall f : nat -> Z,
             length (map (fun i => f i mod 256) (seq 0 n)) = n
             /\ Forall is_byte (map (fun i => f i mod 256) (seq 0 n))).
  { intros f. split; [now rewrite length_map, length_seq|].
    induction (seq 0 n); constructor; [|assumption].
    unfold is_byte. apply Z.mod_pos_bound. lia. }
  unfold getRandomBytes. destruct web_crypto; [apply Hmap|].
  unfold u8_set, typed_set.
  rewrite (fold_insert_range (fun i => random_256 i mod 256) 0 n)
    by (rewrite repeat_length; lia).
  rewrite take_0, drop_ge by (rewrite repeat_length; lia).
  cbn [app]. rewrite app_nil_r. apply Hmap.
Qed.

End RandomBytesLemmas.

(** X16: ChaCha20.  On every platform (with or without
    [window.crypto.getRandomValues]) and for every random draw,
    [generateKey] returns a key that [validateKey] accepts and
    [generateNonce] a nonce that [validateNonce] accepts; they are the
    hexadecimal text of 32 and of 12 bytes. *)
Theorem X16_chacha20_generated_key_and_nonce web_crypto crypto_byte random_256 :
  let key := RandomBytes.chacha_generateKey web_crypto crypto_byte random_256 in
  let nonce := RandomBytes.chacha_generateNonce web_crypto crypto_byte random_256 in
  ChaCha20Engine.validateKey key = true
  /\ ChaCha20Engine.validateNonce nonce = true
  /\ length (hexToUint8Array key) = 32%nat
  /\ length (hexToUint8Array nonce) = 12%nat.
Proof.
  intros key nonce.
  destruct (getRandomBytes_bytes web_crypto crypto_byte random_256 32) as [HkL HkB].
  destruct (getRandomBytes_bytes web_crypto crypto_byte random_256 12) as [HnL HnB].
  unfold key, nonce, RandomBytes.chacha_generateKey, RandomBytes.chacha_generateNonce,
    RandomBytes.generateRandomHex.
  rewrite !flat_map_byte_hex by assumption.
  rewrite !hexToUint8Array_hex_of_bytes by assumption.
  destruct (chacha_validators_length
              (hex_of_bytes (RandomBytes.getRandomBytes web_crypto crypto_byte random_256 32)))
    as [_ Hk].
  destruct (chacha_validators_length
              (hex_of_bytes (RandomBytes.getRandomBytes web_crypto crypto_byte random_256 12)))
    as [Hn _].
  split; [|split; [|split]]; try assumption.
  - apply Hk. split; [now apply isValidHex_hex_of_bytes|].
    rewrite hex_of_bytes_length. lia.
  - apply Hn. split; [now apply isValidHex_hex_of_bytes|].
    rewrite hex_of_bytes_length. lia.
Qed.

(** * The facades of TEA and XTEA: modes and IV *)

Lemma str_eqb_neq a b : a <> b -> str_eqb a b = false.
Proof. intros H. unfold str_eqb. now apply bool_decide_eq_false. Qed.

Section FeistelFacade.

Variables NAME default_variant : jsstring.
Variables encB decB : WordArray -> WordArray -> WordArray.

Local Abbreviation fenc := (encrypt NAME default_variant encB decB).
Local Abbreviation fdec := (decrypt NAME default_variant encB decB).

Lemma nonempty_is_empty (s : jsstring) : s <> [] -> is_empty s = false.
Proof. now destruct s. Qed.

(** the result of [encrypt] once the guards are passed and the mode is one
    of the two that are implemented *)
Lemma feistel_encrypt_ok random p bs key iv nonce mode variant ivBytes :
  p <> [] -> validateKey key = true ->
  Utf8Codec.encode_strict p = Ok bs ->
  (if truthy iv then Ok (CryptoJS.Hex_parse (default [] iv)) else random 8) = Ok ivBytes ->
  fenc random (mkEncryptionParams p key iv nonce mode variant)
  = let m := default (js "CBC") mode in
    if str_eqb m (js "ECB") then
      Ok (op_success (encryptECB encB decB (CryptoJS.Latin1_parse bs) (CryptoJS.Hex_parse key))
                     (feistel_metadata m (default default_variant variant)))
    else if str_eqb m (js "CBC") then
      Ok (op_success (encryptCBC encB (CryptoJS.Latin1_parse bs) (CryptoJS.Hex_parse key) ivBytes)
                     (feistel_metadata m (default default_variant variant)))
    else Ok (op_failure (mode_message NAME m)).
Proof.
  intros Hp Hk Henc Hiv. unfold encrypt, encrypt_body.
  cbn [plaintext enc_key enc_iv enc_mode enc_variant].
  rewrite (nonempty_is_empty p Hp), (validateKey_is_empty key Hk), Hk, Hiv.
  unfold CryptoJS.Utf8_parse. rewrite Henc.
  cbv zeta. cbn [orb negb].
  destruct (str_eqb (default (js "CBC") mode) (js "ECB")); [reflexivity|].
  destruct (str_eqb (default (js "CBC") mode) (js "CBC")); reflexivity.
Qed.

Lemma feistel_unsupported_mode_encrypt random p bs key iv nonce mode variant :
  p <> [] -> validateKey key = true ->
  Utf8Codec.encode_strict p = Ok bs ->
  (truthy iv = true \/ exists r, random 8 = Ok r) ->
  mode <> js "ECB" -> mode <> js "CBC" ->
  fenc random (mkEncryptionParams p key iv nonce (Some mode) variant)
  = Ok (op_failure (mode_message NAME mode)).
Proof.
  intros Hp Hk Henc Hiv HE HC.
  assert (Hivb : exists ivBytes,
             (if truthy iv then Ok (CryptoJS.Hex_parse (default [] iv)) else random 8)
             = Ok ivBytes).
  { destruct Hiv as [-> | [r Hr]]; [eauto|]. destruct (truthy iv); eauto. }
  destruct Hivb as [ivBytes Hivb].
  rewrite (feistel_encrypt_ok random p bs key iv nonce (Some mode) variant ivBytes)
    by assumption.
  cbv zeta. change (default (js "CBC") (Some mode)) with mode.
  now rewrite (str_eqb_neq _ _ HE), (str_eqb_neq _ _ HC).
Qed.

Lemma feistel_unsupported_mode_decrypt c key iv nonce mode variant :
  c <> [] -> validateKey key = true ->
  mode <> js "ECB" -> mode <> js "CBC" ->
  fdec (mkDecryptionParams c key iv nonce (Some mode) variant)
  = Ok (op_failure (mode_message NAME mode)).
Proof.
  intros Hc Hk HE HC. unfold decrypt, decrypt_body.
  cbn [ciphertext dec_key dec_iv dec_mode dec_variant].
  change (default (js "CBC") (Some mode)) with mode.
  rewrite (nonempty_is_empty c Hc), (validateKey_is_empty key Hk), Hk.
  now rewrite (str_eqb_neq _ _ HE), (str_eqb_neq _ _ HC).
Qed.

(** ECB: neither the IV nor the random bytes drawn in its place reach the
    result *)
Lemma feistel_ecb_ignores_iv random random' p bs key iv iv' nonce variant :
  p <> [] -> validateKey key = true ->
  Utf8Codec.encode_strict p = Ok bs ->
  (truthy iv = true \/ exists r, random 8 = Ok r) ->
  (truthy iv' = true \/ exists r, random' 8 = Ok r) ->
  fenc random (mkEncryptionParams p key iv nonce (Some (js "ECB")) variant)
  = fenc random' (mkEncryptionParams p key iv' nonce (Some (js "ECB")) variant).
Proof.
  intros Hp Hk Henc Hiv Hiv'.
  assert (Hb : forall rnd i, (truthy i = true \/ exists r, rnd 8 = Ok r) ->
             exists ivBytes,
               (if truthy i then Ok (CryptoJS.Hex_parse (default [] i)) else rnd 8)
               = Ok ivBytes).
  { intros rnd i [-> | [r Hr]]; [eauto|]. destruct (truthy i); eauto. }
  destruct (Hb random iv Hiv) as [b1 H1]. destruct (Hb random' iv' Hiv') as [b2 H2].
  rewrite (feistel_encrypt_ok random p bs key iv nonce _ variant b1) by assumption.
  rewrite (feistel_encrypt_ok random' p bs key iv' nonce _ variant b2) by assumption.
  cbv zeta. change (default (js "CBC") (Some (js "ECB"))) with (js "ECB").
  now rewrite str_eqb_refl.
Qed.

Lemma feistel_ecb_decrypt_ignores_iv c key iv iv' nonce variant :
  fdec (mkDecryptionParams c key iv nonce (Some (js "ECB")) variant)
  = fdec (mkDecryptionParams c key iv' nonce (Some (js "ECB")) variant).
Proof.
  unfold decrypt, decrypt_body.
  cbn [ciphertext dec_key dec_iv dec_mode dec_variant].
  change (default (js "CBC") (Some (js "ECB"))) with (js "ECB").
  now rewrite str_eqb_refl.
Qed.

(** ECB without an IV: a failing random source makes [encrypt] fail *)
Lemma feistel_ecb_random_failure random p key nonce variant e :
  p <> [] -> validateKey key = true ->
  random 8 = Throw e ->
  fenc random (mkEncryptionParams p key None nonce (Some (js "ECB")) variant)
  = Ok (op_failure (message_or e (NAME ++ js " encryption failed"))).
Proof.
  intros Hp Hk Hr. unfold encrypt, encrypt_body.
  cbn [plaintext enc_key enc_iv enc_mode enc_variant truthy].
  rewrite (nonempty_is_empty p Hp), (validateKey_is_empty key Hk), Hk, Hr.
  reflexivity.
Qed.

End FeistelFacade.

(** ** The blocks of the two modes *)

Lemma xtea_encryptBlock_block2 b key : block2 (XteaCore.encryptBlock b key).
Proof.
  unfold XteaCore.encryptBlock.
  destruct (Nat.iter _ _ _) as [[v0 v1] s]. now exists v0, v1.
Qed.

Lemma tea_decryptBlock_block2 b key : block2 (TeaCore.decryptBlock b key).
Proof.
  unfold TeaCore.decryptBlock.
  destruct (Nat.iter _ _ _) as [[v0 v1] s]. now exists v0, v1.
Qed.

Lemma xtea_decryptBlock_block2 b key : block2 (XteaCore.decryptBlock b key).
Proof.
  unfold XteaCore.decryptBlock.
  destruct (Nat.iter _ _ _) as [[v0 v1] s]. now exists v0, v1.
Qed.

Lemma splitIntoBlocks_block2 data : Forall block2 (splitIntoBlocks data 8).
Proof.
  rewrite splitIntoBlocks_pairs. pose proof (pairs_block2 (words data)) as H.
  destruct (pairs (words data)); [|exact H].
  repeat constructor. now exists 0, 0.
Qed.

Lemma pairs_length ws : length (pairs ws) = ((length ws + 1) / 2)%nat.
Proof.
  induction ws as [|a|a b rest IH] using list_ind2; [reflexivity|reflexivity|].
  cbn [pairs length]. rewrite IH. nat_divmod.
Qed.

(** the hexadecimal text of a sequence of 8-byte blocks *)
Lemma hex_of_blocks EB :
  Forall block2 EB ->
  CryptoJS.Hex_stringify (concatBlocks EB)
  = hex_of_bytes (words_bytes (flat_map words EB)).
Proof.
  intros HEB.
  pose proof (concatBlocks_sigBytes EB (block2_sigBytes EB HEB)) as Hsig.
  pose proof (block2_words_length EB HEB) as Hlen.
  rewrite Hex_stringify_bytes, (Latin1_stringify_nat _ _ Hsig).
  unfold concatBlocks at 1. cbn [words WordArray_create].
  rewrite byte_at_prefix by lia.
  now rewrite take_ge by (rewrite words_bytes_length; lia).
Qed.

Lemma hex_of_blocks_format EB :
  Forall block2 EB ->
  length (CryptoJS.Hex_stringify (concatBlocks EB)) = (16 * length EB)%nat
  /\ CryptoUtils.isValidHex (CryptoJS.Hex_stringify (concatBlocks EB)) = true.
Proof.
  intros HEB. rewrite (hex_of_blocks EB HEB). split.
  - rewrite hex_of_bytes_length, words_bytes_length, (block2_words_length EB HEB). lia.
  - apply isValidHex_hex_of_bytes, words_bytes_are_bytes.
Qed.

Section ModeShapes.

Variables encB decB : WordArray -> WordArray -> WordArray.
Hypothesis enc_block2 : forall b key, block2 (encB b key).
Hypothesis dec_block2 : forall b key, block2 (decB b key).

Lemma encryptCBC_loop_length PB key prev :
  length (encryptCBC_loop encB PB key prev) = length PB.
Proof.
  revert prev. induction PB as [|p PB IH]; intros prev; [reflexivity|].
  cbn [encryptCBC_loop length]. now rewrite IH.
Qed.

(** the number of 8-byte blocks of a plaintext of [L] bytes, [L > 0] *)
Lemma plain_block_count bs :
  (0 < length bs)%nat ->
  length (splitIntoBlocks (CryptoJS.Latin1_parse bs) 8) = ((length bs + 7) / 8)%nat.
Proof.
  intros Hpos. pose proof (Latin1_parse_length bs) as Hlen.
  rewrite splitIntoBlocks_nonempty.
  - rewrite pairs_length, Hlen. nat_divmod.
  - intros E. rewrite E in Hlen. cbn [length] in Hlen. nat_divmod.
Qed.

Lemma encryptECB_format bs key :
  (0 < length bs)%nat ->
  let c := encryptECB encB decB (CryptoJS.Latin1_parse bs) key in
  length c = (16 * ((length bs + 7) / 8))%nat /\ CryptoUtils.isValidHex c = true.
Proof.
  intros Hpos. cbv zeta. unfold encryptECB, processBlocks.
  set (PB := splitIntoBlocks (CryptoJS.Latin1_parse bs) 8).
  destruct (hex_of_blocks_format (map (fun block => encB block key) PB)) as [H1 H2].
  - apply (map_enc_block2 encB enc_block2).
  - split; [|exact H2]. rewrite H1, length_map. unfold PB.
    now rewrite plain_block_count.
Qed.

Lemma encryptCBC_format bs key iv :
  (0 < length bs)%nat ->
  let c := encryptCBC encB (CryptoJS.Latin1_parse bs) key iv in
  length c = (16 * ((length bs + 7) / 8))%nat /\ CryptoUtils.isValidHex c = true.
Proof.
  intros Hpos. cbv zeta. unfold encryptCBC.
  set (PB := splitIntoBlocks (CryptoJS.Latin1_parse bs) 8).
  destruct (hex_of_blocks_format (encryptCBC_loop encB PB key iv)) as [H1 H2].
  - apply (encryptCBC_loop_block2 encB enc_block2).
  - split; [|exact H2]. rewrite H1, encryptCBC_loop_length. unfold PB.
    now rewrite plain_block_count.
Qed.

(** only the first two words of the IV are read *)
Lemma xorBlocks_iv_prefix b iv iv' :
  block2 b -> take 2 (words iv) = take 2 (words iv') ->
  xorBlocks b iv = xorBlocks b iv'.
Proof.
  intros (x & y & ->) H. unfold xorBlocks. cbn [words WordArray_create sigBytes].
  f_equal.
  destruct (words iv) as [|a [|a' l]], (words iv') as [|c [|c' l']];
    cbn [take] in H; try discriminate; try reflexivity;
    injection H; intros; subst; reflexivity.
Qed.

Lemma encryptCBC_iv_prefix pt key iv iv' :
  take 2 (words iv) = take 2 (words iv') ->
  encryptCBC encB pt key iv = encryptCBC encB pt key iv'.
Proof.
  intros H. unfold encryptCBC. do 2 f_equal.
  pose proof (splitIntoBlocks_block2 pt) as HPB.
  destruct HPB as [|p PB Hp _]; [reflexivity|].
  cbn [encryptCBC_loop]. now rewrite (xorBlocks_iv_prefix p iv iv' Hp H).
Qed.

Lemma decryptCBC_iv_prefix ct key iv iv' :
  take 2 (words iv) = take 2 (words iv') ->
  decryptCBC decB ct key iv = decryptCBC decB ct key iv'.
Proof.
  intros H. unfold decryptCBC. f_equal.
  destruct (splitIntoBlocks ct 8) as [|c C]; [reflexivity|].
  cbn [decryptCBC_loop].
  now rewrite (xorBlocks_iv_prefix (decB c key) iv iv' (dec_block2 c key) H).
Qed.

End ModeShapes.

(** X17: TEA and XTEA implement the modes ECB and CBC only.  With any other
    mode name, [encrypt] (non-empty plaintext without unpaired surrogates,
    key of 32 characters, an IV or a working random source) and [decrypt]
    (non-empty ciphertext, key of 32 characters) return the failure
    'Mode <mode> not implemented for <cipher>', whatever the block functions
    are: they are not called. *)
Theorem X17_feistel_unsupported_mode encB decB random p bs c key iv nonce mode variant :
  p <> [] -> c <> [] ->
  validateKey key = true ->
  Utf8Codec.encode_strict p = Ok bs ->
  (truthy iv = true \/ exists r, random 8 = Ok r) ->
  mode <> js "ECB" -> mode <> js "CBC" ->
  TeaEngine.encrypt_with encB decB random
    (mkEncryptionParams p key iv nonce (Some mode) variant)
  = Ok (op_failure (js "Mode " ++ mode ++ js " not implemented for TEA"))
  /\ TeaEngine.decrypt_with encB decB
       (mkDecryptionParams c key iv nonce (Some mode) variant)
     = Ok (op_failure (js "Mode " ++ mode ++ js " not implemented for TEA"))
  /\ XteaEngine.encrypt_with encB decB random
       (mkEncryptionParams p key iv nonce (Some mode) variant)
     = Ok (op_failure (js "Mode " ++ mode ++ js " not implemented for XTEA"))
  /\ XteaEngine.decrypt_with encB decB
       (mkDecryptionParams c key iv nonce (Some mode) variant)
     = Ok (op_failure (js "Mode " ++ mode ++ js " not implemented for XTEA")).
Proof.
  intros Hp Hc Hk Henc Hiv HE HC.
  split; [|split; [|split]].
  - now apply (feistel_unsupported_mode_encrypt (js "TEA") (js "tea") encB decB random p bs).
  - now apply (feistel_unsupported_mode_decrypt (js "TEA") (js "tea") encB decB).
  - now apply (feistel_unsupported_mode_encrypt (js "XTEA") (js "xtea") encB decB random p bs).
  - now apply (feistel_unsupported_mode_decrypt (js "XTEA") (js "xtea") encB decB).
Qed.

Lemma X17_feistel_unsupported_mode_witness :
  TeaEngine.encrypt_with TeaCore.encryptBlock TeaCore.decryptBlock zero_random
    (mkEncryptionParams (js "hello") hex_key_16 None None (Some (js "CTR")) None)
  = Ok (op_failure (js "Mode " ++ js "CTR" ++ js " not implemented for TEA"))
  /\ TeaEngine.decrypt_with TeaCore.encryptBlock TeaCore.decryptBlock
       (mkDecryptionParams ciphertext_8 hex_key_16 None None (Some (js "CTR")) None)
     = Ok (op_failure (js "Mode " ++ js "CTR" ++ js " not implemented for TEA"))
  /\ XteaEngine.encrypt_with TeaCore.encryptBlock TeaCore.decryptBlock zero_random
       (mkEncryptionParams (js "hello") hex_key_16 None None (Some (js "CTR")) None)
     = Ok (op_failure (js "Mode " ++ js "CTR" ++ js " not implemented for XTEA"))
  /\ XteaEngine.decrypt_with TeaCore.encryptBlock TeaCore.decryptBlock
       (mkDecryptionParams ciphertext_8 hex_key_16 None None (Some (js "CTR")) None)
     = Ok (op_failure (js "Mode " ++ js "CTR" ++ js " not implemented for XTEA")).
Proof.
  apply (X17_feistel_unsupported_mode TeaCore.encryptBlock TeaCore.decryptBlock
           zero_random (js "hello") [104; 101; 108; 108; 111] ciphertext_8
           hex_key_16 None None (js "CTR") None);
    try discriminate; try reflexivity.
  right. eexists. reflexivity.
Defined.

(** X18: in ECB mode the IV plays no part.  For TEA and XTEA, [encrypt]
    returns the same result whatever IV is given, and without an IV whatever
    the random source draws; [decrypt] returns the same result with and
    without an IV.  Still, [encrypt] without an IV draws 8 random bytes
    first, and fails when the random source throws. *)
Theorem X18_feistel_ecb_ignores_iv random random' p bs c key iv iv' nonce variant :
  p <> [] ->
  validateKey key = true ->
  Utf8Codec.encode_strict p = Ok bs ->
  (truthy iv = true \/ exists r, random 8 = Ok r) ->
  (truthy iv' = true \/ exists r, random' 8 = Ok r) ->
  let enc_params i := mkEncryptionParams p key i nonce (Some (js "ECB")) variant in
  let dec_params i := mkDecryptionParams c key i nonce (Some (js "ECB")) variant in
  TeaEngine.encrypt random (enc_params iv) = TeaEngine.encrypt random' (enc_params iv')
  /\ TeaEngine.decrypt (dec_params iv) = TeaEngine.decrypt (dec_params iv')
  /\ XteaEngine.encrypt random (enc_params iv) = XteaEngine.encrypt random' (enc_params iv')
  /\ XteaEngine.decrypt (dec_params iv) = XteaEngine.decrypt (dec_params iv')
  /\ (forall e, random 8 = Throw e ->
        TeaEngine.encrypt random (enc_params None)
        = Ok (op_failure (message_or e (js "TEA encryption failed")))
        /\ XteaEngine.encrypt random (enc_params None)
           = Ok (op_failure (message_or e (js "XTEA encryption failed")))).
Proof.
  intros Hp Hk Henc Hiv Hiv' enc_params dec_params.
  split; [|split; [|split; [|split]]].
  - now apply (feistel_ecb_ignores_iv (js "TEA") (js "tea") _ _ random random' p bs).
  - apply (feistel_ecb_decrypt_ignores_iv (js "TEA") (js "tea")).
  - now apply (feistel_ecb_ignores_iv (js "XTEA") (js "xtea") _ _ random random' p bs).
  - apply (feistel_ecb_decrypt_ignores_iv (js "XTEA") (js "xtea")).
  - intros e He. split.
    + now apply (feistel_ecb_random_failure (js "TEA") (js "tea")).
    + now apply (feistel_ecb_random_failure (js "XTEA") (js "xtea")).
Qed.

(** a random source that is not available *)
Definition no_random (n : Z) : outcome WordArray :=
  throw_Error (js "Native crypto module could not be used to get secure random number.").

Lemma X18_feistel_ecb_ignores_iv_witness :
  let enc_params i :=
    mkEncryptionParams (js "hello") hex_key_16 i None (Some (js "ECB")) None in
  let dec_params i :=
    mkDecryptionParams ciphertext_8 hex_key_16 i None (Some (js "ECB")) None in
  TeaEngine.encrypt no_random (enc_params (Some hex_iv_8))
  = TeaEngine.encrypt zero_random (enc_params None)
  /\ TeaEngine.decrypt (dec_params (Some hex_iv_8)) = TeaEngine.decrypt (dec_params None)
  /\ XteaEngine.encrypt no_random (enc_params (Some hex_iv_8))
     = XteaEngine.encrypt zero_random (enc_params None)
  /\ XteaEngine.decrypt (dec_params (Some hex_iv_8)) = XteaEngine.decrypt (dec_params None)
  /\ (forall e, no_random 8 = Throw e ->
        TeaEngine.encrypt no_random (enc_params None)
        = Ok (op_failure (message_or e (js "TEA encryption failed")))
        /\ XteaEngine.encrypt no_random (enc_params None)
           = Ok (op_failure (message_or e (js "XTEA encryption failed")))).
Proof.
  apply (X18_feistel_ecb_ignores_iv no_random zero_random (js "hello")
           [104; 101; 108; 108; 111] ciphertext_8 hex_key_16 (Some hex_iv_8) None
           None None).
  - discriminate.
  - reflexivity.
  - reflexivity.
  - now left.
  - right. eexists. reflexivity.
Defined.

Section FeistelCbcIv.

Variables NAME default_variant : jsstring.
Variables encB decB : WordArray -> WordArray -> WordArray.
Hypothesis dec_block2 : forall b key, block2 (decB b key).

Lemma feistel_cbc_iv_prefix random p bs c key iv iv' nonce mode variant :
  p <> [] -> validateKey key = true ->
  Utf8Codec.encode_strict p = Ok bs ->
  (mode = None \/ mode = Some (js "CBC")) ->
  iv <> [] -> iv' <> [] ->
  take 2 (words (CryptoJS.Hex_parse iv)) = take 2 (words (CryptoJS.Hex_parse iv')) ->
  (exists ct,
      encrypt NAME default_variant encB decB random
        (mkEncryptionParams p key (Some iv) nonce mode variant)
      = Ok (op_success ct (feistel_metadata (js "CBC") (default default_variant variant)))
      /\ encrypt NAME default_variant encB decB random
           (mkEncryptionParams p key (Some iv') nonce mode variant)
         = Ok (op_success ct (feistel_metadata (js "CBC") (default default_variant variant))))
  /\ decrypt NAME default_variant encB decB
       (mkDecryptionParams c key (Some iv) nonce mode variant)
     = decrypt NAME default_variant encB decB
         (mkDecryptionParams c key (Some iv') nonce mode variant).
Proof.
  intros Hp Hk Henc Hmode Hiv Hiv' Hw.
  assert (Hm : default (js "CBC") mode = js "CBC")
    by (destruct Hmode as [-> | ->]; reflexivity).
  assert (Ht : forall i : jsstring, i <> [] -> truthy (Some i) = true)
    by (intros [|x i] H; [congruence|reflexivity]).
  split.
  - eexists. split.
    + rewrite (feistel_encrypt_ok NAME default_variant encB decB random p bs key
                 (Some iv) nonce mode variant (CryptoJS.Hex_parse iv))
        by (try assumption; now rewrite (Ht iv Hiv)).
      cbv zeta. rewrite Hm, str_eqb_CBC_ECB, str_eqb_refl. reflexivity.
    + rewrite (feistel_encrypt_ok NAME default_variant encB decB random p bs key
                 (Some iv') nonce mode variant (CryptoJS.Hex_parse iv'))
        by (try assumption; now rewrite (Ht iv' Hiv')).
      cbv zeta. rewrite Hm, str_eqb_CBC_ECB, str_eqb_refl.
      now rewrite (encryptCBC_iv_prefix encB _ _ _ _ Hw).
  - unfold decrypt, decrypt_body.
    cbn [ciphertext dec_key dec_iv dec_mode dec_variant].
    rewrite Hm, (Ht iv Hiv), (Ht iv' Hiv'), str_eqb_CBC_ECB, str_eqb_refl.
    change (default [] (Some iv)) with iv. change (default [] (Some iv')) with iv'.
    now rewrite (decryptCBC_iv_prefix decB dec_block2 _ _ _ _ Hw).
Qed.

End FeistelCbcIv.

(** X19: in CBC mode [encrypt] and [decrypt] never check the length of the
    IV, and read its first 8 bytes only.  For TEA and XTEA, in CBC mode
    (selected or by default), with a non-empty plaintext that has no
    unpaired surrogate and a key of 32 characters, [encrypt] succeeds for
    every non-empty IV string, and two non-empty IV strings whose parsed
    words agree on the first two give the same ciphertext and, on every
    ciphertext, the same [decrypt] result. *)
Theorem X19_feistel_cbc_iv_first_8_bytes random p bs c key iv iv' nonce mode variant :
  p <> [] ->
  validateKey key = true ->
  Utf8Codec.encode_strict p = Ok bs ->
  (mode = None \/ mode = Some (js "CBC")) ->
  iv <> [] -> iv' <> [] ->
  take 2 (words (CryptoJS.Hex_parse iv)) = take 2 (words (CryptoJS.Hex_parse iv')) ->
  let enc_params i := mkEncryptionParams p key (Some i) nonce mode variant in
  let dec_params i := mkDecryptionParams c key (Some i) nonce mode variant in
  (exists ct,
      TeaEngine.encrypt random (enc_params iv)
      = Ok (op_success ct (feistel_metadata (js "CBC") (default (js "tea") variant)))
      /\ TeaEngine.encrypt random (enc_params iv')
         = Ok (op_success ct (feistel_metadata (js "CBC") (default (js "tea") variant))))
  /\ TeaEngine.decrypt (dec_params iv) = TeaEngine.decrypt (dec_params iv')
  /\ (exists ct,
      XteaEngine.encrypt random (enc_params iv)
      = Ok (op_success ct (feistel_metadata (js "CBC") (default (js "xtea") variant)))
      /\ XteaEngine.encrypt random (enc_params iv')
         = Ok (op_success ct (feistel_metadata (js "CBC") (default (js "xtea") variant))))
  /\ XteaEngine.decrypt (dec_params iv) = XteaEngine.decrypt (dec_params iv').
Proof.
  intros Hp Hk Henc Hmode Hiv Hiv' Hw enc_params dec_params.
  destruct (feistel_cbc_iv_prefix (js "TEA") (js "tea") TeaCore.encryptBlock
              TeaCore.decryptBlock tea_decryptBlock_block2 random p bs c key iv iv'
              nonce mode variant Hp Hk Henc Hmode Hiv Hiv' Hw) as [H1 H2].
  destruct (feistel_cbc_iv_prefix (js "XTEA") (js "xtea") XteaCore.encryptBlock
              XteaCore.decryptBlock xtea_decryptBlock_block2 random p bs c key iv iv'
              nonce mode variant Hp Hk Henc Hmode Hiv Hiv' Hw) as [H3 H4].
  split; [exact H1|]. split; [exact H2|]. split; [exact H3|exact H4].
Qed.

(** an IV of 12 bytes with the same first 8 bytes as [hex_iv_8] *)
Definition hex_iv_12 : jsstring := js "0706050403020100aabbccdd".

Lemma X19_feistel_cbc_iv_first_8_bytes_witness :
  let enc_params i :=
    mkEncryptionParams (js "hello") hex_key_16 (Some i) None None None in
  let dec_params i :=
    mkDecryptionParams ciphertext_8 hex_key_16 (Some i) None None None in
  (exists ct,
      TeaEngine.encrypt zero_random (enc_params hex_iv_8)
      = Ok (op_success ct (feistel_metadata (js "CBC") (js "tea")))
      /\ TeaEngine.encrypt zero_random (enc_params hex_iv_12)
         = Ok (op_success ct (feistel_metadata (js "CBC") (js "tea"))))
  /\ TeaEngine.decrypt (dec_params hex_iv_8) = TeaEngine.decrypt (dec_params hex_iv_12)
  /\ (exists ct,
      XteaEngine.encrypt zero_random (enc_params hex_iv_8)
      = Ok (op_success ct (feistel_metadata (js "CBC") (js "xtea")))
      /\ XteaEngine.encrypt zero_random (enc_params hex_iv_12)
         = Ok (op_success ct (feistel_metadata (js "CBC") (js "xtea"))))
  /\ XteaEngine.decrypt (dec_params hex_iv_8) = XteaEngine.decrypt (dec_params hex_iv_12).
Proof.
  apply (X19_feistel_cbc_iv_first_8_bytes zero_random (js "hello")
           [104; 101; 108; 108; 111] ciphertext_8 hex_key_16 hex_iv_8 hex_iv_12
           None None None);
    try discriminate; try reflexivity.
  now left.
Defined.

Section FeistelFormat.

Variables NAME default_variant : jsstring.
Variables encB decB : WordArray -> WordArray -> WordArray.
Hypothesis enc_block2 : forall b key, block2 (encB b key).

Lemma feistel_ciphertext_format random p bs key iv nonce mode variant :
  p <> [] -> Forall Utf8RoundTrip.is_code_unit p ->
  validateKey key = true ->
  Utf8Codec.encode_strict p = Ok bs ->
  (truthy iv = true \/ exists r, random 8 = Ok r) ->
  (mode = None \/ mode = Some (js "CBC") \/ mode = Some (js "ECB")) ->
  exists ct md,
    encrypt NAME default_variant encB decB random
      (mkEncryptionParams p key iv nonce mode variant)
    = Ok (op_success ct md)
    /\ length ct = (16 * ((length bs + 7) / 8))%nat
    /\ CryptoUtils.isValidHex ct = true.
Proof.
  intros Hp Hcu Hk Henc Hiv Hmode.
  assert (Hpos : (0 < length bs)%nat).
  { pose proof (Utf8RoundTrip.encode_strict_nonempty p bs Henc Hp Hcu).
    destruct bs; [congruence|simpl; lia]. }
  assert (Hivb : exists ivBytes,
             (if truthy iv then Ok (CryptoJS.Hex_parse (default [] iv)) else random 8)
             = Ok ivBytes).
  { destruct Hiv as [-> | [r Hr]]; [eauto|]. destruct (truthy iv); eauto. }
  destruct Hivb as [ivBytes Hivb].
  rewrite (feistel_encrypt_ok NAME default_variant encB decB random p bs key iv nonce
             mode variant ivBytes) by assumption.
  cbv zeta.
  destruct Hmode as [-> | [-> | ->]].
  - change (default (js "CBC") None) with (js "CBC").
    rewrite str_eqb_CBC_ECB, str_eqb_refl. eexists _, _. split; [reflexivity|].
    now apply encryptCBC_format.
  - change (default (js "CBC") (Some (js "CBC"))) with (js "CBC").
    rewrite str_eqb_CBC_ECB, str_eqb_refl. eexists _, _. split; [reflexivity|].
    now apply encryptCBC_format.
  - change (default (js "CBC") (Some (js "ECB"))) with (js "ECB").
    rewrite str_eqb_refl. eexists _, _. split; [reflexivity|].
    now apply encryptECB_format.
Qed.

End FeistelFormat.

(** X20: the ciphertext of TEA and XTEA.  In ECB and in CBC mode (selected
    or by default), for a non-empty plaintext without unpaired surrogates
    whose UTF-8 encoding has [L] bytes, a key of 32 characters, and an IV
    that is given or else a random source that returns, [encrypt] succeeds
    and its result is a string that passes [isValidHex], of 16 characters
    for each of the [ceil(L / 8)] blocks; the IV is not part of it. *)
Theorem X20_feistel_ciphertext_format random p bs key iv nonce mode variant :
  p <> [] -> Forall Utf8RoundTrip.is_code_unit p ->
  validateKey key = true ->
  Utf8Codec.encode_strict p = Ok bs ->
  (truthy iv = true \/ exists r, random 8 = Ok r) ->
  (mode = None \/ mode = Some (js "CBC") \/ mode = Some (js "ECB")) ->
  (exists ct md,
      TeaEngine.encrypt random (mkEncryptionParams p key iv nonce mode variant)
      = Ok (op_success ct md)
      /\ length ct = (16 * ((length bs + 7) / 8))%nat
      /\ CryptoUtils.isValidHex ct = true)
  /\ (exists ct md,
      XteaEngine.encrypt random (mkEncryptionParams p key iv nonce mode variant)
      = Ok (op_success ct md)
      /\ length ct = (16 * ((length bs + 7) / 8))%nat
      /\ CryptoUtils.isValidHex ct = true).
Proof.
  intros Hp Hcu Hk Henc Hiv Hmode. split.
  - now apply (feistel_ciphertext_format (js "TEA") (js "tea") TeaCore.encryptBlock
                 TeaCore.decryptBlock tea_encryptBlock_block2).
  - now apply (feistel_ciphertext_format (js "XTEA") (js "xtea") XteaCore.encryptBlock
                 XteaCore.decryptBlock xtea_encryptBlock_block2).
Qed.

Lemma X20_feistel_ciphertext_format_witness :
  (exists ct md,
      TeaEngine.encrypt zero_random
        (mkEncryptionParams (js "hello") hex_key_16 None None None None)
      = Ok (op_success ct md)
      /\ length ct = 16%nat
      /\ CryptoUtils.isValidHex ct = true)
  /\ (exists ct md,
      XteaEngine.encrypt zero_random
        (mkEncryptionParams (js "hello") hex_key_16 None None None None)
      = Ok (op_success ct md)
      /\ length ct = 16%nat
      /\ CryptoUtils.isValidHex ct = true).
Proof.
  apply (X20_feistel_ciphertext_format zero_random (js "hello")
           [104; 101; 108; 108; 111] hex_key_16 None None None None).
  - discriminate.
  - apply is_code_unit_check. reflexivity.
  - reflexivity.
  - reflexivity.
  - right. eexists. reflexivity.
  - now left.
Defined.

(** * Salsa20: variants and key sizes *)

Section SalsaFacade.

Variable blk : WordArray -> WordArray -> Z -> option Z -> list Z.

(** the result of [encrypt] once the guards are passed *)
Lemma salsa_encrypt_ok p bs key nonce iv mode variant :
  p <> [] ->
  salsa_validateKey key = true -> salsa_validateNonce nonce = true ->
  Utf8Codec.encode_strict p = Ok bs ->
  salsa_encrypt blk (mkEncryptionParams p key iv (Some nonce) mode variant)
  = let v := default (js "salsa20/20") variant in
    let pb := CryptoJS.Latin1_parse bs in
    let keystream :=
      generateKeystream blk (CryptoJS.Hex_parse key) (CryptoJS.Hex_parse nonce)
                        (sigBytes pb) (getRoundsFromVariant v) in
    Ok (op_success (CryptoJS.Hex_stringify (xorWithKeystream pb keystream))
                   (salsa_metadata (CryptoJS.Hex_parse key) v)).
Proof.
  intros Hp Hk Hn Henc. unfold salsa_encrypt, salsa_encrypt_body.
  cbn [plaintext enc_key enc_nonce enc_variant].
  change (default [] (Some nonce)) with nonce.
  rewrite Hk, Hn, (salsa_validateKey_is_empty key Hk),
    (salsa_validateNonce_truthy nonce Hn).
  destruct p as [|ch p']; [congruence|].
  unfold CryptoJS.Utf8_parse. rewrite Henc. reflexivity.
Qed.

End SalsaFacade.

Lemma getRoundsFromVariant_prototype v :
  v ∈ object_prototype_names -> getRoundsFromVariant v = None.
Proof.
  intros H. unfold object_prototype_names in H.
  repeat (apply elem_of_cons in H as [-> | H]; [vm_compute; reflexivity|]).
  now apply elem_of_nil in H.
Qed.

Lemma getRoundsFromVariant_unknown v :
  v <> js "salsa20/8" -> v <> js "salsa20/12" -> v <> js "salsa20/20" ->
  v ∉ object_prototype_names ->
  getRoundsFromVariant v = Some 20.
Proof.
  intros H8 H12 H20 Hp. unfold getRoundsFromVariant.
  rewrite (str_eqb_neq _ _ H8), (str_eqb_neq _ _ H12), (str_eqb_neq _ _ H20).
  now rewrite bool_decide_eq_false_2.
Qed.

(** without rounds the block is the initial state added to itself *)
Lemma salsa20Block_no_rounds key nonce counter :
  Salsa20Core.salsa20Block key nonce counter None
  = map (fun w => (w + w) mod 2 ^ 32) (Salsa20Core.initial_state key nonce counter).
Proof.
  rewrite Salsa20Final.salsa20Block_spec.
  set (st := Salsa20Core.initial_state key nonce counter).
  change (Nat.iter (Salsa20Core.iterations None) Salsa20Core.double_round st) with st.
  induction st as [|w l IH]; [reflexivity|].
  cbn [zip_with map]. now rewrite IH.
Qed.

(** X21: a variant name that Salsa20 does not know is not rejected: it is
    run with 20 rounds.  For valid inputs, [encrypt] with such a name
    succeeds with the same ciphertext as with 'salsa20/20'; only the variant
    echoed in the metadata differs.  (The names of the properties of
    [Object.prototype] are the exception.) *)
Theorem X21_salsa20_unknown_variant_is_20_rounds p bs key nonce iv mode v :
  p <> [] ->
  Salsa20Engine.validateKey key = true ->
  Salsa20Engine.validateNonce nonce = true ->
  Utf8Codec.encode_strict p = Ok bs ->
  v <> js "salsa20/8" -> v <> js "salsa20/12" -> v <> js "salsa20/20" ->
  v ∉ object_prototype_names ->
  exists c,
    Salsa20Engine.encrypt (mkEncryptionParams p key iv (Some nonce) mode (Some v))
    = Ok (op_success c (salsa_metadata (CryptoJS.Hex_parse key) v))
    /\ Salsa20Engine.encrypt
         (mkEncryptionParams p key iv (Some nonce) mode (Some (js "salsa20/20")))
       = Ok (op_success c (salsa_metadata (CryptoJS.Hex_parse key) (js "salsa20/20")))
    /\ Salsa20Engine.encrypt (mkEncryptionParams p key iv (Some nonce) mode None)
       = Ok (op_success c (salsa_metadata (CryptoJS.Hex_parse key) (js "salsa20/20"))).
Proof.
  intros Hp Hk Hn Henc H8 H12 H20 Hproto.
  unfold Salsa20Engine.encrypt, Salsa20Engine.encrypt_with.
  rewrite !(salsa_encrypt_ok Salsa20Core.salsa20Block p bs key nonce iv mode)
    by assumption.
  cbv zeta.
  change (default (js "salsa20/20") (Some v)) with v.
  change (default (js "salsa20/20") (Some (js "salsa20/20"))) with (js "salsa20/20").
  change (default (js "salsa20/20") None) with (js "salsa20/20").
  rewrite (getRoundsFromVariant_unknown v H8 H12 H20 Hproto).
  change (getRoundsFromVariant (js "salsa20/20")) with (Some 20).
  eexists. split; [reflexivity|split; reflexivity].
Qed.

Lemma X21_salsa20_unknown_variant_is_20_rounds_witness :
  exists c,
    Salsa20Engine.encrypt
      (mkEncryptionParams (js "hello") hex_key_32 None (Some hex_nonce_8) None
                          (Some (js "salsa20/10")))
    = Ok (op_success c (salsa_metadata (CryptoJS.Hex_parse hex_key_32) (js "salsa20/10")))
    /\ Salsa20Engine.encrypt
         (mkEncryptionParams (js "hello") hex_key_32 None (Some hex_nonce_8) None
                             (Some (js "salsa20/20")))
       = Ok (op_success c (salsa_metadata (CryptoJS.Hex_parse hex_key_32) (js "salsa20/20")))
    /\ Salsa20Engine.encrypt
         (mkEncryptionParams (js "hello") hex_key_32 None (Some hex_nonce_8) None None)
       = Ok (op_success c (salsa_metadata (CryptoJS.Hex_parse hex_key_32) (js "salsa20/20"))).
Proof.
  apply (X21_salsa20_unknown_variant_is_20_rounds (js "hello") [104; 101; 108; 108; 111]
           hex_key_32 hex_nonce_8 None None (js "salsa20/10"));
    try discriminate; try reflexivity.
  apply (bool_decide_eq_false_1 _). vm_compute. reflexivity.
Defined.

(** X22: [getRoundsFromVariant] looks the variant up in an object literal.
    For a variant named like a property of [Object.prototype]
    ('constructor', 'toString', ...) the lookup finds that property, the
    loop bound is not a number and no round is run: every key stream block
    is the initial state added to itself modulo 2^32, so its words 1 to 4
    are the first four key words doubled. *)
Theorem X22_salsa20_prototype_variant_runs_no_round v key nonce counter :
  v ∈ object_prototype_names ->
  let block := Salsa20Core.salsa20Block key nonce counter (getRoundsFromVariant v) in
  block = map (fun w => (w + w) mod 2 ^ 32) (Salsa20Core.initial_state key nonce counter)
  /\ forall i, (i < 4)%nat ->
       JS.at0 block (1 + i) = (2 * js_or (words key !! i) 0) mod 2 ^ 32.
Proof.
  intros Hv block. unfold block.
  rewrite (getRoundsFromVariant_prototype v Hv), salsa20Block_no_rounds.
  split; [reflexivity|].
  intros i Hi. unfold Salsa20Core.initial_state. cbn [map].
  destruct i as [|[|[|[|i]]]]; try lia; cbn [Nat.add JS.at0 lookup list_lookup default];
    unfold JS.at0; cbn [lookup list_lookup]; cbn; f_equal; lia.
Qed.

Lemma X22_salsa20_prototype_variant_runs_no_round_witness :
  let key := CryptoJS.Hex_parse hex_key_32 in
  let nonce := CryptoJS.Hex_parse hex_nonce_8 in
  let block :=
    Salsa20Core.salsa20Block key nonce 0 (getRoundsFromVariant (js "constructor")) in
  block = map (fun w => (w + w) mod 2 ^ 32) (Salsa20Core.initial_state key nonce 0)
  /\ forall i, (i < 4)%nat ->
       JS.at0 block (1 + i) = (2 * js_or (words key !! i) 0) mod 2 ^ 32.
Proof.
  apply (X22_salsa20_prototype_variant_runs_no_round (js "constructor")
           (CryptoJS.Hex_parse hex_key_32) (CryptoJS.Hex_parse hex_nonce_8) 0).
  apply (bool_decide_eq_true_1 _). vm_compute. reflexivity.
Defined.

Lemma js_or_twice x y : js_or x (js_or x y) = js_or x y.
Proof. unfold js_or. destruct x as [v|]; [|reflexivity]. now destruct (v =? 0). Qed.

(** X23: how the key enters a Salsa20 block.  State words 11 to 14 are
    [key.words[4 + i] || key.words[i] || 0]: a key of four words (16 bytes)
    gives the same blocks as the key of eight words made of it twice (and the
    32-byte constants are used for it), and a zero word in the second half
    of a 32-byte key is replaced by the word of the first half. *)
Theorem X23_salsa20_key_words nonce counter rounds :
  (forall kw sig sig',
      length kw = 4%nat ->
      Salsa20Core.salsa20Block (mkWordArray kw sig) nonce counter rounds
      = Salsa20Core.salsa20Block (mkWordArray (kw ++ kw) sig') nonce counter rounds)
  /\ (forall kw sig sig' i,
      (i < 4)%nat -> length kw = 8%nat -> kw !! (4 + i)%nat = Some 0 ->
      Salsa20Core.salsa20Block (mkWordArray kw sig) nonce counter rounds
      = Salsa20Core.salsa20Block
          (mkWordArray (<[(4 + i)%nat := JS.at0 kw i]> kw) sig') nonce counter rounds).
Proof.
  split.
  - intros kw sig sig' Hlen.
    destruct kw as [|a [|b [|c [|d [|e kw]]]]]; try discriminate.
    unfold Salsa20Core.salsa20Block, Salsa20Core.initial_state.
    cbn [words app lookup list_lookup]. now rewrite !js_or_twice.
  - intros kw sig sig' i Hi Hlen Hz.
    destruct kw as [|a [|b [|c [|d [|e [|f [|g [|h [|x kw]]]]]]]]]; try discriminate.
    unfold Salsa20Core.salsa20Block, Salsa20Core.initial_state.
    destruct i as [|[|[|[|i]]]]; try lia;
      cbn [Nat.add lookup list_lookup] in Hz; injection Hz as ->;
      cbn [words Nat.add insert list_insert lookup list_lookup JS.at0 default];
      unfold JS.at0; cbn [lookup list_lookup default];
      change (Datatypes.id ?z) with z;
      unfold js_or at 1; cbn [Z.eqb];
      repeat match goal with
             | |- context [js_or (Some ?v) (js_or (Some ?v) ?y)] =>
                 rewrite (js_or_twice (Some v) y)
             end; reflexivity.
Qed.

Lemma X23_salsa20_key_words_witness :
  Salsa20Core.salsa20Block (mkWordArray [1; 2; 3; 4] 16) (CryptoJS.Hex_parse hex_nonce_8)
                           0 (Some 20)
  = Salsa20Core.salsa20Block (mkWordArray [1; 2; 3; 4; 1; 2; 3; 4] 32)
                             (CryptoJS.Hex_parse hex_nonce_8) 0 (Some 20)
  /\ Salsa20Core.salsa20Block (mkWordArray [1; 2; 3; 4; 5; 0; 7; 8] 32)
                              (CryptoJS.Hex_parse hex_nonce_8) 0 (Some 20)
     = Salsa20Core.salsa20Block (mkWordArray [1; 2; 3; 4; 5; 2; 7; 8] 32)
                                (CryptoJS.Hex_parse hex_nonce_8) 0 (Some 20).
Proof.
  destruct (X23_salsa20_key_words (CryptoJS.Hex_parse hex_nonce_8) 0 (Some 20))
    as [H1 H2].
  split.
  - apply (H1 [1; 2; 3; 4] 16%Q 32%Q). reflexivity.
  - apply (H2 [1; 2; 3; 4; 5; 0; 7; 8] 32%Q 32%Q 1%nat); [lia|reflexivity|reflexivity].
Defined.

(** * ChaCha20: when the engine succeeds *)

Section ChaChaFacade.

Variable blk : list Z -> list Z -> Z -> list Z.

Definition chacha_inputs_valid (key : jsstring) (nonce : option jsstring) : bool :=
  chacha_validateKey key && truthy nonce && chacha_validateNonce (default [] nonce).

Lemma chacha_encrypt_cases params :
  exists op,
    chacha_encrypt blk params = Ok op
    /\ success op = chacha_inputs_valid (enc_key params) (enc_nonce params)
    /\ (success op = false ->
        op = op_failure (if chacha_validateKey (enc_key params)
                         then chacha_invalid_nonce else chacha_invalid_key)).
Proof.
  unfold chacha_encrypt, chacha_encrypt_body, chacha_inputs_valid.
  destruct (chacha_validateKey (enc_key params)); cbn [negb andb].
  - destruct (truthy (enc_nonce params)); cbn [negb orb andb].
    + destruct (chacha_validateNonce (default [] (enc_nonce params))); cbn [negb];
        eexists; (split; [reflexivity|]); split; try reflexivity; discriminate.
    + eexists. split; [reflexivity|]. split; reflexivity.
  - eexists. split; [reflexivity|]. split; reflexivity.
Qed.

Lemma chacha_decrypt_cases params :
  exists op,
    chacha_decrypt blk params = Ok op
    /\ success op = chacha_inputs_valid (dec_key params) (dec_nonce params)
                    && CryptoUtils.isValidHex (ciphertext params)
    /\ (success op = false ->
        op = op_failure
               (if negb (chacha_validateKey (dec_key params)) then chacha_invalid_key
                else if negb (truthy (dec_nonce params)
                              && chacha_validateNonce (default [] (dec_nonce params)))
                     then chacha_invalid_nonce
                     else js "Invalid ciphertext format. Must be valid hexadecimal.")).
Proof.
  unfold chacha_decrypt, chacha_decrypt_body, chacha_inputs_valid.
  destruct (chacha_validateKey (dec_key params)); cbn [negb andb].
  - destruct (truthy (dec_nonce params)); cbn [negb orb andb].
    + destruct (chacha_validateNonce (default [] (dec_nonce params))); cbn [negb andb].
      * destruct (CryptoUtils.isValidHex (ciphertext params)); cbn [negb];
          eexists; (split; [reflexivity|]); split; try reflexivity; discriminate.
      * eexists. split; [reflexivity|]. split; reflexivity.
    + eexists. split; [reflexivity|]. split; reflexivity.
  - eexists. split; [reflexivity|]. split; reflexivity.
Qed.

End ChaChaFacade.

(** X24: the ChaCha20 engine never throws, and it succeeds exactly on
    well-formed input, whatever the block function computes: [encrypt]
    succeeds if and only if the key is 64 hexadecimal digits and the nonce is
    given and is 24 hexadecimal digits, for every plaintext; [decrypt]
    succeeds if and only if, besides, the ciphertext passes [isValidHex].
    So [decrypt] cannot report a wrong key or a damaged ciphertext.  A
    failure carries the message of the first check that failed (key, nonce,
    ciphertext). *)
Theorem X24_chacha20_succeeds_on_well_formed_input blk :
  (forall params,
      exists op,
        ChaCha20Engine.encrypt_with blk params = Ok op
        /\ (success op = true
            <-> ChaCha20Engine.validateKey (enc_key params) = true
                /\ truthy (enc_nonce params) = true
                /\ ChaCha20Engine.validateNonce (default [] (enc_nonce params)) = true)
        /\ (success op = false ->
            op = op_failure (if ChaCha20Engine.validateKey (enc_key params)
                             then chacha_invalid_nonce else chacha_invalid_key)))
  /\ (forall params,
      exists op,
        ChaCha20Engine.decrypt_with blk params = Ok op
        /\ (success op = true
            <-> ChaCha20Engine.validateKey (dec_key params) = true
                /\ truthy (dec_nonce params) = true
                /\ ChaCha20Engine.validateNonce (default [] (dec_nonce params)) = true
                /\ CryptoUtils.isValidHex (ciphertext params) = true)
        /\ (success op = false ->
            op = op_failure
                   (if negb (ChaCha20Engine.validateKey (dec_key params))
                    then chacha_invalid_key
                    else if negb (truthy (dec_nonce params)
                                  && ChaCha20Engine.validateNonce
                                       (default [] (dec_nonce params)))
                         then chacha_invalid_nonce
                         else js "Invalid ciphertext format. Must be valid hexadecimal."))).
Proof.
  split; intros params.
  - destruct (chacha_encrypt_cases blk params) as (op & H1 & H2 & H3).
    exists op. split; [exact H1|]. split; [|exact H3].
    rewrite H2. unfold chacha_inputs_valid. rewrite !andb_true_iff.
    unfold ChaCha20Engine.validateKey, ChaCha20Engine.validateNonce. tauto.
  - destruct (chacha_decrypt_cases blk params) as (op & H1 & H2 & H3).
    exists op. split; [exact H1|]. split; [|exact H3].
    rewrite H2. unfold chacha_inputs_valid. rewrite !andb_true_iff.
    unfold ChaCha20Engine.validateKey, ChaCha20Engine.validateNonce. tauto.
Qed.

Lemma X24_chacha20_succeeds_on_well_formed_input_witness :
  (exists op,
      ChaCha20Engine.encrypt_with ChaCha20.chacha20Block
        (mkEncryptionParams (js "hello") hex_key_32 None (Some hex_nonce_8) None None)
      = Ok op
      /\ success op = false
      /\ op = op_failure chacha_invalid_nonce)
  /\ (exists op,
      ChaCha20Engine.decrypt_with ChaCha20.chacha20Block
        (mkDecryptionParams (js "xyz") hex_key_32 None (Some hex_nonce_12) None None)
      = Ok op
      /\ success op = false
      /\ op = op_failure (js "Invalid ciphertext format. Must be valid hexadecimal.")).
Proof.
  destruct (X24_chacha20_succeeds_on_well_formed_input ChaCha20.chacha20Block)
    as [He Hd].
  split.
  - destruct (He (mkEncryptionParams (js "hello") hex_key_32 None (Some hex_nonce_8)
                                     None None)) as (op & H1 & H2 & H3).
    exists op. split; [exact H1|].
    assert (Hs : success op = false).
    { destruct (success op); [|reflexivity].
      destruct (proj1 H2 eq_refl) as (_ & _ & Hn). discriminate Hn. }
    split; [exact Hs|]. exact (H3 Hs).
  - destruct (Hd (mkDecryptionParams (js "xyz") hex_key_32 None (Some hex_nonce_12)
                                     None None)) as (op & H1 & H2 & H3).
    exists op. split; [exact H1|].
    assert (Hs : success op = false).
    { destruct (success op); [|reflexivity].
      destruct (proj1 H2 eq_refl) as (_ & _ & _ & Hc). discriminate Hc. }
    split; [exact Hs|]. exact (H3 Hs).
Defined.

(** * The registry after a sequence of registrations *)

(** the last engine of [es] that declares the identifier [i] *)
Fixpoint last_registered (i : jsstring) (es : list CipherEngine) : option CipherEngine :=
  match es with
  | [] => None
  | e :: es' =>
      match last_registered i es' with
      | Some e' => Some e'
      | None => if decide (id (engine_metadata e) = i) then Some e else None
      end
  end.

Section RegistryInvariant.
Import CipherRegistry.

Lemma register_all_lookup i es st :
  getEngine i (register_all es st)
  = match last_registered i es with
    | Some e => Some e
    | None => getEngine i st
    end
  /\ getMetadata i (register_all es st)
     = match last_registered i es with
       | Some e => Some (engine_metadata e)
       | None => getMetadata i st
       end.
Proof.
  revert st. induction es as [|e es IH]; intros st; [now split|].
  cbn [register_all fold_left last_registered].
  destruct (IH (register e st)) as [IH1 IH2]. unfold register_all in IH1, IH2.
  rewrite IH1, IH2, getEngine_register, getMetadata_register.
  destruct (last_registered i es); [now split|].
  destruct (decide (id (engine_metadata e) = i)); now split.
Qed.

Lemma last_registered_Some i es e :
  last_registered i es = Some e -> In e es /\ id (engine_metadata e) = i.
Proof.
  induction es as [|x es IH]; [discriminate|].
  cbn [last_registered]. destruct (last_registered i es) as [e'|].
  - intros H. injection H as ->. destruct (IH eq_refl) as [Hin Hid].
    split; [now right|exact Hid].
  - destruct (decide (id (engine_metadata x) = i)) as [Hid|]; [|discriminate].
    intros H. injection H as <-. split; [now left|exact Hid].
Qed.

Lemma last_registered_None i es :
  last_registered i es = None <-> i ∉ registered_ids es.
Proof.
  induction es as [|x es IH]; cbn [last_registered registered_ids map].
  - split; [intros _; apply not_elem_of_nil|reflexivity].
  - rewrite not_elem_of_cons. fold (registered_ids es).
    destruct (last_registered i es) as [e'|].
    + split; [discriminate|]. intros [_ H]. now apply IH in H.
    + destruct (decide (id (engine_metadata x) = i)) as [Hid|Hid].
      * split; [discriminate|]. intros [H _]. congruence.
      * split; [|reflexivity]. intros _. split; [congruence|now apply IH].
Qed.

End RegistryInvariant.

(** X25: the registry after any sequence of [register] calls on the initial
    state.  [getEngine(id)] is the last engine registered whose metadata
    declares [id]; [getMetadata(id)] is the metadata of that same engine, so
    the two maps never disagree; [exists(id)] is true exactly for the
    identifiers that were registered; and the engine found under [id]
    declares [id]. *)
Theorem X25_registry_maps_stay_in_step es i :
  let st := CipherRegistry.register_all es CipherRegistry.initial in
  CipherRegistry.getEngine i st = last_registered i es
  /\ CipherRegistry.getMetadata i st = engine_metadata <$> CipherRegistry.getEngine i st
  /\ (CipherRegistry.exists_ i st = true <-> i ∈ registered_ids es)
  /\ (forall e, CipherRegistry.getEngine i st = Some e ->
                In e es /\ id (engine_metadata e) = i).
Proof.
  intros st.
  destruct (register_all_lookup i es CipherRegistry.initial) as [HE HM].
  fold st in HE, HM.
  assert (HE' : CipherRegistry.getEngine i st = last_registered i es).
  { rewrite HE. now destruct (last_registered i es). }
  split; [exact HE'|]. split; [|split].
  - rewrite HM, HE'. now destruct (last_registered i es).
  - unfold CipherRegistry.exists_.
    change (CipherRegistry.engines st !! i) with (CipherRegistry.getEngine i st).
    rewrite HE', bool_decide_eq_true.
    destruct (last_registered i es) as [e|] eqn:E.
    + split; [intros _|intros _; now eexists].
      destruct (decide (i ∈ registered_ids es)) as [|Hn]; [assumption|].
      apply last_registered_None in Hn. congruence.
    + split; [intros [x Hx]; discriminate|].
      intros Hin. now apply last_registered_None in E.
  - intros e He. rewrite HE' in He. now apply last_registered_Some.
Qed.

(** * The registry with its listing functions

    [getAllMetadata], [getByCategory] and [getAllIds] iterate over the two
    JavaScript [Map]s, whose order is the order of first insertion.  This
    section keeps that order: a [Map] is an association list, [set] replaces
    the value of a key in place or appends the new key at the end. *)

Module JSMap.
Section WithValue.

Context {V : Type}.

Definition t := list (list Z * V).

Fixpoint set (k : jsstring) (v : V) (m : t) : t :=
  match m with
  | [] => [(k, v)]
  | (k', v') :: rest =>
      if decide (k' = k) then (k, v) :: rest else (k', v') :: set k v rest
  end.

Fixpoint get (k : jsstring) (m : t) : option V :=
  match m with
  | [] => None
  | (k', v') :: rest => if decide (k' = k) then Some v' else get k rest
  end.

Definition has (k : jsstring) (m : t) : bool :=
  match get k m with Some _ => true | None => false end.

Definition keys (m : t) : list (list Z) := map fst m.
Definition values (m : t) : list V := map snd m.

End WithValue.
Arguments t : clear implicits.
End JSMap.

(** [CipherSearchEngine.initialize] (the search module), as far as the
    registry depends on it: whether it returns.  It creates a new index and
    calls [addCipher] for each cipher in turn. *)
Module CipherSearch.
Section Index.

(** FlexSearch's [new FlexSearch.Document(...)] with the options of the
    search module: the value it throws, if any *)
Variable index_new : option js_exn.

(** FlexSearch's [index.add(document)] on the index that received the
    documents of the ciphers [added] so far: the value it throws, if any *)
Variable index_add : list CipherMetadata -> CipherMetadata -> option js_exn.

(** the message of the [TypeError] of a spread of a value that is not
    iterable *)
Variable not_iterable : jsstring.

(** [...this.getAlternativeNames(cipher.id)], where [getAlternativeNames]
    returns [alternatives[cipherId] || []]: an array for the keys of the
    object literal and for unknown names; for the name of a property of
    [Object.prototype] it is that property, a function or an object, and the
    spread throws *)
Definition spread_alternatives_throws (cipherId : jsstring) : bool :=
  bool_decide (cipherId ∈ object_prototype_names).

(** [addCipher(cipher)]: the search terms are put together, then the
    document is added to the index *)
Definition addCipher (added : list CipherMetadata) (cipher : CipherMetadata)
  : outcome unit :=
  if spread_alternatives_throws (id cipher) then Throw (ErrorObj not_iterable)
  else match index_add added cipher with
       | Some e => Throw e
       | None => Ok tt
       end.

Fixpoint add_all (added cipherData : list CipherMetadata) : outcome unit :=
  match cipherData with
  | [] => Ok tt
  | cipher :: rest =>
      _ ← addCipher added cipher; add_all (added ++ [cipher]) rest
  end.

Definition initialize (cipherData : list CipherMetadata) : outcome unit :=
  match index_new with
  | Some e => Throw e
  | None => add_all [] cipherData
  end.

End Index.
End CipherSearch.

Module OrderedRegistry.

(** the static fields, and the arguments of the calls of
    [cipherSearch.initialize] made so far, the latest first, whether they
    returned or threw *)
Record state := mkState
  { engines : JSMap.t CipherEngine;
    metadata : JSMap.t CipherMetadata;
    initialized : bool;
    indexed : list (list CipherMetadata) }.

Definition initial : state := mkState [] [] false [].

Definition register (engine : CipherEngine) (st : state) : state :=
  mkState (JSMap.set (id (engine_metadata engine)) engine (engines st))
          (JSMap.set (id (engine_metadata engine)) (engine_metadata engine) (metadata st))
          (initialized st) (indexed st).

Definition getEngine (i : jsstring) (st : state) : option CipherEngine :=
  JSMap.get i (engines st).

Definition getMetadata (i : jsstring) (st : state) : option CipherMetadata :=
  JSMap.get i (metadata st).

Definition getAllMetadata (st : state) : list CipherMetadata :=
  JSMap.values (metadata st).

Definition getByCategory (c : jsstring) (st : state) : list CipherMetadata :=
  List.filter (fun cipher => str_eqb (category cipher) c) (getAllMetadata st).

Definition exists_ (i : jsstring) (st : state) : bool := JSMap.has i (engines st).

Definition getAllIds (st : state) : list (list Z) := JSMap.keys (engines st).

Definition register_all (es : list CipherEngine) (st : state) : state :=
  fold_left (fun st e => register e st) es st.

(** the calls that change the registry *)
Inductive call :=
| Register (engine : CipherEngine)
| InitializeSearch.

Section Search.

Variable index_new : option js_exn.
Variable index_add : list CipherMetadata -> CipherMetadata -> option js_exn.
Variable not_iterable : jsstring.

(** [initializeSearch()]: the state it leaves and whether it returns or
    throws.  [initialized] is set after [cipherSearch.initialize] has
    returned, so an exception of that call leaves it [false].  [search] and
    [getSuggestions] call [initializeSearch] before they query the index. *)
Definition initializeSearch (st : state) : state * outcome unit :=
  if initialized st then (st, Ok tt)
  else
    let cipherData := getAllMetadata st in
    match CipherSearch.initialize index_new index_add not_iterable cipherData with
    | Ok _ =>
        (mkState (engines st) (metadata st) true (cipherData :: indexed st), Ok tt)
    | Throw e =>
        (mkState (engines st) (metadata st) false (cipherData :: indexed st), Throw e)
    end.

(** the state after a call, whether it returned or threw *)
Definition step (st : state) (c : call) : state :=
  match c with
  | Register engine => register engine st
  | InitializeSearch => fst (initializeSearch st)
  end.

Definition run (calls : list call) (st : state) : state := fold_left step calls st.

End Search.

End OrderedRegistry.

(** the identifiers of a list in the order of their first occurrence *)
Definition first_occurrences (ids : list (list Z)) : list (list Z) :=
  fold_left (fun acc i => if decide (i ∈ acc) then acc else acc ++ [i]) ids [].

(** the calls before the first [initializeSearch], if there is one *)
Fixpoint before_first_init (calls : list OrderedRegistry.call)
  : option (list OrderedRegistry.call) :=
  match calls with
  | [] => None
  | OrderedRegistry.InitializeSearch :: _ => Some []
  | c :: rest => (fun pre => c :: pre) <$> before_first_init rest
  end.

Lemma omap_ext_elem {A B} (f g : A -> option B) (l : list A) :
  (forall x, x ∈ l -> f x = g x) -> omap f l = omap g l.
Proof.
  induction l as [|a l IH]; intros H; [reflexivity|].
  change (omap f (a :: l))
    with (match f a with Some y => y :: omap f l | None => omap f l end).
  change (omap g (a :: l))
    with (match g a with Some y => y :: omap g l | None => omap g l end).
  rewrite (H a) by (apply elem_of_cons; now left).
  rewrite IH; [reflexivity|]. intros x Hx. apply H. apply elem_of_cons. now right.
Qed.

Section JSMapLemmas.

Context {V : Type}.
Implicit Types (m : JSMap.t V) (k : list Z) (v : V).

Lemma jsmap_get_set k v m k' :
  JSMap.get k' (JSMap.set k v m) = if decide (k = k') then Some v else JSMap.get k' m.
Proof.
  induction m as [|[k0 v0] m IH]; cbn [JSMap.set JSMap.get].
  - destruct (decide (k = k')); reflexivity.
  - destruct (decide (k0 = k)) as [->|Hne]; cbn [JSMap.get].
    + destruct (decide (k = k')); reflexivity.
    + rewrite IH. destruct (decide (k0 = k')) as [->|]; [|reflexivity].
      destruct (decide (k = k')); [congruence|reflexivity].
Qed.

Lemma jsmap_keys_set k v m :
  JSMap.keys (JSMap.set k v m)
  = if decide (k ∈ JSMap.keys m) then JSMap.keys m else JSMap.keys m ++ [k].
Proof.
  unfold JSMap.keys. induction m as [|[k0 v0] m IH]; cbn [JSMap.set map fst].
  - destruct (decide (k ∈ [])) as [H|_]; [now apply elem_of_nil in H|reflexivity].
  - destruct (decide (k0 = k)) as [->|Hne]; cbn [map fst].
    + rewrite decide_True by (apply elem_of_cons; now left). reflexivity.
    + rewrite IH. destruct (decide (k ∈ map fst m)) as [Hin|Hnin].
      * rewrite decide_True by (apply elem_of_cons; now right). reflexivity.
      * rewrite decide_False; [reflexivity|].
        rewrite elem_of_cons. intros [->|H]; [congruence|contradiction].
Qed.

Lemma jsmap_get_None k m : JSMap.get k m = None <-> k ∉ JSMap.keys m.
Proof.
  unfold JSMap.keys. induction m as [|[k0 v0] m IH]; cbn [JSMap.get map fst].
  - split; [intros _; apply not_elem_of_nil|reflexivity].
  - rewrite not_elem_of_cons. destruct (decide (k0 = k)) as [->|Hne].
    + split; [discriminate|]. intros [H _]. congruence.
    + rewrite IH. split; [intros H; split; [congruence|exact H]|now intros [_ H]].
Qed.

(** the values in the order of the keys *)
Lemma jsmap_values_keys m :
  NoDup (JSMap.keys m) ->
  JSMap.values m = omap (fun k => JSMap.get k m) (JSMap.keys m).
Proof.
  unfold JSMap.keys, JSMap.values.
  induction m as [|[k0 v0] m IH]; intros Hnd; [reflexivity|].
  cbn [map fst snd]. apply NoDup_cons in Hnd as [Hk0 Hnd].
  change (omap ?f (k0 :: ?l))
    with (match f k0 with Some y => y :: omap f l | None => omap f l end).
  cbn [JSMap.get]. rewrite decide_True by reflexivity. f_equal.
  rewrite (IH Hnd). apply omap_ext_elem. intros k Hk.
  destruct (decide (k0 = k)) as [->|]; [contradiction|reflexivity].
Qed.

End JSMapLemmas.

Section OrderedRegistryLemmas.
Import OrderedRegistry.

Lemma first_occurrences_snoc ids i :
  first_occurrences (ids ++ [i])
  = if decide (i ∈ first_occurrences ids) then first_occurrences ids
    else first_occurrences ids ++ [i].
Proof. unfold first_occurrences. now rewrite fold_left_app. Qed.

Lemma register_all_snoc es e st :
  register_all (es ++ [e]) st = register e (register_all es st).
Proof. unfold register_all. now rewrite fold_left_app. Qed.

Lemma registered_ids_snoc es e :
  registered_ids (es ++ [e]) = registered_ids es ++ [id (engine_metadata e)].
Proof. unfold registered_ids. now rewrite map_app. Qed.

(** the two maps hold the same keys in the same order, and the metadata map
    holds the metadata of the engines *)
Lemma register_all_aligned es :
  let st := register_all es initial in
  metadata st = map (fun kv => (fst kv, engine_metadata (snd kv))) (engines st)
  /\ JSMap.keys (engines st) = first_occurrences (registered_ids es).
Proof.
  induction es as [|e es IH] using rev_ind; [now split|].
  cbv zeta in *. rewrite register_all_snoc, registered_ids_snoc, first_occurrences_snoc.
  destruct IH as [IHm IHk]. set (st := register_all es initial) in *.
  unfold register. cbn [engines metadata]. split.
  - rewrite IHm. generalize (engines st). intros m.
    induction m as [|[k0 e0] m IHm']; [reflexivity|].
    cbn [JSMap.set map fst snd].
    destruct (decide (k0 = id (engine_metadata e))); [reflexivity|].
    cbn [map fst snd]. now rewrite IHm'.
  - now rewrite jsmap_keys_set, IHk.
Qed.

Lemma first_occurrences_NoDup ids : NoDup (first_occurrences ids).
Proof.
  induction ids as [|i ids IH] using rev_ind; [constructor|].
  rewrite first_occurrences_snoc.
  destruct (decide (i ∈ first_occurrences ids)) as [|Hn]; [exact IH|].
  apply NoDup_app. split; [exact IH|]. split; [|apply NoDup_singleton].
  intros x Hx Hxi. apply list_elem_of_singleton in Hxi. subst. contradiction.
Qed.

Lemma first_occurrences_elem ids i : i ∈ first_occurrences ids <-> i ∈ ids.
Proof.
  induction ids as [|j ids IH] using rev_ind; [reflexivity|].
  rewrite first_occurrences_snoc, elem_of_app, list_elem_of_singleton.
  destruct (decide (j ∈ first_occurrences ids)) as [Hj|Hj].
  - rewrite IH. split; [now left|]. intros [H| ->]; [exact H|now apply IH].
  - rewrite elem_of_app, list_elem_of_singleton, IH. reflexivity.
Qed.

(** the lookups agree with the registry of the two unordered maps *)
Lemma ordered_lookup_agrees es i :
  getEngine i (register_all es initial)
  = CipherRegistry.getEngine i (CipherRegistry.register_all es CipherRegistry.initial)
  /\ getMetadata i (register_all es initial)
     = CipherRegistry.getMetadata i
         (CipherRegistry.register_all es CipherRegistry.initial).
Proof.
  induction es as [|e es [IH1 IH2]] using rev_ind; [now split|].
  rewrite register_all_snoc.
  unfold CipherRegistry.register_all in *. rewrite fold_left_app. cbn [fold_left].
  rewrite getEngine_register, getMetadata_register, <- IH1, <- IH2.
  unfold getEngine, getMetadata, register. cbn [engines metadata].
  now rewrite !jsmap_get_set.
Qed.

End OrderedRegistryLemmas.

Section SearchLemmas.
Import OrderedRegistry.

Variable index_new : option js_exn.
Variable index_add : list CipherMetadata -> CipherMetadata -> option js_exn.
Variable not_iterable : jsstring.

Local Abbreviation initialize := (CipherSearch.initialize index_new index_add not_iterable).
Local Abbreviation init_search := (initializeSearch index_new index_add not_iterable).
Local Abbreviation run' := (run index_new index_add not_iterable).

(** a call of [cipherSearch.initialize] that returned *)
Definition built (cipherData : list CipherMetadata) : Prop :=
  initialize cipherData = Ok tt.

Lemma run_snoc calls c st :
  run' (calls ++ [c]) st = step index_new index_add not_iterable (run' calls st) c.
Proof. unfold run. now rewrite fold_left_app. Qed.

Lemma run_app calls more st : run' (calls ++ more) st = run' more (run' calls st).
Proof. unfold run. now rewrite fold_left_app. Qed.

Lemma initializeSearch_initialized st :
  initialized st = true -> init_search st = (st, Ok tt).
Proof. intros H. unfold initializeSearch. now rewrite H. Qed.

Lemma initializeSearch_built st :
  initialized st = false -> built (getAllMetadata st) ->
  init_search st
  = (mkState (engines st) (metadata st) true (getAllMetadata st :: indexed st), Ok tt).
Proof. intros H Hb. unfold initializeSearch. rewrite H. cbv zeta. now rewrite Hb. Qed.

Lemma initializeSearch_throws st :
  initialized st = false -> ~ built (getAllMetadata st) ->
  exists e,
    init_search st
    = (mkState (engines st) (metadata st) false (getAllMetadata st :: indexed st),
       Throw e).
Proof.
  intros H Hb. unfold initializeSearch. rewrite H. cbv zeta. unfold built in Hb.
  destruct (initialize (getAllMetadata st)) as [[]|e]; [contradiction|now exists e].
Qed.

(** a cipher named like a property of [Object.prototype] stops the build *)
Lemma add_all_prototype_name added cipherData :
  Exists (fun cipher => id cipher ∈ object_prototype_names) cipherData ->
  CipherSearch.add_all index_add not_iterable added cipherData <> Ok tt.
Proof.
  intros H. revert added. induction H as [c rest Hc | c rest _ IH]; intros added.
  - cbn [CipherSearch.add_all]. unfold CipherSearch.addCipher,
      CipherSearch.spread_alternatives_throws.
    rewrite (bool_decide_eq_true_2 _ Hc). discriminate.
  - cbn [CipherSearch.add_all].
    destruct (CipherSearch.addCipher index_add not_iterable added c) as [[]|e];
      [apply IH|discriminate].
Qed.

Lemma initialize_prototype_name cipherData :
  Exists (fun cipher => id cipher ∈ object_prototype_names) cipherData ->
  ~ built cipherData.
Proof.
  intros H. unfold built, CipherSearch.initialize.
  destruct index_new; [discriminate|]. now apply add_all_prototype_name.
Qed.

(** after a build that returned nothing reaches the search index *)
Lemma run_initialized calls st :
  initialized st = true ->
  initialized (run' calls st) = true /\ indexed (run' calls st) = indexed st.
Proof.
  revert st. induction calls as [|c calls IH]; intros st Hi; [now split|].
  cbn [run fold_left]. destruct c as [e|]; cbn [step].
  - apply (IH (register e st)). exact Hi.
  - rewrite (initializeSearch_initialized st Hi). now apply IH.
Qed.

(** the calls before the first [initializeSearch] do not touch the search
    fields *)
Lemma before_first_init_Some calls pre :
  before_first_init calls = Some pre ->
  (exists post, calls = pre ++ InitializeSearch :: post)
  /\ (forall st, initialized (run' pre st) = initialized st
                 /\ indexed (run' pre st) = indexed st).
Proof.
  revert pre. induction calls as [|c calls IH]; intros pre H; [discriminate|].
  destruct c as [e|]; cbn [before_first_init] in H.
  - destruct (before_first_init calls) as [pre'|]; [|discriminate].
    injection H as <-. destruct (IH pre' eq_refl) as [[post ->] Hst].
    split; [now exists post|].
    intros st. cbn [run fold_left step]. apply (Hst (register e st)).
  - injection H as <-. split; [now exists calls|]. intros st. now split.
Qed.

Lemma before_first_init_None calls pre post :
  before_first_init calls = None -> calls <> pre ++ InitializeSearch :: post.
Proof.
  revert pre. induction calls as [|c calls IH]; intros pre H E.
  - now destruct pre.
  - destruct c as [e|]; cbn [before_first_init] in H; [|discriminate].
    destruct (before_first_init calls) eqn:Hb; [discriminate|].
    destruct pre as [|c' pre]; [discriminate|].
    injection E as _ E. now apply (IH pre).
Qed.

(** the calls of [cipherSearch.initialize] are never forgotten *)
Lemma run_indexed_suffix calls st :
  exists new, indexed (run' calls st) = new ++ indexed st.
Proof.
  revert st. induction calls as [|c calls IH]; intros st; [now exists []|].
  cbn [run fold_left]. destruct (IH (step index_new index_add not_iterable st c)) as [new Hn].
  unfold run in *. rewrite Hn. destruct c as [e|]; cbn [step].
  - now exists new.
  - unfold initializeSearch. destruct (initialized st); [now exists new|].
    cbv zeta. destruct (initialize (getAllMetadata st)) as [[]|e];
      cbn [fst indexed]; exists (new ++ [getAllMetadata st]);
      now rewrite <- app_assoc.
Qed.

Lemma classic_built cipherData : built cipherData \/ ~ built cipherData.
Proof.
  unfold built. destruct (initialize cipherData) as [[]|e]; [now left|].
  right. discriminate.
Qed.

(** what holds of the calls of [cipherSearch.initialize] after any sequence
    of calls *)
Lemma run_invariant calls :
  let st := run' calls initial in
  (initialized st = true -> exists d rest, indexed st = d :: rest /\ built d)
  /\ (initialized st = false -> Forall (fun d => ~ built d) (indexed st))
  /\ Forall (fun d => ~ built d) (tail (indexed st))
  /\ (forall d, In d (indexed st) ->
        exists pre post,
          calls = pre ++ InitializeSearch :: post
          /\ d = getAllMetadata (run' pre initial)).
Proof.
  induction calls as [|c calls IH] using rev_ind.
  - cbn. split; [discriminate|]. split; [constructor|]. split; [constructor|].
    intros d [].
  - cbv zeta in *. rewrite run_snoc. set (st := run' calls initial) in *.
    destruct IH as (IH1 & IH2 & IH3 & IH4).
    assert (IH4' : forall d, In d (indexed st) ->
              exists pre post,
                calls ++ [c] = pre ++ InitializeSearch :: post
                /\ d = getAllMetadata (run' pre initial)).
    { intros d Hd. destruct (IH4 d Hd) as (pre & post & -> & ->).
      exists pre, (post ++ [c]). split; [|reflexivity].
      now rewrite <- app_assoc. }
    destruct c as [e|]; cbn [step].
    + unfold register. cbn [initialized indexed]. auto.
    + destruct (initialized st) eqn:Hi.
      * rewrite (initializeSearch_initialized st Hi). cbn [fst]. rewrite Hi. auto.
      * assert (Hnew : forall d, In d (getAllMetadata st :: indexed st) ->
                  exists pre post,
                    calls ++ [InitializeSearch] = pre ++ InitializeSearch :: post
                    /\ d = getAllMetadata (run' pre initial)).
        { intros d [<- | Hd]; [|now apply IH4'].
          exists calls, []. split; reflexivity. }
        destruct (classic_built (getAllMetadata st)) as [Hb | Hb].
        -- rewrite (initializeSearch_built st Hi Hb). cbn [fst initialized indexed tail].
           split; [intros _; eauto|]. split; [discriminate|]. split; [now apply IH2|].
           exact Hnew.
        -- destruct (initializeSearch_throws st Hi Hb) as [e ->].
           cbn [fst initialized indexed tail].
           split; [discriminate|]. split; [intros _; constructor; [exact Hb|now apply IH2]|].
           split; [now apply IH2|]. exact Hnew.
Qed.

End SearchLemmas.

Lemma jsmap_values_In {V} (m : JSMap.t V) v :
  NoDup (JSMap.keys m) ->
  In v (JSMap.values m) <-> exists k, JSMap.get k m = Some v.
Proof.
  unfold JSMap.keys, JSMap.values.
  induction m as [|[k0 v0] m IH]; intros Hnd; cbn [map fst snd In JSMap.get].
  - split; [contradiction|intros [k H]; discriminate].
  - apply NoDup_cons in Hnd as [Hk0 Hnd]. rewrite (IH Hnd). split.
    + intros [->|[k Hk]].
      * exists k0. now rewrite decide_True.
      * exists k. destruct (decide (k0 = k)) as [->|]; [|exact Hk].
        exfalso. apply Hk0. apply (proj2 (jsmap_get_None k m)) in Hk0 as Hn.
        congruence.
    + intros [k Hk]. destruct (decide (k0 = k)) as [->|].
      * left. congruence.
      * right. now exists k.
Qed.

(** X26: the listing functions of the registry, after any sequence of
    [register] calls on the initial state.  [getAllIds] lists every
    registered identifier once, in the order of first registration
    (registering an identifier again does not move it); [getAllMetadata]
    lists, in that same order, the metadata that [getMetadata] returns for
    each identifier; [getByCategory(c)] holds exactly the current metadata
    whose category is [c].  On lookups, the ordered maps agree with the
    registry of the claims. *)
Theorem X26_registry_listing_order es :
  let st := OrderedRegistry.register_all es OrderedRegistry.initial in
  let st0 := CipherRegistry.register_all es CipherRegistry.initial in
  OrderedRegistry.getAllIds st = first_occurrences (registered_ids es)
  /\ NoDup (OrderedRegistry.getAllIds st)
  /\ OrderedRegistry.getAllMetadata st
     = omap (fun i => CipherRegistry.getMetadata i st0) (OrderedRegistry.getAllIds st)
  /\ length (OrderedRegistry.getAllMetadata st) = length (OrderedRegistry.getAllIds st)
  /\ (forall c m,
        In m (OrderedRegistry.getByCategory c st)
        <-> category m = c /\ CipherRegistry.getMetadata (id m) st0 = Some m)
  /\ (forall i,
        OrderedRegistry.getEngine i st = CipherRegistry.getEngine i st0
        /\ OrderedRegistry.getMetadata i st = CipherRegistry.getMetadata i st0
        /\ OrderedRegistry.exists_ i st = CipherRegistry.exists_ i st0).
Proof.
  intros st st0.
  destruct (register_all_aligned es) as [Hm Hk]. fold st in Hm, Hk.
  assert (Hkeys : JSMap.keys (OrderedRegistry.metadata st)
                  = JSMap.keys (OrderedRegistry.engines st)).
  { rewrite Hm. unfold JSMap.keys. rewrite map_map. reflexivity. }
  assert (Hnd : NoDup (JSMap.keys (OrderedRegistry.engines st)))
    by (rewrite Hk; apply first_occurrences_NoDup).
  assert (Hagree : forall i,
             OrderedRegistry.getEngine i st = CipherRegistry.getEngine i st0
             /\ OrderedRegistry.getMetadata i st = CipherRegistry.getMetadata i st0)
    by (intros i; apply ordered_lookup_agrees).
  assert (Hall : OrderedRegistry.getAllMetadata st
                 = omap (fun i => CipherRegistry.getMetadata i st0)
                        (OrderedRegistry.getAllIds st)).
  { unfold OrderedRegistry.getAllMetadata, OrderedRegistry.getAllIds.
    rewrite jsmap_values_keys by (rewrite Hkeys; exact Hnd). rewrite Hkeys.
    apply omap_ext_elem. intros i _. apply (Hagree i). }
  split; [exact Hk|]. split; [exact Hnd|]. split; [exact Hall|].
  split; [|split].
  - unfold OrderedRegistry.getAllMetadata, OrderedRegistry.getAllIds,
      JSMap.values, JSMap.keys.
    rewrite !length_map, Hm. now rewrite length_map.
  - intros c m. unfold OrderedRegistry.getByCategory.
    rewrite filter_In, str_eqb_eq.
    unfold OrderedRegistry.getAllMetadata.
    rewrite jsmap_values_In by (rewrite Hkeys; exact Hnd).
    split.
    + intros [[k Hget] Hc]. split; [exact Hc|].
      assert (Hk' : CipherRegistry.getMetadata k st0 = Some m)
        by (rewrite <- (proj2 (Hagree k)); exact Hget).
      destruct (register_all_lookup k es CipherRegistry.initial) as [_ HM].
      fold st0 in HM. rewrite HM in Hk'.
      destruct (last_registered k es) as [e|] eqn:E; [|discriminate].
      injection Hk' as <-.
      destruct (last_registered_Some k es e E) as [_ Hid]. rewrite Hid.
      exact HM.
    + intros [Hc Hget]. split; [|exact Hc].
      exists (id m). now rewrite <- (proj2 (Hagree (id m))) in Hget.
  - intros i. destruct (Hagree i) as [HE HM]. split; [exact HE|]. split; [exact HM|].
    unfold OrderedRegistry.exists_, JSMap.has, CipherRegistry.exists_.
    change (JSMap.get i (OrderedRegistry.engines st))
      with (OrderedRegistry.getEngine i st).
    change (CipherRegistry.engines st0 !! i) with (CipherRegistry.getEngine i st0).
    rewrite HE. destruct (CipherRegistry.getEngine i st0) as [e|].
    + symmetry. apply bool_decide_eq_true_2. now eexists.
    + symmetry. apply bool_decide_eq_false_2. intros [x Hx]. discriminate.
Qed.

(** X27: the search index is built at most once, by the first
    [cipherSearch.initialize] that returns.  [initializeSearch] sets
    [initialized] only after that call has returned.  After any sequence of
    [register] and [initializeSearch] calls ([search] and [getSuggestions]
    begin with the latter):
    - every call of [cipherSearch.initialize] received the metadata
      registered before one of the [initializeSearch] calls;
    - all of them threw, except possibly the latest, and [initialized] is
      true exactly when the latest returned;
    - from then on no call reaches the index: engines registered later never
      get into it;
    - a registered identifier that is the name of a property of
      [Object.prototype] (such as ['constructor']) makes
      [cipherSearch.initialize] throw, and then [initializeSearch] throws,
      leaves [initialized] false and tries again at the next call;
    - when no call of [cipherSearch.initialize] threw, it was called exactly
      once if [initializeSearch] was called at all, with the metadata
      registered before the first [initializeSearch]. *)
Theorem X27_search_index_built_once index_new index_add not_iterable calls :
  let initialize := CipherSearch.initialize index_new index_add not_iterable in
  let initializeSearch :=
    OrderedRegistry.initializeSearch index_new index_add not_iterable in
  let run := OrderedRegistry.run index_new index_add not_iterable in
  let st := run calls OrderedRegistry.initial in
  (forall d, In d (OrderedRegistry.indexed st) ->
     exists pre post,
       calls = pre ++ OrderedRegistry.InitializeSearch :: post
       /\ d = OrderedRegistry.getAllMetadata (run pre OrderedRegistry.initial))
  /\ Forall (fun d => initialize d <> Ok tt) (tail (OrderedRegistry.indexed st))
  /\ (OrderedRegistry.initialized st = true
      <-> exists d rest, OrderedRegistry.indexed st = d :: rest /\ initialize d = Ok tt)
  /\ (OrderedRegistry.initialized st = true ->
      forall more,
        OrderedRegistry.indexed (run more st) = OrderedRegistry.indexed st
        /\ OrderedRegistry.initialized (run more st) = true)
  /\ (forall st',
      OrderedRegistry.initialized st' = false ->
      Exists (fun cipher => id cipher ∈ object_prototype_names)
             (OrderedRegistry.getAllMetadata st') ->
      exists e,
        snd (initializeSearch st') = Throw e
        /\ OrderedRegistry.initialized (fst (initializeSearch st')) = false
        /\ OrderedRegistry.indexed (fst (initializeSearch st'))
           = OrderedRegistry.getAllMetadata st' :: OrderedRegistry.indexed st')
  /\ ((forall d, In d (OrderedRegistry.indexed st) -> initialize d = Ok tt) ->
      OrderedRegistry.indexed st
      = match before_first_init calls with
        | Some pre =>
            [OrderedRegistry.getAllMetadata (run pre OrderedRegistry.initial)]
        | None => []
        end
      /\ OrderedRegistry.initialized st
         = match before_first_init calls with Some _ => true | None => false end).
Proof.
  cbv zeta.
  destruct (run_invariant index_new index_add not_iterable calls) as (H1 & H2 & H3 & H4).
  cbv zeta in H1, H2, H3, H4.
  set (st := OrderedRegistry.run index_new index_add not_iterable calls OrderedRegistry.initial)
    in *.
  split; [exact H4|]. split; [exact H3|]. split; [|split; [|split]].
  - split; [exact H1|]. intros (d & rest & Hd & Hb).
    destruct (OrderedRegistry.initialized st) eqn:Hi; [reflexivity|].
    specialize (H2 eq_refl). rewrite Hd in H2.
    apply Forall_cons in H2 as [Hn _]. contradiction.
  - intros Hi more. destruct (run_initialized index_new index_add not_iterable more st Hi).
    now split.
  - intros st' Hi Hex.
    assert (Hb : ~ built index_new index_add not_iterable (OrderedRegistry.getAllMetadata st'))
      by (apply initialize_prototype_name; exact Hex).
    destruct (initializeSearch_throws index_new index_add not_iterable st' Hi Hb) as [e He].
    exists e. rewrite He. now split.
  - intros Hall. destruct (before_first_init calls) as [pre|] eqn:Hb.
    + destruct (before_first_init_Some index_new index_add not_iterable calls pre Hb)
        as [[post Hc] Hpre].
      destruct (Hpre OrderedRegistry.initial) as [Hi0 Hx0].
      cbn [OrderedRegistry.initial OrderedRegistry.initialized OrderedRegistry.indexed]
        in Hi0, Hx0.
      set (st0 := OrderedRegistry.run index_new index_add not_iterable pre OrderedRegistry.initial)
        in *.
      assert (Hst : st
                    = OrderedRegistry.run index_new index_add not_iterable post
                        (fst (OrderedRegistry.initializeSearch
                                index_new index_add not_iterable st0))).
      { unfold st, st0. rewrite Hc. now rewrite run_app. }
      clearbody st.
      destruct (classic_built index_new index_add not_iterable (OrderedRegistry.getAllMetadata st0))
        as [Hbuilt | Hthrows].
      * rewrite (initializeSearch_built index_new index_add not_iterable _ Hi0 Hbuilt) in Hst.
        cbn [fst] in Hst.
        destruct (run_initialized index_new index_add not_iterable post
                    (OrderedRegistry.mkState (OrderedRegistry.engines st0)
                       (OrderedRegistry.metadata st0) true
                       (OrderedRegistry.getAllMetadata st0 :: OrderedRegistry.indexed st0))
                    eq_refl) as [R1 R2].
        rewrite Hst, R1, R2.
        cbn [OrderedRegistry.indexed]. now rewrite Hx0.
      * exfalso. apply Hthrows. apply Hall.
        destruct (initializeSearch_throws index_new index_add not_iterable _ Hi0 Hthrows)
          as [e He].
        rewrite He in Hst. cbn [fst] in Hst.
        destruct (run_indexed_suffix index_new index_add not_iterable post
                    (OrderedRegistry.mkState (OrderedRegistry.engines st0)
                       (OrderedRegistry.metadata st0) false
                       (OrderedRegistry.getAllMetadata st0 :: OrderedRegistry.indexed st0)))
          as [new Hn].
        rewrite Hst, Hn. cbn [OrderedRegistry.indexed].
        apply in_or_app. right. now left.
    + assert (Hnil : OrderedRegistry.indexed st = []).
      { destruct (OrderedRegistry.indexed st) as [|d rest] eqn:Hd; [reflexivity|].
        destruct (H4 d (or_introl eq_refl)) as (pre & post & Hc & _).
        now apply (before_first_init_None calls pre post) in Hb. }
      split; [exact Hnil|].
      destruct (OrderedRegistry.initialized st) eqn:Hi; [|reflexivity].
      destruct (H1 eq_refl) as (d & rest & Hd & _). rewrite Hnil in Hd. discriminate.
Qed.

(** an engine registered under the name of a property of [Object.prototype] *)
Definition constructor_engine : CipherEngine :=
  mkCipherEngine
    (mkCipherMetadata (js "constructor") (js "Constructor") (js "symmetric")
       [] [] 0 0 [] false None false None)
    TeaEngine.encrypt TeaEngine.decrypt.

Lemma X27_search_index_built_once_witness :
  let index_new := @None js_exn in
  let index_add := fun (_ : list CipherMetadata) (_ : CipherMetadata) => @None js_exn in
  let st' :=
    OrderedRegistry.register constructor_engine
      (OrderedRegistry.register TeaEngine_instance OrderedRegistry.initial) in
  exists e,
    snd (OrderedRegistry.initializeSearch index_new index_add (js "not iterable") st') = Throw e
    /\ OrderedRegistry.initialized
         (fst (OrderedRegistry.initializeSearch index_new index_add (js "not iterable") st'))
       = false
    /\ OrderedRegistry.indexed
         (fst (OrderedRegistry.initializeSearch index_new index_add (js "not iterable") st'))
       = [[TeaEngine.metadata; engine_metadata constructor_engine]].
Proof.
  intros index_new index_add st'.
  destruct (X27_search_index_built_once index_new index_add (js "not iterable") [])
    as (_ & _ & _ & _ & H & _).
  apply (H st'); [reflexivity|].
  apply Exists_cons_tl, Exists_cons_hd. apply elem_of_cons. left. reflexivity.
Defined.

(** * The Twofish engine ([TwofishEngine] of [twofish.js])

    The engine validates its input and hands the work to [CryptoJS.AES],
    which stays abstract here; the [console.warn] of [encrypt] is left out. *)

Inductive aes_mode := AES_ECB | AES_CBC | AES_CFB | AES_OFB | AES_CTR.
Inductive aes_padding := Pkcs7_padding | NoPadding.

(** the option object given to [CryptoJS.AES.encrypt] and [decrypt] *)
Record aes_config := mkAesConfig
  { cfg_iv : option WordArray; cfg_mode : aes_mode; cfg_padding : aes_padding }.

(** the metadata of a Twofish result; [keyLength] is [None] when
    [getKeyLengthFromVariant] returned something that is not a number *)
Record TwofishMetadata := mkTwofishMetadata
  { tf_keyLength : option Z;
    tf_ivLength : option Z;
    tf_mode : jsstring;
    tf_variant : jsstring }.

Record TwofishOperation := mkTwofishOperation
  { tf_success : bool;
    tf_result : option jsstring;
    tf_error : option jsstring;
    tf_metadata : option TwofishMetadata }.

Definition tf_ok (r : jsstring) (m : TwofishMetadata) : TwofishOperation :=
  mkTwofishOperation true (Some r) None (Some m).

Definition tf_failure (msg : jsstring) : TwofishOperation :=
  mkTwofishOperation false None (Some msg) None.

Module TwofishEngine.
Section Engine.

(** [CryptoJS.AES.encrypt(message, key, cfg).toString()] and
    [CryptoJS.AES.decrypt(ciphertext, key, cfg)] *)
Variable AES_encrypt : jsstring -> WordArray -> aes_config -> outcome jsstring.
Variable AES_decrypt : jsstring -> WordArray -> aes_config -> outcome WordArray.

(** [CryptoJS.lib.WordArray.random] *)
Variable random : Z -> outcome WordArray.

Definition validateKey (key : jsstring) : bool :=
  let keyBytes := CryptoJS.Hex_parse key in
  Qeq_bool (sigBytes keyBytes) 16 || Qeq_bool (sigBytes keyBytes) 24
  || Qeq_bool (sigBytes keyBytes) 32.

Definition validateIV (iv : jsstring) : bool :=
  Qeq_bool (sigBytes (CryptoJS.Hex_parse iv)) 16.

(** [variantMap[variant] || 256]; as in Salsa20, the name of a property of
    [Object.prototype] finds that property, which is not a number *)
Definition getKeyLengthFromVariant (variant : jsstring) : option Z :=
  if str_eqb variant (js "twofish-128") then Some 128
  else if str_eqb variant (js "twofish-192") then Some 192
  else if str_eqb variant (js "twofish-256") then Some 256
  else if bool_decide (variant ∈ object_prototype_names) then None
  else Some 256.

(** the [metadata] of a successful result *)
Definition result_metadata (mode variant : jsstring) : TwofishMetadata :=
  mkTwofishMetadata (getKeyLengthFromVariant variant)
    (if negb (str_eqb mode (js "ECB")) then Some 16 else None) mode variant.

Definition unsupported_mode (mode : jsstring) : jsstring :=
  js "Unsupported mode: " ++ mode.

Definition iv_required (mode : jsstring) : jsstring :=
  js "IV is required for " ++ mode ++ js " mode".

Definition encrypt_body (params : EncryptionParams) : outcome TwofishOperation :=
  let plaintext := plaintext params in
  let key := enc_key params in
  let iv := enc_iv params in
  let mode := default (js "CBC") (enc_mode params) in
  let variant := default (js "twofish-256") (enc_variant params) in
  if is_empty plaintext || is_empty key then
    throw_Error (js "Plaintext and key are required")
  else if negb (validateKey key) then
    throw_Error (js "Invalid Twofish key. Must be 16, 24, or 32 bytes")
  else
    let keyBytes := CryptoJS.Hex_parse key in
    ivBytes ← (if truthy iv then Ok (CryptoJS.Hex_parse (default [] iv))
               else random 16);
    encrypted ←
      (if str_eqb mode (js "ECB") then
         AES_encrypt plaintext keyBytes (mkAesConfig None AES_ECB Pkcs7_padding)
       else if str_eqb mode (js "CBC") then
         AES_encrypt plaintext keyBytes (mkAesConfig (Some ivBytes) AES_CBC Pkcs7_padding)
       else if str_eqb mode (js "CFB") then
         AES_encrypt plaintext keyBytes (mkAesConfig (Some ivBytes) AES_CFB NoPadding)
       else if str_eqb mode (js "OFB") then
         AES_encrypt plaintext keyBytes (mkAesConfig (Some ivBytes) AES_OFB NoPadding)
       else if str_eqb mode (js "CTR") then
         AES_encrypt plaintext keyBytes (mkAesConfig (Some ivBytes) AES_CTR NoPadding)
       else throw_Error (unsupported_mode mode));
    Ok (tf_ok encrypted (result_metadata mode variant)).

Definition encrypt (params : EncryptionParams) : outcome TwofishOperation :=
  try_catch (encrypt_body params)
    (fun error => Ok (tf_failure (message_or error (js "Twofish encryption failed")))).

(** a [case] of the [switch] of [decrypt] for a mode that needs the IV *)
Definition decrypt_with_iv (ciphertext : jsstring) (keyBytes : WordArray)
    (ivBytes : option WordArray) (mode : jsstring) (m : aes_mode) (pad : aes_padding)
    : outcome WordArray :=
  match ivBytes with
  | None => throw_Error (iv_required mode)
  | Some iv => AES_decrypt ciphertext keyBytes (mkAesConfig (Some iv) m pad)
  end.

Definition decrypt_body (params : DecryptionParams) : outcome TwofishOperation :=
  let ciphertext := ciphertext params in
  let key := dec_key params in
  let iv := dec_iv params in
  let mode := default (js "CBC") (dec_mode params) in
  let variant := default (js "twofish-256") (dec_variant params) in
  if is_empty ciphertext || is_empty key then
    throw_Error (js "Ciphertext and key are required")
  else if negb (validateKey key) then
    throw_Error (js "Invalid Twofish key. Must be 16, 24, or 32 bytes")
  else
    let keyBytes := CryptoJS.Hex_parse key in
    let ivBytes := if truthy iv then Some (CryptoJS.Hex_parse (default [] iv))
                   else None in
    decrypted ←
      (if str_eqb mode (js "ECB") then
         AES_decrypt ciphertext keyBytes (mkAesConfig None AES_ECB Pkcs7_padding)
       else if str_eqb mode (js "CBC") then
         decrypt_with_iv ciphertext keyBytes ivBytes mode AES_CBC Pkcs7_padding
       else if str_eqb mode (js "CFB") then
         decrypt_with_iv ciphertext keyBytes ivBytes mode AES_CFB NoPadding
       else if str_eqb mode (js "OFB") then
         decrypt_with_iv ciphertext keyBytes ivBytes mode AES_OFB NoPadding
       else if str_eqb mode (js "CTR") then
         decrypt_with_iv ciphertext keyBytes ivBytes mode AES_CTR NoPadding
       else throw_Error (unsupported_mode mode));
    text ← CryptoJS.Utf8_stringify decrypted;
    Ok (tf_ok text (result_metadata mode variant)).

Definition decrypt (params : DecryptionParams) : outcome TwofishOperation :=
  try_catch (decrypt_body params)
    (fun error => Ok (tf_failure (message_or error (js "Twofish decryption failed")))).

End Engine.

Section Generators.

(** [CryptoJS.lib.WordArray.random(nBytes)] for a finite number [nBytes],
    whole or not *)
Variable random : Q -> outcome WordArray.

(** [generateKey(keySize = 256)]: [Math.ceil(keySize / 8)] random bytes *)
Definition generateKey (keySize : option Q) : outcome jsstring :=
  let keyBytes := inject_Z (ceil (default 256%Q keySize / 8)) in
  key ← random keyBytes; Ok (CryptoJS.Hex_stringify key).

Definition generateIV (ivSize : option Q) : outcome jsstring :=
  iv ← random (default 16%Q ivSize); Ok (CryptoJS.Hex_stringify iv).

End Generators.
End TwofishEngine.

(** * ChaCha20 and the byte order mark *)

Section ChaChaEngineBytes.

Variable blk : list Z -> list Z -> Z -> list Z.
Hypothesis blk_length : forall key nonce c, length (blk key nonce c) = 64%nat.
Hypothesis blk_bytes : forall key nonce c, Forall is_byte (blk key nonce c).

(** what [decrypt] returns on the result of [encrypt]: the decoding of the
    UTF-8 bytes of the plaintext *)
Lemma chacha_engine_decrypt_encrypt p bs key nonce iv mode variant :
  Forall Utf8RoundTrip.is_code_unit p ->
  Utf8Codec.encode_strict p = Ok bs ->
  chacha_validateKey key = true ->
  chacha_validateNonce nonce = true ->
  exists c,
    chacha_encrypt blk (mkEncryptionParams p key iv (Some nonce) mode variant)
    = Ok (op_success c chacha_metadata)
    /\ chacha_decrypt blk (mkDecryptionParams c key iv (Some nonce) mode variant)
       = Ok (op_success (Utf8Codec.TextDecoder_decode bs) chacha_metadata).
Proof.
  intros Hcu Henc Hk Hn.
  pose proof (Utf8RoundTrip.encode_strict_bytes p Hcu bs Henc) as Hb.
  pose proof (Utf8RoundTrip.TextEncoder_encode_strict p bs Henc) as Hte.
  set (K := hexToUint8Array key). set (N := hexToUint8Array nonce).
  set (ct := ChaCha20.encrypt blk bs K N).
  assert (Hct : Forall is_byte ct)
    by (apply chacha_encrypt_bytes; [apply blk_length|apply blk_bytes|exact Hb]).
  exists (hex_of_bytes ct). split.
  - unfold chacha_encrypt, chacha_encrypt_body.
    cbn [plaintext enc_key enc_nonce].
    change (default [] (Some nonce)) with nonce.
    rewrite Hk, Hn, (chacha_validateNonce_truthy nonce Hn), Hte.
    cbn [negb orb try_catch]. fold K N ct.
    now rewrite (uint8ArrayToHex_bytes ct Hct).
  - unfold chacha_decrypt, chacha_decrypt_body.
    cbn [ciphertext dec_key dec_nonce].
    change (default [] (Some nonce)) with nonce.
    rewrite Hk, Hn, (chacha_validateNonce_truthy nonce Hn).
    rewrite (isValidHex_hex_of_bytes ct Hct), (hexToUint8Array_hex_of_bytes ct Hct).
    cbn [negb orb try_catch]. fold K N. unfold ct.
    now rewrite (chacha_encrypt_involutive blk K N (blk_length K N) (blk_bytes K N) bs Hb).
Qed.

End ChaChaEngineBytes.

(** X28: the ChaCha20 engine drops a leading byte order mark.  [decrypt]
    decodes with a [TextDecoder], which removes one U+FEFF at the start: for
    a plaintext that starts with U+FEFF (and has no unpaired surrogate),
    [decrypt] of the result of [encrypt] returns the plaintext without its
    first character. *)
Theorem X28_chacha20_drops_leading_bom p bs key nonce iv mode variant :
  Forall Utf8RoundTrip.is_code_unit p ->
  Utf8Codec.encode_strict p = Ok bs ->
  ChaCha20Engine.validateKey key = true ->
  ChaCha20Engine.validateNonce nonce = true ->
  exists c,
    ChaCha20Engine.encrypt
      (mkEncryptionParams (0xFEFF :: p) key iv (Some nonce) mode variant)
    = Ok (op_success c chacha_metadata)
    /\ ChaCha20Engine.decrypt (mkDecryptionParams c key iv (Some nonce) mode variant)
       = Ok (op_success p chacha_metadata).
Proof.
  intros Hcu Henc Hk Hn.
  assert (Hcu' : Forall Utf8RoundTrip.is_code_unit (0xFEFF :: p))
    by (constructor; [unfold Utf8RoundTrip.is_code_unit; lia|exact Hcu]).
  assert (Henc' : Utf8Codec.encode_strict (0xFEFF :: p) = Ok ([0xEF; 0xBB; 0xBF] ++ bs)).
  { change (0xFEFF :: p) with ([0xFEFF] ++ p).
    apply Utf8RoundTrip.encode_strict_app; [exact Henc|reflexivity]. }
  destruct (chacha_engine_decrypt_encrypt ChaCha20.chacha20Block
              ChaCha20Final.chacha20Block_length chacha20Block_bytes
              (0xFEFF :: p) _ key nonce iv mode variant Hcu' Henc' Hk Hn)
    as (c & H1 & H2).
  exists c. split; [exact H1|].
  unfold ChaCha20Engine.decrypt, ChaCha20Engine.decrypt_with. rewrite H2. do 2 f_equal.
  change (Utf8Codec.TextDecoder_decode ([0xEF; 0xBB; 0xBF] ++ bs))
    with (Utf8Codec.decoder_run Utf8Codec.decoder_init bs).
  now apply Utf8RoundTrip.decoder_run_encode_strict.
Qed.

Lemma X28_chacha20_drops_leading_bom_witness :
  exists c,
    ChaCha20Engine.encrypt
      (mkEncryptionParams (0xFEFF :: js "hello") hex_key_32 None (Some hex_nonce_12)
                          None None)
    = Ok (op_success c chacha_metadata)
    /\ ChaCha20Engine.decrypt
         (mkDecryptionParams c hex_key_32 None (Some hex_nonce_12) None None)
       = Ok (op_success (js "hello") chacha_metadata).
Proof.
  apply (X28_chacha20_drops_leading_bom (js "hello") [104; 101; 108; 108; 111]
           hex_key_32 hex_nonce_12 None None None).
  - apply is_code_unit_check. reflexivity.
  - reflexivity.
  - reflexivity.
  - reflexivity.
Defined.

(** * The Twofish engine: modes, IV and keys *)

Section TwofishFacade.
Import TwofishEngine.

Variable AES_encrypt : jsstring -> WordArray -> aes_config -> outcome jsstring.
Variable AES_decrypt : jsstring -> WordArray -> aes_config -> outcome WordArray.

Lemma twofish_validateKey_length key :
  validateKey key = true
  <-> length key = 32%nat \/ length key = 48%nat \/ length key = 64%nat.
Proof.
  unfold validateKey. cbv zeta. rewrite sigBytes_Hex_parse, !orb_true_iff.
  rewrite (half_length_eq key 16), (half_length_eq key 24), (half_length_eq key 32). lia.
Qed.

Lemma twofish_validateKey_is_empty key : validateKey key = true -> is_empty key = false.
Proof.
  intros H. apply twofish_validateKey_length in H. destruct key; [cbn in H; lia|reflexivity].
Qed.

Lemma twofish_decrypt_invalid_key c key iv nonce mode variant :
  c <> [] -> key <> [] -> validateKey key = false ->
  decrypt AES_decrypt (mkDecryptionParams c key iv nonce mode variant)
  = Ok (tf_failure (js "Invalid Twofish key. Must be 16, 24, or 32 bytes")).
Proof.
  intros Hc Hk Hv. unfold decrypt, decrypt_body.
  cbn [ciphertext dec_key dec_iv dec_mode dec_variant].
  now rewrite (nonempty_is_empty c Hc), (nonempty_is_empty key Hk), Hv.
Qed.

Lemma twofish_encrypt_invalid_key random p key iv nonce mode variant :
  p <> [] -> key <> [] -> validateKey key = false ->
  encrypt AES_encrypt random (mkEncryptionParams p key iv nonce mode variant)
  = Ok (tf_failure (js "Invalid Twofish key. Must be 16, 24, or 32 bytes")).
Proof.
  intros Hc Hk Hv. unfold encrypt, encrypt_body.
  cbn [plaintext enc_key enc_iv enc_mode enc_variant].
  now rewrite (nonempty_is_empty p Hc), (nonempty_is_empty key Hk), Hv.
Qed.

Lemma twofish_decrypt_unsupported_mode c key iv nonce mode variant :
  c <> [] -> validateKey key = true ->
  ~ In (default (js "CBC") mode) [js "ECB"; js "CBC"; js "CFB"; js "OFB"; js "CTR"] ->
  decrypt AES_decrypt (mkDecryptionParams c key iv nonce mode variant)
  = Ok (tf_failure (unsupported_mode (default (js "CBC") mode))).
Proof.
  intros Hc Hk Hm. unfold decrypt, decrypt_body.
  cbn [ciphertext dec_key dec_iv dec_mode dec_variant].
  rewrite (nonempty_is_empty c Hc), (twofish_validateKey_is_empty key Hk), Hk.
  cbn [orb negb]. cbn [In] in Hm.
  rewrite !str_eqb_neq by (intros E; apply Hm; rewrite E; tauto).
  reflexivity.
Qed.

Lemma twofish_encrypt_unsupported_mode random p key iv nonce mode variant :
  p <> [] -> validateKey key = true ->
  (truthy iv = true \/ exists r, random 16 = Ok r) ->
  ~ In (default (js "CBC") mode) [js "ECB"; js "CBC"; js "CFB"; js "OFB"; js "CTR"] ->
  encrypt AES_encrypt random (mkEncryptionParams p key iv nonce mode variant)
  = Ok (tf_failure (unsupported_mode (default (js "CBC") mode))).
Proof.
  intros Hc Hk Hiv Hm. unfold encrypt, encrypt_body.
  cbn [plaintext enc_key enc_iv enc_mode enc_variant].
  rewrite (nonempty_is_empty p Hc), (twofish_validateKey_is_empty key Hk), Hk.
  cbn [orb negb]. cbn [In] in Hm.
  rewrite !str_eqb_neq by (intros E; apply Hm; rewrite E; tauto).
  destruct Hiv as [-> | [r Hr]]; [reflexivity|].
  destruct (truthy iv); [reflexivity|]. now rewrite Hr.
Qed.

Lemma twofish_decrypt_needs_iv c key iv nonce mode variant :
  c <> [] -> validateKey key = true -> truthy iv = false ->
  In (default (js "CBC") mode) [js "CBC"; js "CFB"; js "OFB"; js "CTR"] ->
  decrypt AES_decrypt (mkDecryptionParams c key iv nonce mode variant)
  = Ok (tf_failure (iv_required (default (js "CBC") mode))).
Proof.
  intros Hc Hk Hiv Hm. unfold decrypt, decrypt_body.
  cbn [ciphertext dec_key dec_iv dec_mode dec_variant].
  rewrite (nonempty_is_empty c Hc), (twofish_validateKey_is_empty key Hk), Hk, Hiv.
  cbn [orb negb]. cbn [In] in Hm.
  destruct Hm as [<- | [<- | [<- | [<- | []]]]]; reflexivity.
Qed.

Lemma twofish_encrypt_random_iv random p key iv nonce mode variant r :
  p <> [] -> validateKey key = true -> truthy iv = false -> random 16 = Ok r ->
  In (default (js "CBC") mode) [js "CBC"; js "CFB"; js "OFB"; js "CTR"] ->
  exists cfg,
    cfg_iv cfg = Some r
    /\ encrypt AES_encrypt random (mkEncryptionParams p key iv nonce mode variant)
       = match AES_encrypt p (CryptoJS.Hex_parse key) cfg with
         | Ok c =>
             Ok (tf_ok c (mkTwofishMetadata
                            (getKeyLengthFromVariant (default (js "twofish-256") variant))
                            (Some 16) (default (js "CBC") mode)
                            (default (js "twofish-256") variant)))
         | Throw e => Ok (tf_failure (message_or e (js "Twofish encryption failed")))
         end.
Proof.
  intros Hc Hk Hiv Hr Hm. unfold encrypt, encrypt_body.
  cbn [plaintext enc_key enc_iv enc_mode enc_variant].
  rewrite (nonempty_is_empty p Hc), (twofish_validateKey_is_empty key Hk), Hk, Hiv, Hr.
  cbn [orb negb]. cbn [In] in Hm. unfold result_metadata.
  unfold mbind at 1. unfold outcome_bind at 1. cbv beta iota.
  destruct Hm as [<- | [<- | [<- | [<- | []]]]];
    repeat match goal with
    | |- context [str_eqb (js ?a) (js ?b)] =>
        let v := eval vm_compute in (str_eqb (js a) (js b)) in
        change (str_eqb (js a) (js b)) with v
    end;
    cbv beta iota; cbn [negb];
    match goal with |- context [AES_encrypt ?a ?b ?c] =>
      exists c; split; [reflexivity|]; destruct (AES_encrypt a b c) as [x|e]
    end; reflexivity.
Qed.

End TwofishFacade.

Section TwofishGenerators.
Import TwofishEngine.

Variable random : Q -> outcome WordArray.
(** [WordArray.random(n)] returns a word array of [n] significant bytes *)
Hypothesis random_sigBytes : forall n r, random n = Ok r -> sigBytes r = n.

(** [Math.ceil(k / 8)] is [c] exactly when [8 (c - 1) < k <= 8 c] *)
Lemma ceil_eighth (k : Q) (c : Z) :
  ceil (k / 8) = c <-> (inject_Z (8 * (c - 1)) < k /\ k <= inject_Z (8 * c))%Q.
Proof.
  unfold ceil. rewrite Qceiling_eq_iff. destruct k as [a b].
  unfold Qlt, Qle, Qdiv, Qmult, Qinv, inject_Z. cbn [Qnum Qden].
  rewrite ?Pos2Z.inj_mul. lia.
Qed.

Lemma twofish_generateKey_valid keySize r :
  random (inject_Z (ceil (default 256%Q keySize / 8))) = Ok r ->
  exists key,
    generateKey random keySize = Ok key
    /\ (validateKey key = true
        <-> (120 < default 256 keySize /\ default 256 keySize <= 128)%Q
            \/ (184 < default 256 keySize /\ default 256 keySize <= 192)%Q
            \/ (248 < default 256 keySize /\ default 256 keySize <= 256)%Q).
Proof.
  intros H. unfold generateKey. cbv zeta. rewrite H.
  eexists. split; [reflexivity|].
  rewrite twofish_validateKey_length,
    (random_hex_length_any random random_sigBytes _ r H), loop_count_inject_Z.
  generalize (default 256%Q keySize). intros k.
  change (120 < k /\ k <= 128)%Q
    with (inject_Z (8 * (16 - 1)) < k /\ k <= inject_Z (8 * 16))%Q.
  change (184 < k /\ k <= 192)%Q
    with (inject_Z (8 * (24 - 1)) < k /\ k <= inject_Z (8 * 24))%Q.
  change (248 < k /\ k <= 256)%Q
    with (inject_Z (8 * (32 - 1)) < k /\ k <= inject_Z (8 * 32))%Q.
  rewrite <- !ceil_eighth. lia.
Qed.

Lemma twofish_generateIV_valid ivSize r :
  random (default 16%Q ivSize) = Ok r ->
  exists iv, generateIV random ivSize = Ok iv
             /\ (validateIV iv = true
                 <-> (15 < default 16 ivSize /\ default 16 ivSize <= 16)%Q).
Proof.
  intros H. unfold generateIV. rewrite H.
  eexists. split; [reflexivity|].
  unfold validateIV. rewrite sigBytes_Hex_parse, (half_length_eq _ 16).
  rewrite (random_hex_length_any random random_sigBytes _ r H).
  rewrite <- (loop_count_pos (default 16%Q ivSize) 16) by lia. lia.
Qed.

End TwofishGenerators.

(** X29: the Twofish engine, modes and IV.  With a non-empty text and a key
    that [validateKey] accepts, and no IV given: in the modes CBC (the
    default), CFB, OFB and CTR [decrypt] fails with ['IV is required for
    <mode> mode'] without calling AES, whereas [encrypt] draws a random IV of
    16 bytes, makes one AES call with it and returns the outcome of that
    call, in which the IV does not appear; a mode other than the five known
    ones makes both fail with ['Unsupported mode: <mode>']. *)
Theorem X29_twofish_decrypt_requires_iv
    AES_encrypt AES_decrypt random text key iv nonce mode variant r :
  text <> [] -> TwofishEngine.validateKey key = true ->
  truthy iv = false -> random 16 = Ok r ->
  (In (default (js "CBC") mode) [js "CBC"; js "CFB"; js "OFB"; js "CTR"] ->
   TwofishEngine.decrypt AES_decrypt (mkDecryptionParams text key iv nonce mode variant)
   = Ok (tf_failure (TwofishEngine.iv_required (default (js "CBC") mode)))
   /\ exists cfg,
       cfg_iv cfg = Some r
       /\ TwofishEngine.encrypt AES_encrypt random
            (mkEncryptionParams text key iv nonce mode variant)
          = match AES_encrypt text (CryptoJS.Hex_parse key) cfg with
            | Ok c =>
                Ok (tf_ok c (mkTwofishMetadata
                               (TwofishEngine.getKeyLengthFromVariant
                                  (default (js "twofish-256") variant))
                               (Some 16) (default (js "CBC") mode)
                               (default (js "twofish-256") variant)))
            | Throw e => Ok (tf_failure (message_or e (js "Twofish encryption failed")))
            end)
  /\ (~ In (default (js "CBC") mode) [js "ECB"; js "CBC"; js "CFB"; js "OFB"; js "CTR"] ->
      TwofishEngine.decrypt AES_decrypt (mkDecryptionParams text key iv nonce mode variant)
      = Ok (tf_failure (TwofishEngine.unsupported_mode (default (js "CBC") mode)))
      /\ TwofishEngine.encrypt AES_encrypt random
           (mkEncryptionParams text key iv nonce mode variant)
         = Ok (tf_failure (TwofishEngine.unsupported_mode (default (js "CBC") mode)))).
Proof.
  intros Ht Hk Hiv Hr. split; intros Hm; split.
  - now apply twofish_decrypt_needs_iv.
  - now apply twofish_encrypt_random_iv.
  - now apply twofish_decrypt_unsupported_mode.
  - apply twofish_encrypt_unsupported_mode; eauto.
Qed.

(** an AES stand-in that returns its input, for the examples *)
Definition echo_encrypt (m : jsstring) (k : WordArray) (c : aes_config) : outcome jsstring :=
  Ok m.
Definition echo_decrypt (m : jsstring) (k : WordArray) (c : aes_config) : outcome WordArray :=
  Ok (CryptoJS.Hex_parse m).

Lemma X29_twofish_decrypt_requires_iv_witness :
  TwofishEngine.decrypt echo_decrypt
    (mkDecryptionParams (js "00") hex_key_32 None None None None)
  = Ok (tf_failure (js "IV is required for CBC mode"))
  /\ TwofishEngine.decrypt echo_decrypt
       (mkDecryptionParams (js "00") hex_key_32 None None (Some (js "GCM")) None)
     = Ok (tf_failure (js "Unsupported mode: GCM"))
  /\ TwofishEngine.encrypt echo_encrypt zero_random
       (mkEncryptionParams (js "00") hex_key_32 None None (Some (js "GCM")) None)
     = Ok (tf_failure (js "Unsupported mode: GCM")).
Proof.
  assert (Ht : js "00" <> []) by discriminate.
  assert (Hk : TwofishEngine.validateKey hex_key_32 = true) by (vm_compute; reflexivity).
  split.
  - apply (X29_twofish_decrypt_requires_iv echo_encrypt echo_decrypt zero_random
             (js "00") hex_key_32 None None None None _ Ht Hk eq_refl eq_refl).
    left. reflexivity.
  - apply (X29_twofish_decrypt_requires_iv echo_encrypt echo_decrypt zero_random
             (js "00") hex_key_32 None None (Some (js "GCM")) None _ Ht Hk eq_refl eq_refl).
    cbn [In default]. change (Datatypes.id (js "GCM")) with (js "GCM").
    intros H. repeat (destruct H as [H|H]; [discriminate H|]). exact H.
Defined.

(** X30: the keys of the Twofish engine.  [validateKey] accepts exactly the
    strings of 32, 48 and 64 characters, and every other non-empty key makes
    [encrypt] and [decrypt] fail with ['Invalid Twofish key. Must be 16, 24,
    or 32 bytes'] before AES or the random source is used.  When
    [WordArray.random(n)] returns a word array of [n] significant bytes,
    [generateKey] with a key size [k] (any finite number, 256 when left out)
    returns a key that [validateKey] accepts exactly when
    [120 < k <= 128], [184 < k <= 192] or [248 < k <= 256], and [generateIV]
    with a size [n] (any finite number, 16 when left out) an IV that
    [validateIV] accepts exactly when [15 < n <= 16]. *)
Theorem X30_twofish_keys AES_encrypt AES_decrypt (random : Q -> outcome WordArray) :
  (forall n r, random n = Ok r -> sigBytes r = n) ->
  (forall key,
      TwofishEngine.validateKey key = true
      <-> length key = 32%nat \/ length key = 48%nat \/ length key = 64%nat)
  /\ (forall text key iv nonce mode variant,
      text <> [] -> key <> [] -> TwofishEngine.validateKey key = false ->
      TwofishEngine.encrypt AES_encrypt (fun n => random (inject_Z n))
        (mkEncryptionParams text key iv nonce mode variant)
      = Ok (tf_failure (js "Invalid Twofish key. Must be 16, 24, or 32 bytes"))
      /\ TwofishEngine.decrypt AES_decrypt
           (mkDecryptionParams text key iv nonce mode variant)
         = Ok (tf_failure (js "Invalid Twofish key. Must be 16, 24, or 32 bytes")))
  /\ (forall keySize r,
      random (inject_Z (ceil (default 256%Q keySize / 8))) = Ok r ->
      exists key,
        TwofishEngine.generateKey random keySize = Ok key
        /\ (TwofishEngine.validateKey key = true
            <-> (120 < default 256 keySize /\ default 256 keySize <= 128)%Q
                \/ (184 < default 256 keySize /\ default 256 keySize <= 192)%Q
                \/ (248 < default 256 keySize /\ default 256 keySize <= 256)%Q))
  /\ (forall ivSize r,
      random (default 16%Q ivSize) = Ok r ->
      exists iv, TwofishEngine.generateIV random ivSize = Ok iv
                 /\ (TwofishEngine.validateIV iv = true
                     <-> (15 < default 16 ivSize /\ default 16 ivSize <= 16)%Q)).
Proof.
  intros Hr. split; [|split; [|split]].
  - apply twofish_validateKey_length.
  - intros text key iv nonce mode variant Ht Hk Hv. split.
    + now apply twofish_encrypt_invalid_key.
    + now apply twofish_decrypt_invalid_key.
  - intros keySize r H. now apply (twofish_generateKey_valid random Hr keySize r).
  - intros ivSize r H. now apply (twofish_generateIV_valid random Hr ivSize r).
Qed.

Lemma X30_twofish_keys_witness :
  TwofishEngine.validateKey hex_key_16 = true
  /\ (exists key,
        TwofishEngine.generateKey zero_random_sized (Some 64%Q) = Ok key
        /\ TwofishEngine.validateKey key = false)
  /\ (exists iv,
        TwofishEngine.generateIV zero_random_sized (Some (31 # 2)) = Ok iv
        /\ TwofishEngine.validateIV iv = true).
Proof.
  destruct (X30_twofish_keys echo_encrypt echo_decrypt zero_random_sized)
    as (H1 & _ & H3 & H4).
  { intros n r H. unfold zero_random_sized in H. injection H as <-. reflexivity. }
  split; [|split].
  - apply H1. left. reflexivity.
  - destruct (H3 (Some 64%Q) _ eq_refl) as (key & Hg & Hv).
    exists key. split; [exact Hg|].
    destruct (TwofishEngine.validateKey key); [|reflexivity].
    exfalso. destruct Hv as [Hv _].
    destruct (Hv eq_refl) as [[Hlt _] | [[Hlt _] | [Hlt _]]];
      revert Hlt; vm_compute; discriminate.
  - destruct (H4 (Some (31 # 2)) _ eq_refl) as (iv & Hg & Hv).
    exists iv. split; [exact Hg|]. apply Hv. split; reflexivity || discriminate.
Defined.

(** * The keystream loops, as the engines run them *)










(** * Round trips through XTEA *)

(** C1 (failing input): XTEA with the plaintext "ABCDEFGH" (8 bytes), the key
    00 01 .. 0f and the IV 07 06 .. 00, whatever the random source.  In ECB
    mode [encrypt] returns the ciphertext a8cdcbd27a245190 and in CBC mode
    8808f23c87ec6ae6; [decrypt] of each with the same key, IV and mode does
    not return the plaintext: the bytes it computes are not the UTF-8 bytes
    of a string, and it returns the failure 'Malformed UTF-8 data'. *)
Theorem C1_xtea_round_trip_fails :
  forall random,
    XteaEngine.encrypt random
      (mkEncryptionParams (js "ABCDEFGH") hex_key_16 (Some hex_iv_8) None
                          (Some (js "ECB")) None)
    = Ok (op_success (js "a8cdcbd27a245190") (feistel_metadata (js "ECB") (js "xtea")))
    /\ XteaEngine.decrypt
         (mkDecryptionParams (js "a8cdcbd27a245190") hex_key_16 (Some hex_iv_8) None
                             (Some (js "ECB")) None)
       = Ok (op_failure (js "Malformed UTF-8 data"))
    /\ XteaEngine.encrypt random
         (mkEncryptionParams (js "ABCDEFGH") hex_key_16 (Some hex_iv_8) None
                             (Some (js "CBC")) None)
       = Ok (op_success (js "8808f23c87ec6ae6") (feistel_metadata (js "CBC") (js "xtea")))
    /\ XteaEngine.decrypt
         (mkDecryptionParams (js "8808f23c87ec6ae6") hex_key_16 (Some hex_iv_8) None
                             (Some (js "CBC")) None)
       = Ok (op_failure (js "Malformed UTF-8 data"))
    /\ (forall variant md,
          XteaEngine.decrypt
            (mkDecryptionParams (js "a8cdcbd27a245190") hex_key_16 (Some hex_iv_8) None
                                (Some (js "ECB")) variant)
          <> Ok (op_success (js "ABCDEFGH") md))
    /\ (forall variant md,
          XteaEngine.decrypt
            (mkDecryptionParams (js "8808f23c87ec6ae6") hex_key_16 (Some hex_iv_8) None
                                (Some (js "CBC")) variant)
          <> Ok (op_success (js "ABCDEFGH") md)).
Proof.
  intros random. vm_compute. repeat split; intros variant md; discriminate.
Qed.
